(** * XG-SAFL cryptographic core: a shallow embedding and its verification

    The development follows the four Python modules of [xg-safl/src/crypto]:

    - [utils.py]     hashing into a group and modular arithmetic
                     ([hash_to_group], [mod_pow], [_extended_gcd], [mod_inv],
                     [generate_safe_prime], [discrete_log_brute]);
    - [tjl.py]       Threshold Joye-Libert aggregation ([setup], [protect],
                     [aggregate], [share_protect], [share_combine]);
    - [encoding.py]  the adaptive precision codec ([adaptive_precision_map],
                     [quantize_value], [dequantize_value], [pack_vector],
                     [unpack_vector]);
    - [iss.py]       integer secret sharing ([_lagrange_basis], [share],
                     [reconstruct]).

    Python integers are unbounded and are modelled by [Z]; [//] and [%] are the
    floor division and modulus of [Z] (same sign convention), raising
    [ZeroDivisionError] on a zero divisor.  Python floats are IEEE-754
    binary64 values, modelled by [spec_float] with [prec = 53] and
    [emax = 1024].  Raised exceptions are values of an error monad.  The
    one recursive function, [_extended_gcd], runs under the interpreter's
    recursion limit: the number of nested calls still allowed is a
    parameter [limit] of it and of every function that reaches it, and
    going beyond it raises [RecursionError]. *)

From Stdlib Require Import ZArith List Lia Bool Znumtheory.
From Stdlib Require Import Permutation Sorted.
From Stdlib Require Import QArith Qabs Lqa.
From Stdlib Require Import Floats.SpecFloat.
From Stdlib Require Import Zcong.
From Stdlib Require Zmod.ZmodInv.
From Stdlib Require Strings.Byte Strings.String DecimalString DecimalZ DecimalPos.
Import ListNotations.

Local Open Scope Z_scope.

(* ================================================================== *)
(** * Part I: the embedding                                             *)
(* ================================================================== *)

(** ** Python run-time: exceptions and built-in integer operations *)

Module Py.

(** Every [raise] statement of the four modules, by message.  The
    formatted numbers of f-string messages are kept as arguments. *)
Inductive message : Type :=
| mod_must_be_positive                    (* utils.mod_pow *)
| mod_must_be_ge_2                        (* utils.mod_inv *)
| has_no_inverse (a m g : Z)              (* utils.mod_inv *)
| discrete_log_not_found (max_val : Z)    (* utils.discrete_log_brute *)
| ciphertexts_must_not_be_empty           (* tjl.aggregate *)
| need_at_least_shares (threshold got : Z) (* tjl.share_combine *)
| importance_must_not_be_empty            (* encoding.adaptive_precision_map *)
| k_ratio_out_of_range                    (* encoding.adaptive_precision_map *)
| bits_must_be_ge_1                       (* encoding.(de)quantize_value *)
| scale_must_be_non_zero                  (* encoding.(de)quantize_value *)
| lengths_differ (nv nb : Z)              (* encoding.pack_vector *)
| chunks_must_not_be_empty                (* encoding.unpack_vector *)
| bit_widths_must_not_be_empty            (* encoding.unpack_vector *)
| duplicate_x_coordinate (x : Z) (j m : Z) (* iss._lagrange_basis *)
| n_must_be_ge_1                          (* iss.share *)
| t_must_be_ge_1                          (* iss.share *)
| t_must_be_lt_n                          (* iss.share *)
| need_shares_for_threshold (needed t got : Z) (* iss.reconstruct *)
| negative_shift_count                    (* built-in [<<] and [>>] *)
| pow_third_argument_zero                 (* built-in [pow] *)
| base_not_invertible                     (* built-in [pow] *)
| cannot_convert_nan.                     (* built-in [int], [round] *)

Inductive exn : Type :=
| ValueError (m : message)
| ZeroDivisionError
| IndexError
| OverflowError
| RecursionError.

Inductive result (A : Type) : Type :=
| Ok (a : A)
| Raise (e : exn).
Arguments Ok {A} a.
Arguments Raise {A} e.

Definition bind {A B : Type} (c : result A) (k : A -> result B) : result B :=
  match c with
  | Ok a => k a
  | Raise e => Raise e
  end.

(** [a % b] *)
Definition mod_ (a b : Z) : result Z :=
  if b =? 0 then Raise ZeroDivisionError else Ok (a mod b).

(** [a // b] *)
Definition floordiv (a b : Z) : result Z :=
  if b =? 0 then Raise ZeroDivisionError else Ok (a / b).

(** [a << k] *)
Definition shl (a k : Z) : result Z :=
  if k <? 0 then Raise (ValueError negative_shift_count)
  else Ok (Z.shiftl a k).

(** [a >> k] *)
Definition shr (a k : Z) : result Z :=
  if k <? 0 then Raise (ValueError negative_shift_count)
  else Ok (Z.shiftr a k).

(** [len(l)] *)
Definition len {A : Type} (l : list A) : Z := Z.of_nat (length l).

(** [l[:k]]: a negative bound counts from the end of the list. *)
Definition slice_to {A : Type} (l : list A) (k : Z) : list A :=
  if k <? 0 then firstn (Z.to_nat (len l + k)) l
  else firstn (Z.to_nat k) l.

(** [l[a:b]] for [0 <= a]. *)
Definition slice {A : Type} (l : list A) (a b : Z) : list A :=
  skipn (Z.to_nat a) (slice_to l b).

End Py.

Import Py.

Declare Scope py_scope.
Delimit Scope py_scope with py.
Notation "x <- c ;; k" := (Py.bind c (fun x => k))
  (at level 61, c at next level, right associativity) : py_scope.
Notation "' pat <- c ;; k" := (Py.bind c (fun x => match x with pat => k end))
  (at level 61, pat pattern, c at next level, right associativity) : py_scope.
Local Open Scope py_scope.

(** The failure kinds of the written specification (section 7), and the
    kind of each exception the modules raise themselves.  Exceptions of
    the interpreter ([ZeroDivisionError], [RecursionError], a negative
    shift count, ...) belong to none of them. *)
Inductive error_kind : Type :=
| InvalidArgument
| InsufficientData
| NonInvertible
| SearchExhaustion.

Definition kind_of (e : exn) : option error_kind :=
  match e with
  | ValueError m =>
      match m with
      | mod_must_be_positive | mod_must_be_ge_2
      | ciphertexts_must_not_be_empty
      | importance_must_not_be_empty | k_ratio_out_of_range
      | bits_must_be_ge_1 | scale_must_be_non_zero
      | lengths_differ _ _
      | chunks_must_not_be_empty | bit_widths_must_not_be_empty
      | duplicate_x_coordinate _ _ _
      | n_must_be_ge_1 | t_must_be_ge_1 | t_must_be_lt_n => Some InvalidArgument
      | need_at_least_shares _ _
      | need_shares_for_threshold _ _ _ => Some InsufficientData
      | has_no_inverse _ _ _ => Some NonInvertible
      | discrete_log_not_found _ => Some SearchExhaustion
      | negative_shift_count | pow_third_argument_zero
      | base_not_invertible | cannot_convert_nan => None
      end
  | ZeroDivisionError | IndexError | OverflowError | RecursionError => None
  end.

(** ** [utils.py] *)

Module Utils.

(** [_extended_gcd(a, b)].  The function calls itself once for every
    step of Euclid's algorithm, and the interpreter raises
    [RecursionError] when the call stack grows beyond its recursion
    limit.  [limit] is the number of nested calls of [_extended_gcd] that
    the interpreter still allows where the first call is made:
    [sys.getrecursionlimit()] (1000 by default) less the frames already in
    use there, those of the calling functions ([mod_inv], [mod_pow],
    ...) included.  Every function that reaches [_extended_gcd] takes
    this number and hands it on. *)
Fixpoint _extended_gcd (limit : nat) (a b : Z) : result (Z * Z * Z) :=
  match limit with
  | O => Raise RecursionError
  | S limit' =>
      if a =? 0 then Ok (b, 0, 1)
      else
        '(gcd, x1, y1) <- _extended_gcd limit' (b mod a) a ;;
        Ok (gcd, y1 - (b / a) * x1, x1)
  end.

(** [mod_inv(a, mod)] *)
Definition mod_inv (limit : nat) (a mod_ : Z) : result Z :=
  if mod_ <? 2 then Raise (ValueError mod_must_be_ge_2)
  else
    let a := a mod mod_ in
    '(gcd, x, _) <- _extended_gcd limit a mod_ ;;
    if negb (gcd =? 1) then Raise (ValueError (has_no_inverse a mod_ gcd))
    else Ok (x mod mod_).

(** The built-in three-argument [pow(base, exp, mod)]: a negative
    exponent inverts the base modulo [|mod|] first. *)
Definition pow3 (base exp mod_ : Z) : result Z :=
  if mod_ =? 0 then Raise (ValueError pow_third_argument_zero)
  else if exp <? 0 then
    if Z.abs mod_ =? 1 then Ok 0
    else if Z.gcd base mod_ =? 1
    then Ok ((Z.invmod base (Z.abs mod_) ^ (- exp)) mod mod_)
    else Raise (ValueError base_not_invertible)
  else Ok ((base ^ exp) mod mod_).

(** [mod_pow(base, exp, mod)] *)
Definition mod_pow (limit : nat) (base exp mod_ : Z) : result Z :=
  if mod_ <=? 0 then Raise (ValueError mod_must_be_positive)
  else
    '(base, exp) <-
      (if exp <? 0 then
         inv <- mod_inv limit base mod_ ;; Ok (inv, - exp)
       else Ok (base, exp)) ;;
    pow3 base exp mod_.

(** One [for] loop of [discrete_log_brute]: [n] iterations from
    exponent [x] with accumulator [acc]; [Some x] is the [return]
    inside the loop, [None] the loop running to its end. *)
Fixpoint dlog_scan (n : nat) (x acc target step modulus : Z) : option Z :=
  match n with
  | O => None
  | S n' =>
      if acc =? target then Some x
      else dlog_scan n' (x + 1) ((acc * step) mod modulus) target step modulus
  end.

(** [discrete_log_brute(target, base, modulus, max_val)] *)
Definition discrete_log_brute (limit : nat) (target base modulus max_val : Z)
  : result Z :=
  target <- Py.mod_ target modulus ;;
  match dlog_scan (Z.to_nat (max_val + 1)) 0 1 target base modulus with
  | Some x => Ok x
  | None =>
      inv_base <- mod_inv limit base modulus ;;
      match dlog_scan (Z.to_nat max_val) 1 inv_base target inv_base modulus with
      | Some x => Ok (- x)
      | None => Raise (ValueError (discrete_log_not_found max_val))
      end
  end.

Definition default_max_val : Z := 10000.

(** The constant [SAFE_PRIME_1024]. *)
Definition SAFE_PRIME_1024 : Z :=
  0xFFFFFFFFFFFFFFFFC90FDAA22168C234C4C6628B80DC1CD129024E088A67CC74020BBEA63B139B22514A08798E3404DDEF9519B3CD3A431B302B0A6DF25F14374FE1356D6D51C245E485B576625E7EC6F44C42E9A637ED6B0BFF5CB6F406B7EDEE386BFB5A899FA5AE9F24117C4B1FE649286651ECE65381FFFFFFFFFFFFFFFF.

(** [generate_safe_prime(bits)] *)
Definition generate_safe_prime (bits : Z) : Z := SAFE_PRIME_1024.

(** [int.from_bytes(bs, byteorder="big")] *)
Definition int_from_bytes (bs : list Byte.byte) : Z :=
  fold_left (fun acc b => acc * 256 + Z.of_N (Byte.to_N b)) bs 0.

(** The loop [for _ in range(7)] of [hash_to_group], with [k] iterations
    left.  The hash [hashlib.sha256(.).digest()] is the parameter [sha256]. *)
Fixpoint rehash (sha256 : list Byte.byte -> list Byte.byte) (k : nat)
  (digest : list Byte.byte) (parts : list (list Byte.byte))
  : list (list Byte.byte) :=
  match k with
  | O => parts
  | S k' =>
      let digest := sha256 digest in
      rehash sha256 k' digest (parts ++ [digest])
  end.

(** [hash_to_group(data, modulus)].  [None] is the function's own
    [ValueError("modulus must be >= 2")]; past that guard the modulus is
    not zero, so that [%] cannot raise. *)
Definition hash_to_group (sha256 : list Byte.byte -> list Byte.byte)
  (data : list Byte.byte) (modulus : Z) : option Z :=
  if modulus <? 2 then None
  else
    let digest := sha256 data in
    let parts := rehash sha256 7 digest [digest] in
    let combined := concat parts in
    Some (int_from_bytes combined mod modulus).

End Utils.

(** ** [tjl.py] *)

Module TJL.

(** The frozen dataclass [TJLParams]. *)
Record TJLParams : Type := {
  n : Z;          (* modulus *)
  n_squared : Z;  (* ciphertext-space modulus *)
  g : Z;          (* generator *)
  h : Z           (* hash-derived randomiser *)
}.

(** The loop [for x in xs: res = (res * x) % modulus], shared by
    [aggregate] and [share_combine]. *)
Fixpoint mul_loop (modulus res : Z) (xs : list Z) : result Z :=
  match xs with
  | [] => Ok res
  | x :: rest =>
      res <- Py.mod_ (res * x) modulus ;;
      mul_loop modulus res rest
  end.

(** [aggregate(params, ciphertexts)] *)
Definition aggregate (params : TJLParams) (ciphertexts : list Z) : result Z :=
  match ciphertexts with
  | [] => Raise (ValueError ciphertexts_must_not_be_empty)
  | _ => mul_loop (n_squared params) 1 ciphertexts
  end.

(** [share_combine(params, shares, threshold)] *)
Definition share_combine (limit : nat) (params : TJLParams) (shares : list Z)
  (threshold : Z) : result Z :=
  if Py.len shares <? threshold then
    Raise (ValueError (need_at_least_shares threshold (Py.len shares)))
  else
    combined <- mul_loop (n_squared params) 1 (Py.slice_to shares threshold) ;;
    numerator <- Py.mod_ (combined - 1) (n_squared params) ;;
    r <- Py.mod_ numerator (n params) ;;
    if negb (r =? 0) then
      Utils.discrete_log_brute limit combined (g params) (n_squared params)
        Utils.default_max_val
    else
      plaintext <- Py.floordiv numerator (n params) ;;
      Py.mod_ plaintext (n params).

(** The bytes [b"TJL-h-parameter"]. *)
Definition h_label : list Byte.byte :=
  [ Byte.x54; Byte.x4a; Byte.x4c; Byte.x2d; Byte.x68; Byte.x2d; Byte.x70;
    Byte.x61; Byte.x72; Byte.x61; Byte.x6d; Byte.x65; Byte.x74; Byte.x65;
    Byte.x72 ].

(** [setup(modulus_bits)].  [n_squared] is a positive constant, so that
    [(1 + n) % n_squared] cannot raise; [None] is the [ValueError] of
    [hash_to_group]. *)
Definition setup (sha256 : list Byte.byte -> list Byte.byte)
  (modulus_bits : Z) : option TJLParams :=
  let p := Utils.SAFE_PRIME_1024 in
  let n := p in
  let n_squared := n * n in
  let g := (1 + n) mod n_squared in
  match Utils.hash_to_group sha256 h_label n_squared with
  | None => None
  | Some h =>
      let h := if h =? 0 then 1 else h in
      Some {| n := n; n_squared := n_squared; g := g; h := h |}
  end.

(** [str(z).encode()] for a Python integer: its decimal digits, after a
    minus sign when negative. *)
Definition str (z : Z) : list Byte.byte :=
  String.list_byte_of_string
    (DecimalString.NilZero.string_of_int (Z.to_int z)).

(** [f"{client_id}||{round_num}".encode()] *)
Definition mask_input (client_id round_num : Z) : list Byte.byte :=
  str client_id ++ [Byte.x7c; Byte.x7c] ++ str round_num.

(** [protect(params, value, client_id, round_num)].  [None] is the
    [ValueError] of [hash_to_group]; the other exceptions are those of
    [mod_pow] and [%]. *)
Definition protect (sha256 : list Byte.byte -> list Byte.byte) (limit : nat)
  (params : TJLParams) (value client_id round_num : Z) : option (result Z) :=
  match Utils.hash_to_group sha256 (mask_input client_id round_num)
          (n_squared params) with
  | None => None
  | Some r =>
      Some (a <- Utils.mod_pow limit (g params) value (n_squared params) ;;
            b <- Utils.mod_pow limit (h params) r (n_squared params) ;;
            Py.mod_ (a * b) (n_squared params))
  end.

(** [share_protect(params, secret_key_share, aggregate_ct)] *)
Definition share_protect (limit : nat) (params : TJLParams)
  (secret_key_share aggregate_ct : Z) : result Z :=
  Utils.mod_pow limit aggregate_ct secret_key_share (n_squared params).

End TJL.

(** The product of a list of integers, for stating what the loops compute. *)
Definition product (xs : list Z) : Z := fold_right Z.mul 1 xs.


(** ** Python floats

    A Python [float] is an IEEE-754 binary64 number: a [spec_float] with
    53 bits of precision and [emax = 1024], arithmetic rounding to nearest,
    ties to even. *)

Module PyFloat.

Definition prec : Z := 53.
Definition emax : Z := 1024.

Definition mul : spec_float -> spec_float -> spec_float := SFmul prec emax.
Definition div : spec_float -> spec_float -> spec_float := SFdiv prec emax.

(** The number of bits [shr_fexp] shifts a mantissa [m] with exponent [e]
    to the right, to bring it to its canonical exponent. *)
Definition shift_of (m e : Z) : Z :=
  Z.max 0 (fexp prec emax (Zdigits2 m + e) - e).

Definition zero : spec_float := S754_zero false.
Definition one : spec_float := S754_finite false 4503599627370496 (-52).

(** The signed mantissa of a finite float [(-1)^s * m * 2^e]. *)
Definition signed (s : bool) (m : positive) : Z := cond_Zopp s (Zpos m).

(** The exact value of a finite float, as a rational number. *)
Definition scaled (m e : Z) : Q :=
  if 0 <=? e then inject_Z (m * 2 ^ e) else Qmake m (Z.to_pos (2 ^ (- e))).

Definition to_Q (f : spec_float) : option Q :=
  match f with
  | S754_zero _ => Some 0%Q
  | S754_finite s m e => Some (scaled (signed s m) e)
  | S754_infinity _ | S754_nan => None
  end.

(** [float(z)] for a Python integer [z] (correctly rounded). *)
Definition of_int (z : Z) : result spec_float :=
  match binary_normalize prec emax z 0 false with
  | S754_infinity _ => Raise OverflowError
  | f => Ok f
  end.

(** [a / b] for Python integers: the correctly rounded quotient. *)
Definition int_true_div (a b : Z) : result spec_float :=
  if b =? 0 then Raise ZeroDivisionError
  else
    match a with
    | Z0 => Ok (S754_zero (b <? 0))
    | _ =>
        match SFdiv prec emax
                (S754_finite (a <? 0) (Z.to_pos (Z.abs a)) 0)
                (S754_finite (b <? 0) (Z.to_pos (Z.abs b)) 0) with
        | S754_infinity _ => Raise OverflowError
        | f => Ok f
        end
    end.

(** The integer nearest to [m * 2^e], ties to the even one. *)
Definition round_half_even (m e : Z) : Z :=
  if 0 <=? e then m * 2 ^ e
  else
    let d := 2 ^ (- e) in
    let q := m / d in
    let r := m mod d in
    match 2 * r ?= d with
    | Lt => q
    | Gt => q + 1
    | Eq => if Z.even q then q else q + 1
    end.

(** [round(x)] with one argument. *)
Definition round (f : spec_float) : result Z :=
  match f with
  | S754_zero _ => Ok 0
  | S754_finite s m e => Ok (round_half_even (signed s m) e)
  | S754_infinity _ => Raise OverflowError
  | S754_nan => Raise (ValueError cannot_convert_nan)
  end.

(** [int(np.ceil(x))] *)
Definition ceil (f : spec_float) : result Z :=
  match f with
  | S754_zero _ => Ok 0
  | S754_finite s m e =>
      Ok (if 0 <=? e then signed s m * 2 ^ e
          else - ((- signed s m) / 2 ^ (- e)))
  | S754_infinity _ => Raise OverflowError
  | S754_nan => Raise (ValueError cannot_convert_nan)
  end.

(** Exact comparison of a float with a Python integer ([None] for NaN). *)
Definition compare_int (f : spec_float) (z : Z) : option comparison :=
  match f with
  | S754_nan => None
  | S754_infinity s => Some (if s then Lt else Gt)
  | S754_zero _ => Some (0 ?= z)
  | S754_finite s m e =>
      Some (if 0 <=? e then signed s m * 2 ^ e ?= z
            else signed s m ?= z * 2 ^ (- e))
  end.

(** [f < z] and [f > z] *)
Definition lt_int (f : spec_float) (z : Z) : bool :=
  match compare_int f z with Some Lt => true | _ => false end.

Definition gt_int (f : spec_float) (z : Z) : bool :=
  match compare_int f z with Some Gt => true | _ => false end.

End PyFloat.

(** ** [encoding.py]: packing *)

Module Encoding.

(** [np.array(xs, dtype=np.int64)] on a list of Python integers. *)
Definition int64_min : Z := - 2 ^ 63.
Definition int64_max : Z := 2 ^ 63 - 1.

Definition is_int64 (z : Z) : bool := (int64_min <=? z) && (z <=? int64_max).

Definition np_array_int64 (xs : list Z) : result (list Z) :=
  if forallb is_int64 xs then Ok xs else Raise OverflowError.

(** The first loop of [pack_vector], over [zip(values, bit_widths)],
    from the current [stream] and [total_bits]. *)
Fixpoint pack_stream (stream total_bits : Z) (vbs : list (Z * Z))
  : result (Z * Z) :=
  match vbs with
  | [] => Ok (stream, total_bits)
  | (v, bw) :: rest =>
      one <- Py.shl 1 bw ;;
      let mask := one - 1 in
      let encoded := Z.land v mask in
      shifted <- Py.shl stream bw ;;
      pack_stream (Z.lor shifted encoded) (total_bits + bw) rest
  end.

(** The second loop of [pack_vector]: [k] iterations are left, [chunks]
    holds the chunks appended so far. *)
Fixpoint pack_chunks (k : nat) (stream num_chunks chunk_bits chunk_mask : Z)
  (chunks : list Z) : result (list Z) :=
  match k with
  | O => Ok chunks
  | S k' =>
      let shift := (num_chunks - 1 - Py.len chunks) * chunk_bits in
      shifted <- Py.shr stream shift ;;
      let chunk := Z.land shifted chunk_mask in
      pack_chunks k' stream num_chunks chunk_bits chunk_mask (chunks ++ [chunk])
  end.

(** [pack_vector(values, bit_widths, chunk_bits)] *)
Definition pack_vector (values bit_widths : list Z) (chunk_bits : Z)
  : result (list Z) :=
  if negb (Py.len values =? Py.len bit_widths) then
    Raise (ValueError (lengths_differ (Py.len values) (Py.len bit_widths)))
  else
    '(stream, total_bits) <- pack_stream 0 0 (combine values bit_widths) ;;
    num_chunks <- Py.floordiv (total_bits + chunk_bits - 1) chunk_bits ;;
    let pad := num_chunks * chunk_bits - total_bits in
    stream <- Py.shl stream pad ;;
    one <- Py.shl 1 chunk_bits ;;
    let chunk_mask := one - 1 in
    pack_chunks (Z.to_nat num_chunks) stream num_chunks chunk_bits chunk_mask [].

(** The loop [for c in chunks: stream = (stream << chunk_bits) | int(c)]. *)
Fixpoint unpack_stream (stream chunk_bits : Z) (chunks : list Z) : result Z :=
  match chunks with
  | [] => Ok stream
  | c :: rest =>
      shifted <- Py.shl stream chunk_bits ;;
      unpack_stream (Z.lor shifted c) chunk_bits rest
  end.

(** The loop [for i in range(n - 1, -1, -1)] of [unpack_vector]: the
    indices [k - 1, ..., 0] are left, [res] holds the values appended so
    far. *)
Fixpoint unpack_values (k : nat) (stream : Z) (bit_widths res : list Z)
  : result (list Z) :=
  match k with
  | O => Ok res
  | S i =>
      match nth_error bit_widths i with
      | None => Raise IndexError
      | Some bw =>
          one <- Py.shl 1 bw ;;
          let mask := one - 1 in
          let encoded := Z.land stream mask in
          stream <- Py.shr stream bw ;;
          half <- Py.shl 1 (bw - 1) ;;
          encoded <-
            (if half <=? encoded then
               one <- Py.shl 1 bw ;; Ok (encoded - one)
             else Ok encoded) ;;
          unpack_values i stream bit_widths (res ++ [encoded])
      end
  end.

(** [sum(xs)] *)
Definition sum (xs : list Z) : Z := fold_left Z.add xs 0.

(** [unpack_vector(chunks, bit_widths, chunk_bits, length)] *)
Definition unpack_vector (chunks bit_widths : list Z) (chunk_bits length : Z)
  : result (list Z) :=
  match chunks with
  | [] => Raise (ValueError chunks_must_not_be_empty)
  | _ =>
      let n := if 0 <? length then length else Py.len bit_widths in
      if n =? 0 then Raise (ValueError bit_widths_must_not_be_empty)
      else
        stream <- unpack_stream 0 chunk_bits chunks ;;
        let total_packed := Py.len chunks * chunk_bits in
        let total_bits := sum (Py.slice_to bit_widths n) in
        let pad := total_packed - total_bits in
        stream <- Py.shr stream pad ;;
        res <- unpack_values (Z.to_nat n) stream bit_widths [] ;;
        np_array_int64 (rev res)
  end.

(** Two's-complement range of a [bw]-bit field. *)
Definition in_range (bw v : Z) : Prop :=
  1 <= bw /\ - 2 ^ (bw - 1) <= v <= 2 ^ (bw - 1) - 1.

(** The bit stream that [pack_stream] builds from the fields, as a number:
    each field contributes [v mod 2^bw] below the fields before it. *)
Definition add_field (s : Z) (vb : Z * Z) : Z :=
  s * 2 ^ snd vb + fst vb mod 2 ^ snd vb.

Definition stream_of (vbs : list (Z * Z)) : Z := fold_left add_field vbs 0.

(** The [k] low digits of [stream] in base [2^chunk_bits], most
    significant first. *)
Fixpoint digits (chunk_bits stream : Z) (k : nat) : list Z :=
  match k with
  | O => []
  | S k' =>
      Z.shiftr stream (Z.of_nat k' * chunk_bits) mod 2 ^ chunk_bits
      :: digits chunk_bits stream k'
  end.

(** *** Quantisation *)

(** A Python number that is an [int] or a [float]: [min] and [max]
    return one of their arguments unchanged. *)
Inductive number : Type :=
| Int (z : Z)
| Float (x : spec_float).

(** [min(a, x)] for an integer [a] and a float [x]: [x if x < a else a]. *)
Definition min_int_float (a : Z) (x : spec_float) : number :=
  if PyFloat.lt_int x a then Float x else Int a.

(** [max(a, c)] for an integer [a]: [c if c > a else a]. *)
Definition max_int_number (a : Z) (c : number) : number :=
  match c with
  | Int z => if a <? z then Int z else Int a
  | Float x => if PyFloat.gt_int x a then Float x else Int a
  end.

(** [int(round(c))] *)
Definition round_number (c : number) : result Z :=
  match c with
  | Int z => Ok z
  | Float x => PyFloat.round x
  end.

(** [quantize_value(value, bits, scale)] *)
Definition quantize_value (value : spec_float) (bits : Z) (scale : spec_float)
  : result Z :=
  if bits <? 1 then Raise (ValueError bits_must_be_ge_1)
  else if SFeqb scale PyFloat.zero then Raise (ValueError scale_must_be_non_zero)
  else
    hi <- Py.shl 1 (bits - 1) ;;
    let max_val := hi - 1 in
    lo <- Py.shl 1 (bits - 1) ;;
    let min_val := - lo in
    let scaled := PyFloat.div value scale in
    let clamped := max_int_number min_val (min_int_float max_val scaled) in
    round_number clamped.

(** [dequantize_value(value, bits, scale)] *)
Definition dequantize_value (value bits : Z) (scale : spec_float)
  : result spec_float :=
  if bits <? 1 then Raise (ValueError bits_must_be_ge_1)
  else if SFeqb scale PyFloat.zero then Raise (ValueError scale_must_be_non_zero)
  else
    x <- PyFloat.of_int value ;;
    Ok (PyFloat.mul x scale).

(** *** The precision map *)

(** Storing a Python integer in an [np.int32] array. *)
Definition int32_min : Z := - 2 ^ 31.
Definition int32_max : Z := 2 ^ 31 - 1.

Definition np_int32 (z : Z) : result Z :=
  if (int32_min <=? z) && (z <=? int32_max) then Ok z else Raise OverflowError.

(** [-np.abs(x)], the sort key of a feature. *)
Definition neg_abs (x : spec_float) : spec_float := SFopp (SFabs x).

(** The order in which NumPy sorts floats: ascending, NaN last. *)
Definition key_le (a b : spec_float) : bool :=
  match SFcompare a b with
  | Some Gt => false
  | Some _ => true
  | None => match b with S754_nan => true | _ => false end
  end.

(** What [np.argsort(keys)] returns: a permutation of the indices along
    which the keys are in sorting order.  The order among equal keys is
    not fixed by the (unstable) default sort. *)
Definition ranked_before (keys : list spec_float) (i j : nat) : Prop :=
  key_le (nth i keys S754_nan) (nth j keys S754_nan) = true.

Definition is_argsort (keys : list spec_float) (perm : list nat) : Prop :=
  Permutation perm (seq 0 (length keys)) /\
  StronglySorted (ranked_before keys) perm.

(** One admissible [argsort]: insertion sort, stable. *)
Fixpoint insert_index (keys : list spec_float) (i : nat) (sorted : list nat)
  : list nat :=
  match sorted with
  | [] => [i]
  | j :: rest =>
      if key_le (nth j keys S754_nan) (nth i keys S754_nan)
      then j :: insert_index keys i rest
      else i :: j :: rest
  end.

Definition stable_argsort (keys : list spec_float) : list nat :=
  fold_left (fun sorted i => insert_index keys i sorted)
    (seq 0 (length keys)) [].

(** [arr[i] = v] *)
Fixpoint set_nth (i : nat) (v : Z) (arr : list Z) : list Z :=
  match arr, i with
  | [], _ => []
  | _ :: rest, O => v :: rest
  | a :: rest, S i' => a :: set_nth i' v rest
  end.

(** [arr[idxs] = v] for an index array [idxs]. *)
Fixpoint assign (arr : list Z) (idxs : list nat) (v : Z) : result (list Z) :=
  match idxs with
  | [] => Ok arr
  | i :: rest =>
      if (i <? length arr)%nat then assign (set_nth i v arr) rest v
      else Raise IndexError
  end.

(** The float literal [0.3]. *)
Definition mid_ratio : spec_float := S754_finite false 5404319552844595 (-54).

(** [max(1, int(np.ceil(n * ratio)))] *)
Definition tier_count (n : Z) (ratio : spec_float) : result Z :=
  x <- PyFloat.of_int n ;;
  c <- PyFloat.ceil (PyFloat.mul x ratio) ;;
  Ok (Z.max 1 c).

(** [adaptive_precision_map(importance, k_ratio, high_bits, mid_bits,
    low_bits)], with the sorting routine [argsort] that NumPy supplies. *)
Definition adaptive_precision_map (argsort : list spec_float -> list nat)
  (importance : list spec_float) (k_ratio : spec_float)
  (high_bits mid_bits low_bits : Z) : result (list Z) :=
  match importance with
  | [] => Raise (ValueError importance_must_not_be_empty)
  | _ =>
      if negb (SFltb PyFloat.zero k_ratio && SFltb k_ratio PyFloat.one) then
        Raise (ValueError k_ratio_out_of_range)
      else
        let n := Py.len importance in
        let ranked_indices := argsort (map neg_abs importance) in
        top_count <- tier_count n k_ratio ;;
        mid_count <- tier_count n mid_ratio ;;
        low <- np_int32 low_bits ;;
        let bit_widths := repeat low (Z.to_nat n) in
        high <- np_int32 high_bits ;;
        bit_widths <-
          assign bit_widths (Py.slice_to ranked_indices top_count) high ;;
        let mid_end := Z.min (top_count + mid_count) n in
        mid <- np_int32 mid_bits ;;
        assign bit_widths (Py.slice ranked_indices top_count mid_end) mid
  end.

(** The tier of the feature ranked [r]-th. *)
Definition tier (top_count mid_count n : Z) (high_bits mid_bits low_bits : Z)
  (r : Z) : Z :=
  if r <? top_count then high_bits
  else if r <? top_count + Z.min mid_count (n - top_count) then mid_bits
  else low_bits.

(** The float literal [0.2], the default [k_ratio]. *)
Definition default_k_ratio : spec_float :=
  S754_finite false 7205759403792794 (-55).

(** The importance vector [[0.9, 0.1, 0.5, 0.05, 0.7]] of the documented
    example. *)
Definition example_importance : list spec_float :=
  [ S754_finite false 8106479329266893 (-53);
    S754_finite false 7205759403792794 (-56);
    S754_finite false 4503599627370496 (-53);
    S754_finite false 7205759403792794 (-57);
    S754_finite false 6305039478318694 (-53) ].

End Encoding.


(** ** [iss.py] *)

Module ISS.

(** [l[j]] on a list, with Python's negative indices. *)
Definition index {A : Type} (l : list A) (j : Z) : result A :=
  let i := if j <? 0 then Py.len l + j else j in
  if i <? 0 then Raise IndexError
  else match nth_error l (Z.to_nat i) with
       | Some x => Ok x
       | None => Raise IndexError
       end.

(** The loop of [_lagrange_basis] over [enumerate(shares)], from index [m]. *)
Fixpoint basis_loop (x_j j m num den : Z) (shares : list (Z * Z))
  : result (Z * Z) :=
  match shares with
  | [] => Ok (num, den)
  | (x_m, _) :: rest =>
      if m =? j then basis_loop x_j j (m + 1) num den rest
      else if x_m =? x_j then
        Raise (ValueError (duplicate_x_coordinate x_j j m))
      else basis_loop x_j j (m + 1) (num * - x_m) (den * (x_j - x_m)) rest
  end.

(** [_lagrange_basis(shares, j, prime)] *)
Definition _lagrange_basis (shares : list (Z * Z)) (j : Z) (prime : option Z)
  : result (Z * Z) :=
  '(x_j, _) <- index shares j ;;
  '(num, den) <- basis_loop x_j j 0 1 1 shares ;;
  match prime with
  | Some p =>
      num <- Py.mod_ num p ;;
      den <- Py.mod_ den p ;;
      Ok (num, den)
  | None => Ok (num, den)
  end.

(** The random source of [share]: the [k]-th coefficient is drawn as
    [secrets.randbelow(coeff_bound)] then [secrets.randbelow(2)]; a
    [draws] function gives the two results for each [k]. *)
Definition draws : Type := nat -> Z * Z.

Definition coeff_bound (secret : Z) : Z := Z.max (Z.abs secret) 1 * 2 ^ 64.

(** Draws that [secrets.randbelow] can return for [t] coefficients. *)
Definition valid_draws (secret : Z) (t : nat) (rnd : draws) : Prop :=
  forall k, (k < t)%nat ->
    0 <= fst (rnd k) < coeff_bound secret /\ 0 <= snd (rnd k) < 2.

Definition coefficient (rnd : draws) (k : nat) : Z :=
  let c := fst (rnd k) + 1 in
  if snd (rnd k) =? 0 then - c else c.

(** The inner loop of [share]: [y += a_k * xi; xi *= i]. *)
Fixpoint eval_loop (i y xi : Z) (coeffs : list Z) : Z :=
  match coeffs with
  | [] => y
  | a_k :: rest => eval_loop i (y + a_k * xi) (xi * i) rest
  end.

(** The outer loop of [share], over the points [i]. *)
Fixpoint share_points (coeffs : list Z) (prime : option Z) (points : list Z)
  : result (list (Z * Z)) :=
  match points with
  | [] => Ok []
  | i :: rest =>
      let y := eval_loop i 0 1 coeffs in
      y <- (match prime with
            | Some p => Py.mod_ y p
            | None => Ok y
            end) ;;
      shares <- share_points coeffs prime rest ;;
      Ok ((i, y) :: shares)
  end.

(** [range(a, b)] *)
Definition range (a b : Z) : list Z :=
  map (fun k => a + Z.of_nat k) (seq 0 (Z.to_nat (b - a))).

(** The coefficient list [coeffs] that [share] builds: [a_0 = secret]
    and [t] random coefficients. *)
Definition share_coeffs (rnd : draws) (secret t : Z) : list Z :=
  secret :: map (coefficient rnd) (seq 0 (Z.to_nat t)).

(** [share(secret, n, t, prime)] with the random draws [rnd]. *)
Definition share (rnd : draws) (secret n t : Z) (prime : option Z)
  : result (list (Z * Z)) :=
  if n <? 1 then Raise (ValueError n_must_be_ge_1)
  else if t <? 1 then Raise (ValueError t_must_be_ge_1)
  else if n <=? t then Raise (ValueError t_must_be_lt_n)
  else
    let coeffs := share_coeffs rnd secret t in
    share_points coeffs prime (range 1 (n + 1)).

(** The loop of the modular branch of [reconstruct], from index [j]. *)
Fixpoint reconstruct_mod_loop (subset : list (Z * Z)) (prime : Z)
  (j secret : Z) (rest : list (Z * Z)) : result Z :=
  match rest with
  | [] => Ok secret
  | (_, y_j) :: rest' =>
      '(num, den) <- _lagrange_basis subset j (Some prime) ;;
      den_inv <- Utils.pow3 den (prime - 2) prime ;;
      t1 <- Py.mod_ (y_j * num) prime ;;
      secret <- Py.mod_ (secret + t1 * den_inv) prime ;;
      reconstruct_mod_loop subset prime (j + 1) secret rest'
  end.

(** The first loop of the integer branch: the bases and their product. *)
Fixpoint bases_loop (subset : list (Z * Z)) (js : list Z)
  (bases : list (Z * Z)) (common_den : Z) : result (list (Z * Z) * Z) :=
  match js with
  | [] => Ok (bases, common_den)
  | j :: js' =>
      '(num_j, den_j) <- _lagrange_basis subset j None ;;
      bases_loop subset js' (bases ++ [(num_j, den_j)]) (common_den * den_j)
  end.

(** The second loop of the integer branch, from index [j]. *)
Fixpoint numerator_loop (bases : list (Z * Z)) (common_den : Z)
  (j numerator : Z) (rest : list (Z * Z)) : result Z :=
  match rest with
  | [] => Ok numerator
  | (_, y_j) :: rest' =>
      '(num_j, den_j) <- index bases j ;;
      q <- Py.floordiv common_den den_j ;;
      numerator_loop bases common_den (j + 1) (numerator + y_j * num_j * q) rest'
  end.

(** The two returns of the integer branch of [reconstruct]. *)
Inductive path : Type := ExactDivision | RoundingFallback.

(** [reconstruct(shares, t, prime)], with the branch that returned. *)
Definition reconstruct_path (shares : list (Z * Z)) (t : Z) (prime : option Z)
  : result (Z * option path) :=
  let needed := t + 1 in
  if Py.len shares <? needed then
    Raise (ValueError (need_shares_for_threshold needed t (Py.len shares)))
  else
    let subset := Py.slice_to shares needed in
    match prime with
    | Some p =>
        secret <- reconstruct_mod_loop subset p 0 0 subset ;;
        Ok (secret, None)
    | None =>
        '(bases, common_den) <-
          bases_loop subset (range 0 (Py.len subset)) [] 1 ;;
        numerator <- numerator_loop bases common_den 0 0 subset ;;
        r <- Py.mod_ numerator common_den ;;
        if negb (r =? 0) then
          q <- PyFloat.int_true_div numerator common_den ;;
          z <- PyFloat.round q ;;
          Ok (z, Some RoundingFallback)
        else
          z <- Py.floordiv numerator common_den ;;
          Ok (z, Some ExactDivision)
    end.

(** [reconstruct(shares, t, prime)] *)
Definition reconstruct (shares : list (Z * Z)) (t : Z) (prime : option Z)
  : result Z :=
  '(secret, _) <- reconstruct_path shares t prime ;; Ok secret.

(** Polynomials as coefficient lists, constant term first. *)
Fixpoint eval (coeffs : list Z) (x : Z) : Z :=
  match coeffs with
  | [] => 0
  | a :: rest => a + x * eval rest x
  end.

End ISS.


(** ** Vocabulary for Lagrange interpolation

    Polynomials are coefficient lists ([ISS.eval]); the definitions below
    name the quantities that the loops of [_lagrange_basis] and
    [reconstruct] compute. *)

Module Lagrange.

(** Coefficient-wise sum and scalar multiple. *)
Fixpoint padd (p q : list Z) : list Z :=
  match p, q with
  | [], _ => q
  | _, [] => p
  | a :: p', b :: q' => (a + b) :: padd p' q'
  end.

Definition pscale (c : Z) (p : list Z) : list Z := map (Z.mul c) p.

(** [F] is a polynomial function of degree below [N]. *)
Definition is_poly (N : nat) (F : Z -> Z) : Prop :=
  exists p, (length p <= N)%nat /\ forall x, F x = ISS.eval p x.

(** The product of [X - x] over the points [x] of [xs]. *)
Definition lin_prod (X : Z) (xs : list Z) : Z :=
  fold_right (fun x acc => (X - x) * acc) 1 xs.

(** The list without its [j]-th element. *)
Definition remove_nth {A : Type} (j : nat) (l : list A) : list A :=
  firstn j l ++ skipn (S j) l.

(** Sums and products of a function over a list of indices. *)
Definition sum_over (js : list nat) (F : nat -> Z) : Z :=
  fold_right (fun j acc => F j + acc) 0 js.

Definition prod_over (js : list nat) (F : nat -> Z) : Z :=
  fold_right (fun j acc => F j * acc) 1 js.

(** Numerator and denominator of the [j]-th Lagrange basis value at [0]
    over the points [xs], as integers. *)
Definition num_at (xs : list Z) (j : nat) : Z := lin_prod 0 (remove_nth j xs).

Definition den_at (xs : list Z) (j : nat) : Z :=
  lin_prod (nth j xs 0) (remove_nth j xs).

Definition common_den (xs : list Z) : Z :=
  prod_over (seq 0 (length xs)) (den_at xs).

Definition numerator (xs ys : list Z) : Z :=
  sum_over (seq 0 (length xs))
    (fun j => nth j ys 0 * num_at xs j * (common_den xs / den_at xs j)).

(** The term that the modular branch of [reconstruct] adds for index [j]:
    [y_j * num % prime * den_inv] with [den_inv = pow(den, prime - 2, prime)]. *)
Definition mod_term (p : Z) (xs ys : list Z) (j : nat) : Z :=
  ((nth j ys 0 * (num_at xs j mod p)) mod p)
  * ((den_at xs j mod p) ^ (p - 2) mod p).

End Lagrange.


(** ** Vocabulary for the statements *)

Module Vocabulary.

(** Euclid's algorithm as [_extended_gcd] runs it, without the
    interpreter: the triple that the recursion on [(b % a, a)] returns,
    and the number of nested calls it takes, the first one included.
    Two successive calls at least halve [|a|], so [2 * bits(|a|) + 1]
    rounds reach [a == 0]. *)
Definition bits (a : Z) : nat := Z.to_nat (Z.log2_up (Z.abs a + 1)).

Fixpoint euclid_rounds (rounds : nat) (a b : Z) : Z * Z * Z :=
  match rounds with
  | O => (b, 0, 1)
  | S rounds' =>
      if a =? 0 then (b, 0, 1)
      else
        let '(gcd, x1, y1) := euclid_rounds rounds' (b mod a) a in
        (gcd, y1 - (b / a) * x1, x1)
  end.

Definition euclid (a b : Z) : Z * Z * Z :=
  euclid_rounds (S (2 * bits a)) a b.

Fixpoint calls_rounds (rounds : nat) (a b : Z) : nat :=
  match rounds with
  | O => 1
  | S rounds' =>
      if a =? 0 then 1 else S (calls_rounds rounds' (b mod a) a)
  end.

Definition calls (a b : Z) : nat := calls_rounds (S (2 * bits a)) a b.

(** An upper bound of the number of rounds. *)
Definition depth (a b : Z) : nat :=
  if a =? 0 then 0%nat else S (bits a + bits (b mod a)).

(** The power [base^e] modulo [m] for an exponent of either sign, given
    an inverse [inv] of [base]. *)
Definition unit_power (base inv m e : Z) : Z :=
  if e <? 0 then inv ^ (- e) mod m else base ^ e mod m.

(** [sum(xs)] as a right fold, for stating what products of powers give. *)
Definition total (xs : list Z) : Z := fold_right Z.add 0 xs.

(** Parameters of the shape that [setup] builds: a modulus [n >= 2], its
    square, and the generator [(1 + n) mod n^2]. *)
Definition paillier (params : TJL.TJLParams) : Prop :=
  2 <= TJL.n params /\
  TJL.n_squared params = TJL.n params * TJL.n params /\
  TJL.g params = (1 + TJL.n params) mod TJL.n_squared params.

(** The value that the [bw]-bit two's-complement field of [v] decodes
    to: the representative of [v] modulo [2^bw] in
    [[-2^(bw-1), 2^(bw-1) - 1]]. *)
Definition wrap (bw v : Z) : Z :=
  (v + 2 ^ (bw - 1)) mod 2 ^ bw - 2 ^ (bw - 1).

(** The number whose digits in base [2^chunk_bits], most significant
    first, are [chunks]. *)
Definition undigits (chunk_bits : Z) (chunks : list Z) : Z :=
  fold_left (fun s c => s * 2 ^ chunk_bits + c) chunks 0.

(** The shares [(x, a*y1 + b*y2)] that share holders compute locally
    from two share lists over the same points. *)
Definition combine_shares (a b : Z) (shares1 shares2 : list (Z * Z))
  : list (Z * Z) :=
  map (fun ss => (fst (fst ss), a * snd (fst ss) + b * snd (snd ss)))
    (combine shares1 shares2).


(** The float [2^j], or [-2^j] when [negative]: the mantissa is
    [2^52]. *)
Definition power_of_two (negative : bool) (j : Z) : spec_float :=
  S754_finite negative 4503599627370496 (j - 52).


(** [fibonacci n] is the pair of the [n]-th and the next Fibonacci
    number, the input on which Euclid's algorithm is slowest. *)
Fixpoint fibonacci (n : nat) : Z * Z :=
  match n with
  | O => (0, 1)
  | S n' => let '(a, b) := fibonacci n' in (b, a + b)
  end.



End Vocabulary.


(* ================================================================== *)
(** * Part II: verification                                             *)
(* ================================================================== *)

(** ** Extended Euclid and the modular inverse *)

Section ExtendedGcd.

Import Utils Vocabulary.

Lemma bits_le (a b : Z) : Z.abs a <= Z.abs b -> (bits a <= bits b)%nat.
Proof.
  intros H. unfold bits. apply Z2Nat.inj_le.
  - apply Z.log2_up_nonneg.
  - apply Z.log2_up_nonneg.
  - apply Z.log2_up_le_mono. lia.
Qed.

Lemma bits_half (a b : Z) :
  2 * Z.abs a + 1 <= Z.abs b -> (S (bits a) <= bits b)%nat.
Proof.
  intros H. unfold bits.
  assert (Hlog : Z.log2_up (Z.abs a + 1) + 1 <= Z.log2_up (Z.abs b + 1)).
  { replace (Z.log2_up (Z.abs a + 1) + 1)
      with (Z.log2_up (2 ^ 1 * (Z.abs a + 1))).
    - apply Z.log2_up_le_mono. change (2 ^ 1) with 2. lia.
    - rewrite Z.mul_comm, Z.log2_up_mul_pow2 by lia. lia. }
  pose proof (Z.log2_up_nonneg (Z.abs a + 1)). lia.
Qed.

(** The remainder of [a] by a non-zero [r] of smaller magnitude and of
    the same sign is less than half of [a]. *)
Lemma mod_halves (a b : Z) :
  a <> 0 -> b mod a <> 0 ->
  2 * Z.abs (a mod (b mod a)) + 1 <= Z.abs a.
Proof.
  intros Ha Hr.
  pose proof (Z.div_mod a (b mod a) Hr) as Hdm.
  destruct (Z_lt_le_dec 0 a) as [Hpos | Hneg].
  - pose proof (Z.mod_pos_bound b a Hpos) as Hb.
    pose proof (Z.mod_pos_bound a (b mod a) ltac:(lia)) as Hb'.
    assert (1 <= a / (b mod a)) by (apply Z.div_le_lower_bound; lia).
    nia.
  - pose proof (Z.mod_neg_bound b a ltac:(lia)) as Hb.
    pose proof (Z.mod_neg_bound a (b mod a) ltac:(lia)) as Hb'.
    assert (1 <= a / (b mod a)).
    { rewrite <- Z.div_opp_opp by lia.
      apply Z.div_le_lower_bound; lia. }
    nia.
Qed.

Lemma mod_abs_lt (a b : Z) : a <> 0 -> Z.abs (b mod a) < Z.abs a.
Proof.
  intros Ha. destruct (Z_lt_le_dec 0 a).
  - pose proof (Z.mod_pos_bound b a ltac:(lia)). lia.
  - pose proof (Z.mod_neg_bound b a ltac:(lia)). lia.
Qed.

Lemma depth_step (a b : Z) :
  a <> 0 -> (S (depth (b mod a) a) <= depth a b)%nat.
Proof.
  intros Ha. unfold depth.
  destruct (Z.eqb_spec a 0) as [|_]; [contradiction|].
  destruct (Z.eqb_spec (b mod a) 0) as [|Hr]; [lia|].
  pose proof (bits_half _ _ (mod_halves a b Ha Hr)). lia.
Qed.

Lemma depth_bound (a b : Z) : (depth a b <= S (2 * bits a))%nat.
Proof.
  unfold depth. destruct (Z.eqb_spec a 0) as [|Ha]; [lia|].
  pose proof (bits_le (b mod a) a
                ltac:(pose proof (mod_abs_lt a b Ha); lia)).
  lia.
Qed.

Lemma euclid_rounds_stable (f f' : nat) (a b : Z) :
  (depth a b <= f)%nat -> (depth a b <= f')%nat ->
  euclid_rounds f a b = euclid_rounds f' a b.
Proof.
  revert f' a b. induction f as [|f IH]; intros f' a b Hf Hf'.
  - unfold depth in Hf. destruct (Z.eqb_spec a 0) as [->|]; [|lia].
    destruct f'; reflexivity.
  - destruct (Z.eqb_spec a 0) as [->|Ha].
    + destruct f'; reflexivity.
    + pose proof (depth_step a b Ha) as Hd.
      destruct f' as [|f'].
      * unfold depth in Hf'. destruct (Z.eqb_spec a 0); [contradiction|lia].
      * simpl. destruct (Z.eqb_spec a 0); [contradiction|].
        rewrite (IH f' (b mod a) a) by lia. reflexivity.
Qed.

Lemma calls_rounds_stable (f f' : nat) (a b : Z) :
  (depth a b <= f)%nat -> (depth a b <= f')%nat ->
  calls_rounds f a b = calls_rounds f' a b.
Proof.
  revert f' a b. induction f as [|f IH]; intros f' a b Hf Hf'.
  - unfold depth in Hf. destruct (Z.eqb_spec a 0) as [->|]; [|lia].
    destruct f'; reflexivity.
  - destruct (Z.eqb_spec a 0) as [->|Ha].
    + destruct f'; reflexivity.
    + pose proof (depth_step a b Ha) as Hd.
      destruct f' as [|f'].
      * unfold depth in Hf'. destruct (Z.eqb_spec a 0); [contradiction|lia].
      * simpl. destruct (Z.eqb_spec a 0); [contradiction|].
        rewrite (IH f' (b mod a) a) by lia. reflexivity.
Qed.

(** The recursive equation of the source function, for the triple it
    returns and for the number of calls it makes. *)
Lemma euclid_eq (a b : Z) :
  euclid a b =
  if a =? 0 then (b, 0, 1)
  else let '(gcd, x1, y1) := euclid (b mod a) a in
       (gcd, y1 - (b / a) * x1, x1).
Proof.
  unfold euclid. simpl euclid_rounds at 1.
  destruct (Z.eqb_spec a 0) as [->|Ha]; [reflexivity|].
  rewrite (euclid_rounds_stable (bits a + (bits a + 0))
             (S (2 * bits (b mod a))) (b mod a) a); [reflexivity| |].
  - pose proof (depth_step a b Ha). pose proof (depth_bound a b). lia.
  - pose proof (depth_bound (b mod a) a). lia.
Qed.

Lemma calls_eq (a b : Z) :
  calls a b = if a =? 0 then 1%nat else S (calls (b mod a) a).
Proof.
  unfold calls. simpl calls_rounds at 1.
  destruct (Z.eqb_spec a 0) as [->|Ha]; [reflexivity|].
  rewrite (calls_rounds_stable (bits a + (bits a + 0))
             (S (2 * bits (b mod a))) (b mod a) a); [reflexivity| |].
  - pose proof (depth_step a b Ha). pose proof (depth_bound a b). lia.
  - pose proof (depth_bound (b mod a) a). lia.
Qed.

Lemma calls_rounds_bound (f : nat) (a b : Z) :
  (1 <= calls_rounds f a b <= S f)%nat.
Proof.
  revert a b. induction f as [|f IH]; intros a b; cbn [calls_rounds].
  - lia.
  - destruct (a =? 0); [lia|]. specialize (IH (b mod a) a). lia.
Qed.

(** Two successive calls halve the first argument: the recursion makes
    at most [2 * bits(a) + 2] calls. *)
Lemma calls_bound (a b : Z) : (1 <= calls a b <= 2 * bits a + 2)%nat.
Proof.
  unfold calls. pose proof (calls_rounds_bound (S (2 * bits a)) a b). lia.
Qed.

(** [_extended_gcd] returns exactly when the interpreter allows the
    calls that the recursion makes. *)
Lemma _extended_gcd_returns (limit : nat) :
  forall a b,
    (calls a b <= limit)%nat -> _extended_gcd limit a b = Ok (euclid a b).
Proof.
  induction limit as [|limit IH]; intros a b Hc.
  - pose proof (calls_bound a b). lia.
  - cbn [_extended_gcd]. rewrite euclid_eq. rewrite calls_eq in Hc.
    destruct (Z.eqb_spec a 0) as [->|Ha]; [reflexivity|].
    rewrite IH by lia. cbn [Py.bind].
    destruct (euclid (b mod a) a) as [[g x1] y1]. reflexivity.
Qed.

Lemma _extended_gcd_overflows (limit : nat) :
  forall a b,
    (limit < calls a b)%nat -> _extended_gcd limit a b = Raise RecursionError.
Proof.
  induction limit as [|limit IH]; intros a b Hc; [reflexivity|].
  cbn [_extended_gcd]. rewrite calls_eq in Hc.
  destruct (Z.eqb_spec a 0) as [->|Ha]; [lia|].
  rewrite IH by lia. reflexivity.
Qed.

Lemma _extended_gcd_raises (limit : nat) :
  forall a b e, _extended_gcd limit a b = Raise e -> e = RecursionError.
Proof.
  induction limit as [|limit IH]; intros a b e H; cbn [_extended_gcd] in H.
  - congruence.
  - destruct (a =? 0); [discriminate|].
    destruct (_extended_gcd limit (b mod a) a) as [[[g x1] y1]|e'] eqn:E;
      cbn [Py.bind] in H; [discriminate|].
    apply IH in E. congruence.
Qed.

(** Bezout coefficients and the greatest common divisor. *)
Lemma euclid_spec (a b : Z) :
  0 <= a -> 0 <= b ->
  let '(g, x, y) := euclid a b in
  g = Z.gcd a b /\ a * x + b * y = g.
Proof.
  intros Ha. revert b. pattern a.
  apply (Zlt_0_ind); [|lia]. clear a Ha.
  intros a IH Ha b Hb. rewrite euclid_eq.
  destruct (Z.eqb_spec a 0) as [->|Hnz].
  - rewrite Z.gcd_0_l, Z.abs_eq by lia. lia.
  - pose proof (Z.mod_pos_bound b a ltac:(lia)) as Hr.
    specialize (IH (b mod a) ltac:(lia) a ltac:(lia)).
    destruct (euclid (b mod a) a) as [[g x1] y1].
    destruct IH as [Hg Hbz]. split.
    + rewrite Hg. apply Z.gcd_mod. lia.
    + pose proof (Z.div_mod b a Hnz). nia.
Qed.

Lemma mod_inv_coprime (limit : nat) (a m : Z) :
  2 <= m -> Z.gcd a m = 1 -> (calls (a mod m) m <= limit)%nat ->
  exists inv,
    mod_inv limit a m = Ok inv /\ 0 <= inv < m /\ (a * inv) mod m = 1.
Proof.
  intros Hm Hg Hc. unfold mod_inv.
  destruct (Z.ltb_spec m 2); [lia|].
  pose proof (Z.mod_pos_bound a m ltac:(lia)) as Hr.
  cbv zeta. rewrite _extended_gcd_returns by exact Hc. cbn [Py.bind].
  pose proof (euclid_spec (a mod m) m ltac:(lia) ltac:(lia)) as Hs.
  destruct (euclid (a mod m) m) as [[g x] y].
  destruct Hs as [Hgcd Hbz].
  assert (Hg1 : g = 1).
  { rewrite Hgcd, Z.gcd_mod, Z.gcd_comm by lia. exact Hg. }
  subst g. rewrite Hg1 in *. cbn.
  exists (x mod m). split; [reflexivity|]. split.
  - apply Z.mod_pos_bound. lia.
  - rewrite Z.mul_mod_idemp_r by lia.
    rewrite <- Z.mul_mod_idemp_l by lia.
    replace (a mod m * x) with (1 + (- y) * m) by lia.
    rewrite Z.mod_add by lia. apply Z.mod_1_l. lia.
Qed.

Lemma mod_inv_not_coprime (limit : nat) (a m : Z) :
  2 <= m -> Z.gcd a m <> 1 -> (calls (a mod m) m <= limit)%nat ->
  mod_inv limit a m
  = Raise (ValueError (has_no_inverse (a mod m) m (Z.gcd a m))).
Proof.
  intros Hm Hg Hc. unfold mod_inv.
  destruct (Z.ltb_spec m 2); [lia|].
  pose proof (Z.mod_pos_bound a m ltac:(lia)) as Hr.
  cbv zeta. rewrite _extended_gcd_returns by exact Hc. cbn [Py.bind].
  pose proof (euclid_spec (a mod m) m ltac:(lia) ltac:(lia)) as Hs.
  destruct (euclid (a mod m) m) as [[g x] y].
  destruct Hs as [Hgcd _].
  assert (Hg1 : g = Z.gcd a m).
  { rewrite Hgcd, Z.gcd_mod, Z.gcd_comm by lia. reflexivity. }
  subst g. rewrite Hg1. destruct (Z.eqb_spec (Z.gcd a m) 1); [contradiction|].
  reflexivity.
Qed.

Lemma mod_inv_small_modulus (limit : nat) (a m : Z) :
  m < 2 -> mod_inv limit a m = Raise (ValueError mod_must_be_ge_2).
Proof.
  intros Hm. unfold mod_inv. destruct (Z.ltb_spec m 2); [reflexivity|lia].
Qed.

Lemma mod_inv_overflows (limit : nat) (a m : Z) :
  2 <= m -> (limit < calls (a mod m) m)%nat ->
  mod_inv limit a m = Raise RecursionError.
Proof.
  intros Hm Hc. unfold mod_inv.
  destruct (Z.ltb_spec m 2); [lia|].
  cbv zeta. rewrite _extended_gcd_overflows by exact Hc. reflexivity.
Qed.

(** The recursion of [mod_inv(a, m)] makes at most
    [2 * bits(m) + 2] calls. *)
Lemma mod_inv_calls (a m : Z) :
  2 <= m -> (calls (a mod m) m <= 2 * bits m + 2)%nat.
Proof.
  intros Hm. pose proof (calls_bound (a mod m) m).
  pose proof (Z.mod_pos_bound a m ltac:(lia)).
  pose proof (bits_le (a mod m) m ltac:(lia)). lia.
Qed.

End ExtendedGcd.

(** ** [mod_pow] *)

Lemma pow3_nonneg (base exp m : Z) :
  0 <= exp -> m <> 0 -> Utils.pow3 base exp m = Ok (base ^ exp mod m).
Proof.
  intros He Hm. unfold Utils.pow3.
  destruct (Z.eqb_spec m 0); [contradiction|].
  destruct (Z.ltb_spec exp 0); [lia|reflexivity].
Qed.

Lemma mod_pow_nonneg (limit : nat) (base exp m : Z) :
  1 <= m -> 0 <= exp -> Utils.mod_pow limit base exp m = Ok (base ^ exp mod m).
Proof.
  intros Hm He. unfold Utils.mod_pow.
  destruct (Z.leb_spec m 0); [lia|].
  destruct (Z.ltb_spec exp 0); [lia|]. cbn.
  apply pow3_nonneg; lia.
Qed.

Lemma mod_pow_negative (limit : nat) (base exp m inv : Z) :
  1 <= m -> exp < 0 -> Utils.mod_inv limit base m = Ok inv ->
  Utils.mod_pow limit base exp m = Ok (inv ^ (- exp) mod m).
Proof.
  intros Hm He Hinv. unfold Utils.mod_pow.
  destruct (Z.leb_spec m 0); [lia|].
  destruct (Z.ltb_spec exp 0); [|lia].
  rewrite Hinv. cbn. apply pow3_nonneg; lia.
Qed.

(** A negative exponent takes the exception of [mod_inv]. *)
Lemma mod_pow_negative_raises (limit : nat) (base exp m : Z) (e : exn) :
  1 <= m -> exp < 0 -> Utils.mod_inv limit base m = Raise e ->
  Utils.mod_pow limit base exp m = Raise e.
Proof.
  intros Hm He Hinv. unfold Utils.mod_pow.
  destruct (Z.leb_spec m 0); [lia|].
  destruct (Z.ltb_spec exp 0); [|lia].
  rewrite Hinv. reflexivity.
Qed.

(** C8 (amended): [mod_pow] fails with an invalid-argument error when
    [mod <= 0]; for [mod >= 1] and a non-negative exponent it returns
    [base^exp mod mod] (also for [mod = 1]); for a negative exponent it
    first computes the modular inverse of [base] and negates the
    exponent.  With [mod = 1] that fails with an invalid-argument error.
    With [mod >= 2] the recursion of [_extended_gcd] makes
    [calls(base % mod, mod) <= 2 * bits(mod) + 2] nested calls: when the
    interpreter allows them, [mod_pow] returns [inv^(-exp) mod mod]
    exactly when [gcd(base, mod) = 1] and fails with the
    non-invertibility error otherwise; when it does not, [mod_pow] raises
    [RecursionError]. *)
Theorem mod_pow_spec (limit : nat) (base exp m : Z) :
  (m <= 0 ->
   Utils.mod_pow limit base exp m = Raise (ValueError mod_must_be_positive) /\
   kind_of (ValueError mod_must_be_positive) = Some InvalidArgument) /\
  (1 <= m -> 0 <= exp ->
   Utils.mod_pow limit base exp m = Ok (base ^ exp mod m)) /\
  (m = 1 -> exp < 0 ->
   Utils.mod_pow limit base exp m = Raise (ValueError mod_must_be_ge_2) /\
   kind_of (ValueError mod_must_be_ge_2) = Some InvalidArgument) /\
  (2 <= m -> exp < 0 ->
   (Vocabulary.calls (base mod m) m <= 2 * Vocabulary.bits m + 2)%nat /\
   ((Vocabulary.calls (base mod m) m <= limit)%nat ->
    Z.gcd base m = 1 ->
    exists inv,
      Utils.mod_inv limit base m = Ok inv /\
      0 <= inv < m /\ (base * inv) mod m = 1 /\
      Utils.mod_pow limit base exp m = Ok (inv ^ (- exp) mod m)) /\
   ((Vocabulary.calls (base mod m) m <= limit)%nat ->
    Z.gcd base m <> 1 ->
    exists e, Utils.mod_pow limit base exp m = Raise e /\
              kind_of e = Some NonInvertible) /\
   ((limit < Vocabulary.calls (base mod m) m)%nat ->
    Utils.mod_pow limit base exp m = Raise RecursionError)).
Proof.
  split; [|split; [|split]].
  - intros Hm. split; [|reflexivity].
    unfold Utils.mod_pow. destruct (Z.leb_spec m 0); [reflexivity|lia].
  - intros Hm He. apply mod_pow_nonneg; assumption.
  - intros -> He. split; [|reflexivity].
    apply mod_pow_negative_raises; [lia|exact He|].
    apply mod_inv_small_modulus. lia.
  - intros Hm He. split; [apply mod_inv_calls; exact Hm|]. split; [|split].
    + intros Hc Hg.
      destruct (mod_inv_coprime limit base m Hm Hg Hc)
        as (inv & Hinv & Hrange & Hmul).
      exists inv. repeat split; try assumption; try lia.
      apply mod_pow_negative; [lia|exact He|exact Hinv].
    + intros Hc Hg.
      exists (ValueError (has_no_inverse (base mod m) m (Z.gcd base m))).
      split; [|reflexivity].
      apply mod_pow_negative_raises; [lia|exact He|].
      apply mod_inv_not_coprime; assumption.
    + intros Hc. apply mod_pow_negative_raises; [lia|exact He|].
      apply mod_inv_overflows; assumption.
Qed.

(** C8, as stated, fails: with [mod = 1] and a negative exponent
    [mod_pow] raises instead of returning a value, whatever the
    recursion limit. *)
Lemma mod_pow_mod_1_negative_exponent_raises :
  ~ (exists limit v, Utils.mod_pow limit 3 (-1) 1 = Ok v).
Proof.
  intros (limit & v & H).
  rewrite (mod_pow_negative_raises limit 3 (-1) 1
             (ValueError mod_must_be_ge_2)) in H;
    [discriminate H|lia|lia|].
  apply mod_inv_small_modulus. lia.
Qed.

Example mod_pow_3_m1_7 : Utils.mod_pow 3 3 (-1) 7 = Ok 5.
Proof. reflexivity. Qed.

Example mod_pow_3_m1_7_shallow :
  Utils.mod_pow 2 3 (-1) 7 = Raise RecursionError.
Proof. reflexivity. Qed.

Example mod_pow_2_m1_4 :
  Utils.mod_pow 3 2 (-1) 4 = Raise (ValueError (has_no_inverse 2 4 2)).
Proof. reflexivity. Qed.

(** Consecutive Fibonacci numbers: [_extended_gcd(F(1001), F(1002))]
    makes 1001 nested calls, one more than the default recursion limit
    allows at best, and so does [mod_inv(F(1001), F(1002))]. *)
Example extended_gcd_fibonacci_1001 :
  let '(a, b) := Vocabulary.fibonacci 1001 in
  Vocabulary.calls a b = 1001%nat /\
  Utils._extended_gcd 1000 a b = Raise RecursionError /\
  Utils.mod_inv 1000 a b = Raise RecursionError /\
  Utils.mod_pow 1000 a (-1) b = Raise RecursionError /\
  match Utils.mod_inv 1001 a b with
  | Ok inv => (a * inv) mod b = 1
  | Raise _ => False
  end.
Proof. vm_compute. repeat split. Qed.

(** ** The brute-force discrete logarithm *)

Section DlogScan.

Variables target step m : Z.
Hypothesis m_pos : 0 < m.

Lemma dlog_scan_found (n : nat) :
  forall (x acc : Z) (i : nat),
    (i < n)%nat ->
    acc mod m = acc ->
    (acc * step ^ Z.of_nat i) mod m = target ->
    (forall j, (j < i)%nat -> (acc * step ^ Z.of_nat j) mod m <> target) ->
    Utils.dlog_scan n x acc target step m = Some (x + Z.of_nat i).
Proof.
  induction n as [|n IH]; intros x acc i Hi Hacc Hhit Hfirst; [lia|].
  simpl. destruct i as [|i].
  - replace (acc * step ^ Z.of_nat 0) with acc in Hhit by (simpl; lia).
    rewrite Hacc in Hhit. subst target. rewrite Z.eqb_refl. f_equal. simpl. lia.
  - assert (Hne : acc <> target).
    { specialize (Hfirst 0%nat ltac:(lia)).
      replace (acc * step ^ Z.of_nat 0) with acc in Hfirst by (simpl; lia).
      rewrite Hacc in Hfirst. exact Hfirst. }
    destruct (Z.eqb_spec acc target); [contradiction|].
    rewrite (IH (x + 1) ((acc * step) mod m) i).
    + f_equal. lia.
    + lia.
    + apply Z.mod_mod. lia.
    + rewrite Z.mul_mod_idemp_l by lia. rewrite <- Hhit. f_equal.
      rewrite Nat2Z.inj_succ, Z.pow_succ_r by lia. ring.
    + intros j Hj. rewrite Z.mul_mod_idemp_l by lia.
      specialize (Hfirst (S j) ltac:(lia)).
      rewrite Nat2Z.inj_succ, Z.pow_succ_r in Hfirst by lia.
      replace (acc * step * step ^ Z.of_nat j)
        with (acc * (step * step ^ Z.of_nat j)) by ring.
      exact Hfirst.
Qed.

Lemma dlog_scan_none (n : nat) :
  forall (x acc : Z),
    acc mod m = acc ->
    (forall j, (j < n)%nat -> (acc * step ^ Z.of_nat j) mod m <> target) ->
    Utils.dlog_scan n x acc target step m = None.
Proof.
  induction n as [|n IH]; intros x acc Hacc Hmiss; [reflexivity|].
  simpl.
  assert (Hne : acc <> target).
  { specialize (Hmiss 0%nat ltac:(lia)).
    replace (acc * step ^ Z.of_nat 0) with acc in Hmiss by (simpl; lia).
    rewrite Hacc in Hmiss. exact Hmiss. }
  destruct (Z.eqb_spec acc target); [contradiction|].
  apply IH.
  - apply Z.mod_mod. lia.
  - intros j Hj. rewrite Z.mul_mod_idemp_l by lia.
    specialize (Hmiss (S j) ltac:(lia)).
    rewrite Nat2Z.inj_succ, Z.pow_succ_r in Hmiss by lia.
    replace (acc * step * step ^ Z.of_nat j)
      with (acc * (step * step ^ Z.of_nat j)) by ring.
    exact Hmiss.
Qed.

(** Whatever a scan returns is an exponent it has visited. *)
Lemma dlog_scan_some (n : nat) :
  forall (x acc r : Z),
    Utils.dlog_scan n x acc target step m = Some r ->
    x <= r < x + Z.of_nat n.
Proof.
  induction n as [|n IH]; intros x acc r H; [discriminate|].
  simpl in H. destruct (acc =? target).
  - inversion H. lia.
  - apply IH in H. lia.
Qed.

End DlogScan.

Section Powers.

Variables base inv m : Z.
Hypothesis m_ge_2 : 2 <= m.
Hypothesis inverse : (base * inv) mod m = 1.

Lemma pow_inverse (k : Z) : 0 <= k -> (inv ^ k * base ^ k) mod m = 1.
Proof.
  intros Hk. rewrite <- Z.pow_mul_l, (Z.mul_comm inv base).
  rewrite <- Z.mod_pow_l, inverse, Z.pow_1_l by lia.
  apply Z.mod_1_l. lia.
Qed.

Lemma pow_cancel (i j : Z) :
  0 <= i <= j -> base ^ i mod m = base ^ j mod m -> base ^ (j - i) mod m = 1.
Proof.
  intros Hij H.
  assert (E : (inv ^ i * base ^ j) mod m = 1).
  { rewrite <- Z.mul_mod_idemp_r, <- H, Z.mul_mod_idemp_r by lia.
    apply pow_inverse. lia. }
  replace j with (i + (j - i)) in E at 1 by lia.
  rewrite Z.pow_add_r, Z.mul_assoc in E by lia.
  rewrite <- Z.mul_mod_idemp_l, pow_inverse, Z.mul_1_l in E by lia.
  exact E.
Qed.

Lemma pow_meets_inverse (i j : Z) :
  0 <= i -> 0 <= j -> base ^ i mod m = inv ^ j mod m ->
  base ^ (i + j) mod m = 1.
Proof.
  intros Hi Hj H.
  rewrite Z.pow_add_r by lia.
  rewrite <- Z.mul_mod_idemp_l, H, Z.mul_mod_idemp_l by lia.
  apply pow_inverse. lia.
Qed.

End Powers.

Lemma inv_pow_cancel (base inv m i j : Z) :
  2 <= m -> (base * inv) mod m = 1 -> 0 <= i <= j ->
  inv ^ i mod m = inv ^ j mod m -> base ^ (j - i) mod m = 1.
Proof.
  intros Hm Hinv Hij H.
  assert (Hinv' : (inv * base) mod m = 1) by (rewrite Z.mul_comm; exact Hinv).
  pose proof (pow_cancel inv base m Hm Hinv' i j Hij H) as E.
  pose proof (pow_inverse base inv m Hm Hinv (j - i) ltac:(lia)) as P.
  rewrite <- Z.mul_mod_idemp_l, E, Z.mul_1_l in P by lia.
  exact P.
Qed.

(** C4 (amended): for a modulus [>= 2], a base coprime to it and a bound
    [max_val] such that [base^k mod modulus <> 1] for [1 <= k <= 2*max_val]
    (the powers [base^x], [-max_val <= x <= max_val], are pairwise
    distinct), [discrete_log_brute(mod_pow(base, x, modulus), base, modulus,
    max_val) == x] for every [x] in [[0, max_val]], and for every [x] in
    [[-max_val, -1]] when the interpreter allows the
    [calls(base % modulus, modulus) <= 2 * bits(modulus) + 2] nested
    calls of [_extended_gcd] that [mod_inv] makes; when it does not,
    [mod_pow(base, x, modulus)] raises [RecursionError] for negative
    [x]. *)
Theorem discrete_log_brute_recovers (limit : nat) (base m max_val x : Z) :
  2 <= m ->
  Z.gcd base m = 1 ->
  (forall k, 1 <= k <= 2 * max_val -> base ^ k mod m <> 1) ->
  - max_val <= x <= max_val ->
  ((x < 0 -> (Vocabulary.calls (base mod m) m <= limit)%nat) ->
   exists t,
     Utils.mod_pow limit base x m = Ok t /\
     Utils.discrete_log_brute limit t base m max_val = Ok x) /\
  (x < 0 -> (limit < Vocabulary.calls (base mod m) m)%nat ->
   Utils.mod_pow limit base x m = Raise RecursionError) /\
  (Vocabulary.calls (base mod m) m <= 2 * Vocabulary.bits m + 2)%nat.
Proof.
  intros Hm Hg Hord Hx.
  split; [|split; [|apply mod_inv_calls; exact Hm]].
  2:{ intros Hneg Hc. apply mod_pow_negative_raises; [lia|exact Hneg|].
      apply mod_inv_overflows; assumption. }
  intros Hlimit.
  destruct (Z_lt_le_dec x 0) as [Hneg | Hpos].
  - (* negative exponent: found by the second loop *)
    destruct (mod_inv_coprime limit base m Hm Hg (Hlimit Hneg))
      as (inv & Hinv & Hrange & Hmul).
    exists (inv ^ (- x) mod m). split.
    { apply mod_pow_negative; [lia|lia|exact Hinv]. }
    unfold Utils.discrete_log_brute, Py.mod_.
    destruct (Z.eqb_spec m 0); [lia|]. cbn [Py.bind].
    rewrite Z.mod_mod by lia.
    rewrite (dlog_scan_none (inv ^ (- x) mod m) base m ltac:(lia)).
    + rewrite Hinv. cbn [Py.bind].
      rewrite (dlog_scan_found (inv ^ (- x) mod m) inv m ltac:(lia)
                 (Z.to_nat max_val) 1 inv (Z.to_nat (- x - 1))).
      * f_equal. lia.
      * lia.
      * apply Z.mod_small. lia.
      * rewrite Z2Nat.id by lia. f_equal.
        rewrite <- Z.pow_succ_r by lia. f_equal. lia.
      * intros j Hj Heq.
        rewrite <- Z.pow_succ_r in Heq by lia.
        apply (inv_pow_cancel base inv m) in Heq; [|lia|exact Hmul|lia].
        apply (Hord (- x - Z.succ (Z.of_nat j))); [lia|exact Heq].
    + apply Z.mod_1_l. lia.
    + intros j Hj Heq. rewrite Z.mul_1_l in Heq.
      apply (pow_meets_inverse base inv m Hm Hmul) in Heq; [|lia|lia].
      apply (Hord (Z.of_nat j + - x)); [lia|exact Heq].
  - (* non-negative exponent: found by the first loop *)
    exists (base ^ x mod m). split.
    { apply mod_pow_nonneg; lia. }
    unfold Utils.discrete_log_brute, Py.mod_.
    destruct (Z.eqb_spec m 0); [lia|]. cbn [Py.bind].
    rewrite Z.mod_mod by lia.
    rewrite (dlog_scan_found (base ^ x mod m) base m ltac:(lia)
               (Z.to_nat (max_val + 1)) 0 1 (Z.to_nat x)).
    + f_equal. lia.
    + lia.
    + apply Z.mod_1_l. lia.
    + rewrite Z2Nat.id, Z.mul_1_l by lia. reflexivity.
    + intros j Hj Heq. rewrite Z.mul_1_l in Heq.
      assert (Hunit : exists inv, (base * inv) mod m = 1).
      { destruct (mod_inv_coprime (2 * Vocabulary.bits m + 2) base m Hm Hg
                    (mod_inv_calls base m Hm)) as (inv & _ & _ & Hmul).
        exists inv. exact Hmul. }
      destruct Hunit as (inv & Hmul).
      apply (pow_cancel base inv m Hm Hmul) in Heq; [|lia].
      apply (Hord (x - Z.of_nat j)); [lia|exact Heq].
Qed.

Lemma discrete_log_brute_recovers_witness :
  exists t,
    Utils.mod_pow 3 3 (-2) 7 = Ok t /\
    Utils.discrete_log_brute 3 t 3 7 2 = Ok (-2).
Proof.
  apply (proj1 (discrete_log_brute_recovers 3 3 7 2 (-2)
                  ltac:(lia) ltac:(reflexivity)
                  ltac:(intros k Hk;
                        assert (Hc : k = 1 \/ k = 2 \/ k = 3 \/ k = 4) by lia;
                        destruct Hc as [-> | [-> | [-> | ->]]];
                        vm_compute; discriminate)
                  ltac:(lia))).
  intros _. vm_compute. lia.
Defined.

(** C4, as stated, fails: the search returns the first matching exponent,
    so with [base = 2], [modulus = 7] (where [2^3 = 1 mod 7]) the exponent
    [3] is not recovered, whatever the recursion limit. *)
Lemma discrete_log_brute_first_match :
  (forall limit, Utils.mod_pow limit 2 3 7 = Ok 1) /\
  (forall limit, Utils.discrete_log_brute limit 1 2 7 10 = Ok 0) /\
  ~ (exists limit, Utils.discrete_log_brute limit 1 2 7 10 = Ok 3).
Proof.
  split; [intros limit; reflexivity|].
  split; [intros limit; reflexivity|].
  intros (limit & H). discriminate H.
Qed.

(** ** [aggregate] *)

Lemma mul_loop_product (modulus : Z) (xs : list Z) :
  modulus <> 0 ->
  forall acc,
    TJL.mul_loop modulus acc xs =
    Ok (match xs with [] => acc | _ => (acc * product xs) mod modulus end).
Proof.
  intros Hm. induction xs as [|x rest IH]; intros acc; [reflexivity|].
  simpl. unfold Py.mod_. destruct (Z.eqb_spec modulus 0); [contradiction|].
  cbn [Py.bind]. rewrite IH. f_equal. destruct rest as [|y rest'].
  - simpl. rewrite Z.mul_1_r. reflexivity.
  - rewrite Z.mul_mod_idemp_l by assumption. f_equal.
    change (product (x :: y :: rest')) with (x * product (y :: rest')). ring.
Qed.

Lemma mul_loop_zero_modulus (xs : list Z) (acc : Z) :
  xs <> [] -> TJL.mul_loop 0 acc xs = Raise ZeroDivisionError.
Proof. destruct xs; [contradiction|reflexivity]. Qed.

Lemma product_app (xs ys : list Z) : product (xs ++ ys) = product xs * product ys.
Proof.
  induction xs as [|x xs IH]; simpl.
  - destruct (product ys); reflexivity.
  - change (product (x :: xs ++ ys)) with (x * product (xs ++ ys)).
    change (product (x :: xs)) with (x * product xs). rewrite IH. ring.
Qed.

Lemma product_perm (xs ys : list Z) : Permutation xs ys -> product xs = product ys.
Proof.
  induction 1 as [|x l l' _ IH|x y l|l l' l'' _ IH1 _ IH2].
  - reflexivity.
  - change (x * product l = x * product l'). rewrite IH. reflexivity.
  - change (y * (x * product l) = x * (y * product l)). ring.
  - rewrite IH1. exact IH2.
Qed.

Lemma aggregate_product (params : TJL.TJLParams) (cts : list Z) :
  TJL.n_squared params <> 0 -> cts <> [] ->
  TJL.aggregate params cts = Ok (product cts mod TJL.n_squared params).
Proof.
  intros Hn Hne. unfold TJL.aggregate. destruct cts as [|c rest]; [contradiction|].
  rewrite mul_loop_product by assumption. rewrite Z.mul_1_l. reflexivity.
Qed.

Lemma aggregate_zero_modulus (params : TJL.TJLParams) (cts : list Z) :
  TJL.n_squared params = 0 -> cts <> [] ->
  TJL.aggregate params cts = Raise ZeroDivisionError.
Proof.
  intros Hn Hne. unfold TJL.aggregate. destruct cts as [|c rest]; [contradiction|].
  rewrite Hn. reflexivity.
Qed.

(** C6: [aggregate] fails on the empty list, returns the product of the
    ciphertexts modulo [n_squared] (a non-zero modulus), returns the same
    on every permutation of a non-empty list, and
    [aggregate(cts1 ++ cts2) == aggregate([aggregate(cts1), aggregate(cts2)])]
    for non-empty [cts1], [cts2]. *)
Theorem aggregate_spec (params : TJL.TJLParams) :
  TJL.n_squared params <> 0 ->
  (TJL.aggregate params [] = Raise (ValueError ciphertexts_must_not_be_empty) /\
   kind_of (ValueError ciphertexts_must_not_be_empty) = Some InvalidArgument) /\
  (forall cts, cts <> [] ->
     TJL.aggregate params cts = Ok (product cts mod TJL.n_squared params)) /\
  (forall cts cts', cts <> [] -> Permutation cts cts' ->
     TJL.aggregate params cts' = TJL.aggregate params cts) /\
  (forall cts1 cts2, cts1 <> [] -> cts2 <> [] ->
     exists a1 a2,
       TJL.aggregate params cts1 = Ok a1 /\
       TJL.aggregate params cts2 = Ok a2 /\
       TJL.aggregate params (cts1 ++ cts2) = TJL.aggregate params [a1; a2]).
Proof.
  intros Hn. split; [split; reflexivity|]. split; [|split].
  - intros cts Hne. apply aggregate_product; assumption.
  - intros cts cts' Hne Hperm.
    assert (Hne' : cts' <> []).
    { intros ->. apply Permutation_sym, Permutation_nil in Hperm.
      contradiction. }
    rewrite !aggregate_product by assumption.
    rewrite (product_perm _ _ Hperm). reflexivity.
  - intros cts1 cts2 H1 H2.
    exists (product cts1 mod TJL.n_squared params),
           (product cts2 mod TJL.n_squared params).
    rewrite !aggregate_product; try assumption; try discriminate.
    + repeat split. f_equal. rewrite product_app.
      unfold product at 3. simpl. rewrite Z.mul_1_r.
      rewrite <- Z.mul_mod by assumption. reflexivity.
    + destruct cts1; [contradiction|discriminate].
Qed.

Lemma aggregate_spec_witness :
  TJL.aggregate {| TJL.n := 5; TJL.n_squared := 25; TJL.g := 6; TJL.h := 2 |}
    [7; 11; 13] = Ok 1.
Proof.
  pose proof (aggregate_spec
                {| TJL.n := 5; TJL.n_squared := 25; TJL.g := 6; TJL.h := 2 |}
                ltac:(discriminate)) as (_ & Hprod & _).
  rewrite (Hprod [7; 11; 13] ltac:(discriminate)). reflexivity.
Defined.

(** ** [share_combine] *)

Lemma dlog_error_kind (limit : nat) (target base modulus max_val : Z)
  (e : exn) :
  Utils.discrete_log_brute limit target base modulus max_val = Raise e ->
  kind_of e <> Some InsufficientData.
Proof.
  unfold Utils.discrete_log_brute, Py.mod_, Utils.mod_inv.
  destruct (modulus =? 0); cbn [Py.bind].
  { intros H; inversion H; discriminate. }
  destruct (Utils.dlog_scan _ 0 1 _ _ _); [discriminate|].
  destruct (modulus <? 2); cbn [Py.bind].
  { intros H; inversion H; discriminate. }
  destruct (Utils._extended_gcd _ _ _) as [[[gcd x] y]|e'] eqn:E;
    cbn [Py.bind].
  2:{ apply _extended_gcd_raises in E. subst e'.
      intros H; inversion H; discriminate. }
  destruct (negb (gcd =? 1)); cbn [Py.bind].
  { intros H; inversion H; discriminate. }
  destruct (Utils.dlog_scan _ 1 _ _ _ _); [discriminate|].
  intros H; inversion H; discriminate.
Qed.

Lemma slice_to_nonneg {A : Type} (l : list A) (k : Z) :
  0 <= k -> Py.slice_to l k = firstn (Z.to_nat k) l.
Proof. intros Hk. unfold Py.slice_to. destruct (Z.ltb_spec k 0); [lia|reflexivity]. Qed.

(** What [share_combine] computes once enough shares are supplied. *)
Lemma share_combine_enough (limit : nat) (params : TJL.TJLParams)
  (shares : list Z) (threshold : Z) :
  0 <= threshold <= Py.len shares ->
  TJL.n params <> 0 -> TJL.n_squared params <> 0 ->
  let combined :=
    product (firstn (Z.to_nat threshold) shares) mod TJL.n_squared params in
  let numerator := (combined - 1) mod TJL.n_squared params in
  TJL.share_combine limit params shares threshold =
  if numerator mod TJL.n params =? 0
  then Ok ((numerator / TJL.n params) mod TJL.n params)
  else Utils.discrete_log_brute limit combined (TJL.g params)
         (TJL.n_squared params) 10000.
Proof.
  intros Ht Hn Hn2 combined numerator. unfold TJL.share_combine.
  destruct (Z.ltb_spec (Py.len shares) threshold); [lia|].
  rewrite slice_to_nonneg by lia.
  rewrite mul_loop_product by assumption. cbn [Py.bind].
  unfold Py.mod_, Py.floordiv.
  destruct (Z.eqb_spec (TJL.n_squared params) 0); [contradiction|].
  destruct (Z.eqb_spec (TJL.n params) 0); [contradiction|].
  cbn [Py.bind].
  assert (Hnum :
    (match firstn (Z.to_nat threshold) shares with
     | [] => 1
     | _ :: _ => (1 * product (firstn (Z.to_nat threshold) shares))
                 mod TJL.n_squared params
     end - 1) mod TJL.n_squared params = numerator).
  { unfold numerator, combined.
    destruct (firstn (Z.to_nat threshold) shares) as [|s rest].
    - rewrite Zminus_mod_idemp_l. reflexivity.
    - rewrite Z.mul_1_l. reflexivity. }
  rewrite Hnum.
  destruct (Z.eqb_spec (numerator mod TJL.n params) 0) as [Hz|Hnz];
    cbn [negb]; [reflexivity|].
  destruct (firstn (Z.to_nat threshold) shares) as [|s rest] eqn:Hfirst.
  - exfalso. apply Hnz. unfold numerator, combined.
    rewrite Zminus_mod_idemp_l. reflexivity.
  - rewrite Z.mul_1_l. reflexivity.
Qed.

(** C3: for valid parameters ([n] and [n_squared] non-zero) and a
    threshold [>= 0], [share_combine] raises an insufficient-data error
    exactly when fewer than [threshold] shares are supplied; otherwise it
    multiplies the first [threshold] shares modulo [n_squared], returns
    [((combined - 1) mod n_squared) / n mod n] when that numerator is
    divisible by [n] and [discrete_log_brute(combined, g, n_squared)]
    otherwise; shares beyond the first [threshold] do not change the
    result. *)
Theorem share_combine_spec (limit : nat) (params : TJL.TJLParams)
  (shares : list Z) (threshold : Z) :
  0 <= threshold ->
  TJL.n params <> 0 -> TJL.n_squared params <> 0 ->
  let combined :=
    product (firstn (Z.to_nat threshold) shares) mod TJL.n_squared params in
  let numerator := (combined - 1) mod TJL.n_squared params in
  ((exists e, TJL.share_combine limit params shares threshold = Raise e /\
              kind_of e = Some InsufficientData)
   <-> Py.len shares < threshold) /\
  (threshold <= Py.len shares ->
   TJL.share_combine limit params shares threshold =
   if numerator mod TJL.n params =? 0
   then Ok ((numerator / TJL.n params) mod TJL.n params)
   else Utils.discrete_log_brute limit combined (TJL.g params)
          (TJL.n_squared params) 10000) /\
  (forall extra, Py.len shares = threshold ->
     TJL.share_combine limit params (shares ++ extra) threshold =
     TJL.share_combine limit params shares threshold).
Proof.
  intros Ht Hn Hn2 combined numerator. split; [|split].
  - split.
    + intros (e & Hraise & Hkind).
      destruct (Z_lt_le_dec (Py.len shares) threshold) as [|Hge]; [assumption|].
      exfalso.
      rewrite share_combine_enough in Hraise by (assumption || lia).
      destruct (_ =? 0); [discriminate|].
      apply dlog_error_kind in Hraise. contradiction.
    + intros Hlt.
      exists (ValueError (need_at_least_shares threshold (Py.len shares))).
      split; [|reflexivity]. unfold TJL.share_combine.
      destruct (Z.ltb_spec (Py.len shares) threshold); [reflexivity|lia].
  - intros Hge. apply share_combine_enough; (assumption || lia).
  - intros extra Hlen.
    rewrite !share_combine_enough; try assumption.
    + assert (Hfirst : firstn (Z.to_nat threshold) (shares ++ extra) =
                       firstn (Z.to_nat threshold) shares).
      { unfold Py.len in Hlen.
        rewrite firstn_app.
        replace (Z.to_nat threshold - length shares)%nat with 0%nat by lia.
        simpl. apply app_nil_r. }
      rewrite Hfirst. reflexivity.
    + lia.
    + unfold Py.len in *. rewrite length_app. lia.
Qed.

Lemma share_combine_spec_witness :
  TJL.share_combine 3
    {| TJL.n := 5; TJL.n_squared := 25; TJL.g := 6; TJL.h := 2 |}
    [6; 11; 3] 2 = Ok 3.
Proof.
  pose proof (share_combine_spec 3
                {| TJL.n := 5; TJL.n_squared := 25; TJL.g := 6; TJL.h := 2 |}
                [6; 11; 3] 2 ltac:(lia) ltac:(discriminate) ltac:(discriminate))
    as (_ & Hval & _).
  rewrite Hval by (vm_compute; discriminate). reflexivity.
Defined.

Example share_combine_too_few :
  TJL.share_combine 3
    {| TJL.n := 5; TJL.n_squared := 25; TJL.g := 6; TJL.h := 2 |} [6] 2
  = Raise (ValueError (need_at_least_shares 2 1)).
Proof. reflexivity. Qed.

(** ** Bit packing: [pack_vector] and [unpack_vector] *)

Section BitFields.

Import Encoding.

Lemma pow2_pos (k : Z) : 0 <= k -> 0 < 2 ^ k.
Proof. intros. apply Z.pow_pos_nonneg; lia. Qed.

Lemma shl_ok (a k : Z) : 0 <= k -> Py.shl a k = Ok (a * 2 ^ k).
Proof.
  intros Hk. unfold Py.shl. destruct (Z.ltb_spec k 0); [lia|].
  rewrite Z.shiftl_mul_pow2 by assumption. reflexivity.
Qed.

Lemma shr_ok (a k : Z) : 0 <= k -> Py.shr a k = Ok (a / 2 ^ k).
Proof.
  intros Hk. unfold Py.shr. destruct (Z.ltb_spec k 0); [lia|].
  rewrite Z.shiftr_div_pow2 by assumption. reflexivity.
Qed.

Lemma land_mask (v k : Z) : 0 <= k -> Z.land v (2 ^ k - 1) = v mod 2 ^ k.
Proof.
  intros Hk.
  replace (2 ^ k - 1) with (Z.ones k) by (rewrite Z.ones_equiv; lia).
  apply Z.land_ones. assumption.
Qed.

Lemma testbit_small (e k n : Z) :
  0 <= k -> 0 <= e < 2 ^ k -> k <= n -> Z.testbit e n = false.
Proof.
  intros Hk He Hn. rewrite <- (Z.mod_small e (2 ^ k)) by assumption.
  apply Z.mod_pow2_bits_high. lia.
Qed.

(** Putting a [k]-bit field below a shifted stream is an addition. *)
Lemma lor_field (s e k : Z) :
  0 <= k -> 0 <= e < 2 ^ k -> Z.lor (s * 2 ^ k) e = s * 2 ^ k + e.
Proof.
  intros Hk He.
  assert (Hdisj : Z.land (s * 2 ^ k) e = 0).
  { apply Z.bits_inj'. intros n Hn.
    rewrite Z.land_spec, Z.bits_0, <- Z.shiftl_mul_pow2 by assumption.
    destruct (Z_lt_le_dec n k).
    - rewrite Z.shiftl_spec_low by assumption. reflexivity.
    - rewrite (testbit_small e k n) by assumption. apply andb_false_r. }
  rewrite <- Z.lxor_lor, <- Z.add_nocarry_lxor by assumption. reflexivity.
Qed.

Lemma pack_stream_spec (vbs : list (Z * Z)) :
  Forall (fun vb => 0 <= snd vb) vbs ->
  forall stream total_bits,
    pack_stream stream total_bits vbs =
    Ok (fold_left add_field vbs stream,
        fold_left Z.add (map snd vbs) total_bits).
Proof.
  induction 1 as [|[v bw] rest Hbw _ IH]; intros stream total_bits;
    [reflexivity|].
  simpl in Hbw. simpl pack_stream.
  rewrite !shl_ok by assumption. cbn [Py.bind].
  rewrite Z.mul_1_l, land_mask by assumption.
  rewrite lor_field.
  - rewrite IH. reflexivity.
  - assumption.
  - apply Z.mod_pos_bound. apply pow2_pos. assumption.
Qed.

Lemma fold_add_shift (xs : list Z) (a : Z) :
  fold_left Z.add xs a = a + fold_left Z.add xs 0.
Proof.
  revert a. induction xs as [|x xs IH]; intros a; simpl; [lia|].
  rewrite (IH (a + x)), (IH x). lia.
Qed.

Lemma sum_nonneg (xs : list Z) :
  Forall (fun x => 0 <= x) xs -> 0 <= Encoding.sum xs.
Proof.
  unfold Encoding.sum. induction 1 as [|x xs Hx _ IH]; simpl; [lia|].
  rewrite fold_add_shift. lia.
Qed.

Lemma stream_bound (vbs : list (Z * Z)) :
  Forall (fun vb => 0 <= snd vb) vbs ->
  forall s width,
    0 <= width -> 0 <= s < 2 ^ width ->
    0 <= fold_left add_field vbs s
    < 2 ^ (width + Encoding.sum (map snd vbs)).
Proof.
  unfold Encoding.sum.
  induction 1 as [|[v bw] rest Hbw Hrest IH]; intros s width Hw Hs.
  - simpl. rewrite Z.add_0_r. assumption.
  - simpl in Hbw. simpl fold_left. rewrite fold_add_shift.
    replace (width + (bw + fold_left Z.add (map snd rest) 0))
      with ((width + bw) + fold_left Z.add (map snd rest) 0) by lia.
    apply IH; [lia|]. unfold add_field. simpl.
    pose proof (Z.mod_pos_bound v (2 ^ bw) (pow2_pos bw Hbw)).
    rewrite Z.pow_add_r by assumption.
    pose proof (pow2_pos bw Hbw). nia.
Qed.

Lemma stream_of_snoc (vbs : list (Z * Z)) (v bw : Z) :
  stream_of (vbs ++ [(v, bw)]) = stream_of vbs * 2 ^ bw + v mod 2 ^ bw.
Proof. unfold stream_of. rewrite fold_left_app. reflexivity. Qed.

Lemma stream_of_fold (vbs : list (Z * Z)) :
  stream_of vbs = fold_left add_field vbs 0.
Proof. reflexivity. Qed.

End BitFields.

Section Chunks.

Import Encoding.

Variables chunk_bits stream : Z.
Hypothesis chunk_bits_nonneg : 0 <= chunk_bits.

Lemma length_digits (k : nat) : length (digits chunk_bits stream k) = k.
Proof. induction k as [|k IH]; simpl; [reflexivity|]. rewrite IH. reflexivity. Qed.

Lemma pack_chunks_digits (num_chunks : Z) (k : nat) :
  forall chunks,
    Py.len chunks = num_chunks - Z.of_nat k ->
    pack_chunks k stream num_chunks chunk_bits (2 ^ chunk_bits - 1) chunks =
    Ok (chunks ++ digits chunk_bits stream k).
Proof.
  induction k as [|k IH]; intros chunks Hlen.
  - simpl. rewrite app_nil_r. reflexivity.
  - simpl pack_chunks.
    replace ((num_chunks - 1 - Py.len chunks) * chunk_bits)
      with (Z.of_nat k * chunk_bits) by (rewrite Hlen; lia).
    rewrite shr_ok by nia. cbn [Py.bind].
    rewrite land_mask by assumption.
    rewrite IH.
    + rewrite <- app_assoc. simpl.
      rewrite Z.shiftr_div_pow2 by nia. reflexivity.
    + unfold Py.len in *. rewrite length_app. simpl. lia.
Qed.

Lemma unpack_stream_digits (k : nat) :
  forall acc,
    acc = stream / 2 ^ (Z.of_nat k * chunk_bits) ->
    unpack_stream acc chunk_bits (digits chunk_bits stream k) = Ok stream.
Proof.
  induction k as [|k IH]; intros acc Hacc.
  - simpl in *. rewrite Z.div_1_r in Hacc. subst acc. reflexivity.
  - simpl digits. simpl unpack_stream.
    rewrite shl_ok by assumption. cbn [Py.bind].
    rewrite Z.shiftr_div_pow2 by nia.
    pose proof (pow2_pos chunk_bits chunk_bits_nonneg) as Hpos.
    rewrite lor_field; [|assumption|apply Z.mod_pos_bound; assumption].
    apply IH. subst acc.
    replace (Z.of_nat (S k) * chunk_bits)
      with (Z.of_nat k * chunk_bits + chunk_bits) by lia.
    rewrite Z.pow_add_r by nia.
    rewrite <- Z.div_div by (try apply pow2_pos; nia).
    pose proof (Z.div_mod (stream / 2 ^ (Z.of_nat k * chunk_bits))
                  (2 ^ chunk_bits) ltac:(lia)).
    lia.
Qed.

End Chunks.

Section Unpack.

Import Encoding.

Lemma firstn_succ_snoc {A : Type} (l : list A) (i : nat) (x : A) :
  nth_error l i = Some x -> firstn (S i) l = firstn i l ++ [x].
Proof.
  revert i. induction l as [|y l IH]; intros [|i] H; try discriminate.
  - inversion H. reflexivity.
  - simpl in H. simpl. f_equal. apply IH. exact H.
Qed.

(** Two's-complement decoding of a field inverts its encoding. *)
Lemma decode_field (bw v : Z) :
  in_range bw v ->
  (if 2 ^ (bw - 1) <=? v mod 2 ^ bw then v mod 2 ^ bw - 2 ^ bw
   else v mod 2 ^ bw) = v.
Proof.
  intros [Hbw Hv].
  assert (Hpow : 2 ^ bw = 2 * 2 ^ (bw - 1)).
  { rewrite <- Z.pow_succ_r by lia. f_equal. lia. }
  pose proof (pow2_pos (bw - 1) ltac:(lia)) as Hpos.
  destruct (Z_lt_le_dec v 0) as [Hneg | Hnonneg].
  - assert (E : v mod 2 ^ bw = v + 2 ^ bw).
    { symmetry. apply (Z.mod_unique_pos _ _ (-1)); lia. }
    rewrite E. destruct (Z.leb_spec (2 ^ (bw - 1)) (v + 2 ^ bw)); lia.
  - rewrite Z.mod_small by lia.
    destruct (Z.leb_spec (2 ^ (bw - 1)) v); lia.
Qed.

Lemma unpack_values_spec (vbs : list (Z * Z)) :
  Forall (fun vb => in_range (snd vb) (fst vb)) vbs ->
  forall (k : nat) (res : list Z),
    (k <= length vbs)%nat ->
    unpack_values k (stream_of (firstn k vbs)) (map snd vbs) res =
    Ok (res ++ rev (map fst (firstn k vbs))).
Proof.
  intros Hr. induction k as [|i IH]; intros res Hk.
  - simpl. rewrite app_nil_r. reflexivity.
  - destruct (nth_error vbs i) as [[v bw]|] eqn:Hnth;
      [|apply nth_error_None in Hnth; lia].
    assert (Hin : in_range bw v).
    { apply nth_error_In in Hnth. rewrite Forall_forall in Hr.
      apply (Hr _ Hnth). }
    pose proof Hin as [Hbw Hv].
    rewrite (firstn_succ_snoc _ _ _ Hnth), stream_of_snoc.
    simpl unpack_values.
    rewrite nth_error_map, Hnth. simpl option_map. cbv iota.
    pose proof (pow2_pos bw ltac:(lia)) as Hpos.
    pose proof (Z.mod_pos_bound v (2 ^ bw) Hpos) as He.
    rewrite !shl_ok by lia. cbn [Py.bind].
    rewrite !Z.mul_1_l, !land_mask by lia.
    rewrite shr_ok by lia. cbn [Py.bind].
    assert (Elow : (stream_of (firstn i vbs) * 2 ^ bw + v mod 2 ^ bw)
                   mod 2 ^ bw = v mod 2 ^ bw).
    { rewrite Z.add_comm, Z.mod_add by lia. apply Z.mod_mod. lia. }
    assert (Ehigh : (stream_of (firstn i vbs) * 2 ^ bw + v mod 2 ^ bw)
                    / 2 ^ bw = stream_of (firstn i vbs)).
    { rewrite Z.add_comm, Z.div_add by lia.
      rewrite Z.div_small by assumption. lia. }
    rewrite Elow, Ehigh.
    pose proof (decode_field bw v Hin) as Hdec.
    destruct (2 ^ (bw - 1) <=? v mod 2 ^ bw);
      cbn [Py.bind]; rewrite Hdec, IH by lia;
      rewrite map_app, rev_app_distr, <- app_assoc; reflexivity.
Qed.

End Unpack.

Section RoundTrip.

Import Encoding.

Lemma map_fst_combine {A B : Type} (xs : list A) (ys : list B) :
  length xs = length ys -> map fst (combine xs ys) = xs.
Proof.
  revert ys. induction xs as [|x xs IH]; intros [|y ys] H; try discriminate.
  - reflexivity.
  - simpl. f_equal. apply IH. simpl in H. lia.
Qed.

Lemma map_snd_combine {A B : Type} (xs : list A) (ys : list B) :
  length xs = length ys -> map snd (combine xs ys) = ys.
Proof.
  revert ys. induction xs as [|x xs IH]; intros [|y ys] H; try discriminate.
  - reflexivity.
  - simpl. f_equal. apply IH. simpl in H. lia.
Qed.

Lemma Forall2_combine (bws vs : list Z) :
  Forall2 in_range bws vs ->
  Forall (fun vb => in_range (snd vb) (fst vb)) (combine vs bws).
Proof. induction 1; simpl; constructor; assumption. Qed.

Lemma sum_pos (bws vs : list Z) :
  Forall2 in_range bws vs -> vs <> [] -> 1 <= Encoding.sum bws.
Proof.
  intros H Hne. destruct H as [|bw v bws vs [Hbw _] Hrest]; [contradiction|].
  unfold Encoding.sum. simpl. rewrite fold_add_shift.
  assert (0 <= Encoding.sum bws).
  { apply sum_nonneg. clear -Hrest.
    induction Hrest as [|b w l l' [Hb _] _ IH]; constructor; [lia|assumption]. }
  unfold Encoding.sum in *. lia.
Qed.

Lemma np_array_int64_ok (xs : list Z) :
  Forall (fun z => int64_min <= z <= int64_max) xs ->
  np_array_int64 xs = Ok xs.
Proof.
  intros H. unfold np_array_int64.
  replace (forallb is_int64 xs) with true; [reflexivity|].
  symmetry. apply forallb_forall. intros z Hz.
  rewrite Forall_forall in H. specialize (H z Hz).
  unfold is_int64. apply andb_true_iff. split; apply Z.leb_le; lia.
Qed.

(** Packing followed by unpacking, for any chunk width [>= 1]. *)
Lemma pack_then_unpack (values bit_widths : list Z) (chunk_bits : Z) :
  values <> [] ->
  Forall2 in_range bit_widths values ->
  Forall (fun z => int64_min <= z <= int64_max) values ->
  1 <= chunk_bits ->
  exists chunks,
    pack_vector values bit_widths chunk_bits = Ok chunks /\
    unpack_vector chunks bit_widths chunk_bits (Py.len values) = Ok values.
Proof.
  intros Hne Hrange Hint Hcb.
  pose proof (Forall2_length Hrange) as Hlen. symmetry in Hlen.
  set (vbs := combine values bit_widths).
  assert (Hfst : map fst vbs = values) by (apply map_fst_combine; exact Hlen).
  assert (Hsnd : map snd vbs = bit_widths) by (apply map_snd_combine; exact Hlen).
  pose proof (Forall2_combine _ _ Hrange) as Hfields. fold vbs in Hfields.
  assert (Hwidths : Forall (fun vb : Z * Z => 0 <= snd vb) vbs).
  { eapply Forall_impl; [|exact Hfields]. intros vb [H _]. lia. }
  pose proof (sum_pos _ _ Hrange Hne) as Htotal.
  set (total := Encoding.sum bit_widths) in *.
  set (num_chunks := (total + chunk_bits - 1) / chunk_bits).
  set (pad := num_chunks * chunk_bits - total).
  assert (Hpad : 0 <= pad < chunk_bits /\ 1 <= num_chunks).
  { unfold pad, num_chunks.
    pose proof (Z.div_mod (total + chunk_bits - 1) chunk_bits ltac:(lia)).
    pose proof (Z.mod_pos_bound (total + chunk_bits - 1) chunk_bits ltac:(lia)).
    assert (1 <= (total + chunk_bits - 1) / chunk_bits)
      by (apply Z.div_le_lower_bound; lia).
    split; [nia|assumption]. }
  destruct Hpad as [Hpad Hnum].
  set (stream := stream_of vbs * 2 ^ pad).
  assert (Hstream : 0 <= stream < 2 ^ (num_chunks * chunk_bits)).
  { pose proof (stream_bound vbs Hwidths 0 0 ltac:(lia) ltac:(simpl; lia)) as Hb.
    rewrite Hsnd, Z.add_0_l in Hb. fold total in Hb.
    rewrite <- stream_of_fold in Hb.
    unfold stream. replace (num_chunks * chunk_bits) with (total + pad)
      by (unfold pad; lia).
    rewrite Z.pow_add_r by lia.
    pose proof (pow2_pos pad ltac:(lia)). nia. }
  exists (digits chunk_bits stream (Z.to_nat num_chunks)). split.
  - unfold pack_vector. unfold Py.len. rewrite Hlen, Z.eqb_refl. cbn [negb].
    fold vbs. rewrite pack_stream_spec by exact Hwidths. cbn [Py.bind].
    rewrite Hsnd. fold (Encoding.sum bit_widths). fold total.
    unfold Py.floordiv. destruct (Z.eqb_spec chunk_bits 0); [lia|].
    cbn [Py.bind]. fold num_chunks. fold pad.
    rewrite !shl_ok by lia. cbn [Py.bind].
    rewrite <- stream_of_fold. fold stream. rewrite Z.mul_1_l.
    rewrite pack_chunks_digits; [reflexivity|lia|].
    unfold Py.len. simpl. lia.
  - assert (Hcons : exists c rest,
               digits chunk_bits stream (Z.to_nat num_chunks) = c :: rest).
    { destruct (Z.to_nat num_chunks) as [|k] eqn:Hk; [lia|].
      simpl. eauto. }
    destruct Hcons as (c & rest & Hcons).
    unfold unpack_vector. rewrite Hcons. cbv iota. rewrite <- Hcons.
    assert (Hn : 0 < Py.len values).
    { unfold Py.len. destruct values; [contradiction|]. simpl. lia. }
    destruct (Z.ltb_spec 0 (Py.len values)); [|lia].
    destruct (Z.eqb_spec (Py.len values) 0); [lia|].
    rewrite (unpack_stream_digits chunk_bits stream ltac:(lia)).
    + cbn [Py.bind].
      unfold Py.len at 1. rewrite length_digits, Z2Nat.id by lia.
      rewrite slice_to_nonneg by lia.
      unfold Py.len. rewrite Nat2Z.id, Hlen, firstn_all.
      fold total. fold pad.
      rewrite shr_ok by lia. cbn [Py.bind].
      unfold stream. rewrite Z.div_mul by (pose proof (pow2_pos pad); lia).
      pose proof (unpack_values_spec vbs Hfields (length vbs) []
                    (Nat.le_refl _)) as Hvals.
      rewrite firstn_all, Hsnd, Hfst in Hvals.
      replace (length bit_widths) with (length vbs)
        by (unfold vbs; rewrite length_combine; lia).
      rewrite Hvals. cbn [Py.bind]. simpl app.
      rewrite rev_involutive. apply np_array_int64_ok. exact Hint.
    + rewrite Z2Nat.id by lia. symmetry. apply Z.div_small. exact Hstream.
Qed.

End RoundTrip.

(** C2: for every non-empty integer (int64) array [values] whose i-th
    element lies in the two's-complement range of [bit_widths[i]] and every
    chunk width [chunk_bits >= max(bit_widths)],
    [unpack_vector(pack_vector(v, bw, cb), bw, cb, len(v)) == v]; and
    packing [[3, -1]] with widths [[4, 4]] into 8-bit chunks gives the one
    chunk [63], which unpacks to [[3, -1]]. *)
Theorem pack_unpack_roundtrip :
  (forall (values bit_widths : list Z) (chunk_bits : Z),
     values <> [] ->
     Forall2 Encoding.in_range bit_widths values ->
     Forall (fun z => Encoding.int64_min <= z <= Encoding.int64_max) values ->
     Forall (fun bw => bw <= chunk_bits) bit_widths ->
     exists chunks,
       Encoding.pack_vector values bit_widths chunk_bits = Ok chunks /\
       Encoding.unpack_vector chunks bit_widths chunk_bits (Py.len values)
       = Ok values) /\
  Encoding.pack_vector [3; -1] [4; 4] 8 = Ok [63] /\
  Encoding.unpack_vector [63] [4; 4] 8 2 = Ok [3; -1].
Proof.
  split; [|split; reflexivity].
  intros values bit_widths chunk_bits Hne Hrange Hint Hmax.
  apply pack_then_unpack; try assumption.
  destruct Hrange as [|bw v bws vs [Hbw _] _]; [contradiction|].
  inversion Hmax; subst. lia.
Qed.

Example pack_unpack_mixed_widths :
  Encoding.pack_vector [-3; 100; -128; 5] [3; 8; 8; 4] 8 = Ok [172; 144; 10] /\
  Encoding.unpack_vector [172; 144; 10] [3; 8; 8; 4] 8 4 = Ok [-3; 100; -128; 5].
Proof. split; reflexivity. Qed.

(** C10: [pack_vector] applied to empty [values] and [bit_widths] returns
    the empty chunk list (for a chunk width [>= 1]), [unpack_vector]
    raises an invalid-argument error on every empty chunk list, and so
    unpacking what packing the empty vector returned does not give the
    empty vector back. *)
Theorem pack_unpack_empty :
  (forall chunk_bits, 1 <= chunk_bits ->
     Encoding.pack_vector [] [] chunk_bits = Ok []) /\
  (forall bit_widths chunk_bits length,
     Encoding.unpack_vector [] bit_widths chunk_bits length
     = Raise (ValueError chunks_must_not_be_empty)) /\
  kind_of (ValueError chunks_must_not_be_empty) = Some InvalidArgument /\
  (forall chunk_bits, 1 <= chunk_bits ->
     (chunks <- Encoding.pack_vector [] [] chunk_bits ;;
      Encoding.unpack_vector chunks [] chunk_bits (Py.len (@nil Z)))
     <> Ok []).
Proof.
  assert (Hpack : forall chunk_bits, 1 <= chunk_bits ->
                    Encoding.pack_vector [] [] chunk_bits = Ok []).
  { intros cb Hcb. unfold Encoding.pack_vector. simpl.
    unfold Py.floordiv. destruct (Z.eqb_spec cb 0); [lia|]. cbn [Py.bind].
    rewrite Z.div_small by lia. simpl.
    rewrite shl_ok by lia. reflexivity. }
  split; [exact Hpack|]. split; [reflexivity|]. split; [reflexivity|].
  intros cb Hcb. rewrite Hpack by assumption. discriminate.
Qed.

Example pack_empty_default_width : Encoding.pack_vector [] [] 512 = Ok [].
Proof. reflexivity. Qed.

(** ** Polynomials with few coefficients and many roots *)

Section Polynomials.

Import ISS Lagrange.

Lemma eval_padd (p q : list Z) (x : Z) :
  eval (padd p q) x = eval p x + eval q x.
Proof.
  revert q. induction p as [|a p IH]; intros [|b q]; simpl; try lia.
  rewrite IH. ring.
Qed.

Lemma length_padd (p q : list Z) :
  length (padd p q) = Nat.max (length p) (length q).
Proof.
  revert q. induction p as [|a p IH]; intros [|b q]; simpl; try reflexivity.
  rewrite IH. reflexivity.
Qed.

Lemma eval_pscale (c : Z) (p : list Z) (x : Z) :
  eval (pscale c p) x = c * eval p x.
Proof. induction p as [|a p IH]; simpl; [lia|]. rewrite IH. ring. Qed.

Lemma is_poly_eval (N : nat) (p : list Z) :
  (length p <= N)%nat -> is_poly N (eval p).
Proof. intros H. exists p. split; [assumption|reflexivity]. Qed.

Lemma is_poly_ext (N : nat) (F G : Z -> Z) :
  (forall x, F x = G x) -> is_poly N F -> is_poly N G.
Proof.
  intros E (p & Hlen & Hp). exists p. split; [assumption|].
  intros x. rewrite <- E. apply Hp.
Qed.

Lemma is_poly_weaken (N M : nat) (F : Z -> Z) :
  (N <= M)%nat -> is_poly N F -> is_poly M F.
Proof. intros H (p & Hlen & Hp). exists p. split; [lia|assumption]. Qed.

Lemma is_poly_zero (N : nat) : is_poly N (fun _ => 0).
Proof. exists []. split; [simpl; lia|reflexivity]. Qed.

Lemma is_poly_const (c : Z) : is_poly 1 (fun _ => c).
Proof. exists [c]. split; [simpl; lia|]. intros x. simpl. lia. Qed.

Lemma is_poly_add (N : nat) (F G : Z -> Z) :
  is_poly N F -> is_poly N G -> is_poly N (fun x => F x + G x).
Proof.
  intros (p & Hp & Ep) (q & Hq & Eq). exists (padd p q). split.
  - rewrite length_padd. lia.
  - intros x. rewrite eval_padd, Ep, Eq. reflexivity.
Qed.

Lemma is_poly_scale (N : nat) (c : Z) (F : Z -> Z) :
  is_poly N F -> is_poly N (fun x => c * F x).
Proof.
  intros (p & Hp & Ep). exists (pscale c p). split.
  - unfold pscale. rewrite length_map. assumption.
  - intros x. rewrite eval_pscale, Ep. reflexivity.
Qed.

Lemma is_poly_linear_factor (N : nat) (a : Z) (F : Z -> Z) :
  is_poly N F -> is_poly (S N) (fun x => (x - a) * F x).
Proof.
  intros (p & Hp & Ep). exists (padd (0 :: p) (pscale (- a) p)). split.
  - rewrite length_padd. unfold pscale. rewrite length_map.
    cbn [length]. lia.
  - intros x. rewrite eval_padd, eval_pscale. simpl. rewrite Ep. ring.
Qed.

(** Division by [X - a]: the remainder is the value at [a]. *)
Lemma eval_factor (p : list Z) (a : Z) :
  exists q, length q = pred (length p) /\
            forall x, eval p x = eval p a + (x - a) * eval q x.
Proof.
  induction p as [|c p (q & Hlen & Hq)].
  - exists []. split; [reflexivity|]. intros x. simpl. lia.
  - destruct p as [|c' p'].
    + exists []. split; [reflexivity|]. intros x. simpl. lia.
    + exists (eval (c' :: p') a :: q). split; [cbn [length pred] in *; lia|].
      intros x. change (eval (c :: c' :: p') x) with (c + x * eval (c' :: p') x).
      change (eval (c :: c' :: p') a) with (c + a * eval (c' :: p') a).
      rewrite (Hq x). cbn [eval]. ring.
Qed.

(** A polynomial function of degree below [N] that vanishes at [N]
    distinct points vanishes everywhere. *)
Lemma poly_roots (xs : list Z) :
  NoDup xs ->
  forall F, is_poly (length xs) F ->
            (forall x, In x xs -> F x = 0) ->
            forall x, F x = 0.
Proof.
  induction 1 as [|a xs Ha Hnd IH]; intros F (p & Hlen & Hp) Hroots x.
  - destruct p; [|simpl in Hlen; lia]. rewrite Hp. reflexivity.
  - destruct (eval_factor p a) as (q & Hq & Efac).
    assert (Hpa : eval p a = 0).
    { rewrite <- Hp. apply Hroots. left. reflexivity. }
    assert (Hzero : forall z, eval q z = 0).
    { apply IH.
      - apply is_poly_eval. cbn [length] in Hlen. lia.
      - intros z Hz.
        assert (E : F z = 0) by (apply Hroots; right; assumption).
        rewrite Hp, Efac, Hpa in E.
        assert (z - a <> 0) by (intros E'; apply Ha;
                                replace a with z by lia; assumption).
        nia. }
    rewrite Hp, Efac, Hpa, Hzero. ring.
Qed.

End Polynomials.

(** ** The Lagrange identity over the integers *)

Section LagrangeIdentity.

Import ISS Lagrange.

Lemma lin_prod_zero (X : Z) (xs : list Z) : In X xs -> lin_prod X xs = 0.
Proof.
  induction xs as [|x xs IH]; intros H; [contradiction|].
  simpl. destruct H as [-> | H].
  - rewrite Z.sub_diag. apply Z.mul_0_l.
  - rewrite (IH H). apply Z.mul_0_r.
Qed.

Lemma lin_prod_nonzero (X : Z) (xs : list Z) : ~ In X xs -> lin_prod X xs <> 0.
Proof.
  induction xs as [|x xs IH]; intros H; simpl; [lia|].
  apply Z.neq_mul_0. split.
  - intros E. apply H. left. lia.
  - apply IH. intros Hin. apply H. right. assumption.
Qed.

Lemma is_poly_lin_prod (xs : list Z) :
  is_poly (S (length xs)) (fun X => lin_prod X xs).
Proof.
  induction xs as [|x xs IH]; simpl.
  - apply is_poly_const.
  - apply (is_poly_linear_factor _ x _ IH).
Qed.

Lemma length_remove_nth {A : Type} (j : nat) (l : list A) :
  (j < length l)%nat -> S (length (remove_nth j l)) = length l.
Proof.
  intros H. unfold remove_nth.
  rewrite length_app, length_firstn, length_skipn. lia.
Qed.

Lemma nth_split_remove (j : nat) (xs : list Z) :
  (j < length xs)%nat ->
  xs = firstn j xs ++ nth j xs 0 :: skipn (S j) xs.
Proof.
  revert j. induction xs as [|x xs IH]; intros [|j] H; simpl in *; try lia.
  - reflexivity.
  - f_equal. apply IH. lia.
Qed.

Lemma remove_nth_self (j : nat) (xs : list Z) :
  NoDup xs -> (j < length xs)%nat -> ~ In (nth j xs 0) (remove_nth j xs).
Proof.
  intros Hnd Hj. pose proof (nth_split_remove j xs Hj) as E.
  rewrite E in Hnd. apply NoDup_remove_2 in Hnd. exact Hnd.
Qed.

Lemma remove_nth_other (i j : nat) (xs : list Z) :
  NoDup xs -> (i < length xs)%nat -> (j < length xs)%nat -> i <> j ->
  In (nth i xs 0) (remove_nth j xs).
Proof.
  intros Hnd Hi Hj Hij.
  pose proof (nth_split_remove j xs Hj) as E.
  assert (Hin : In (nth i xs 0)
                  (firstn j xs ++ nth j xs 0 :: skipn (S j) xs))
    by (rewrite <- E; apply nth_In; assumption).
  apply in_app_or in Hin. unfold remove_nth. apply in_or_app.
  destruct Hin as [H | [H | H]]; [left; assumption| |right; assumption].
  exfalso. apply Hij. symmetry.
  apply (proj1 (NoDup_nth xs 0) Hnd); assumption.
Qed.

Lemma den_at_nonzero (xs : list Z) (j : nat) :
  NoDup xs -> (j < length xs)%nat -> den_at xs j <> 0.
Proof.
  intros Hnd Hj. apply lin_prod_nonzero. apply remove_nth_self; assumption.
Qed.

Lemma prod_over_nonzero (js : list nat) (F : nat -> Z) :
  (forall j, In j js -> F j <> 0) -> prod_over js F <> 0.
Proof.
  induction js as [|j js IH]; intros H; simpl; [lia|].
  apply Z.neq_mul_0. split.
  - apply H. left. reflexivity.
  - apply IH. intros k Hk. apply H. right. assumption.
Qed.

Lemma prod_over_divide (js : list nat) (F : nat -> Z) (j : nat) :
  In j js -> (F j | prod_over js F).
Proof.
  induction js as [|k js IH]; intros H; [contradiction|]. simpl.
  destruct H as [-> | H].
  - apply Z.divide_factor_l.
  - apply Z.divide_mul_r. apply IH. assumption.
Qed.

Lemma common_den_nonzero (xs : list Z) : NoDup xs -> common_den xs <> 0.
Proof.
  intros Hnd. apply prod_over_nonzero. intros j Hj.
  apply in_seq in Hj. apply den_at_nonzero; [assumption|lia].
Qed.

Lemma common_den_cancel (xs : list Z) (j : nat) :
  NoDup xs -> (j < length xs)%nat ->
  common_den xs / den_at xs j * den_at xs j = common_den xs.
Proof.
  intros Hnd Hj.
  assert (Hdiv : (den_at xs j | common_den xs)).
  { apply prod_over_divide. apply in_seq. lia. }
  destruct Hdiv as [c Hc]. rewrite Hc.
  rewrite Z.div_mul by (apply den_at_nonzero; assumption). reflexivity.
Qed.

Lemma sum_over_single (js : list nat) (F : nat -> Z) (i : nat) :
  NoDup js -> In i js -> (forall j, In j js -> j <> i -> F j = 0) ->
  sum_over js F = F i.
Proof.
  induction 1 as [|k js Hk Hnd IH]; intros Hi Hz; [contradiction|]. simpl.
  destruct Hi as [-> | Hi].
  - assert (E : sum_over js F = 0).
    { clear IH. induction js as [|k js IHjs]; [reflexivity|]. simpl.
      rewrite (Hz k) by (simpl; auto; intros ->; apply Hk; left; reflexivity).
      rewrite IHjs.
      - reflexivity.
      - intros Hin. apply Hk. right. assumption.
      - inversion Hnd; assumption.
      - intros j Hj. apply Hz. simpl in *. tauto. }
    rewrite E. lia.
  - rewrite (Hz k) by (simpl; auto; intros ->; contradiction).
    rewrite IH; [lia|assumption|].
    intros j Hj. apply Hz. right. assumption.
Qed.

Lemma is_poly_sum_over (N : nat) (js : list nat) (T : nat -> Z -> Z) :
  (forall j, In j js -> is_poly N (T j)) ->
  is_poly N (fun X => sum_over js (fun j => T j X)).
Proof.
  induction js as [|j js IH]; intros H; simpl.
  - apply is_poly_zero.
  - apply is_poly_add.
    + apply H. left. reflexivity.
    + apply IH. intros k Hk. apply H. right. assumption.
Qed.

(** Interpolating the values of a polynomial with at most [length xs]
    coefficients at the distinct points [xs] gives back its value at [0]:
    the accumulated numerator is the common denominator times [f(0)]. *)
Lemma lagrange_at_zero (xs coeffs : list Z) :
  NoDup xs -> (length coeffs <= length xs)%nat ->
  numerator xs (map (eval coeffs) xs) = common_den xs * eval coeffs 0.
Proof.
  intros Hnd Hdeg.
  set (n := length xs). set (D := common_den xs).
  set (term := fun (j : nat) (X : Z) =>
                 nth j (map (eval coeffs) xs) 0 * (D / den_at xs j)
                 * lin_prod X (remove_nth j xs)).
  set (G := fun X => D * eval coeffs X
                     + (-1) * sum_over (seq 0 n) (fun j => term j X)).
  assert (Hpoly : is_poly n G).
  { apply is_poly_add.
    - apply is_poly_scale. apply is_poly_eval. exact Hdeg.
    - apply is_poly_scale. apply is_poly_sum_over. intros j Hj.
      apply in_seq in Hj. unfold term. apply is_poly_scale.
      pose proof (is_poly_lin_prod (remove_nth j xs)) as P.
      rewrite length_remove_nth in P by (fold n; lia). exact P. }
  assert (Hroots : forall x, In x xs -> G x = 0).
  { intros x Hx. destruct (In_nth xs x 0 Hx) as (i & Hi & <-).
    unfold G.
    rewrite (sum_over_single (seq 0 n) (fun j => term j (nth i xs 0)) i).
    - unfold term. fold (den_at xs i).
      rewrite (nth_indep (map (eval coeffs) xs) 0 (eval coeffs 0))
        by (rewrite length_map; assumption).
      rewrite map_nth.
      pose proof (common_den_cancel xs i Hnd Hi) as Hc. fold D in Hc.
      rewrite <- Z.mul_assoc, Hc. ring.
    - apply seq_NoDup.
    - apply in_seq. fold n in Hi. lia.
    - intros j Hj Hji. apply in_seq in Hj. unfold term.
      rewrite (lin_prod_zero (nth i xs 0) (remove_nth j xs)).
      + ring.
      + apply remove_nth_other; try assumption; fold n; lia. }
  pose proof (poly_roots xs Hnd G Hpoly Hroots 0) as H0.
  unfold G in H0. unfold numerator. fold n. fold D.
  assert (E : sum_over (seq 0 n) (fun j => term j 0) =
              sum_over (seq 0 n)
                (fun j => nth j (map (eval coeffs) xs) 0 * num_at xs j
                          * (D / den_at xs j))).
  { clear. induction (seq 0 n) as [|j js IH]; [reflexivity|]. simpl.
    rewrite IH. unfold term, num_at. ring. }
  rewrite <- E. lia.
Qed.

End LagrangeIdentity.

(** ** The loops of [_lagrange_basis] and [reconstruct] *)

Section ReconstructLoops.

Import ISS Lagrange.

Lemma index_nth {A : Type} (l : list A) (j : nat) (x : A) :
  nth_error l j = Some x -> index l (Z.of_nat j) = Ok x.
Proof.
  intros H. unfold index.
  assert (E : (Z.of_nat j <? 0) = false) by (apply Z.ltb_ge; lia).
  rewrite E. cbv zeta. rewrite E, Nat2Z.id, H. reflexivity.
Qed.

Lemma remove_nth_0 {A : Type} (x : A) (l : list A) : remove_nth 0 (x :: l) = l.
Proof. reflexivity. Qed.

Lemma remove_nth_S {A : Type} (k : nat) (x : A) (l : list A) :
  remove_nth (S k) (x :: l) = x :: remove_nth k l.
Proof. reflexivity. Qed.

Variables (x_j j : Z).

Lemma basis_loop_after (rest : list (Z * Z)) :
  forall m num den,
    j < m -> ~ In x_j (map fst rest) ->
    basis_loop x_j j m num den rest =
    Ok (num * lin_prod 0 (map fst rest), den * lin_prod x_j (map fst rest)).
Proof.
  induction rest as [|[x_m y_m] rest IH]; intros m num den Hm Hnotin.
  - simpl. rewrite !Z.mul_1_r. reflexivity.
  - simpl basis_loop. destruct (Z.eqb_spec m j); [lia|].
    destruct (Z.eqb_spec x_m x_j) as [E|_].
    { exfalso. apply Hnotin. left. exact E. }
    rewrite IH; [|lia|intros H; apply Hnotin; right; exact H].
    simpl. f_equal. f_equal; ring.
Qed.

Lemma basis_loop_from (rest : list (Z * Z)) :
  forall (k : nat) m num den,
    j = m + Z.of_nat k -> (k < length rest)%nat ->
    ~ In x_j (remove_nth k (map fst rest)) ->
    basis_loop x_j j m num den rest =
    Ok (num * lin_prod 0 (remove_nth k (map fst rest)),
        den * lin_prod x_j (remove_nth k (map fst rest))).
Proof.
  induction rest as [|[x_m y_m] rest IH]; intros k m num den Hj Hk Hnotin;
    [simpl in Hk; lia|].
  destruct k as [|k].
  - simpl basis_loop. destruct (Z.eqb_spec m j); [|lia].
    simpl map. rewrite remove_nth_0 in *.
    apply basis_loop_after; [lia|assumption].
  - simpl basis_loop. destruct (Z.eqb_spec m j); [lia|].
    simpl map in *. rewrite remove_nth_S in *.
    destruct (Z.eqb_spec x_m x_j) as [E|_].
    { exfalso. apply Hnotin. left. exact E. }
    rewrite (IH k); [|lia|simpl in Hk; lia|intros H; apply Hnotin; right; exact H].
    simpl. f_equal. f_equal; ring.
Qed.

End ReconstructLoops.

Section Basis.

Import ISS Lagrange.

Variable subset : list (Z * Z).
Hypothesis distinct : NoDup (map fst subset).

Let xs : list Z := map fst subset.

Lemma nth_error_subset (j : nat) :
  (j < length subset)%nat ->
  nth_error subset j = Some (nth j xs 0, nth j (map snd subset) 0).
Proof.
  intros Hj. unfold xs.
  destruct (nth_error subset j) as [[x y]|] eqn:E;
    [|apply nth_error_None in E; lia].
  rewrite (nth_indep (map fst subset) 0 (fst (x, y)))
    by (rewrite length_map; assumption).
  rewrite (nth_indep (map snd subset) 0 (snd (x, y)))
    by (rewrite length_map; assumption).
  rewrite !map_nth. rewrite (nth_error_nth _ _ _ E). reflexivity.
Qed.

Lemma lagrange_basis_int (j : nat) :
  (j < length subset)%nat ->
  _lagrange_basis subset (Z.of_nat j) None = Ok (num_at xs j, den_at xs j).
Proof.
  intros Hj. unfold _lagrange_basis.
  rewrite (index_nth _ _ _ (nth_error_subset j Hj)). cbn [Py.bind].
  rewrite (basis_loop_from _ _ subset j 0 1 1).
  - cbn [Py.bind]. rewrite !Z.mul_1_l. reflexivity.
  - lia.
  - assumption.
  - apply remove_nth_self; [exact distinct|].
    unfold xs. rewrite length_map. exact Hj.
Qed.

Lemma lagrange_basis_mod (j : nat) (p : Z) :
  (j < length subset)%nat -> p <> 0 ->
  _lagrange_basis subset (Z.of_nat j) (Some p)
  = Ok (num_at xs j mod p, den_at xs j mod p).
Proof.
  intros Hj Hp. unfold _lagrange_basis.
  rewrite (index_nth _ _ _ (nth_error_subset j Hj)). cbn [Py.bind].
  rewrite (basis_loop_from _ _ subset j 0 1 1).
  - cbn [Py.bind]. rewrite !Z.mul_1_l. unfold Py.mod_.
    destruct (Z.eqb_spec p 0); [contradiction|]. reflexivity.
  - lia.
  - assumption.
  - apply remove_nth_self; [exact distinct|].
    unfold xs. rewrite length_map. exact Hj.
Qed.

Lemma bases_loop_spec (js : list nat) :
  (forall j, In j js -> (j < length subset)%nat) ->
  forall bases cd,
    bases_loop subset (map Z.of_nat js) bases cd =
    Ok (bases ++ map (fun j => (num_at xs j, den_at xs j)) js,
        cd * prod_over js (den_at xs)).
Proof.
  induction js as [|j js IH]; intros Hjs bases cd.
  - simpl. rewrite app_nil_r, Z.mul_1_r. reflexivity.
  - simpl map. simpl bases_loop.
    rewrite lagrange_basis_int by (apply Hjs; left; reflexivity).
    cbn [Py.bind]. rewrite IH by (intros k Hk; apply Hjs; right; exact Hk).
    rewrite <- app_assoc. simpl. f_equal. f_equal. ring.
Qed.

Lemma range_0 (n : nat) : range 0 (Z.of_nat n) = map Z.of_nat (seq 0 n).
Proof.
  unfold range. rewrite Z.sub_0_r, Nat2Z.id.
  apply map_ext. intros k. lia.
Qed.

Lemma numerator_loop_spec (D : Z) (k : nat) :
  forall (j0 : nat) acc,
    (j0 + k = length subset)%nat ->
    (forall j, (j < length subset)%nat -> den_at xs j <> 0) ->
    numerator_loop (map (fun j => (num_at xs j, den_at xs j))
                      (seq 0 (length subset)))
      D (Z.of_nat j0) acc (skipn j0 subset) =
    Ok (acc + sum_over (seq j0 k)
                (fun j => nth j (map snd subset) 0 * num_at xs j
                          * (D / den_at xs j))).
Proof.
  induction k as [|k IH]; intros j0 acc Hlen Hden.
  - rewrite skipn_all2 by lia. simpl. rewrite Z.add_0_r. reflexivity.
  - assert (Hj0 : (j0 < length subset)%nat) by lia.
    pose proof (nth_error_subset j0 Hj0) as Hnth.
    assert (Hskip : skipn j0 subset =
                    (nth j0 xs 0, nth j0 (map snd subset) 0)
                    :: skipn (S j0) subset).
    { clear -Hnth. revert j0 Hnth.
      induction subset as [|s l IHl]; intros [|j0] H; try discriminate.
      - simpl in H. inversion H. reflexivity.
      - simpl in H. simpl. apply IHl. exact H. }
    rewrite Hskip. simpl numerator_loop.
    rewrite (index_nth _ j0 (num_at xs j0, den_at xs j0)).
    + cbn [Py.bind]. unfold Py.floordiv.
      destruct (Z.eqb_spec (den_at xs j0) 0) as [E|_];
        [exfalso; apply (Hden j0 Hj0); exact E|].
      cbn [Py.bind].
      replace (Z.of_nat j0 + 1) with (Z.of_nat (S j0)) by lia.
      rewrite IH by (assumption || lia).
      simpl. f_equal. ring.
    + rewrite nth_error_map, nth_error_seq.
      destruct (Nat.ltb_spec j0 (length subset)); [reflexivity|lia].
Qed.

End Basis.

(** ** Integer-mode [reconstruct] *)

Section ReconstructInt.

Import ISS Lagrange.

(** The two loops of the integer branch compute the common denominator
    and the accumulated numerator of the Lagrange formula. *)
Lemma reconstruct_int_loops (subset : list (Z * Z)) :
  NoDup (map fst subset) ->
  let xs := map fst subset in
  let bases := map (fun j => (num_at xs j, den_at xs j))
                 (seq 0 (length subset)) in
  bases_loop subset (range 0 (Py.len subset)) [] 1
  = Ok (bases, common_den xs) /\
  numerator_loop bases (common_den xs) 0 0 subset
  = Ok (numerator xs (map snd subset)).
Proof.
  intros Hnd xs bases. subst xs bases. split.
  - unfold Py.len. rewrite range_0.
    rewrite (bases_loop_spec subset Hnd).
    + simpl app. rewrite Z.mul_1_l. unfold common_den.
      rewrite length_map. reflexivity.
    + intros j Hj. apply in_seq in Hj. lia.
  - pose proof (numerator_loop_spec subset (common_den (map fst subset))
                  (length subset) 0 0 ltac:(lia)) as H.
    simpl skipn in H. simpl Z.of_nat in H. rewrite H.
    + unfold numerator. rewrite length_map, Z.add_0_l. reflexivity.
    + intros j Hj. apply den_at_nonzero; [exact Hnd|].
      rewrite length_map. exact Hj.
Qed.

(** Shares that are evaluations of one polynomial. *)
Lemma reconstruct_int_exact (shares : list (Z * Z)) (t : Z) (coeffs : list Z) :
  NoDup (map fst shares) ->
  Py.len shares = t + 1 ->
  (length coeffs <= length shares)%nat ->
  map snd shares = map (eval coeffs) (map fst shares) ->
  reconstruct_path shares t None = Ok (eval coeffs 0, Some ExactDivision).
Proof.
  intros Hnd Hlen Hdeg Hys. unfold reconstruct_path.
  destruct (Z.ltb_spec (Py.len shares) (t + 1)); [lia|].
  assert (Hsub : Py.slice_to shares (t + 1) = shares).
  { rewrite slice_to_nonneg by (unfold Py.len in Hlen; lia).
    rewrite <- Hlen. unfold Py.len. rewrite Nat2Z.id. apply firstn_all. }
  rewrite Hsub.
  destruct (reconstruct_int_loops shares Hnd) as [Hbases Hnum].
  rewrite Hbases. cbn [Py.bind]. rewrite Hnum. cbn [Py.bind].
  rewrite Hys, lagrange_at_zero
    by (assumption || (rewrite length_map; assumption)).
  pose proof (common_den_nonzero (map fst shares) Hnd) as HD.
  unfold Py.mod_, Py.floordiv.
  destruct (Z.eqb_spec (common_den (map fst shares)) 0); [contradiction|].
  cbn [Py.bind]. rewrite Z.mul_comm, Z.mod_mul by assumption.
  cbn [Z.eqb negb]. cbn [Py.bind]. rewrite Z.div_mul by assumption.
  reflexivity.
Qed.

End ReconstructInt.

(** C9: in integer mode, for [t + 1] shares [(x, f(x))] at pairwise
    distinct points of one polynomial [f] with integer coefficients and
    degree at most [t], the accumulated Lagrange numerator is the common
    denominator times [f(0)], hence exactly divisible by it; [reconstruct]
    returns [f(0)] by the exact division and never by the rounding
    fallback. *)
Theorem reconstruct_int_never_rounds
  (points coeffs : list Z) (t : Z) :
  NoDup points ->
  Py.len points = t + 1 ->
  Py.len coeffs <= t + 1 ->
  let shares := map (fun x => (x, ISS.eval coeffs x)) points in
  exists bases common_den numerator,
    ISS.bases_loop shares (ISS.range 0 (Py.len shares)) [] 1
    = Ok (bases, common_den) /\
    ISS.numerator_loop bases common_den 0 0 shares = Ok numerator /\
    common_den <> 0 /\
    numerator mod common_den = 0 /\
    numerator / common_den = ISS.eval coeffs 0 /\
    ISS.reconstruct_path shares t None
    = Ok (ISS.eval coeffs 0, Some ISS.ExactDivision) /\
    ISS.reconstruct shares t None = Ok (ISS.eval coeffs 0).
Proof.
  intros Hnd Hlen Hdeg shares.
  assert (Hfst : map fst shares = points).
  { unfold shares. rewrite map_map. simpl. apply map_id. }
  assert (Hsnd : map snd shares = map (ISS.eval coeffs) (map fst shares)).
  { rewrite Hfst. unfold shares. rewrite map_map. reflexivity. }
  assert (Hnd' : NoDup (map fst shares)) by (rewrite Hfst; exact Hnd).
  assert (Hlen' : Py.len shares = t + 1).
  { unfold shares, Py.len in *. rewrite length_map. exact Hlen. }
  assert (Hdeg' : (length coeffs <= length shares)%nat).
  { unfold Py.len in *. lia. }
  destruct (reconstruct_int_loops shares Hnd') as [Hbases Hnum].
  pose proof (common_den_nonzero _ Hnd') as HD.
  pose proof (lagrange_at_zero (map fst shares) coeffs Hnd'
                ltac:(rewrite length_map; exact Hdeg')) as Hlag.
  rewrite <- Hsnd in Hlag.
  pose proof (reconstruct_int_exact shares t coeffs Hnd' Hlen' Hdeg' Hsnd)
    as Hpath.
  eexists _, _, _. split; [exact Hbases|]. split; [exact Hnum|].
  split; [exact HD|]. rewrite Hlag.
  split; [rewrite Z.mul_comm; apply Z.mod_mul; exact HD|].
  split; [rewrite Z.mul_comm; apply Z.div_mul; exact HD|].
  split; [exact Hpath|].
  unfold ISS.reconstruct. rewrite Hpath. reflexivity.
Qed.

Lemma reconstruct_int_never_rounds_witness :
  ISS.reconstruct [(2, 55); (5, 127); (9, 279)] 2 None = Ok 27.
Proof.
  assert (Hnd : NoDup [2; 5; 9])
    by (repeat constructor; simpl; intuition discriminate).
  assert (Hlen : Py.len [2; 5; 9] = 2 + 1) by reflexivity.
  assert (Hdeg : Py.len [27; 10; 2] <= 2 + 1) by (vm_compute; discriminate).
  destruct (reconstruct_int_never_rounds [2; 5; 9] [27; 10; 2] 2 Hnd Hlen Hdeg)
    as (b & d & n & _ & _ & _ & _ & _ & _ & Hrec).
  exact Hrec.
Defined.

Example reconstruct_rounding_fallback :
  ISS.reconstruct_path [(1, 0); (3, 1)] 1 None
  = Ok (0, Some ISS.RoundingFallback).
Proof. vm_compute. reflexivity. Qed.

(** ** [share] *)

Section Share.

Import ISS.

Lemma eval_loop_spec (i : Z) (coeffs : list Z) :
  forall y xi, eval_loop i y xi coeffs = y + xi * eval coeffs i.
Proof.
  induction coeffs as [|a rest IH]; intros y xi; simpl; [lia|].
  rewrite IH. ring.
Qed.

Lemma share_points_int (coeffs points : list Z) :
  share_points coeffs None points
  = Ok (map (fun i => (i, eval coeffs i)) points).
Proof.
  induction points as [|i rest IH]; [reflexivity|].
  simpl. rewrite IH. cbn [Py.bind].
  rewrite eval_loop_spec. do 3 f_equal. lia.
Qed.

Lemma share_points_mod (coeffs points : list Z) (p : Z) :
  p <> 0 ->
  share_points coeffs (Some p) points
  = Ok (map (fun i => (i, eval coeffs i mod p)) points).
Proof.
  intros Hp. induction points as [|i rest IH]; [reflexivity|].
  simpl. rewrite IH. unfold Py.mod_.
  destruct (Z.eqb_spec p 0); [contradiction|]. cbn [Py.bind].
  rewrite eval_loop_spec. do 4 f_equal. lia.
Qed.

Lemma length_range (a b : Z) : length (range a b) = Z.to_nat (b - a).
Proof. unfold range. rewrite length_map, length_seq. reflexivity. Qed.

Lemma NoDup_range (a b : Z) : NoDup (range a b).
Proof.
  unfold range. apply Finite.Injective_map_NoDup; [|apply seq_NoDup].
  intros x y H. lia.
Qed.

Lemma in_range_bounds (a b x : Z) : In x (range a b) -> a <= x < b.
Proof.
  unfold range. intros H. apply in_map_iff in H.
  destruct H as (k & <- & Hk). apply in_seq in Hk. lia.
Qed.

Lemma firstn_seq_le (k n start : nat) :
  (k <= n)%nat -> firstn k (seq start n) = seq start k.
Proof.
  revert n start. induction k as [|k IH]; intros n start H; [reflexivity|].
  destruct n as [|n]; [lia|]. simpl. f_equal. apply IH. lia.
Qed.

Lemma firstn_range (a b c : Z) :
  a <= c <= b -> firstn (Z.to_nat (c - a)) (range a b) = range a c.
Proof.
  intros H. unfold range. rewrite firstn_map, firstn_seq_le by lia.
  reflexivity.
Qed.

End Share.

(** ** Modular-mode [reconstruct] *)

Section ModularSums.

Import ISS Lagrange.

Variable p : Z.
Hypothesis p_prime : Z.prime p.

Lemma prime_nonzero : p <> 0.
Proof. pose proof (Z.prime_ge_2 p p_prime). lia. Qed.

Lemma mul_mod_nonzero (a b : Z) :
  a mod p <> 0 -> b mod p <> 0 -> (a * b) mod p <> 0.
Proof.
  intros Ha Hb H. pose proof prime_nonzero as Hp.
  apply Z.mod_divide in H; [|exact Hp].
  apply (Z.divide_prime_mul a b p p_prime) in H.
  destruct H as [H | H]; apply Z.mod_divide in H; auto.
Qed.

Lemma lin_prod_mod_nonzero (X : Z) (xs : list Z) :
  (forall x, In x xs -> (X - x) mod p <> 0) -> lin_prod X xs mod p <> 0.
Proof.
  pose proof (Z.prime_ge_2 p p_prime) as Hp.
  induction xs as [|x xs IH]; intros H; simpl.
  - rewrite Z.mod_1_l by lia. lia.
  - apply mul_mod_nonzero.
    + apply H. left. reflexivity.
    + apply IH. intros y Hy. apply H. right. exact Hy.
Qed.

Lemma prod_over_mod_nonzero (js : list nat) (F : nat -> Z) :
  (forall j, In j js -> F j mod p <> 0) -> prod_over js F mod p <> 0.
Proof.
  pose proof (Z.prime_ge_2 p p_prime) as Hp.
  induction js as [|j js IH]; intros H; simpl.
  - rewrite Z.mod_1_l by lia. lia.
  - apply mul_mod_nonzero.
    + apply H. left. reflexivity.
    + apply IH. intros k Hk. apply H. right. exact Hk.
Qed.

Lemma sum_over_mod_ext (js : list nat) (F G : nat -> Z) :
  (forall j, In j js -> F j mod p = G j mod p) ->
  sum_over js F mod p = sum_over js G mod p.
Proof.
  pose proof prime_nonzero as Hp.
  induction js as [|j js IH]; intros H; [reflexivity|]. simpl.
  rewrite Z.add_mod by exact Hp.
  rewrite (H j) by (left; reflexivity).
  rewrite IH by (intros k Hk; apply H; right; exact Hk).
  rewrite <- Z.add_mod by exact Hp. reflexivity.
Qed.

Lemma sum_over_scale (c : Z) (js : list nat) (F : nat -> Z) :
  c * sum_over js F = sum_over js (fun j => c * F j).
Proof.
  induction js as [|j js IH]; simpl; [ring|]. rewrite <- IH. ring.
Qed.

Lemma mod_term_cong (a b c : Z) :
  ((a mod p * (b mod p)) mod p * c) mod p = (a * b * c) mod p.
Proof.
  pose proof prime_nonzero as Hp.
  rewrite <- (Z.mul_mod a b) by exact Hp.
  rewrite Z.mul_mod_idemp_l by exact Hp. reflexivity.
Qed.

(** Fermat's little theorem gives the inverse that [reconstruct] uses. *)
Lemma fermat_inverse (d : Z) :
  d mod p <> 0 -> (d * ((d mod p) ^ (p - 2) mod p)) mod p = 1.
Proof.
  intros Hd. pose proof (Z.prime_ge_2 p p_prime) as Hp.
  rewrite Z.mul_mod_idemp_r by lia.
  rewrite <- Z.mul_mod_idemp_l by lia.
  rewrite <- Z.pow_succ_r by lia.
  replace (Z.succ (p - 2)) with (p - 1) by lia.
  apply ZmodInv.Z.fermat_nz; [exact p_prime|].
  rewrite Z.mod_mod by lia. exact Hd.
Qed.

(** The Lagrange identity modulo a prime that divides no denominator. *)
Lemma lagrange_at_zero_mod (xs coeffs : list Z) :
  NoDup xs -> (length coeffs <= length xs)%nat ->
  (forall j, (j < length xs)%nat -> den_at xs j mod p <> 0) ->
  sum_over (seq 0 (length xs))
    (mod_term p xs (map (fun x => eval coeffs x mod p) xs)) mod p
  = eval coeffs 0 mod p.
Proof.
  intros Hnd Hdeg Hden.
  pose proof (Z.prime_ge_2 p p_prime) as Hp.
  set (n := length xs).
  set (inv := fun j => (den_at xs j mod p) ^ (p - 2) mod p).
  set (S := sum_over (seq 0 n)
              (fun j => nth j (map (eval coeffs) xs) 0 * num_at xs j * inv j)).
  (* the code's sum is congruent to S *)
  assert (HA : sum_over (seq 0 n)
                 (mod_term p xs (map (fun x => eval coeffs x mod p) xs)) mod p
               = S mod p).
  { apply sum_over_mod_ext. intros j Hj. apply in_seq in Hj.
    unfold mod_term. fold (inv j).
    rewrite (nth_indep (map (fun x => eval coeffs x mod p) xs) 0
               ((fun x => eval coeffs x mod p) 0))
      by (rewrite length_map; fold n; lia).
    rewrite (nth_indep (map (eval coeffs) xs) 0 (eval coeffs 0))
      by (rewrite length_map; fold n; lia).
    rewrite (map_nth (fun x => eval coeffs x mod p)), (map_nth (eval coeffs)).
    apply mod_term_cong. }
  (* D * S is congruent to D * f(0) *)
  assert (HB : (common_den xs * S) mod p
               = (common_den xs * eval coeffs 0) mod p).
  { rewrite <- (lagrange_at_zero xs coeffs Hnd Hdeg).
    unfold S, numerator. fold n. rewrite sum_over_scale.
    apply sum_over_mod_ext. intros j Hj. apply in_seq in Hj.
    pose proof (common_den_cancel xs j Hnd ltac:(fold n; lia)) as Hc.
    rewrite <- Hc at 1.
    replace (common_den xs / den_at xs j * den_at xs j
             * (nth j (map (eval coeffs) xs) 0 * num_at xs j * inv j))
      with (nth j (map (eval coeffs) xs) 0 * num_at xs j
            * (common_den xs / den_at xs j) * (den_at xs j * inv j)) by ring.
    rewrite <- Z.mul_mod_idemp_r by lia. unfold inv.
    rewrite fermat_inverse by (apply Hden; fold n; lia).
    rewrite Z.mul_1_r. reflexivity. }
  (* D is invertible modulo p *)
  assert (HD : Z.coprime (common_den xs) p).
  { unfold Z.coprime. rewrite Z.gcd_comm. apply Z.coprime_prime_l; [exact p_prime|].
    intros Hdiv. apply Z.mod_divide in Hdiv; [|lia].
    revert Hdiv. apply prod_over_mod_nonzero. intros j Hj.
    apply in_seq in Hj. apply Hden. lia. }
  rewrite HA. apply Z.cong_iff_0.
  apply (Z.cong_mul_cancel_r_coprime _ (common_den xs) p); [lia|exact HD|].
  apply Z.cong_iff_0 in HB.
  replace ((S - eval coeffs 0) * common_den xs)
    with (common_den xs * S - common_den xs * eval coeffs 0) by ring.
  exact HB.
Qed.

End ModularSums.

Section ReconstructMod.

Import ISS Lagrange.

Variable subset : list (Z * Z).
Variable p : Z.
Hypothesis distinct : NoDup (map fst subset).
Hypothesis p_ge_2 : 2 <= p.

Lemma skipn_cons_nth (j0 : nat) :
  (j0 < length subset)%nat ->
  skipn j0 subset =
  (nth j0 (map fst subset) 0, nth j0 (map snd subset) 0)
  :: skipn (S j0) subset.
Proof.
  intros Hj0. pose proof (nth_error_subset subset j0 Hj0) as Hnth.
  clear -Hnth. revert j0 Hnth.
  induction subset as [|s l IHl]; intros [|j0] H; try discriminate.
  - simpl in H. inversion H. reflexivity.
  - simpl in H. simpl. apply IHl. exact H.
Qed.

Lemma reconstruct_mod_loop_spec (k : nat) :
  forall (j0 : nat) secret,
    (j0 + k = length subset)%nat ->
    secret mod p = secret ->
    reconstruct_mod_loop subset p (Z.of_nat j0) secret (skipn j0 subset) =
    Ok ((secret
         + sum_over (seq j0 k)
             (mod_term p (map fst subset) (map snd subset))) mod p).
Proof.
  induction k as [|k IH]; intros j0 secret Hlen Hsec.
  - rewrite skipn_all2 by lia. simpl. rewrite Z.add_0_r, Hsec. reflexivity.
  - assert (Hj0 : (j0 < length subset)%nat) by lia.
    rewrite (skipn_cons_nth j0 Hj0). simpl reconstruct_mod_loop.
    rewrite (lagrange_basis_mod subset distinct j0 p Hj0 ltac:(lia)).
    cbn [Py.bind]. rewrite pow3_nonneg by lia. cbn [Py.bind].
    unfold Py.mod_. destruct (Z.eqb_spec p 0); [lia|]. cbn [Py.bind].
    replace (Z.of_nat j0 + 1) with (Z.of_nat (S j0)) by lia.
    rewrite IH; [|lia|apply Z.mod_mod; lia].
    f_equal. simpl sum_over. rewrite Z.add_mod_idemp_l by lia.
    unfold mod_term at 2. f_equal. ring.
Qed.

End ReconstructMod.

Section ShareReconstruct.

Import ISS Lagrange.

Variable rnd : draws.
Variables secret n t : Z.
Hypothesis n_ge_2 : 2 <= n.
Hypothesis t_range : 1 <= t < n.

Let coeffs : list Z := share_coeffs rnd secret t.
Let points : list Z := range 1 (t + 2).

Lemma share_coeffs_at_0 : eval coeffs 0 = secret.
Proof. unfold coeffs, share_coeffs. simpl. lia. Qed.

Lemma length_share_coeffs : length coeffs = Z.to_nat (t + 1).
Proof.
  unfold coeffs, share_coeffs. simpl. rewrite length_map, length_seq. lia.
Qed.

Lemma length_points : length points = Z.to_nat (t + 1).
Proof. unfold points. rewrite length_range. f_equal. lia. Qed.

Lemma share_int :
  share rnd secret n t None
  = Ok (map (fun i => (i, eval coeffs i)) (range 1 (n + 1))).
Proof.
  unfold share.
  destruct (Z.ltb_spec n 1); [lia|].
  destruct (Z.ltb_spec t 1); [lia|].
  destruct (Z.leb_spec n t); [lia|].
  apply share_points_int.
Qed.

Lemma share_mod (p : Z) :
  p <> 0 ->
  share rnd secret n t (Some p)
  = Ok (map (fun i => (i, eval coeffs i mod p)) (range 1 (n + 1))).
Proof.
  intros Hp. unfold share.
  destruct (Z.ltb_spec n 1); [lia|].
  destruct (Z.ltb_spec t 1); [lia|].
  destruct (Z.leb_spec n t); [lia|].
  apply share_points_mod. exact Hp.
Qed.

Lemma first_shares {A : Type} (f : Z -> A) :
  Py.slice_to (map f (range 1 (n + 1))) (t + 1) = map f points.
Proof.
  rewrite slice_to_nonneg by lia. rewrite firstn_map. f_equal.
  replace (Z.to_nat (t + 1)) with (Z.to_nat ((t + 2) - 1)) by lia.
  apply firstn_range. lia.
Qed.

Lemma share_reconstruct_int :
  reconstruct (map (fun i => (i, eval coeffs i)) points) t None = Ok secret.
Proof.
  unfold reconstruct.
  rewrite (reconstruct_int_exact _ t coeffs).
  - cbn [Py.bind]. rewrite share_coeffs_at_0. reflexivity.
  - rewrite map_map. simpl. rewrite map_id. apply NoDup_range.
  - unfold Py.len. rewrite length_map, length_points. lia.
  - rewrite length_map, length_points, length_share_coeffs. lia.
  - rewrite !map_map. reflexivity.
Qed.

Lemma points_incongruent (p : Z) (j : nat) :
  Z.prime p -> t < p -> (j < length points)%nat ->
  den_at points j mod p <> 0.
Proof.
  intros Hp Htp Hj. apply lin_prod_mod_nonzero; [exact Hp|].
  intros x Hx.
  assert (Hne : nth j points 0 <> x).
  { intros E. apply (remove_nth_self j points (NoDup_range _ _) Hj).
    rewrite E. exact Hx. }
  assert (Hxj : 1 <= nth j points 0 < t + 2)
    by (apply in_range_bounds, nth_In; exact Hj).
  assert (Hin : In x points).
  { unfold remove_nth in Hx. apply in_app_or in Hx. destruct Hx as [H | H].
    - rewrite <- (firstn_skipn j points). apply in_or_app. left. exact H.
    - rewrite <- (firstn_skipn (S j) points). apply in_or_app. right. exact H. }
  assert (Hxr : 1 <= x < t + 2) by (apply in_range_bounds; exact Hin).
  intros Hmod. apply Z.mod_divide in Hmod; [|lia].
  destruct Hmod as [c Hc].
  assert (Hcases : c = 0 \/ 1 <= c \/ c <= -1) by lia.
  destruct Hcases as [-> | [Hc1 | Hc1]]; nia.
Qed.

Lemma share_reconstruct_mod (p : Z) :
  Z.prime p -> t < p ->
  reconstruct (map (fun i => (i, eval coeffs i mod p)) points) t (Some p)
  = Ok (secret mod p).
Proof.
  intros Hp Htp. pose proof (Z.prime_ge_2 p Hp) as Hp2.
  set (shares := map (fun i => (i, eval coeffs i mod p)) points).
  assert (Hfst : map fst shares = points).
  { unfold shares. rewrite map_map. simpl. apply map_id. }
  assert (Hsnd : map snd shares = map (fun x => eval coeffs x mod p) points).
  { unfold shares. rewrite map_map. reflexivity. }
  assert (Hnd : NoDup (map fst shares))
    by (rewrite Hfst; apply NoDup_range).
  assert (Hlen : length shares = Z.to_nat (t + 1)).
  { unfold shares. rewrite length_map. apply length_points. }
  unfold reconstruct, reconstruct_path.
  destruct (Z.ltb_spec (Py.len shares) (t + 1));
    [unfold Py.len in *; lia|].
  assert (Hsub : Py.slice_to shares (t + 1) = shares).
  { rewrite slice_to_nonneg by lia. rewrite <- Hlen. apply firstn_all. }
  rewrite Hsub.
  pose proof (reconstruct_mod_loop_spec shares p Hnd Hp2 (length shares) 0 0
                ltac:(lia) ltac:(apply Z.mod_0_l; lia)) as Hloop.
  simpl skipn in Hloop. simpl Z.of_nat in Hloop. rewrite Hloop.
  cbn [Py.bind]. f_equal. rewrite Z.add_0_l, Hfst, Hsnd.
  replace (length shares) with (length points)
    by (rewrite Hlen; apply length_points).
  rewrite (lagrange_at_zero_mod p Hp points coeffs).
  - rewrite share_coeffs_at_0. reflexivity.
  - apply NoDup_range.
  - rewrite length_points, length_share_coeffs. lia.
  - intros j Hj. apply points_incongruent; assumption.
Qed.

End ShareReconstruct.

(** C1 (amended): for every integer secret [s], [n >= 2], [1 <= t < n] and
    every choice of the random coefficients, reconstructing from the first
    [t + 1] shares returns [s] in integer mode; in modular mode with a
    prime [p > t] it returns [s mod p], which is [s] exactly when
    [0 <= s < p]; in particular [share(12345, n=5, t=2)] followed by
    [reconstruct(shares[:3], t=2)] yields [12345]. *)
Theorem share_then_reconstruct :
  (forall (rnd : ISS.draws) (secret n t : Z),
     2 <= n -> 1 <= t < n ->
     (exists shares,
        ISS.share rnd secret n t None = Ok shares /\
        ISS.reconstruct (Py.slice_to shares (t + 1)) t None = Ok secret) /\
     (forall p, Z.prime p -> t < p ->
        exists shares,
          ISS.share rnd secret n t (Some p) = Ok shares /\
          ISS.reconstruct (Py.slice_to shares (t + 1)) t (Some p)
          = Ok (secret mod p) /\
          (0 <= secret < p -> secret mod p = secret))) /\
  (forall rnd : ISS.draws,
     exists shares,
       ISS.share rnd 12345 5 2 None = Ok shares /\
       ISS.reconstruct (Py.slice_to shares 3) 2 None = Ok 12345).
Proof.
  assert (Hint : forall rnd secret n t, 2 <= n -> 1 <= t < n ->
            exists shares,
              ISS.share rnd secret n t None = Ok shares /\
              ISS.reconstruct (Py.slice_to shares (t + 1)) t None = Ok secret).
  { intros rnd secret n t Hn Ht. eexists. split.
    - apply share_int; assumption.
    - rewrite (first_shares n t Ht).
      apply (share_reconstruct_int rnd secret n t Ht). }
  split.
  - intros rnd secret n t Hn Ht. split; [apply Hint; assumption|].
    intros p Hp Htp. pose proof (Z.prime_ge_2 p Hp). eexists. split; [|split].
    + apply share_mod; (assumption || lia).
    + rewrite (first_shares n t Ht).
      apply (share_reconstruct_mod rnd secret n t Ht p Hp Htp).
    + intros Hs. apply Z.mod_small. exact Hs.
  - intros rnd. apply (Hint rnd 12345 5 2); lia.
Qed.

Lemma prime_7 : Z.prime 7.
Proof.
  split; [lia|]. intros k Hk Hdiv.
  apply Z.mod_divide in Hdiv; [|lia].
  assert (Hc : k = 2 \/ k = 3 \/ k = 4 \/ k = 5 \/ k = 6) by lia.
  destruct Hc as [-> | [-> | [-> | [-> | ->]]]]; discriminate Hdiv.
Qed.

Lemma prime_5 : Z.prime 5.
Proof.
  split; [lia|]. intros k Hk Hdiv.
  apply Z.mod_divide in Hdiv; [|lia].
  assert (Hc : k = 2 \/ k = 3 \/ k = 4) by lia.
  destruct Hc as [-> | [-> | ->]]; discriminate Hdiv.
Qed.

(** C1, as stated, fails in modular mode: the reconstruction is the secret
    reduced modulo the prime, so the secret [-1] comes back as [4] modulo
    [5] and the secret [12345] as [4] modulo [7]. *)
Lemma share_then_reconstruct_mod_reduces :
  (Z.prime 5 /\
   exists shares,
     ISS.share (fun _ => (2, 0)) (-1) 2 1 (Some 5) = Ok shares /\
     ISS.reconstruct (Py.slice_to shares 2) 1 (Some 5) = Ok 4) /\
  (Z.prime 7 /\
   exists shares,
     ISS.share (fun _ => (0, 1)) 12345 5 2 (Some 7) = Ok shares /\
     ISS.reconstruct (Py.slice_to shares 3) 2 (Some 7) = Ok 4).
Proof.
  split.
  - split; [exact prime_5|].
    exists [(1, 1); (2, 3)]. split; vm_compute; reflexivity.
  - split; [exact prime_7|].
    exists [(1, 6); (2, 3); (3, 2); (4, 3); (5, 6)].
    split; vm_compute; reflexivity.
Qed.

(** ** Quantisation: [quantize_value] and [dequantize_value] *)

Section FloatToInt.

Import PyFloat.

Lemma pos_of_pow2 (e : Z) : e < 0 -> Zpos (Z.to_pos (2 ^ (- e))) = 2 ^ (- e).
Proof. intros He. apply Z2Pos.id. apply pow2_pos. lia. Qed.

(** [compare_int] compares the exact value of the float. *)
Lemma compare_int_exact (f : spec_float) (z : Z) (r : Q) :
  to_Q f = Some r -> compare_int f z = Some (r ?= inject_Z z)%Q.
Proof.
  destruct f as [s | s | | s m e]; simpl; try discriminate.
  - intros H. inversion H. subst r. unfold Qcompare. simpl.
    rewrite Z.mul_1_r. reflexivity.
  - intros H. inversion H. subst r. unfold scaled.
    destruct (Z.leb_spec 0 e) as [He | He]; unfold Qcompare; simpl.
    + rewrite !Z.mul_1_r. reflexivity.
    + rewrite Z.mul_1_r, pos_of_pow2 by lia. reflexivity.
Qed.

(** Rounding to the nearest integer moves by at most one half. *)
Lemma round_half_even_near (m e : Z) :
  (Qabs (inject_Z (round_half_even m e) - scaled m e) <= 1 # 2)%Q.
Proof.
  unfold round_half_even, scaled.
  destruct (Z.leb_spec 0 e) as [He | He].
  - unfold Qle, Qabs, Qminus, Qplus, Qopp, inject_Z. cbn [Qnum Qden].
    generalize (m * 2 ^ e). intros a. change (Z.pos (1 * 1)) with 1. lia.
  - pose proof (pow2_pos (- e) ltac:(lia)) as Hd.
    pose proof (pos_of_pow2 e He) as HD.
    pose proof (Z.div_mod m (2 ^ (- e)) ltac:(lia)) as Hdm.
    pose proof (Z.mod_pos_bound m (2 ^ (- e)) Hd) as Hr.
    set (d := 2 ^ (- e)) in *. set (q := m / d) in *. set (r := m mod d) in *.
    unfold Qle, Qabs, Qminus, Qplus, Qopp, inject_Z. cbn [Qnum Qden].
    rewrite Pos.mul_1_l, HD.
    destruct (Z.compare_spec (2 * r) d) as [Heq | Hlt | Hgt].
    + destruct (Z.even q); nia.
    + nia.
    + nia.
Qed.

(** A value strictly between two integers is rounded between them. *)
Lemma round_half_even_between (m e lo hi : Z) :
  (if 0 <=? e then m * 2 ^ e ?= hi else m ?= hi * 2 ^ (- e)) = Lt ->
  (if 0 <=? e then m * 2 ^ e ?= lo else m ?= lo * 2 ^ (- e)) = Gt ->
  lo <= round_half_even m e <= hi.
Proof.
  unfold round_half_even.
  destruct (Z.leb_spec 0 e) as [He | He]; intros Hhi Hlo.
  - apply -> Z.compare_lt_iff in Hhi. apply -> Z.compare_gt_iff in Hlo.
    revert Hhi Hlo. generalize (m * 2 ^ e). intros a Hhi Hlo. lia.
  - apply -> Z.compare_lt_iff in Hhi. apply -> Z.compare_gt_iff in Hlo.
    pose proof (pow2_pos (- e) ltac:(lia)) as Hd.
    pose proof (Z.div_mod m (2 ^ (- e)) ltac:(lia)) as Hdm.
    pose proof (Z.mod_pos_bound m (2 ^ (- e)) Hd) as Hr.
    set (d := 2 ^ (- e)) in *. set (q := m / d) in *. set (r := m mod d) in *.
    assert (lo <= q) by nia. assert (q + 1 <= hi) by nia.
    destruct (2 * r ?= d); [destruct (Z.even q)| |]; lia.
Qed.

End FloatToInt.

Section Quantize.

Import PyFloat Encoding.

Lemma near_equal (z : Z) (r : Q) :
  (inject_Z z <= r)%Q -> (r <= inject_Z z)%Q ->
  (Qabs (inject_Z z - r) <= 1 # 2)%Q.
Proof.
  destruct r as [rn rd].
  unfold Qle, Qabs, Qminus, Qplus, Qopp, inject_Z. cbn [Qnum Qden].
  rewrite Pos.mul_1_l. generalize (z * Z.pos rd). intros a H1 H2. lia.
Qed.

(** Clamping a float between two integers, then rounding. *)
Lemma clamp_round (x : spec_float) (lo hi : Z) :
  lo < hi -> lo <= 0 <= hi ->
  exists q,
    round_number (max_int_number lo (min_int_float hi x)) = Ok q /\
    lo <= q <= hi /\
    forall r, to_Q x = Some r ->
              (inject_Z lo <= r)%Q /\ (r <= inject_Z hi)%Q ->
              (Qabs (inject_Z q - r) <= 1 # 2)%Q.
Proof.
  intros Hlohi Hzero.
  assert (Hhi_branch :
            match compare_int x hi with Some Lt => False | _ => True end ->
            exists q,
              round_number (max_int_number lo (min_int_float hi x)) = Ok q /\
              lo <= q <= hi /\
              forall r, to_Q x = Some r ->
                        (inject_Z lo <= r)%Q /\ (r <= inject_Z hi)%Q ->
                        (Qabs (inject_Z q - r) <= 1 # 2)%Q).
  { intros Hcmp. exists hi.
    assert (E : min_int_float hi x = Int hi).
    { unfold min_int_float, lt_int. destruct (compare_int x hi) as [[| |]|];
        try reflexivity. contradiction. }
    rewrite E. simpl. destruct (Z.ltb_spec lo hi); [|lia].
    split; [reflexivity|]. split; [lia|].
    intros r Hr [Hlo Hhi]. apply near_equal; [|exact Hhi].
    rewrite (compare_int_exact x hi r Hr) in Hcmp.
    apply Qnot_lt_le. intros Hlt. unfold Qlt in Hlt.
    unfold Qcompare in Hcmp. apply Z.compare_lt_iff in Hlt.
    rewrite Hlt in Hcmp. exact Hcmp. }
  destruct (compare_int x hi) as [[| |]|] eqn:Ehi;
    try (apply Hhi_branch; exact I).
  clear Hhi_branch.
  assert (Emin : min_int_float hi x = Float x).
  { unfold min_int_float, lt_int. rewrite Ehi. reflexivity. }
  rewrite Emin. simpl max_int_number. unfold gt_int.
  destruct (compare_int x lo) as [[| |]|] eqn:Elo.
  - (* x == lo *)
    exists lo. split; [reflexivity|]. split; [lia|].
    intros r Hr [Hlo Hhi]. apply near_equal; [exact Hlo|].
    rewrite (compare_int_exact x lo r Hr) in Elo. inversion Elo as [E].
    apply Qeq_alt in E. rewrite E. apply Qle_refl.
  - (* x < lo *)
    exists lo. split; [reflexivity|]. split; [lia|].
    intros r Hr [Hlo Hhi]. apply near_equal; [exact Hlo|].
    rewrite (compare_int_exact x lo r Hr) in Elo. inversion Elo as [E].
    apply Qlt_alt in E. apply Qlt_le_weak. exact E.
  - (* lo < x < hi: the float is rounded *)
    destruct x as [s | s | | s m e]; simpl in Ehi, Elo; try discriminate.
    + exists 0. split; [reflexivity|]. split; [lia|].
      intros r Hr _. simpl in Hr. inversion Hr. subst r.
      unfold Qle, Qabs; simpl; lia.
    + destruct s; discriminate.
    + exists (round_half_even (signed s m) e). split; [reflexivity|].
      inversion Ehi as [Ehi']. inversion Elo as [Elo'].
      split; [apply round_half_even_between; assumption|].
      intros r Hr _. simpl in Hr. inversion Hr. subst r.
      apply round_half_even_near.
  - (* NaN is excluded by the first comparison *)
    destruct x; simpl in Ehi, Elo; discriminate.
Qed.

Lemma quantize_value_clamps (value scale : spec_float) (bits : Z) :
  1 <= bits -> SFeqb scale zero = false ->
  quantize_value value bits scale =
  round_number (max_int_number (- 2 ^ (bits - 1))
                  (min_int_float (2 ^ (bits - 1) - 1) (div value scale))).
Proof.
  intros Hb Hs. unfold quantize_value.
  destruct (Z.ltb_spec bits 1); [lia|]. rewrite Hs.
  rewrite !shl_ok by lia. cbn [Py.bind]. rewrite !Z.mul_1_l. reflexivity.
Qed.

End Quantize.

Example quantize_2_25_by_half :
  Encoding.quantize_value (S754_finite false 5066549580791808 (-51)) 8
    (S754_finite false 4503599627370496 (-53)) = Ok 4.
Proof. reflexivity. Qed.


(** ** Rounding a product of binary64 floats

    The facts about [binary_round_aux] needed to bound
    [int(np.ceil(n * ratio))]: the rounded mantissa is the truncated one
    or its successor. *)

Section Binary64.

Import PyFloat.

Lemma digits2_bounds (m : positive) :
  2 ^ (Zpos (digits2_pos m) - 1) <= Zpos m < 2 ^ Zpos (digits2_pos m).
Proof.
  induction m as [m IH | m IH |]; cbn [digits2_pos].
  - rewrite Pos2Z.inj_succ.
    replace (Z.succ (Zpos (digits2_pos m)) - 1)
      with (Z.succ (Zpos (digits2_pos m) - 1)) by lia.
    rewrite !Z.pow_succ_r by lia. lia.
  - rewrite Pos2Z.inj_succ.
    replace (Z.succ (Zpos (digits2_pos m)) - 1)
      with (Z.succ (Zpos (digits2_pos m) - 1)) by lia.
    rewrite !Z.pow_succ_r by lia. lia.
  - simpl. lia.
Qed.

Lemma shr_1_m (mrs : shr_record) :
  0 <= shr_m mrs ->
  shr_m (shr_1 mrs) = shr_m mrs / 2 /\ 0 <= shr_m (shr_1 mrs).
Proof.
  destruct mrs as [m r s]. cbn [shr_m]. intros Hm. unfold shr_1.
  destruct m as [|p|p]; [| |lia].
  - simpl. split; [reflexivity|lia].
  - destruct p as [p|p|]; cbn [shr_m].
    + split; [|lia]. rewrite Pos2Z.inj_xI.
      apply (Z.div_unique _ _ _ 1); lia.
    + split; [|lia]. rewrite Pos2Z.inj_xO.
      apply (Z.div_unique _ _ _ 0); lia.
    + split; [reflexivity|lia].
Qed.

Lemma iter_shr_1_m (p : positive) :
  forall mrs,
    0 <= shr_m mrs ->
    shr_m (iter_pos shr_1 p mrs) = shr_m mrs / 2 ^ Zpos p /\
    0 <= shr_m (iter_pos shr_1 p mrs).
Proof.
  induction p as [p IH | p IH |]; intros mrs Hm; cbn [iter_pos].
  - destruct (shr_1_m mrs Hm) as [E1 H1].
    destruct (IH _ H1) as [E2 H2]. destruct (IH _ H2) as [E3 H3].
    split; [|exact H3]. rewrite E3, E2, E1.
    rewrite !Z.div_div by (try apply pow2_pos; lia).
    f_equal.
    replace (Zpos p~1) with (1 + Zpos p + Zpos p) by lia.
    rewrite !Z.pow_add_r by lia. change (2 ^ 1) with 2. ring.
  - destruct (IH _ Hm) as [E2 H2]. destruct (IH _ H2) as [E3 H3].
    split; [|exact H3]. rewrite E3, E2.
    rewrite !Z.div_div by (try apply pow2_pos; lia).
    f_equal.
    replace (Zpos p~0) with (Zpos p + Zpos p) by lia.
    rewrite !Z.pow_add_r by lia. ring.
  - destruct (shr_1_m mrs Hm) as [E1 H1]. split; [|exact H1].
    rewrite E1. reflexivity.
Qed.

Lemma shr_fexp_m (m e : Z) (l : location) :
  0 <= m ->
  shr_m (fst (shr_fexp prec emax m e l)) = m / 2 ^ shift_of m e /\
  snd (shr_fexp prec emax m e l) = e + shift_of m e.
Proof.
  intros Hm. unfold shr_fexp, SpecFloat.shr, shift_of.
  assert (Hrec : shr_m (shr_record_of_loc m l) = m).
  { destruct l as [|[| |]]; reflexivity. }
  destruct (fexp prec emax (Zdigits2 m + e) - e) as [|p|p] eqn:E.
  - cbn [fst snd]. rewrite Hrec. simpl. rewrite Z.div_1_r. split; lia.
  - cbn [fst snd].
    destruct (iter_shr_1_m p (shr_record_of_loc m l) ltac:(lia)) as [E1 _].
    rewrite E1, Hrec. rewrite Z.max_r by lia. split; reflexivity.
  - cbn [fst snd]. rewrite Hrec. rewrite Z.max_l by lia.
    simpl. rewrite Z.div_1_r. split; lia.
Qed.

Lemma round_nearest_even_bounds (m : Z) (l : location) :
  m <= round_nearest_even m l <= m + 1.
Proof.
  unfold round_nearest_even. destruct l as [|[| |]]; try lia.
  destruct (Z.even m); lia.
Qed.

End Binary64.

Section RoundedProduct.

Import PyFloat.

Lemma digits_le (p : positive) (k : Z) :
  0 <= k -> Zpos p < 2 ^ k -> Zpos (digits2_pos p) <= k.
Proof.
  intros Hk Hp. pose proof (digits2_bounds p) as [Hlow _].
  assert (H : 2 ^ (Zpos (digits2_pos p) - 1) < 2 ^ k) by lia.
  apply Z.pow_lt_mono_r_iff in H; lia.
Qed.

Lemma pow2_le_digits (p : positive) (k : Z) :
  k <= Zpos (digits2_pos p) - 1 -> 2 ^ k <= Zpos p.
Proof.
  intros Hk. pose proof (digits2_bounds p) as [Hlow _].
  destruct (Z_lt_le_dec k 0) as [Hneg | Hpos].
  - rewrite Z.pow_neg_r by assumption. lia.
  - pose proof (Z.pow_le_mono_r 2 k (Zpos (digits2_pos p) - 1) ltac:(lia) Hk).
    lia.
Qed.

(** One step of [binary_round_aux]: shifting to the canonical exponent
    and rounding keeps a positive mantissa positive and below any integer
    bound of the value. *)
Lemma shift_round_bounds (p : positive) (e N : Z) :
  e <= 0 -> -1074 - e <= 0 \/ 2 ^ (-1074 - e) <= Zpos p ->
  1 <= N < 2 ^ 53 -> Zpos p <= N * 2 ^ (- e) ->
  let s := shift_of (Zpos p) e in
  0 <= s /\ e + s <= 0 /\ -1074 <= e + s /\
  1 <= Zpos p / 2 ^ s /\
  Zpos p / 2 ^ s <= N * 2 ^ (- (e + s)) /\
  (Zpos p < N * 2 ^ (- e) -> Zpos p / 2 ^ s + 1 <= N * 2 ^ (- (e + s))).
Proof.
  intros He Hmin HN Hle s.
  pose proof (digits2_bounds p) as [Hdlow Hdhigh].
  set (d := Zpos (digits2_pos p)) in *.
  assert (Hd : d + e <= 53).
  { assert (Zpos p < 2 ^ (53 - e)).
    { replace (53 - e) with (53 + - e) by lia.
      rewrite Z.pow_add_r by lia.
      pose proof (pow2_pos (- e) ltac:(lia)). nia. }
    pose proof (digits_le p (53 - e) ltac:(lia) H). fold d in H0. lia. }
  assert (Hs : s = Z.max 0 (Z.max (d + e - 53) (-1074) - e)) by reflexivity.
  assert (Hs0 : 0 <= s) by lia.
  assert (Hpow_s : 2 ^ s <= Zpos p).
  { destruct (Z.max_spec 0 (Z.max (d + e - 53) (-1074) - e)) as [[_ E] | [_ E]];
      rewrite <- Hs in E.
    - destruct (Z.max_spec (d + e - 53) (-1074)) as [[_ E'] | [_ E']];
        rewrite E' in E.
      + destruct Hmin as [Hmin | Hmin]; [|rewrite E; exact Hmin].
        assert (s = 0) by lia. replace s with 0 by lia. simpl. lia.
      + rewrite E. apply pow2_le_digits. fold d. lia.
    - rewrite E. simpl. lia. }
  pose proof (pow2_pos s Hs0) as Hps.
  pose proof (pow2_pos (- (e + s)) ltac:(lia)) as Hpe.
  assert (Esplit : 2 ^ (- e) = 2 ^ (- (e + s)) * 2 ^ s).
  { rewrite <- Z.pow_add_r by lia. f_equal. lia. }
  pose proof (Z.mul_div_le (Zpos p) (2 ^ s) Hps) as Hfloor.
  assert (Hq1 : 1 <= Zpos p / 2 ^ s)
    by (apply Z.div_le_lower_bound; lia).
  split; [exact Hs0|]. split; [lia|]. split; [lia|]. split; [exact Hq1|].
  rewrite Esplit in Hle. split.
  - set (q := Zpos p / 2 ^ s) in *. nia.
  - intros Hlt. rewrite Esplit in Hlt.
    set (q := Zpos p / 2 ^ s) in *. nia.
Qed.

End RoundedProduct.

Section CeilOfProduct.

Import PyFloat.

(** Rounding a positive value below the integer [N < 2^53] (and not
    below the smallest positive float) gives a positive finite float that
    is at most [N]. *)
Lemma binary_round_aux_bounds (p : positive) (e N : Z) :
  e <= 0 -> -1074 - e <= 0 \/ 2 ^ (-1074 - e) <= Zpos p ->
  1 <= N < 2 ^ 53 -> Zpos p < N * 2 ^ (- e) ->
  exists m2 e2,
    binary_round_aux prec emax false (Zpos p) e loc_Exact
    = S754_finite false m2 e2 /\
    e2 <= 0 /\ Zpos m2 <= N * 2 ^ (- e2).
Proof.
  intros He Hmin HN Hlt. unfold binary_round_aux.
  destruct (shr_fexp_m (Zpos p) e loc_Exact ltac:(lia)) as [Hm1 He1].
  destruct (shr_fexp prec emax (Zpos p) e loc_Exact) as [mrs1 e1].
  cbn [fst snd] in Hm1, He1.
  destruct (shift_round_bounds p e N He Hmin HN ltac:(lia))
    as (Hs0 & He1le & He1min & Hq1 & _ & Hq1lt).
  specialize (Hq1lt Hlt). rewrite <- Hm1, <- He1 in *.
  pose proof (round_nearest_even_bounds (shr_m mrs1) (loc_of_shr_record mrs1))
    as Hrne.
  destruct (round_nearest_even (shr_m mrs1) (loc_of_shr_record mrs1))
    as [|p1|p1]; [lia| |lia].
  destruct (shr_fexp_m (Zpos p1) e1 loc_Exact ltac:(lia)) as [Hm2 He2].
  destruct (shr_fexp prec emax (Zpos p1) e1 loc_Exact) as [mrs2 e2].
  cbn [fst snd] in Hm2, He2.
  destruct (shift_round_bounds p1 e1 N He1le ltac:(left; lia) HN ltac:(lia))
    as (Hs2 & He2le & _ & Hq2 & Hq2le & _).
  rewrite <- Hm2, <- He2 in *.
  destruct (shr_m mrs2) as [|m2|m2]; [lia| |lia].
  exists m2, e2.
  replace (e2 <=? emax - prec) with true
    by (symmetry; apply Z.leb_le; unfold emax, prec; lia).
  split; [reflexivity|]. split; assumption.
Qed.

(** [int(np.ceil(x))] of such a float lies between [1] and [N]. *)
Lemma ceil_bounds (m : positive) (e N : Z) :
  e <= 0 -> Zpos m <= N * 2 ^ (- e) ->
  exists c, ceil (S754_finite false m e) = Ok c /\ 1 <= c <= N.
Proof.
  intros He Hle. unfold ceil, signed, cond_Zopp.
  destruct (Z.leb_spec 0 e) as [H0 | H0].
  - assert (e = 0) by lia. subst e. simpl in *. eexists. split; [reflexivity|].
    rewrite Z.mul_1_r in *. lia.
  - eexists. split; [reflexivity|].
    pose proof (pow2_pos (- e) ltac:(lia)) as Hd.
    pose proof (Z.div_mod (- Zpos m) (2 ^ (- e)) ltac:(lia)) as Hdm.
    pose proof (Z.mod_pos_bound (- Zpos m) (2 ^ (- e)) Hd) as Hr.
    set (d := 2 ^ (- e)) in *. set (q := - Zpos m / d) in *.
    split; nia.
Qed.

End CeilOfProduct.

Section FloatOfInt.

Import PyFloat.

Lemma iter_xO_spec (p k : positive) :
  Zpos (Pos.iter xO p k) = Zpos p * 2 ^ Zpos k /\
  Zpos (digits2_pos (Pos.iter xO p k)) = Zpos (digits2_pos p) + Zpos k.
Proof.
  apply (Pos.iter_ind positive xO p
           (fun k a => Zpos a = Zpos p * 2 ^ Zpos k /\
                       Zpos (digits2_pos a) = Zpos (digits2_pos p) + Zpos k)).
  - split.
    + change (2 ^ 1) with 2. lia.
    + cbn [digits2_pos]. lia.
  - intros q a [Ha Hd]. split.
    + rewrite Pos2Z.inj_succ, Z.pow_succ_r by lia. lia.
    + cbn [digits2_pos]. lia.
Qed.

(** A mantissa of 53 bits at a representable exponent is not rounded. *)
Lemma binary_round_aux_canonical (m : positive) (e : Z) :
  Zpos (digits2_pos m) = 53 -> -1074 <= e <= 971 ->
  binary_round_aux prec emax false (Zpos m) e loc_Exact = S754_finite false m e.
Proof.
  intros Hd He.
  assert (Hshift : fexp prec emax (Zdigits2 (Zpos m) + e) - e = 0).
  { cbn [Zdigits2]. rewrite Hd. unfold fexp, SpecFloat.emin, prec, emax. lia. }
  unfold binary_round_aux, shr_fexp. rewrite Hshift.
  cbn [SpecFloat.shr shr_record_of_loc loc_of_shr_record shr_m
       round_nearest_even].
  rewrite Hshift. cbn [SpecFloat.shr shr_record_of_loc shr_m].
  replace (e <=? emax - prec) with true
    by (symmetry; apply Z.leb_le; unfold emax, prec; lia).
  reflexivity.
Qed.

(** [float(n)] is exact for [1 <= n < 2^53]. *)
Lemma of_int_exact (n : Z) :
  1 <= n < 2 ^ 53 ->
  exists m e,
    of_int n = Ok (S754_finite false m e) /\
    -52 <= e <= 0 /\ Zpos m = n * 2 ^ (- e).
Proof.
  intros Hn. destruct n as [|p|p]; try lia.
  pose proof (digits_le p 53 ltac:(lia) ltac:(lia)) as Hd53.
  assert (Hd1 : 1 <= Zpos (digits2_pos p)) by lia.
  unfold of_int, binary_normalize, binary_round, shl_align.
  assert (Hfexp : fexp prec emax (Zpos (digits2_pos p) + 0)
                  = Zpos (digits2_pos p) - 53).
  { unfold fexp, SpecFloat.emin, prec, emax. lia. }
  rewrite Hfexp.
  destruct (Zpos (digits2_pos p) - 53 - 0) as [|k|k] eqn:Ek; [| lia |].
  - rewrite binary_round_aux_canonical by lia.
    exists p, 0. split; [reflexivity|]. split; [lia|]. simpl. lia.
  - destruct (iter_xO_spec p k) as [Hval Hdig].
    rewrite binary_round_aux_canonical by lia.
    exists (Pos.iter xO p k), (Zpos (digits2_pos p) - 53).
    split; [reflexivity|]. split; [lia|].
    rewrite Hval. f_equal. f_equal. lia.
Qed.

End FloatOfInt.

Section TierCount.

Import PyFloat.

(** A float strictly between [0.0] and [1.0] is a positive finite float
    below one. *)
Lemma ratio_below_one (ratio : spec_float) :
  valid_binary prec emax ratio = true ->
  SFltb zero ratio = true -> SFltb ratio one = true ->
  exists m e,
    ratio = S754_finite false m e /\
    -1074 <= e < 0 /\ Zpos m < 2 ^ (- e).
Proof.
  intros Hvalid Hpos Hone.
  destruct ratio as [s | s | | s m e]; try discriminate.
  - destruct s; discriminate.
  - destruct s; [discriminate|]. exists m, e. split; [reflexivity|].
    simpl in Hvalid. unfold bounded, canonical_mantissa in Hvalid.
    apply andb_true_iff in Hvalid. destruct Hvalid as [Hcanon _].
    apply Z.eqb_eq in Hcanon.
    unfold fexp, SpecFloat.emin, prec, emax in Hcanon.
    pose proof (digits2_bounds m) as [_ Hhigh].
    unfold SFltb, one in Hone. cbn [SFcompare] in Hone.
    destruct (Z.compare_spec e (-52)) as [Heq | Hlt | Hgt];
      [| |discriminate].
    + subst e. split; [lia|].
      rewrite Pos.compare_cont_spec in Hone. cbn [Pos.switch_Eq] in Hone.
      destruct (Pos.compare_spec m 4503599627370496) as [|Hm|];
        try discriminate.
      change (2 ^ (- -52)) with (Zpos 4503599627370496).
      apply Pos2Z.pos_lt_pos. exact Hm.
    + split; [lia|].
      assert (Hle : 2 ^ Zpos (digits2_pos m) <= 2 ^ (- e))
        by (apply Z.pow_le_mono_r; lia).
      lia.
Qed.

Lemma tier_count_bounds (n : Z) (ratio : spec_float) :
  1 <= n < 2 ^ 53 ->
  valid_binary prec emax ratio = true ->
  SFltb zero ratio = true -> SFltb ratio one = true ->
  exists c,
    (x <- of_int n ;; ceil (mul x ratio)) = Ok c /\
    1 <= c <= n /\
    Encoding.tier_count n ratio = Ok c.
Proof.
  intros Hn Hvalid Hpos Hone.
  destruct (ratio_below_one ratio Hvalid Hpos Hone)
    as (mk & ek & -> & Hek & Hmk).
  destruct (of_int_exact n Hn) as (mn & en & Hof & Hen & Hmn).
  pose proof (pow2_pos (- en) ltac:(lia)) as Hpen.
  pose proof (pow2_pos (- ek) ltac:(lia)) as Hpek.
  assert (Hsplit : 2 ^ (- (en + ek)) = 2 ^ (- en) * 2 ^ (- ek)).
  { rewrite <- Z.pow_add_r by lia. f_equal. lia. }
  destruct (binary_round_aux_bounds (mn * mk) (en + ek) n)
    as (m2 & e2 & Hmul & He2 & Hm2).
  - lia.
  - destruct (Z_le_gt_dec (-1074 - (en + ek)) 0) as [|Hgt]; [left; lia|].
    right. rewrite Pos2Z.inj_mul.
    assert (2 ^ (-1074 - (en + ek)) <= 2 ^ (- en))
      by (apply Z.pow_le_mono_r; lia).
    nia.
  - exact Hn.
  - rewrite Pos2Z.inj_mul, Hsplit, Hmn. nia.
  - destruct (ceil_bounds m2 e2 n He2 Hm2) as (c & Hceil & Hc).
    exists c.
    assert (Hcomp : (x <- of_int n ;; ceil (mul x (S754_finite false mk ek)))
                    = Ok c).
    { rewrite Hof. cbn [Py.bind]. unfold mul. cbn [SFmul xorb].
      rewrite Hmul. exact Hceil. }
    split; [exact Hcomp|]. split; [exact Hc|].
    unfold Encoding.tier_count. rewrite Hof in *. cbn [Py.bind] in *.
    rewrite Hcomp. cbn [Py.bind]. f_equal. lia.
Qed.

End TierCount.

(** ** The precision map *)

Section IndexAssignment.

Import Encoding.

Lemma length_set_nth (i : nat) (v : Z) (arr : list Z) :
  length (set_nth i v arr) = length arr.
Proof.
  revert i. induction arr as [|a arr IH]; intros [|i]; simpl; auto.
Qed.

Lemma nth_set_nth (i j : nat) (v : Z) (arr : list Z) :
  (i < length arr)%nat ->
  nth j (set_nth i v arr) 0 = if (j =? i)%nat then v else nth j arr 0.
Proof.
  revert i j.
  induction arr as [|a arr IH]; intros [|i] [|j] Hi; simpl in *;
    try lia; auto.
  apply IH. lia.
Qed.

(** Assigning through an index array whose indices are all in range
    succeeds, keeps the length, writes [v] at the listed indices and
    leaves the other entries alone. *)
Lemma assign_spec (idxs : list nat) (v : Z) (arr : list Z) :
  Forall (fun i => (i < length arr)%nat) idxs ->
  exists arr',
    assign arr idxs v = Ok arr' /\
    length arr' = length arr /\
    (forall j, (j < length arr)%nat -> In j idxs -> nth j arr' 0 = v) /\
    (forall j, ~ In j idxs -> nth j arr' 0 = nth j arr 0).
Proof.
  revert arr. induction idxs as [|i rest IH]; intros arr Hall.
  - exists arr. repeat split; auto. intros j _ [].
  - inversion Hall as [|? ? Hi Hrest]; subst.
    cbn [assign]. apply Nat.ltb_lt in Hi. rewrite Hi.
    apply Nat.ltb_lt in Hi.
    destruct (IH (set_nth i v arr)) as (arr' & Hrun & Hlen & Hin & Hout).
    { rewrite length_set_nth. exact Hrest. }
    exists arr'. rewrite length_set_nth in *.
    split; [exact Hrun|]. split; [exact Hlen|]. split.
    + intros j Hj Hmem.
      destruct (in_dec Nat.eq_dec j rest) as [Hr|Hr]; [auto|].
      destruct Hmem as [->|Hmem]; [|contradiction].
      rewrite (Hout j Hr), nth_set_nth by exact Hi.
      rewrite Nat.eqb_refl. reflexivity.
    + intros j Hmem.
      rewrite Hout by (intros Hr; apply Hmem; right; exact Hr).
      rewrite nth_set_nth by exact Hi.
      destruct (Nat.eqb_spec j i) as [->|]; [|reflexivity].
      exfalso. apply Hmem. left. reflexivity.
Qed.

(** Membership of the entry at rank [r] of a duplicate-free list in the
    slice [l[a:b]]. *)
Lemma nth_in_slice (l : list nat) (a b r : nat) :
  NoDup l -> (r < length l)%nat ->
  In (nth r l 0%nat) (skipn a (firstn b l)) <-> (a <= r < b)%nat.
Proof.
  intros Hnd Hr. split.
  - intros Hin. apply (In_nth _ _ 0%nat) in Hin.
    destruct Hin as (i & Hi & Heq).
    rewrite length_skipn, length_firstn in Hi.
    rewrite nth_skipn, nth_firstn in Heq.
    assert (Hlt : (a + i <? b)%nat = true) by (apply Nat.ltb_lt; lia).
    rewrite Hlt in Heq.
    apply (proj1 (NoDup_nth l 0%nat) Hnd) in Heq; lia.
  - intros [Ha Hb].
    replace (nth r l 0%nat)
      with (nth (r - a) (skipn a (firstn b l)) 0%nat).
    + apply nth_In. rewrite length_skipn, length_firstn. lia.
    + rewrite nth_skipn, nth_firstn.
      replace (a + (r - a))%nat with r by lia.
      assert (Hlt : (r <? b)%nat = true) by (apply Nat.ltb_lt; lia).
      rewrite Hlt. reflexivity.
Qed.

Lemma slice_in_range (l : list nat) (a b n : nat) :
  Forall (fun i => (i < n)%nat) l ->
  Forall (fun i => (i < n)%nat) (skipn a (firstn b l)).
Proof.
  intros Hall. apply Forall_forall. intros x Hx.
  rewrite Forall_forall in Hall. apply Hall.
  rewrite <- (firstn_skipn b l). apply in_or_app. left.
  rewrite <- (firstn_skipn a (firstn b l)). apply in_or_app. right.
  exact Hx.
Qed.

End IndexAssignment.

Section Ranking.

Import Encoding.

Variable ranked : list nat.
Variable n : nat.
Hypothesis ranked_perm : Permutation ranked (seq 0 n).

Lemma ranked_NoDup : NoDup ranked.
Proof.
  apply (Permutation_NoDup (Permutation_sym ranked_perm)). apply seq_NoDup.
Qed.

Lemma length_ranked : length ranked = n.
Proof.
  rewrite (Permutation_length ranked_perm). apply length_seq.
Qed.

Lemma ranked_in_range : Forall (fun i => (i < n)%nat) ranked.
Proof.
  apply Forall_forall. intros i Hi.
  apply (Permutation_in _ ranked_perm), in_seq in Hi. lia.
Qed.

(** Every index has a rank. *)
Lemma ranked_cover (j : nat) :
  (j < n)%nat -> exists r, (r < n)%nat /\ nth r ranked 0%nat = j.
Proof.
  intros Hj.
  assert (Hin : In j ranked).
  { apply (Permutation_in _ (Permutation_sym ranked_perm)), in_seq. lia. }
  apply (In_nth _ _ 0%nat) in Hin. destruct Hin as (r & Hr & Heq).
  rewrite length_ranked in Hr. exists r. split; assumption.
Qed.

(** The two slice assignments of [adaptive_precision_map] on an array
    filled with [low]: the entry of the feature ranked [r]-th is decided
    by the slice that [r] falls in. *)
Lemma tiers_assigned (a b : nat) (high mid low : Z) :
  (a <= b)%nat ->
  exists bw1 bw,
    assign (repeat low n) (firstn a ranked) high = Ok bw1 /\
    assign bw1 (skipn a (firstn b ranked)) mid = Ok bw /\
    length bw = n /\
    forall r, (r < n)%nat ->
      nth (nth r ranked 0%nat) bw 0 =
      if (r <? a)%nat then high else if (r <? b)%nat then mid else low.
Proof.
  intros Hab.
  pose proof ranked_NoDup as Hnd. pose proof length_ranked as Hlen.
  pose proof ranked_in_range as Hrange.
  destruct (assign_spec (firstn a ranked) high (repeat low n))
    as (bw1 & Hrun1 & Hlen1 & Hin1 & Hout1).
  { rewrite repeat_length.
    apply (slice_in_range ranked 0 a n Hrange). }
  rewrite repeat_length in Hlen1, Hin1.
  destruct (assign_spec (skipn a (firstn b ranked)) mid bw1)
    as (bw & Hrun2 & Hlen2 & Hin2 & Hout2).
  { rewrite Hlen1. apply slice_in_range. exact Hrange. }
  rewrite Hlen1 in Hlen2, Hin2.
  exists bw1, bw. split; [exact Hrun1|]. split; [exact Hrun2|].
  split; [exact Hlen2|].
  intros r Hr.
  assert (Hx : (nth r ranked 0 < n)%nat).
  { rewrite Forall_forall in Hrange. apply Hrange, nth_In. lia. }
  pose proof (nth_in_slice ranked 0 a r Hnd ltac:(lia)) as Hfirst.
  cbn [skipn] in Hfirst.
  pose proof (nth_in_slice ranked a b r Hnd ltac:(lia)) as Hsecond.
  destruct (Nat.ltb_spec r a) as [Ha|Ha].
  - rewrite Hout2 by (rewrite Hsecond; lia).
    apply Hin1; [exact Hx|]. apply Hfirst. lia.
  - destruct (Nat.ltb_spec r b) as [Hb|Hb].
    + apply Hin2; [exact Hx|]. apply Hsecond. lia.
    + rewrite Hout2 by (rewrite Hsecond; lia).
      rewrite Hout1 by (rewrite Hfirst; lia).
      apply nth_repeat_lt. exact Hx.
Qed.

End Ranking.

Section ByRank.

Lemma map_nth_seq {A : Type} (l : list A) (d : A) :
  map (fun i => nth i l d) (seq 0 (length l)) = l.
Proof.
  apply (nth_ext _ _ d d).
  - rewrite length_map, length_seq. reflexivity.
  - intros i Hi. rewrite length_map, length_seq in Hi.
    rewrite (nth_indep _ d (nth 0 l d))
      by (rewrite length_map, length_seq; exact Hi).
    rewrite (map_nth (fun i => nth i l d)), seq_nth by exact Hi.
    reflexivity.
Qed.

(** An array described rank by rank is a rearrangement of the
    description. *)
Lemma by_rank (bw : list Z) (ranked : list nat) (f : nat -> Z) :
  Permutation ranked (seq 0 (length bw)) ->
  (forall r, (r < length bw)%nat -> nth (nth r ranked 0%nat) bw 0 = f r) ->
  Permutation bw (map f (seq 0 (length bw))).
Proof.
  intros Hperm Hf.
  pose proof (length_ranked ranked _ Hperm) as Hlen.
  rewrite <- (map_nth_seq bw 0) at 1.
  apply Permutation_trans
    with (map (fun i => nth i bw 0) ranked).
  - apply Permutation_map, Permutation_sym, Hperm.
  - rewrite <- (map_nth_seq ranked 0%nat) at 1.
    rewrite map_map, Hlen.
    erewrite map_ext_in; [apply Permutation_refl|].
    intros r Hr. apply in_seq in Hr. apply Hf. lia.
Qed.

Lemma map_const_in {A B : Type} (f : A -> B) (c : B) (l : list A) :
  (forall x, In x l -> f x = c) -> map f l = repeat c (length l).
Proof.
  induction l as [|x l IH]; intros H; [reflexivity|].
  cbn [map length repeat]. rewrite H by (left; reflexivity).
  rewrite IH by (intros y Hy; apply H; right; exact Hy). reflexivity.
Qed.

(** The tiers, laid out by rank. *)
Lemma tier_layout (a b n : nat) (high mid low : Z) :
  (a <= b <= n)%nat ->
  map (fun r => if (r <? a)%nat then high
                else if (r <? b)%nat then mid else low) (seq 0 n)
  = repeat high a ++ repeat mid (b - a) ++ repeat low (n - b).
Proof.
  intros Hab.
  replace n with (a + ((b - a) + (n - b)))%nat at 1 by lia.
  rewrite !seq_app, !map_app. cbn [Nat.add].
  f_equal; [|f_equal].
  - rewrite <- (length_seq a 0) at 2. apply map_const_in.
    intros r Hr. apply in_seq in Hr.
    destruct (Nat.ltb_spec r a); [reflexivity|lia].
  - rewrite <- (length_seq (b - a) a) at 2. apply map_const_in.
    intros r Hr. apply in_seq in Hr.
    destruct (Nat.ltb_spec r a); [lia|].
    destruct (Nat.ltb_spec r b); [reflexivity|lia].
  - rewrite <- (length_seq (n - b) (a + (b - a))) at 2. apply map_const_in.
    intros r Hr. apply in_seq in Hr.
    destruct (Nat.ltb_spec r a); [lia|].
    destruct (Nat.ltb_spec r b); [lia|reflexivity].
Qed.

Lemma StronglySorted_nth {A : Type} (R : A -> A -> Prop) (l : list A)
  (d : A) (i j : nat) :
  StronglySorted R l -> (i < j < length l)%nat ->
  R (nth i l d) (nth j l d).
Proof.
  intros Hs. revert i j.
  induction Hs as [|x l Hs IH Hall]; intros i j Hij; [simpl in Hij; lia|].
  destruct j as [|j]; [lia|]. cbn [length] in Hij.
  destruct i as [|i]; cbn [nth].
  - rewrite Forall_forall in Hall. apply Hall, nth_In. lia.
  - apply IH. lia.
Qed.

End ByRank.

Section PrecisionMap.

Import Encoding.

Lemma compare_neg_abs (x y : spec_float) :
  SFcompare (neg_abs x) (neg_abs y) = SFcompare (SFabs y) (SFabs x).
Proof.
  destruct x as [sx|sx| |sx mx ex], y as [sy|sy| |sy my ey];
    try reflexivity.
  cbn. rewrite (Z.compare_antisym ey ex).
  destruct (ey ?= ex); cbn [CompOpp]; try reflexivity.
  f_equal. symmetry. apply (Pos.compare_antisym mx my).
Qed.

(** A feature sorted before another one has the larger magnitude; only
    NaN sorts after everything. *)
Lemma key_le_neg_abs (x y : spec_float) :
  key_le (neg_abs x) (neg_abs y) = true ->
  y <> S754_nan ->
  x <> S754_nan /\ SFleb (SFabs y) (SFabs x) = true.
Proof.
  unfold key_le, SFleb. rewrite compare_neg_abs.
  intros Hle Hy.
  destruct (SFcompare (SFabs y) (SFabs x)) as [[| |]|] eqn:Hc;
    try discriminate.
  - split; [|reflexivity]. intros ->. destruct y; discriminate.
  - split; [|reflexivity]. intros ->. destruct y; discriminate.
  - destruct y; try discriminate. contradiction.
Qed.

Lemma nth_keys (importance : list spec_float) (i : nat) :
  nth i (map neg_abs importance) S754_nan
  = neg_abs (nth i importance S754_nan).
Proof. exact (map_nth neg_abs importance S754_nan i). Qed.

Lemma np_int32_ok (z : Z) :
  int32_min <= z <= int32_max -> np_int32 z = Ok z.
Proof.
  intros [Hlo Hhi]. unfold np_int32.
  apply Z.leb_le in Hlo, Hhi. rewrite Hlo, Hhi. reflexivity.
Qed.

Lemma adaptive_precision_map_nonempty (argsort : list spec_float -> list nat)
  (importance : list spec_float) (k_ratio : spec_float)
  (high_bits mid_bits low_bits : Z) :
  importance <> [] ->
  SFltb PyFloat.zero k_ratio = true -> SFltb k_ratio PyFloat.one = true ->
  adaptive_precision_map argsort importance k_ratio
    high_bits mid_bits low_bits
  = (let n := Py.len importance in
     let ranked_indices := argsort (map neg_abs importance) in
     top_count <- tier_count n k_ratio ;;
     mid_count <- tier_count n mid_ratio ;;
     low <- np_int32 low_bits ;;
     let bit_widths := repeat low (Z.to_nat n) in
     high <- np_int32 high_bits ;;
     bit_widths <-
       assign bit_widths (Py.slice_to ranked_indices top_count) high ;;
     let mid_end := Z.min (top_count + mid_count) n in
     mid <- np_int32 mid_bits ;;
     assign bit_widths (Py.slice ranked_indices top_count mid_end) mid)%py.
Proof.
  intros Hne Hpos Hone. unfold adaptive_precision_map.
  rewrite Hpos, Hone. destruct importance; [congruence|reflexivity].
Qed.

(** How often each width occurs in a rearrangement of the three tiers,
    when the widths differ. *)
Lemma count_tiers (high mid low : Z) (a b c : nat) (bw : list Z) :
  Permutation bw (repeat high a ++ repeat mid b ++ repeat low c) ->
  high <> mid -> high <> low -> mid <> low ->
  count_occ Z.eq_dec bw high = a /\
  count_occ Z.eq_dec bw mid = b /\
  count_occ Z.eq_dec bw low = c.
Proof.
  intros Hperm Hhm Hhl Hml.
  pose proof (proj1 (Permutation_count_occ Z.eq_dec _ _) Hperm) as Hcount.
  rewrite !Hcount, !count_occ_app.
  rewrite (count_occ_repeat_eq Z.eq_dec a (eq_refl high)).
  rewrite (count_occ_repeat_eq Z.eq_dec b (eq_refl mid)).
  rewrite (count_occ_repeat_eq Z.eq_dec c (eq_refl low)).
  rewrite (count_occ_repeat_neq Z.eq_dec b Hhm).
  rewrite (count_occ_repeat_neq Z.eq_dec c Hhl).
  rewrite (count_occ_repeat_neq Z.eq_dec a (not_eq_sym Hhm)).
  rewrite (count_occ_repeat_neq Z.eq_dec c Hml).
  rewrite (count_occ_repeat_neq Z.eq_dec a (not_eq_sym Hhl)).
  rewrite (count_occ_repeat_neq Z.eq_dec b (not_eq_sym Hml)).
  lia.
Qed.

(** The three tiers of [adaptive_precision_map], for every sorting routine
    that meets the contract of [np.argsort]. *)
Lemma precision_map_tiers (argsort : list spec_float -> list nat)
  (importance : list spec_float) (k_ratio : spec_float)
  (high_bits mid_bits low_bits : Z) :
  let n := Py.len importance in
  let ranked := argsort (map neg_abs importance) in
  importance <> [] -> n < 2 ^ 53 ->
  valid_binary PyFloat.prec PyFloat.emax k_ratio = true ->
  SFltb PyFloat.zero k_ratio = true ->
  SFltb k_ratio PyFloat.one = true ->
  int32_min <= high_bits <= int32_max ->
  int32_min <= mid_bits <= int32_max ->
  int32_min <= low_bits <= int32_max ->
  is_argsort (map neg_abs importance) ranked ->
  exists top_count mid_count bit_widths,
    (x <- PyFloat.of_int n ;; PyFloat.ceil (PyFloat.mul x k_ratio))%py
    = Ok top_count /\
    (x <- PyFloat.of_int n ;; PyFloat.ceil (PyFloat.mul x mid_ratio))%py
    = Ok mid_count /\
    1 <= top_count <= n /\ 1 <= mid_count /\
    adaptive_precision_map argsort importance k_ratio
      high_bits mid_bits low_bits = Ok bit_widths /\
    length bit_widths = length importance /\
    Forall (fun b => b = high_bits \/ b = mid_bits \/ b = low_bits)
      bit_widths /\
    (forall r, (r < length importance)%nat ->
       nth (nth r ranked 0%nat) bit_widths 0
       = tier top_count mid_count n high_bits mid_bits low_bits
           (Z.of_nat r)) /\
    Permutation bit_widths
      (repeat high_bits (Z.to_nat top_count) ++
       repeat mid_bits (Z.to_nat (Z.min mid_count (n - top_count))) ++
       repeat low_bits
         (Z.to_nat (n - top_count - Z.min mid_count (n - top_count)))) /\
    (high_bits <> mid_bits -> high_bits <> low_bits ->
     mid_bits <> low_bits ->
     count_occ Z.eq_dec bit_widths high_bits = Z.to_nat top_count /\
     count_occ Z.eq_dec bit_widths mid_bits
     = Z.to_nat (Z.min mid_count (n - top_count)) /\
     count_occ Z.eq_dec bit_widths low_bits
     = Z.to_nat (n - top_count - Z.min mid_count (n - top_count))) /\
    (forall r1 r2, (r1 < r2 < length importance)%nat ->
       let x := nth (nth r1 ranked 0%nat) importance S754_nan in
       let y := nth (nth r2 ranked 0%nat) importance S754_nan in
       y <> S754_nan ->
       x <> S754_nan /\ SFleb (SFabs y) (SFabs x) = true).
Proof.
  intros n ranked Hne Hn Hvalid Hpos Hone Hh Hm Hl [Hperm Hsorted].
  assert (Hn1 : 1 <= n).
  { subst n. unfold Py.len. destruct importance; [congruence|].
    cbn [length]. lia. }
  destruct (tier_count_bounds n k_ratio ltac:(lia) Hvalid Hpos Hone)
    as (T & HT & HTb & HtierT).
  destruct (tier_count_bounds n mid_ratio ltac:(lia))
    as (M & HM & HMb & HtierM); try reflexivity.
  rewrite length_map in Hperm.
  assert (Hnat : Z.to_nat n = length importance)
    by (subst n; unfold Py.len; apply Nat2Z.id).
  set (a := Z.to_nat T). set (b := Z.to_nat (Z.min (T + M) n)).
  destruct (tiers_assigned ranked (length importance) Hperm a b
              high_bits mid_bits low_bits)
    as (bw1 & bw & Hrun1 & Hrun2 & Hlen & Hrank); [lia|].
  assert (Htier : forall r, (r < length importance)%nat ->
            nth (nth r ranked 0%nat) bw 0
            = tier T M n high_bits mid_bits low_bits (Z.of_nat r)).
  { intros r Hr. rewrite (Hrank r Hr). unfold tier.
    destruct (Nat.ltb_spec r a), (Z.ltb_spec (Z.of_nat r) T);
      try reflexivity; try lia.
    destruct (Nat.ltb_spec r b),
             (Z.ltb_spec (Z.of_nat r) (T + Z.min M (n - T)));
      try reflexivity; lia. }
  assert (Hlayout : Permutation bw
            (repeat high_bits (Z.to_nat T) ++
             repeat mid_bits (Z.to_nat (Z.min M (n - T))) ++
             repeat low_bits (Z.to_nat (n - T - Z.min M (n - T))))).
  { rewrite <- Hlen in Hperm, Hrank.
    pose proof (by_rank bw ranked _ Hperm Hrank) as Hby.
    rewrite tier_layout in Hby by lia.
    replace (Z.to_nat (Z.min M (n - T))) with (b - a)%nat by lia.
    replace (Z.to_nat (n - T - Z.min M (n - T)))
      with (length bw - b)%nat by lia.
    exact Hby. }
  exists T, M, bw.
  split; [exact HT|]. split; [exact HM|]. split; [exact HTb|].
  split; [lia|].
  split; [|split; [exact Hlen|split; [|split; [exact Htier|]]]];
    [| |split; [exact Hlayout|split; [apply count_tiers; exact Hlayout|]]].
  - rewrite adaptive_precision_map_nonempty by assumption.
    cbv zeta. fold n. fold ranked. rewrite HtierT, HtierM. cbn [Py.bind].
    rewrite !np_int32_ok by assumption. cbn [Py.bind].
    rewrite Hnat. unfold Py.slice, Py.slice_to.
    replace (T <? 0) with false by (symmetry; apply Z.ltb_ge; lia).
    replace (Z.min (T + M) n <? 0) with false
      by (symmetry; apply Z.ltb_ge; lia).
    fold a. fold b. rewrite Hrun1. cbn [Py.bind]. exact Hrun2.
  - apply Forall_forall. intros v Hv.
    apply (In_nth _ _ 0) in Hv. destruct Hv as (j & Hj & <-).
    rewrite Hlen in Hj.
    destruct (ranked_cover ranked _ Hperm j Hj) as (r & Hr & <-).
    rewrite (Hrank r Hr).
    destruct (r <? a)%nat; [tauto|]. destruct (r <? b)%nat; tauto.
  - intros r1 r2 Hr x y Hy.
    pose proof (length_ranked ranked _ Hperm) as Hlr.
    pose proof (StronglySorted_nth _ ranked 0%nat r1 r2 Hsorted
                  ltac:(lia)) as Hbefore.
    unfold ranked_before in Hbefore. rewrite !nth_keys in Hbefore.
    exact (key_le_neg_abs x y Hbefore Hy).
Qed.

End PrecisionMap.

Section ExampleMap.

Import Encoding.

(** A strongly sorted arrangement is unique when no two distinct elements
    are ordered both ways. *)
Lemma sorted_perm_unique {A : Type} (R : A -> A -> Prop) (l1 l2 : list A) :
  (forall x y, In x l1 -> In y l1 -> R x y -> R y x -> x = y) ->
  Permutation l1 l2 ->
  StronglySorted R l1 -> StronglySorted R l2 ->
  l1 = l2.
Proof.
  revert l2. induction l1 as [|a l1 IH]; intros l2 Hanti Hperm Hs1 Hs2.
  - apply Permutation_nil in Hperm. congruence.
  - destruct l2 as [|b l2].
    + apply Permutation_length in Hperm. discriminate.
    + apply StronglySorted_inv in Hs1, Hs2.
      destruct Hs1 as [Hs1 Ha], Hs2 as [Hs2 Hb].
      rewrite Forall_forall in Ha, Hb.
      assert (Hab : a = b).
      { assert (Hina : In a (b :: l2))
          by (apply (Permutation_in _ Hperm); left; reflexivity).
        assert (Hinb : In b (a :: l1))
          by (apply (Permutation_in _ (Permutation_sym Hperm));
              left; reflexivity).
        destruct Hina as [Hina|Hina]; [congruence|].
        destruct Hinb as [Hinb|Hinb]; [congruence|].
        apply Hanti; auto; [left; reflexivity|right; exact Hinb]. }
      subst b. f_equal. apply Permutation_cons_inv in Hperm.
      apply IH; auto.
      intros x y Hx Hy. apply Hanti; right; assumption.
Qed.

Lemma example_ranking_is_argsort :
  is_argsort (map neg_abs example_importance) [0; 4; 2; 1; 3]%nat.
Proof.
  split.
  - apply NoDup_Permutation.
    + repeat constructor; simpl; intuition discriminate.
    + apply seq_NoDup.
    + intros i. simpl. intuition lia.
  - repeat constructor.
Qed.

(** The example importances are pairwise different in magnitude, so
    every sorting routine ranks them the same way. *)
Lemma example_ranking_unique (ranked : list nat) :
  is_argsort (map neg_abs example_importance) ranked ->
  ranked = [0; 4; 2; 1; 3]%nat.
Proof.
  intros [Hperm Hsorted].
  destruct example_ranking_is_argsort as [Hperm' Hsorted'].
  symmetry.
  apply (sorted_perm_unique
           (ranked_before (map neg_abs example_importance)));
    [| |assumption|assumption].
  - intros i j Hi Hj. unfold ranked_before.
    simpl in Hi, Hj.
    destruct Hi as [<-|[<-|[<-|[<-|[<-|[]]]]]];
      destruct Hj as [<-|[<-|[<-|[<-|[<-|[]]]]]];
      vm_compute; intros H1 H2; first [reflexivity | discriminate].
  - apply (Permutation_trans Hperm'), Permutation_sym, Hperm.
Qed.

Lemma precision_map_example (argsort : list spec_float -> list nat) :
  is_argsort (map neg_abs example_importance)
    (argsort (map neg_abs example_importance)) ->
  adaptive_precision_map argsort example_importance default_k_ratio 24 16 8
  = Ok [24; 8; 16; 8; 16].
Proof.
  intros Hsort. apply example_ranking_unique in Hsort.
  rewrite adaptive_precision_map_nonempty by (discriminate || reflexivity).
  cbv zeta. rewrite Hsort. vm_compute. reflexivity.
Qed.

End ExampleMap.

(** C5: for every non-empty importance array (of length [n] below
    [2^53]), every float [k_ratio] strictly between 0.0 and 1.0, bit-widths
    that fit [np.int32] and every sorting routine that meets the contract
    of [np.argsort] (a permutation of the indices along which the keys
    [-|importance|] ascend, NaN last), [adaptive_precision_map] returns an
    array of length [n] whose every entry is one of [high_bits],
    [mid_bits], [low_bits]; the feature ranked [r]-th gets [high_bits] for
    [r < top_count], [mid_bits] for the next [min(mid_count, n -
    top_count)] ranks and [low_bits] after that, where [top_count] and
    [mid_count] are the floats [ceil(n * k_ratio)] and [ceil(n * 0.3)] as
    the code computes them (both at least 1, so that [max(1, .)] changes
    nothing, and [top_count <= n]); the array is a rearrangement of that
    many copies of each width; and a feature ranked earlier has the larger
    magnitude.  The importance [[0.9, 0.1, 0.5, 0.05, 0.7]] with [k_ratio =
    0.2] and widths 24/16/8 maps to [[24, 8, 16, 8, 16]] whatever the
    sorting routine. *)
Theorem adaptive_precision_map_spec :
  (forall (argsort : list spec_float -> list nat)
          (importance : list spec_float) (k_ratio : spec_float)
          (high_bits mid_bits low_bits : Z),
     let n := Py.len importance in
     let ranked := argsort (map Encoding.neg_abs importance) in
     importance <> [] -> n < 2 ^ 53 ->
     valid_binary PyFloat.prec PyFloat.emax k_ratio = true ->
     SFltb PyFloat.zero k_ratio = true ->
     SFltb k_ratio PyFloat.one = true ->
     Encoding.int32_min <= high_bits <= Encoding.int32_max ->
     Encoding.int32_min <= mid_bits <= Encoding.int32_max ->
     Encoding.int32_min <= low_bits <= Encoding.int32_max ->
     Encoding.is_argsort (map Encoding.neg_abs importance) ranked ->
     exists top_count mid_count bit_widths,
       (x <- PyFloat.of_int n ;; PyFloat.ceil (PyFloat.mul x k_ratio))%py
       = Ok top_count /\
       (x <- PyFloat.of_int n ;;
        PyFloat.ceil (PyFloat.mul x Encoding.mid_ratio))%py
       = Ok mid_count /\
       1 <= top_count <= n /\ 1 <= mid_count /\
       Encoding.adaptive_precision_map argsort importance k_ratio
         high_bits mid_bits low_bits = Ok bit_widths /\
       length bit_widths = length importance /\
       Forall (fun b => b = high_bits \/ b = mid_bits \/ b = low_bits)
         bit_widths /\
       (forall r, (r < length importance)%nat ->
          nth (nth r ranked 0%nat) bit_widths 0
          = Encoding.tier top_count mid_count n high_bits mid_bits low_bits
              (Z.of_nat r)) /\
       Permutation bit_widths
         (repeat high_bits (Z.to_nat top_count) ++
          repeat mid_bits (Z.to_nat (Z.min mid_count (n - top_count))) ++
          repeat low_bits
            (Z.to_nat (n - top_count - Z.min mid_count (n - top_count)))) /\
       (high_bits <> mid_bits -> high_bits <> low_bits ->
        mid_bits <> low_bits ->
        count_occ Z.eq_dec bit_widths high_bits = Z.to_nat top_count /\
        count_occ Z.eq_dec bit_widths mid_bits
        = Z.to_nat (Z.min mid_count (n - top_count)) /\
        count_occ Z.eq_dec bit_widths low_bits
        = Z.to_nat (n - top_count - Z.min mid_count (n - top_count))) /\
       (forall r1 r2, (r1 < r2 < length importance)%nat ->
          let x := nth (nth r1 ranked 0%nat) importance S754_nan in
          let y := nth (nth r2 ranked 0%nat) importance S754_nan in
          y <> S754_nan ->
          x <> S754_nan /\ SFleb (SFabs y) (SFabs x) = true)) /\
  (forall argsort : list spec_float -> list nat,
     Encoding.is_argsort (map Encoding.neg_abs Encoding.example_importance)
       (argsort (map Encoding.neg_abs Encoding.example_importance)) ->
     Encoding.adaptive_precision_map argsort Encoding.example_importance
       Encoding.default_k_ratio 24 16 8
     = Ok [24; 8; 16; 8; 16]).
Proof.
  split.
  - exact precision_map_tiers.
  - exact precision_map_example.
Qed.

(** The theorem at the example, ranked by the stable insertion sort. *)
Lemma adaptive_precision_map_spec_witness :
  Encoding.example_importance <> [] /\
  Py.len Encoding.example_importance < 2 ^ 53 /\
  valid_binary PyFloat.prec PyFloat.emax Encoding.default_k_ratio = true /\
  SFltb PyFloat.zero Encoding.default_k_ratio = true /\
  SFltb Encoding.default_k_ratio PyFloat.one = true /\
  Encoding.is_argsort (map Encoding.neg_abs Encoding.example_importance)
    (Encoding.stable_argsort
       (map Encoding.neg_abs Encoding.example_importance)) /\
  exists top_count mid_count bit_widths,
    Encoding.adaptive_precision_map Encoding.stable_argsort
      Encoding.example_importance Encoding.default_k_ratio 24 16 8
    = Ok bit_widths /\
    1 <= top_count <= 5 /\ 1 <= mid_count /\
    length bit_widths = 5%nat /\
    Forall (fun b => b = 24 \/ b = 16 \/ b = 8) bit_widths /\
    count_occ Z.eq_dec bit_widths 24 = Z.to_nat top_count.
Proof.
  assert (Hne : Encoding.example_importance <> []) by discriminate.
  assert (Hn : Py.len Encoding.example_importance < 2 ^ 53)
    by reflexivity.
  assert (Hsort : Encoding.is_argsort
                    (map Encoding.neg_abs Encoding.example_importance)
                    (Encoding.stable_argsort
                       (map Encoding.neg_abs Encoding.example_importance)))
    by exact example_ranking_is_argsort.
  repeat (split; [first [assumption | reflexivity]|]).
  destruct (proj1 adaptive_precision_map_spec Encoding.stable_argsort
              Encoding.example_importance Encoding.default_k_ratio 24 16 8
              Hne Hn eq_refl eq_refl eq_refl
              ltac:(vm_compute; split; discriminate)
              ltac:(vm_compute; split; discriminate)
              ltac:(vm_compute; split; discriminate)
              Hsort)
    as (top_count & mid_count & bit_widths & _ & _ & Htop & Hmid & Hrun &
        Hlen & Hall & _ & _ & Hcount & _).
  exists top_count, mid_count, bit_widths.
  split; [exact Hrun|]. split; [exact Htop|]. split; [exact Hmid|].
  split; [exact Hlen|]. split; [exact Hall|].
  apply Hcount; discriminate.
Defined.

(** ** Further properties *)

(** [adaptive_precision_map] raises an invalid-argument error on an empty
    importance array, and on a [k_ratio] that is not strictly between 0.0
    and 1.0 (NaN included), whatever the other arguments. *)
Theorem adaptive_precision_map_invalid_argument :
  (forall (argsort : list spec_float -> list nat) (k_ratio : spec_float)
          (high_bits mid_bits low_bits : Z),
     Encoding.adaptive_precision_map argsort [] k_ratio
       high_bits mid_bits low_bits
     = Raise (ValueError importance_must_not_be_empty)) /\
  (forall (argsort : list spec_float -> list nat)
          (importance : list spec_float) (k_ratio : spec_float)
          (high_bits mid_bits low_bits : Z),
     importance <> [] ->
     SFltb PyFloat.zero k_ratio && SFltb k_ratio PyFloat.one = false ->
     Encoding.adaptive_precision_map argsort importance k_ratio
       high_bits mid_bits low_bits
     = Raise (ValueError k_ratio_out_of_range)) /\
  kind_of (ValueError importance_must_not_be_empty) = Some InvalidArgument /\
  kind_of (ValueError k_ratio_out_of_range) = Some InvalidArgument.
Proof.
  split; [reflexivity|]. split; [|split; reflexivity].
  intros argsort importance k_ratio high_bits mid_bits low_bits Hne Hk.
  unfold Encoding.adaptive_precision_map. rewrite Hk.
  destruct importance; [congruence|reflexivity].
Qed.

(** [mod_inv(a, mod)] raises an invalid-argument error for [mod < 2].
    For [mod >= 2] its recursion makes
    [calls(a % mod, mod) <= 2 * bits(mod) + 2] nested calls of
    [_extended_gcd].  When the interpreter allows them, [mod_inv] returns
    the inverse of [a] in [[0, mod)] if [gcd(a, mod) = 1] and raises the
    non-invertibility error if not; when it does not, [mod_inv] raises
    [RecursionError]. *)
Theorem mod_inv_spec :
  (forall (limit : nat) (a m : Z),
     m < 2 ->
     exists e, Utils.mod_inv limit a m = Raise e /\
               kind_of e = Some InvalidArgument) /\
  (forall a m : Z,
     2 <= m ->
     (Vocabulary.calls (a mod m) m <= 2 * Vocabulary.bits m + 2)%nat) /\
  (forall (limit : nat) (a m : Z),
     2 <= m -> (Vocabulary.calls (a mod m) m <= limit)%nat ->
     Z.gcd a m = 1 ->
     exists inv,
       Utils.mod_inv limit a m = Ok inv /\
       0 <= inv < m /\ (a * inv) mod m = 1) /\
  (forall (limit : nat) (a m : Z),
     2 <= m -> (Vocabulary.calls (a mod m) m <= limit)%nat ->
     Z.gcd a m <> 1 ->
     exists e, Utils.mod_inv limit a m = Raise e /\
               kind_of e = Some NonInvertible) /\
  (forall (limit : nat) (a m : Z),
     2 <= m -> (limit < Vocabulary.calls (a mod m) m)%nat ->
     Utils.mod_inv limit a m = Raise RecursionError).
Proof.
  split; [|split; [|split; [|split]]].
  - intros limit a m Hm. exists (ValueError mod_must_be_ge_2).
    split; [apply mod_inv_small_modulus; assumption|reflexivity].
  - exact mod_inv_calls.
  - intros limit a m Hm Hc Hg. apply mod_inv_coprime; assumption.
  - intros limit a m Hm Hc Hg.
    exists (ValueError (has_no_inverse (a mod m) m (Z.gcd a m))).
    split; [apply mod_inv_not_coprime; assumption|reflexivity].
  - intros limit a m Hm Hc. apply mod_inv_overflows; assumption.
Qed.

(** With tied importances the map depends on the order in which the
    sorting routine lists the ties: for [importance = [1.0, 1.0]] and
    [k_ratio = 0.5] both rankings meet the contract of [np.argsort], and
    they give different maps. *)
Theorem precision_map_tie_order :
  let importance := [PyFloat.one; PyFloat.one] in
  let k_ratio := S754_finite false 4503599627370496 (-53) in
  Encoding.is_argsort (map Encoding.neg_abs importance) [0; 1]%nat /\
  Encoding.is_argsort (map Encoding.neg_abs importance) [1; 0]%nat /\
  Encoding.adaptive_precision_map (fun _ => [0; 1]%nat) importance k_ratio
    24 16 8 = Ok [24; 16] /\
  Encoding.adaptive_precision_map (fun _ => [1; 0]%nat) importance k_ratio
    24 16 8 = Ok [16; 24].
Proof.
  cbv zeta. split; [|split; [|split; reflexivity]].
  - split; [apply Permutation_refl|repeat constructor].
  - split; [apply perm_swap|repeat constructor].
Qed.

(** ** More of [utils.py] *)

Section Bezout.

Import Utils Vocabulary.

Lemma euclid_upto (n : Z) :
  0 <= n ->
  forall a b, Z.abs a <= n ->
    let '(g, x, y) := euclid a b in
    a * x + b * y = g /\ Z.abs g = Z.gcd a b /\ (0 <= a -> 0 <= b -> 0 <= g).
Proof.
  intros Hn. pattern n. apply natlike_ind; [| |exact Hn]; clear n Hn.
  - intros a b Ha. assert (a = 0) by lia. subst a.
    rewrite euclid_eq. cbn [Z.eqb].
    split; [ring|]. split; [symmetry; apply Z.gcd_0_l|auto].
  - intros n Hn IH a b Ha. rewrite euclid_eq.
    destruct (Z.eqb_spec a 0) as [->|Hnz].
    + split; [ring|]. split; [symmetry; apply Z.gcd_0_l|auto].
    + pose proof (mod_abs_lt a b Hnz) as Hlt.
      specialize (IH (b mod a) a ltac:(lia)).
      destruct (euclid (b mod a) a) as [[g x1] y1].
      destruct IH as (Hbez & Hgcd & Hpos).
      split; [|split].
      * rewrite Z.mod_eq in Hbez by exact Hnz. rewrite <- Hbez. ring.
      * rewrite Hgcd. apply Z.gcd_mod. exact Hnz.
      * intros H0a H0b. apply Hpos; [|exact H0a].
        apply Z.mod_pos_bound. lia.
Qed.

End Bezout.

(** [_extended_gcd(a, b)] makes [calls(a, b)] nested calls: one when
    [a == 0], and one more than [_extended_gcd(b % a, a)] otherwise; that
    is at most [2 * bits(a) + 2].  When the interpreter allows them, it
    returns Bezout coefficients for every pair of integers, negative
    ones included: [(g, x, y)] with [a*x + b*y == g] and
    [|g| = gcd(a, b)], and [g] the greatest common divisor itself for
    non-negative arguments.  When it does not, it raises
    [RecursionError]. *)
Theorem extended_gcd_bezout :
  forall (limit : nat) (a b : Z),
    Vocabulary.calls a b
    = (if a =? 0 then 1%nat else S (Vocabulary.calls (b mod a) a)) /\
    (Vocabulary.calls a b <= 2 * Vocabulary.bits a + 2)%nat /\
    ((Vocabulary.calls a b <= limit)%nat ->
     exists g x y,
       Utils._extended_gcd limit a b = Ok (g, x, y) /\
       a * x + b * y = g /\
       Z.abs g = Z.gcd a b /\
       (0 <= a -> 0 <= b -> g = Z.gcd a b)) /\
    ((limit < Vocabulary.calls a b)%nat ->
     Utils._extended_gcd limit a b = Raise RecursionError).
Proof.
  intros limit a b.
  split; [apply calls_eq|]. split; [apply calls_bound|]. split.
  - intros Hc.
    pose proof (euclid_upto (Z.abs a) (Z.abs_nonneg a) a b
                  (Z.le_refl _)) as H.
    rewrite (_extended_gcd_returns limit a b Hc).
    destruct (Vocabulary.euclid a b) as [[g x] y].
    destruct H as (Hbez & Hgcd & Hpos).
    exists g, x, y. split; [reflexivity|].
    split; [exact Hbez|]. split; [exact Hgcd|].
    intros Ha Hb. specialize (Hpos Ha Hb). lia.
  - apply _extended_gcd_overflows.
Qed.

Section Inverses.

Import Utils.

Lemma mod_inv_range (limit : nat) (a m inv : Z) :
  mod_inv limit a m = Ok inv -> 2 <= m /\ 0 <= inv < m.
Proof.
  unfold mod_inv. destruct (Z.ltb_spec m 2); [discriminate|].
  destruct (_extended_gcd limit (a mod m) m) as [[[g x] y]|e];
    [|discriminate].
  cbn [Py.bind].
  destruct (negb (g =? 1)); [discriminate|].
  intros Heq. inversion Heq; subst. split; [lia|].
  apply Z.mod_pos_bound. lia.
Qed.

(** An inverse modulo [m] is coprime to [m]. *)
Lemma inverse_coprime (a inv m : Z) :
  2 <= m -> (a * inv) mod m = 1 -> Z.gcd inv m = 1.
Proof.
  intros Hm Hinv. apply Z.bezout_1_gcd.
  exists a, (- ((a * inv) / m)).
  pose proof (Z.div_mod (a * inv) m ltac:(lia)) as Hdm.
  rewrite Hinv in Hdm. lia.
Qed.

Lemma inverse_unique (a x y m : Z) :
  2 <= m -> (a * x) mod m = 1 -> (a * y) mod m = 1 ->
  x mod m = y mod m.
Proof.
  intros Hm Hx Hy.
  transitivity ((x * (a * y)) mod m).
  - rewrite <- Z.mul_mod_idemp_r, Hy, Z.mul_1_r by lia. reflexivity.
  - replace (x * (a * y)) with (a * x * y) by ring.
    rewrite <- Z.mul_mod_idemp_l, Hx, Z.mul_1_l by lia. reflexivity.
Qed.

End Inverses.

(** [mod_inv] is an involution on the units: for [mod >= 2] and
    [gcd(a, mod) = 1], when the interpreter allows
    [2 * bits(mod) + 2] nested calls of [_extended_gcd],
    [mod_inv(mod_inv(a, mod), mod) == a % mod]. *)
Theorem mod_inv_involutive (limit : nat) (a m : Z) :
  2 <= m -> Z.gcd a m = 1 ->
  (2 * Vocabulary.bits m + 2 <= limit)%nat ->
  exists inv,
    Utils.mod_inv limit a m = Ok inv /\
    Utils.mod_inv limit inv m = Ok (a mod m).
Proof.
  intros Hm Hg Hlimit.
  destruct (mod_inv_coprime limit a m Hm Hg
              ltac:(pose proof (mod_inv_calls a m Hm); lia))
    as (inv & Hinv & Hrange & Hmul).
  exists inv. split; [exact Hinv|].
  pose proof (inverse_coprime a inv m Hm Hmul) as Hg'.
  destruct (mod_inv_coprime limit inv m Hm Hg'
              ltac:(pose proof (mod_inv_calls inv m Hm); lia))
    as (back & Hback & Hrange' & Hmul').
  rewrite Hback. f_equal.
  rewrite <- (Z.mod_small back m) by lia.
  apply (inverse_unique inv back a m Hm Hmul').
  rewrite Z.mul_comm. exact Hmul.
Qed.

Lemma mod_inv_involutive_witness :
  exists inv,
    Utils.mod_inv 8 10 7 = Ok inv /\ Utils.mod_inv 8 inv 7 = Ok (10 mod 7).
Proof.
  apply (mod_inv_involutive 8 10 7); [lia|reflexivity|vm_compute; lia].
Defined.

Section IntegerPowers.

Import Utils.

Variables base inv m : Z.
Hypothesis m_ge_2 : 2 <= m.
Hypothesis inverse : (base * inv) mod m = 1.

Let unit_power : Z -> Z := Vocabulary.unit_power base inv m.

Lemma unit_power_succ (e : Z) :
  (unit_power e * base) mod m = unit_power (e + 1).
Proof.
  unfold unit_power, Vocabulary.unit_power.
  destruct (Z.ltb_spec e 0) as [He|He], (Z.ltb_spec (e + 1) 0) as [He'|He'];
    try lia.
  - rewrite Z.mul_mod_idemp_l by lia.
    replace (- e) with (Z.succ (- (e + 1))) by lia.
    rewrite Z.pow_succ_r by lia.
    replace (inv * inv ^ (- (e + 1)) * base)
      with (inv ^ (- (e + 1)) * (base * inv)) by ring.
    rewrite <- Z.mul_mod_idemp_r, inverse, Z.mul_1_r by lia. reflexivity.
  - assert (e = -1) by lia. subst e. cbn [Z.opp Z.add].
    rewrite Z.mul_mod_idemp_l by lia.
    rewrite Z.pow_1_r, Z.pow_0_r, (Z.mul_comm inv base), inverse.
    symmetry. apply Z.mod_1_l. lia.
  - rewrite Z.mul_mod_idemp_l by lia.
    replace (e + 1) with (Z.succ e) by lia.
    rewrite Z.pow_succ_r by lia. f_equal. ring.
Qed.

Lemma unit_power_pred (e : Z) :
  (unit_power e * inv) mod m = unit_power (e - 1).
Proof.
  unfold unit_power, Vocabulary.unit_power.
  destruct (Z.ltb_spec e 0) as [He|He], (Z.ltb_spec (e - 1) 0) as [He'|He'];
    try lia.
  - rewrite Z.mul_mod_idemp_l by lia.
    replace (- (e - 1)) with (Z.succ (- e)) by lia.
    rewrite Z.pow_succ_r by lia. f_equal. ring.
  - assert (e = 0) by lia. subst e. cbn [Z.opp Z.sub Z.add].
    rewrite Z.mul_mod_idemp_l by lia.
    rewrite Z.pow_0_r, Z.pow_1_r. f_equal. ring.
  - rewrite Z.mul_mod_idemp_l by lia.
    replace e with (Z.succ (e - 1)) at 1 by lia.
    rewrite Z.pow_succ_r by lia.
    replace (base * base ^ (e - 1) * inv)
      with (base ^ (e - 1) * (base * inv)) by ring.
    rewrite <- Z.mul_mod_idemp_r, inverse, Z.mul_1_r by lia. reflexivity.
Qed.

Lemma unit_power_plus (k : Z) :
  0 <= k ->
  forall e, (unit_power e * (base ^ k mod m)) mod m = unit_power (e + k).
Proof.
  intros Hk. pattern k. apply natlike_ind; [| |exact Hk]; clear k Hk.
  - intros e. rewrite Z.pow_0_r, Z.mod_1_l, Z.mul_1_r, Z.add_0_r by lia.
    unfold unit_power, Vocabulary.unit_power. destruct (e <? 0); apply Z.mod_mod; lia.
  - intros k Hk IH e. rewrite Z.pow_succ_r by exact Hk.
    rewrite Z.mul_mod_idemp_r by lia.
    replace (unit_power e * (base * base ^ k))
      with (unit_power e * base * base ^ k) by ring.
    rewrite <- Z.mul_mod_idemp_l, unit_power_succ by lia.
    rewrite <- Z.mul_mod_idemp_r, IH by lia. f_equal. lia.
Qed.

Lemma unit_power_minus (k : Z) :
  0 <= k ->
  forall e, (unit_power e * (inv ^ k mod m)) mod m = unit_power (e - k).
Proof.
  intros Hk. pattern k. apply natlike_ind; [| |exact Hk]; clear k Hk.
  - intros e. rewrite Z.pow_0_r, Z.mod_1_l, Z.mul_1_r, Z.sub_0_r by lia.
    unfold unit_power, Vocabulary.unit_power. destruct (e <? 0); apply Z.mod_mod; lia.
  - intros k Hk IH e. rewrite Z.pow_succ_r by exact Hk.
    rewrite Z.mul_mod_idemp_r by lia.
    replace (unit_power e * (inv * inv ^ k))
      with (unit_power e * inv * inv ^ k) by ring.
    rewrite <- Z.mul_mod_idemp_l, unit_power_pred by lia.
    rewrite <- Z.mul_mod_idemp_r, IH by lia. f_equal. lia.
Qed.

Lemma unit_power_add (e1 e2 : Z) :
  unit_power (e1 + e2) = (unit_power e1 * unit_power e2) mod m.
Proof.
  assert (E2 : unit_power e2
               = if e2 <? 0 then inv ^ (- e2) mod m else base ^ e2 mod m)
    by reflexivity.
  rewrite E2. destruct (Z.ltb_spec e2 0).
  - rewrite unit_power_minus by lia. f_equal. lia.
  - rewrite unit_power_plus by lia. reflexivity.
Qed.

Lemma mod_pow_unit_power (limit : nat) (e : Z) :
  mod_inv limit base m = Ok inv -> mod_pow limit base e m = Ok (unit_power e).
Proof.
  intros Hinv. unfold unit_power, Vocabulary.unit_power. destruct (Z.ltb_spec e 0).
  - apply mod_pow_negative; [lia|assumption|exact Hinv].
  - apply mod_pow_nonneg; lia.
Qed.

End IntegerPowers.

(** [mod_pow] turns sums of exponents into products for exponents of
    either sign: for [mod >= 2] and [gcd(base, mod) = 1], when the
    interpreter allows the [calls(base % mod, mod)] nested calls of
    [_extended_gcd] that a negative exponent needs,
    [mod_pow(base, e1 + e2, mod) ==
     (mod_pow(base, e1, mod) * mod_pow(base, e2, mod)) % mod], every
    value lying in [[0, mod)]; in particular
    [mod_pow(base, -e, mod)] is the inverse of [mod_pow(base, e, mod)]. *)
Theorem mod_pow_add_exponents (limit : nat) (base m : Z) :
  2 <= m -> Z.gcd base m = 1 ->
  (Vocabulary.calls (base mod m) m <= limit)%nat ->
  forall e1 e2,
    exists p1 p2,
      Utils.mod_pow limit base e1 m = Ok p1 /\ 0 <= p1 < m /\
      Utils.mod_pow limit base e2 m = Ok p2 /\ 0 <= p2 < m /\
      Utils.mod_pow limit base (e1 + e2) m = Ok ((p1 * p2) mod m) /\
      (e2 = - e1 -> (p1 * p2) mod m = 1).
Proof.
  intros Hm Hg Hc e1 e2.
  destruct (mod_inv_coprime limit base m Hm Hg Hc)
    as (inv & Hinv & Hrange & Hmul).
  pose proof (fun e => mod_pow_unit_power base inv m Hm limit e Hinv) as Hpow.
  assert (Hbound : forall e, 0 <= Vocabulary.unit_power base inv m e < m).
  { intros e. unfold Vocabulary.unit_power.
    destruct (e <? 0); apply Z.mod_pos_bound; lia. }
  exists (Vocabulary.unit_power base inv m e1),
         (Vocabulary.unit_power base inv m e2).
  rewrite !Hpow, (unit_power_add base inv m Hm Hmul).
  repeat split; try apply Hbound.
  intros ->. rewrite <- (unit_power_add base inv m Hm Hmul).
  replace (e1 + - e1) with 0 by lia.
  unfold Vocabulary.unit_power. cbn. apply Z.mod_1_l. lia.
Qed.

Lemma mod_pow_add_exponents_witness :
  exists p1 p2,
    Utils.mod_pow 3 3 5 7 = Ok p1 /\ 0 <= p1 < 7 /\
    Utils.mod_pow 3 3 (-2) 7 = Ok p2 /\ 0 <= p2 < 7 /\
    Utils.mod_pow 3 3 (5 + -2) 7 = Ok ((p1 * p2) mod 7) /\
    (-2 = - 5 -> (p1 * p2) mod 7 = 1).
Proof.
  apply (mod_pow_add_exponents 3 3 7); [lia|reflexivity|vm_compute; lia].
Defined.

Section DiscreteLog.

Import Utils.

Variables m target step : Z.
Hypothesis m_pos : 0 < m.

(** What a scan returns: the first exponent at which the accumulator
    meets the target, if there is one among the [n] it visits. *)
Lemma dlog_scan_spec (n : nat) :
  forall x acc,
    acc mod m = acc ->
    match dlog_scan n x acc target step m with
    | Some r =>
        exists i, (i < n)%nat /\ r = x + Z.of_nat i /\
                  (acc * step ^ Z.of_nat i) mod m = target /\
                  forall j, (j < i)%nat ->
                            (acc * step ^ Z.of_nat j) mod m <> target
    | None =>
        forall j, (j < n)%nat -> (acc * step ^ Z.of_nat j) mod m <> target
    end.
Proof.
  induction n as [|n IH]; intros x acc Hacc; [intros j Hj; lia|].
  cbn [dlog_scan]. destruct (Z.eqb_spec acc target) as [Heq|Hne].
  - exists 0%nat. split; [lia|]. split; [simpl; lia|]. split.
    + simpl. rewrite Z.mul_1_r, Hacc. exact Heq.
    + intros j Hj. lia.
  - assert (Hstep : forall j,
              ((acc * step) mod m * step ^ Z.of_nat j) mod m
              = (acc * step ^ Z.of_nat (S j)) mod m).
    { intros j. rewrite Z.mul_mod_idemp_l by lia.
      rewrite Nat2Z.inj_succ, Z.pow_succ_r by lia. f_equal. ring. }
    specialize (IH (x + 1) ((acc * step) mod m)
                  ltac:(apply Z.mod_mod; lia)).
    destruct (dlog_scan n (x + 1) ((acc * step) mod m) target step m)
      as [r|].
    + destruct IH as (i & Hi & Hr & Hhit & Hfirst).
      exists (S i). split; [lia|]. split; [lia|]. split.
      * rewrite <- Hstep. exact Hhit.
      * intros [|j] Hj.
        -- simpl. rewrite Z.mul_1_r, Hacc. exact Hne.
        -- rewrite <- Hstep. apply Hfirst. lia.
    + intros [|j] Hj.
      * simpl. rewrite Z.mul_1_r, Hacc. exact Hne.
      * rewrite <- Hstep. apply IH. lia.
Qed.

End DiscreteLog.

(** Whatever [discrete_log_brute] returns is a discrete logarithm within
    the search range: for [modulus >= 2], a result [x] satisfies
    [-max_val <= x <= max_val] and
    [mod_pow(base, x, modulus) == target % modulus]; a non-negative
    result is the least non-negative solution, and a negative result
    means that no exponent in [[0, max_val]] is one. *)
Theorem discrete_log_brute_sound
  (limit : nat) (target base m max_val x : Z) :
  2 <= m ->
  Utils.discrete_log_brute limit target base m max_val = Ok x ->
  - max_val <= x <= max_val /\
  Utils.mod_pow limit base x m = Ok (target mod m) /\
  (forall k, 0 <= k <= max_val -> (k < x \/ x < 0) ->
     base ^ k mod m <> target mod m).
Proof.
  intros Hm. unfold Utils.discrete_log_brute, Py.mod_.
  destruct (Z.eqb_spec m 0); [lia|]. cbn [Py.bind].
  pose proof (dlog_scan_spec m (target mod m) base ltac:(lia)
                (Z.to_nat (max_val + 1)) 0 1 ltac:(apply Z.mod_1_l; lia))
    as Hscan.
  destruct (Utils.dlog_scan (Z.to_nat (max_val + 1)) 0 1 (target mod m)
              base m) as [r|].
  - destruct Hscan as (i & Hi & Hr & Hhit & Hfirst).
    intros Heq. inversion Heq; subst x. rewrite Z.mul_1_l in Hhit.
    assert (Hri : r = Z.of_nat i) by lia. clear Hr. subst r.
    split; [lia|]. split.
    + rewrite mod_pow_nonneg by lia. rewrite Hhit. reflexivity.
    + intros k Hk [Hlt|Hneg]; [|lia].
      specialize (Hfirst (Z.to_nat k) ltac:(lia)).
      rewrite Z.mul_1_l, Z2Nat.id in Hfirst by lia. exact Hfirst.
  - destruct (Utils.mod_inv limit base m) as [inv|e] eqn:Hinv;
      cbn [Py.bind]; [|discriminate].
    destruct (mod_inv_range limit base m inv Hinv) as [_ Hrange].
    pose proof (dlog_scan_spec m (target mod m) inv ltac:(lia)
                  (Z.to_nat max_val) 1 inv
                  ltac:(apply Z.mod_small; lia)) as Hscan'.
    destruct (Utils.dlog_scan (Z.to_nat max_val) 1 inv (target mod m)
                inv m) as [r|]; [|discriminate].
    destruct Hscan' as (i & Hi & Hr & Hhit & _).
    intros Heq. inversion Heq; subst x.
    split; [lia|]. split.
    + rewrite (mod_pow_negative limit base (- r) m inv)
        by (lia || exact Hinv).
      rewrite <- Hhit. do 2 f_equal.
      replace (- - r) with (Z.succ (Z.of_nat i)) by lia.
      rewrite Z.pow_succ_r by lia. reflexivity.
    + intros k Hk _.
      specialize (Hscan (Z.to_nat k) ltac:(lia)).
      rewrite Z.mul_1_l, Z2Nat.id in Hscan by lia. exact Hscan.
Qed.

Lemma discrete_log_brute_sound_witness :
  - 3 <= -2 <= 3 /\
  Utils.mod_pow 3 3 (-2) 7 = Ok (4 mod 7) /\
  (forall k, 0 <= k <= 3 -> (k < -2 \/ -2 < 0) -> 3 ^ k mod 7 <> 4 mod 7).
Proof.
  apply (discrete_log_brute_sound 3 4 3 7 3 (-2)); [lia|reflexivity].
Defined.

(** [discrete_log_brute] finds a discrete logarithm whenever the search
    range holds one: for [modulus >= 2], if some [k] with
    [-max_val <= k <= max_val] has
    [mod_pow(base, k, modulus) == target % modulus], the search returns
    an exponent (and raises nothing). *)
Theorem discrete_log_brute_complete
  (limit : nat) (target base m max_val k : Z) :
  2 <= m ->
  - max_val <= k <= max_val ->
  Utils.mod_pow limit base k m = Ok (target mod m) ->
  exists x, Utils.discrete_log_brute limit target base m max_val = Ok x.
Proof.
  intros Hm Hk Hpow. unfold Utils.discrete_log_brute, Py.mod_.
  destruct (Z.eqb_spec m 0); [lia|]. cbn [Py.bind].
  pose proof (dlog_scan_spec m (target mod m) base ltac:(lia)
                (Z.to_nat (max_val + 1)) 0 1 ltac:(apply Z.mod_1_l; lia))
    as Hscan.
  destruct (Utils.dlog_scan (Z.to_nat (max_val + 1)) 0 1 (target mod m)
              base m) as [r|]; [eexists; reflexivity|].
  assert (Hneg : k < 0).
  { destruct (Z_lt_le_dec k 0) as [|Hk0]; [assumption|exfalso].
    rewrite mod_pow_nonneg in Hpow by lia. injection Hpow as Hval.
    apply (Hscan (Z.to_nat k) ltac:(lia)).
    rewrite Z.mul_1_l, Z2Nat.id by lia. exact Hval. }
  unfold Utils.mod_pow in Hpow.
  destruct (Z.leb_spec m 0); [lia|].
  destruct (Z.ltb_spec k 0); [|lia].
  destruct (Utils.mod_inv limit base m) as [inv|e] eqn:Hinv;
    cbn [Py.bind] in *; [|discriminate].
  destruct (mod_inv_range limit base m inv Hinv) as [_ Hrange].
  rewrite pow3_nonneg in Hpow by lia. injection Hpow as Hval.
  pose proof (dlog_scan_spec m (target mod m) inv ltac:(lia)
                (Z.to_nat max_val) 1 inv
                ltac:(apply Z.mod_small; lia)) as Hscan'.
  destruct (Utils.dlog_scan (Z.to_nat max_val) 1 inv (target mod m)
              inv m) as [r|]; [eexists; reflexivity|exfalso].
  apply (Hscan' (Z.to_nat (- k - 1)) ltac:(lia)).
  rewrite Z2Nat.id by lia. rewrite <- Hval. f_equal.
  replace (- k) with (Z.succ (- k - 1)) at 2 by lia.
  rewrite Z.pow_succ_r by lia. reflexivity.
Qed.

Lemma discrete_log_brute_complete_witness :
  exists x, Utils.discrete_log_brute 3 4 3 7 3 = Ok x.
Proof.
  apply (discrete_log_brute_complete 3 4 3 7 3 (-2)); [lia|lia|reflexivity].
Defined.

(** ** More of [tjl.py]: parameters, encryption, partial decryption *)

Section Hashing.

Import Utils.

Variable sha256 : list Byte.byte -> list Byte.byte.

Lemma rehash_spec (k : nat) :
  forall digest parts,
    rehash sha256 k digest parts
    = parts ++ map (fun j => Nat.iter (S j) sha256 digest) (seq 0 k).
Proof.
  induction k as [|k IH]; intros digest parts.
  - simpl. rewrite app_nil_r. reflexivity.
  - cbn [rehash]. rewrite IH, <- app_assoc. f_equal.
    cbn [seq map app]. f_equal.
    rewrite <- seq_shift, map_map. apply map_ext. intros j.
    rewrite !Nat.iter_succ_r. reflexivity.
Qed.

Lemma int_from_bytes_bound (bs : list Byte.byte) :
  0 <= int_from_bytes bs < 256 ^ Z.of_nat (length bs).
Proof.
  unfold int_from_bytes.
  assert (H : forall acc k,
             0 <= acc < 256 ^ Z.of_nat k ->
             0 <= fold_left (fun acc b => acc * 256 + Z.of_N (Byte.to_N b))
                    bs acc
             < 256 ^ Z.of_nat (k + length bs)).
  { induction bs as [|b bs IH]; intros acc k Hacc.
    - simpl. rewrite Nat.add_0_r. exact Hacc.
    - cbn [fold_left length].
      replace (k + S (length bs))%nat with (S k + length bs)%nat by lia.
      apply IH. rewrite Nat2Z.inj_succ, Z.pow_succ_r by lia.
      pose proof (Byte.to_N_bounded b) as Hb. lia. }
  apply (H 0 0%nat). simpl. lia.
Qed.

End Hashing.

(** [hash_to_group(data, modulus)] raises its [ValueError] exactly when
    [modulus < 2]; otherwise it returns an integer in [[0, modulus)]: the
    big-endian value of the eight chained digests
    [sha256(data), sha256(sha256(data)), ...], reduced modulo [modulus].
    With 32-byte digests that value is below [2^2048]. *)
Theorem hash_to_group_spec :
  forall (sha256 : list Byte.byte -> list Byte.byte)
         (data : list Byte.byte) (modulus : Z),
    let chain := map (fun k => Nat.iter (S k) sha256 data) (seq 0 8) in
    (modulus < 2 -> Utils.hash_to_group sha256 data modulus = None) /\
    (2 <= modulus ->
     Utils.hash_to_group sha256 data modulus
     = Some (Utils.int_from_bytes (concat chain) mod modulus) /\
     0 <= Utils.int_from_bytes (concat chain) mod modulus < modulus) /\
    ((forall d, length (sha256 d) = 32%nat) ->
     0 <= Utils.int_from_bytes (concat chain) < 2 ^ 2048).
Proof.
  intros sha256 data modulus chain. split; [|split].
  - intros Hm. unfold Utils.hash_to_group.
    destruct (Z.ltb_spec modulus 2); [reflexivity|lia].
  - intros Hm. split; [|apply Z.mod_pos_bound; lia].
    unfold Utils.hash_to_group.
    destruct (Z.ltb_spec modulus 2); [lia|].
    cbv zeta. rewrite rehash_spec. reflexivity.
  - intros Hlen.
    pose proof (int_from_bytes_bound (concat chain)) as Hb.
    replace (length (concat chain)) with 256%nat in Hb; [exact Hb|].
    unfold chain. cbn [seq map concat]. rewrite !length_app.
    cbn [Nat.iter nat_rect length]. rewrite !Hlen. reflexivity.
Qed.

Section Generator.

Import Utils Vocabulary.

Variable n : Z.
Hypothesis n_ge_2 : 2 <= n.

Lemma square_pos : 2 <= n * n.
Proof. nia. Qed.

(** Products of elements of the form [1 + a*n] modulo [n^2]. *)
Lemma one_plus_mul (a b : Z) :
  ((1 + a * n) * (1 + b * n)) mod (n * n) = (1 + (a + b) * n) mod (n * n).
Proof.
  replace ((1 + a * n) * (1 + b * n))
    with (1 + (a + b) * n + a * b * (n * n)) by ring.
  apply Z.mod_add. nia.
Qed.

Lemma one_plus_pow (a k : Z) :
  0 <= k -> (1 + a * n) ^ k mod (n * n) = (1 + k * a * n) mod (n * n).
Proof.
  intros Hk. pattern k. apply natlike_ind; [| |exact Hk]; clear k Hk.
  - rewrite Z.pow_0_r. f_equal; ring.
  - intros k Hk IH. rewrite Z.pow_succ_r by exact Hk.
    rewrite <- Z.mul_mod_idemp_r, IH, Z.mul_mod_idemp_r by nia.
    replace (k * a * n) with ((k * a) * n) by ring.
    rewrite one_plus_mul. f_equal. ring.
Qed.

Lemma generator_coprime : Z.gcd (1 + n) (n * n) = 1.
Proof.
  apply Z.bezout_1_gcd. exists (1 - n), 1. ring.
Qed.

(** Inverting the generator takes three calls of [_extended_gcd]: on
    [(1 + n, n^2)], on [(1, 1 + n)] and on [(0, 1)]. *)
Lemma generator_calls : calls ((1 + n) mod (n * n)) (n * n) = 3%nat.
Proof.
  rewrite (Z.mod_small (1 + n)) by nia.
  rewrite calls_eq. destruct (Z.eqb_spec (1 + n) 0); [lia|].
  assert (E1 : (n * n) mod (1 + n) = 1).
  { replace (n * n) with (1 + (n - 1) * (1 + n)) by ring.
    rewrite Z.mod_add by lia. apply Z.mod_1_l. lia. }
  rewrite E1, calls_eq. cbn [Z.eqb].
  rewrite Z.mod_1_r, calls_eq. reflexivity.
Qed.

(** [mod_pow(1 + n, v, n^2)] for an exponent of either sign. *)
Lemma generator_power (limit : nat) (v : Z) :
  (v < 0 -> (3 <= limit)%nat) ->
  mod_pow limit (1 + n) v (n * n) = Ok ((1 + v * n) mod (n * n)).
Proof.
  intros Hlimit. pose proof square_pos as HN.
  destruct (Z_lt_le_dec v 0) as [Hneg|Hpos].
  - destruct (mod_inv_coprime limit (1 + n) (n * n) HN generator_coprime
                ltac:(rewrite generator_calls; auto))
      as (inv & Hinv & Hrange & Hmul).
    rewrite (mod_pow_negative limit (1 + n) v (n * n) inv)
      by (lia || exact Hinv).
    f_equal.
    assert (Hinv' : inv mod (n * n) = (1 + (-1) * n) mod (n * n)).
    { apply (inverse_unique (1 + n) _ _ (n * n) HN Hmul).
      replace ((1 + n) * (1 + -1 * n)) with (1 + (-1) * (n * n)) by ring.
      rewrite Z.mod_add by nia. apply Z.mod_1_l. lia. }
    rewrite <- Z.mod_pow_l, Hinv', Z.mod_pow_l.
    rewrite one_plus_pow by lia. f_equal. ring.
  - rewrite mod_pow_nonneg by lia. f_equal.
    replace (1 + n) with (1 + 1 * n) by ring.
    rewrite one_plus_pow by lia. f_equal. ring.
Qed.

End Generator.

Section Protect.

Import Utils TJL Vocabulary.

Variable sha256 : list Byte.byte -> list Byte.byte.
Variable params : TJLParams.
Hypothesis valid : paillier params.

Lemma paillier_generator (limit : nat) (v : Z) :
  (v < 0 -> (3 <= limit)%nat) ->
  mod_pow limit (g params) v (n_squared params)
  = Ok ((1 + v * n params) mod n_squared params).
Proof.
  intros Hlimit. destruct valid as (Hn & HN & Hg). rewrite Hg, HN.
  rewrite (Z.mod_small (1 + n params)) by nia.
  apply generator_power; assumption.
Qed.

Lemma protect_value (limit : nat) (value client_id round_num : Z) :
  (value < 0 -> (3 <= limit)%nat) ->
  exists r,
    hash_to_group sha256 (mask_input client_id round_num) (n_squared params)
    = Some r /\
    0 <= r < n_squared params /\
    protect sha256 limit params value client_id round_num
    = Some (Ok (((1 + value * n params) mod n_squared params
                 * (h params ^ r mod n_squared params))
                mod n_squared params)).
Proof.
  intros Hlimit. destruct valid as (Hn & HN & Hg).
  assert (HN2 : 2 <= n_squared params) by (rewrite HN; nia).
  unfold protect, hash_to_group.
  destruct (Z.ltb_spec (n_squared params) 2); [lia|]. cbv zeta.
  eexists. split; [reflexivity|]. split; [apply Z.mod_pos_bound; lia|].
  rewrite paillier_generator by exact Hlimit. cbn [Py.bind].
  rewrite mod_pow_nonneg
    by (lia || (apply Z.mod_pos_bound; lia)).
  cbn [Py.bind]. unfold Py.mod_.
  destruct (Z.eqb_spec (n_squared params) 0); [lia|reflexivity].
Qed.

Lemma total_nonneg (xs : list Z) :
  Forall (fun x => 0 <= x) xs -> 0 <= total xs.
Proof.
  induction 1 as [|x xs Hx _ IH]; [cbn; lia|].
  change (total (x :: xs)) with (x + total xs). lia.
Qed.

(** The inputs of a round: one [(value, client_id, round_num)] per
    ciphertext. *)
Lemma protect_all (limit : nat) (inputs : list (Z * Z * Z)) :
  (forall v c r, In (v, c, r) inputs -> v < 0 -> (3 <= limit)%nat) ->
  exists cts masks,
    map (fun '(v, c, r) => protect sha256 limit params v c r) inputs
    = map (fun ct => Some (Ok ct)) cts /\
    map (fun '(_, c, r) =>
           hash_to_group sha256 (mask_input c r) (n_squared params)) inputs
    = map Some masks /\
    Forall (fun r => 0 <= r) masks /\
    length cts = length inputs /\
    product cts mod n_squared params
    = ((1 + total (map (fun '(v, _, _) => v) inputs) * n params)
       * h params ^ total masks) mod n_squared params.
Proof.
  intros Hlimit. destruct valid as (Hn & HN & Hg).
  assert (HN0 : n_squared params <> 0) by (rewrite HN; nia).
  induction inputs as [|[[v c] r] inputs IH].
  - exists [], []. repeat split; constructor.
  - destruct IH as (cts & masks & Hcts & Hmasks & Hpos & Hlen & Hprod).
    { intros v' c' r' Hin. apply (Hlimit v' c' r'). right. exact Hin. }
    destruct (protect_value limit v c r (Hlimit v c r (or_introl eq_refl)))
      as (m & Hm & Hmr & Hct).
    eexists (_ :: cts), (m :: masks).
    cbn [map]. rewrite Hct, Hcts, Hm, Hmasks.
    split; [reflexivity|]. split; [reflexivity|].
    split; [constructor; [lia|exact Hpos]|].
    split; [cbn [length]; lia|].
    cbn [product fold_right total]. fold (product cts).
    fold (total (map (fun '(v0, _, _) => v0) inputs)). fold (total masks).
    rewrite Z.mul_mod_idemp_l by exact HN0.
    rewrite <- Z.mul_mod_idemp_r, Hprod, Z.mul_mod_idemp_r by exact HN0.
    rewrite Z.pow_add_r by (lia || (apply total_nonneg; exact Hpos)).
    set (V := total (map (fun '(v0, _, _) => v0) inputs)).
    set (R := total masks).
    replace ((1 + v * n params) mod n_squared params
             * (h params ^ m mod n_squared params)
             * ((1 + V * n params) * h params ^ R))
      with (((1 + v * n params) mod n_squared params * (1 + V * n params))
            * ((h params ^ m mod n_squared params) * h params ^ R)) by ring.
    rewrite <- Z.mul_mod_idemp_l by exact HN0.
    rewrite (Z.mul_mod_idemp_l (1 + v * n params)) by exact HN0.
    rewrite HN at 1. rewrite one_plus_mul by exact Hn. rewrite <- HN.
    rewrite Z.mul_mod_idemp_l by exact HN0.
    rewrite <- Z.mul_mod_idemp_r by exact HN0.
    rewrite (Z.mul_mod_idemp_l (h params ^ m)) by exact HN0.
    rewrite Z.mul_mod_idemp_r by exact HN0.
    f_equal; ring.
Qed.

End Protect.

Section Decryption.

Import Utils TJL Vocabulary.

Variable params : TJLParams.
Hypothesis valid : paillier params.

(** The Paillier [L]-function of [share_combine] on an element
    [1 + m*n]. *)
Lemma share_combine_lfunction (limit : nat) (shares : list Z)
  (threshold m : Z) :
  0 <= threshold <= Py.len shares ->
  product (firstn (Z.to_nat threshold) shares) mod n_squared params
  = (1 + m * n params) mod n_squared params ->
  share_combine limit params shares threshold = Ok (m mod n params).
Proof.
  destruct valid as (Hn & HN & Hg). intros Hthr Hprod.
  rewrite share_combine_enough by (lia || (rewrite HN; nia)).
  cbv zeta. rewrite Hprod, Zminus_mod_idemp_l.
  replace (1 + m * n params - 1) with (m * n params) by ring.
  rewrite HN, Z.mul_mod_distr_r by lia.
  rewrite Z.mod_mul by lia. cbn [Z.eqb].
  rewrite Z.div_mul by lia. rewrite Z.mod_mod by lia. reflexivity.
Qed.

(** Partial decryptions with non-negative key shares multiply to the
    power by the sum of the shares. *)
Lemma share_protect_product (limit : nat) (ct : Z) (key_shares : list Z) :
  Forall (fun sk => 0 <= sk) key_shares ->
  exists ds,
    map (fun sk => share_protect limit params sk ct) key_shares
    = map Ok ds /\
    length ds = length key_shares /\
    product ds mod n_squared params
    = ct ^ total key_shares mod n_squared params.
Proof.
  destruct valid as (Hn & HN & Hg).
  assert (HN1 : 1 <= n_squared params) by (rewrite HN; nia).
  induction 1 as [|sk sks Hsk Hall IH].
  - exists []. repeat split; constructor.
  - destruct IH as (ds & Hds & Hlen & Hprod).
    exists (ct ^ sk mod n_squared params :: ds).
    cbn [map]. unfold share_protect at 1.
    rewrite mod_pow_nonneg, Hds by lia.
    split; [reflexivity|]. split; [cbn [length]; lia|].
    change (total (sk :: sks)) with (sk + total sks).
    rewrite Z.pow_add_r by (lia || (apply total_nonneg; exact Hall)).
    change (product (ct ^ sk mod n_squared params :: ds))
      with (ct ^ sk mod n_squared params * product ds).
    rewrite Z.mul_mod_idemp_l by lia.
    rewrite <- Z.mul_mod_idemp_r, Hprod, Z.mul_mod_idemp_r by lia.
    reflexivity.
Qed.

End Decryption.

(** For parameters of the shape that [setup] builds ([n >= 2],
    [n_squared = n*n], [g = (1 + n) % n_squared]), [protect] raises
    nothing, whatever the integer [value] (negative ones included), the
    client and the round: it returns [((1 + value*n) * h^r) % n^2], in
    [[0, n^2)], where [r] is the hash of ["{client_id}||{round_num}"].
    A negative [value] makes [mod_pow] invert [g], which takes three
    nested calls of [_extended_gcd]: the interpreter has to allow
    them. *)
Theorem protect_total
  (sha256 : list Byte.byte -> list Byte.byte) (limit : nat)
  (params : TJL.TJLParams) (value client_id round_num : Z) :
  Vocabulary.paillier params ->
  (value < 0 -> (3 <= limit)%nat) ->
  exists r ct,
    Utils.hash_to_group sha256 (TJL.mask_input client_id round_num)
      (TJL.n_squared params) = Some r /\
    0 <= r < TJL.n_squared params /\
    TJL.protect sha256 limit params value client_id round_num
    = Some (Ok ct) /\
    0 <= ct < TJL.n_squared params /\
    ct = ((1 + value * TJL.n params) * TJL.h params ^ r)
         mod TJL.n_squared params.
Proof.
  intros Hvalid Hlimit.
  destruct (protect_value sha256 params Hvalid limit value client_id
              round_num Hlimit)
    as (r & Hr & Hrange & Hct).
  destruct Hvalid as (Hn & HN & Hg).
  assert (HN0 : 0 < TJL.n_squared params) by (rewrite HN; nia).
  exists r. eexists. split; [exact Hr|]. split; [exact Hrange|].
  split; [exact Hct|]. split; [apply Z.mod_pos_bound; exact HN0|].
  rewrite <- Z.mul_mod by lia. reflexivity.
Qed.

Lemma protect_total_witness :
  exists r ct,
    Utils.hash_to_group (fun _ => [Byte.x01]) (TJL.mask_input 3 1) 25
    = Some r /\
    0 <= r < 25 /\
    TJL.protect (fun _ => [Byte.x01]) 3
      {| TJL.n := 5; TJL.n_squared := 25; TJL.g := 6; TJL.h := 7 |}
      (-2) 3 1 = Some (Ok ct) /\
    0 <= ct < 25 /\
    ct = ((1 + -2 * 5) * 7 ^ r) mod 25.
Proof.
  apply (protect_total (fun _ => [Byte.x01]) 3
           {| TJL.n := 5; TJL.n_squared := 25; TJL.g := 6; TJL.h := 7 |}
           (-2) 3 1).
  - repeat split; cbn; lia.
  - lia.
Defined.

(** Aggregation is additively homomorphic: for parameters of the shape
    that [setup] builds, [aggregate] of the ciphertexts that [protect]
    returns for a non-empty list of inputs is
    [((1 + (v_1 + ... + v_k)*n) * h^(r_1 + ... + r_k)) % n^2], the
    ciphertext form of the sum of the values under the sum of the
    masks.  (A negative value needs the three nested calls of
    [_extended_gcd] that inverting [g] takes.) *)
Theorem aggregate_of_protect
  (sha256 : list Byte.byte -> list Byte.byte) (limit : nat)
  (params : TJL.TJLParams) (inputs : list (Z * Z * Z)) :
  Vocabulary.paillier params -> inputs <> [] ->
  (forall v c r, In (v, c, r) inputs -> v < 0 -> (3 <= limit)%nat) ->
  exists cts masks,
    map (fun '(v, c, r) => TJL.protect sha256 limit params v c r) inputs
    = map (fun ct => Some (Ok ct)) cts /\
    map (fun '(_, c, r) =>
           Utils.hash_to_group sha256 (TJL.mask_input c r)
             (TJL.n_squared params)) inputs
    = map Some masks /\
    TJL.aggregate params cts
    = Ok (((1 + Vocabulary.total (map (fun '(v, _, _) => v) inputs)
                * TJL.n params)
           * TJL.h params ^ Vocabulary.total masks)
          mod TJL.n_squared params).
Proof.
  intros Hvalid Hne Hlimit.
  destruct (protect_all sha256 params Hvalid limit inputs Hlimit)
    as (cts & masks & Hcts & Hmasks & _ & Hlen & Hprod).
  exists cts, masks. split; [exact Hcts|]. split; [exact Hmasks|].
  destruct Hvalid as (Hn & HN & Hg).
  rewrite aggregate_product.
  - rewrite Hprod. reflexivity.
  - rewrite HN. nia.
  - destruct cts; [|discriminate]. destruct inputs; [contradiction|].
    discriminate.
Qed.

Lemma aggregate_of_protect_witness :
  exists cts masks,
    map (fun '(v, c, r) =>
           TJL.protect (fun _ => [Byte.x01]) 3
             {| TJL.n := 5; TJL.n_squared := 25; TJL.g := 6; TJL.h := 7 |}
             v c r) [(1, 0, 4); (-2, 1, 4)]
    = map (fun ct => Some (Ok ct)) cts /\
    map (fun '(_, c, r) =>
           Utils.hash_to_group (fun _ => [Byte.x01]) (TJL.mask_input c r) 25)
      [(1, 0, 4); (-2, 1, 4)]
    = map Some masks /\
    TJL.aggregate
      {| TJL.n := 5; TJL.n_squared := 25; TJL.g := 6; TJL.h := 7 |} cts
    = Ok (((1 + (1 + (-2 + 0)) * 5) * 7 ^ Vocabulary.total masks) mod 25).
Proof.
  apply (aggregate_of_protect (fun _ => [Byte.x01]) 3
           {| TJL.n := 5; TJL.n_squared := 25; TJL.g := 6; TJL.h := 7 |}
           [(1, 0, 4); (-2, 1, 4)]).
  - repeat split; cbn; lia.
  - discriminate.
  - intros; lia.
Defined.

(** The exact-division path of [share_combine] decodes elements of the
    form [1 + m*n]: for parameters with [n >= 2] and [n_squared = n*n],
    when the first [threshold] shares multiply to [1 + m*n] modulo
    [n^2], the result is [m % n]; a negative [m] comes back as its
    residue in [[0, n)]. *)
Theorem share_combine_decodes
  (limit : nat) (params : TJL.TJLParams) (shares : list Z)
  (threshold m : Z) :
  Vocabulary.paillier params ->
  0 <= threshold <= Py.len shares ->
  product (firstn (Z.to_nat threshold) shares) mod TJL.n_squared params
  = (1 + m * TJL.n params) mod TJL.n_squared params ->
  TJL.share_combine limit params shares threshold
  = Ok (m mod TJL.n params) /\
  0 <= m mod TJL.n params < TJL.n params.
Proof.
  intros Hvalid Hthr Hprod. split.
  - apply share_combine_lfunction; assumption.
  - apply Z.mod_pos_bound. destruct Hvalid as (Hn & _). lia.
Qed.

Lemma share_combine_decodes_witness :
  TJL.share_combine 0
    {| TJL.n := 5; TJL.n_squared := 25; TJL.g := 6; TJL.h := 7 |}
    [21; 16; 9] 2 = Ok (-3 mod 5) /\
  0 <= -3 mod 5 < 5.
Proof.
  apply (share_combine_decodes 0
           {| TJL.n := 5; TJL.n_squared := 25; TJL.g := 6; TJL.h := 7 |}
           [21; 16; 9] 2 (-3)).
  - repeat split; cbn; lia.
  - cbn. lia.
  - reflexivity.
Defined.

(** A whole round: the ciphertexts of [protect] are aggregated, every
    key holder applies [share_protect] with a non-negative key share, and
    [share_combine] combines all the partial decryptions.  When the sum
    [sk] of the key shares cancels the masks
    ([h^((r_1 + ... + r_k) * sk) % n^2 == 1]), the round returns
    [(sk * (v_1 + ... + v_k)) % n]: the sum of the values when
    [sk % n == 1].  (A negative value needs the three nested calls of
    [_extended_gcd] that inverting [g] takes.) *)
Theorem tjl_round
  (sha256 : list Byte.byte -> list Byte.byte) (limit : nat)
  (params : TJL.TJLParams) (inputs : list (Z * Z * Z))
  (key_shares : list Z) :
  Vocabulary.paillier params -> inputs <> [] ->
  Forall (fun sk => 0 <= sk) key_shares ->
  (forall v c r, In (v, c, r) inputs -> v < 0 -> (3 <= limit)%nat) ->
  exists cts masks aggregate_ct ds,
    map (fun '(v, c, r) => TJL.protect sha256 limit params v c r) inputs
    = map (fun ct => Some (Ok ct)) cts /\
    map (fun '(_, c, r) =>
           Utils.hash_to_group sha256 (TJL.mask_input c r)
             (TJL.n_squared params)) inputs
    = map Some masks /\
    TJL.aggregate params cts = Ok aggregate_ct /\
    map (fun sk => TJL.share_protect limit params sk aggregate_ct) key_shares
    = map Ok ds /\
    (TJL.h params
       ^ (Vocabulary.total masks * Vocabulary.total key_shares)
     mod TJL.n_squared params = 1 ->
     TJL.share_combine limit params ds (Py.len ds)
     = Ok ((Vocabulary.total key_shares
            * Vocabulary.total (map (fun '(v, _, _) => v) inputs))
           mod TJL.n params)).
Proof.
  intros Hvalid Hne Hkeys Hlimit.
  destruct (protect_all sha256 params Hvalid limit inputs Hlimit)
    as (cts & masks & Hcts & Hmasks & Hpos & Hlen & Hprod).
  set (V := Vocabulary.total (map (fun '(v, _, _) => v) inputs)) in *.
  set (R := Vocabulary.total masks) in *.
  set (sk := Vocabulary.total key_shares).
  pose proof Hvalid as (Hn & HN & Hg).
  assert (HN0 : TJL.n_squared params <> 0) by (rewrite HN; nia).
  destruct (share_protect_product params Hvalid limit
              (product cts mod TJL.n_squared params) key_shares Hkeys)
    as (ds & Hds & Hdlen & Hdprod).
  exists cts, masks, (product cts mod TJL.n_squared params), ds.
  split; [exact Hcts|]. split; [exact Hmasks|]. split.
  { apply aggregate_product; [exact HN0|].
    destruct cts; [|discriminate]. destruct inputs; [contradiction|].
    discriminate. }
  split; [exact Hds|].
  intros Hcancel. fold R sk in Hcancel.
  apply share_combine_lfunction; [exact Hvalid|unfold Py.len; lia|].
  unfold Py.len. rewrite Nat2Z.id, firstn_all, Hdprod.
  fold sk. rewrite Hprod.
  assert (Hsk : 0 <= sk) by (apply total_nonneg; exact Hkeys).
  assert (HR : 0 <= R) by (apply total_nonneg; exact Hpos).
  rewrite Z.mod_pow_l, Z.pow_mul_l.
  rewrite <- Z.pow_mul_r by lia.
  rewrite <- Z.mul_mod_idemp_r, Hcancel, Z.mul_1_r by exact HN0.
  rewrite HN, one_plus_pow by lia. f_equal; ring.
Qed.

Lemma tjl_round_witness :
  exists cts masks aggregate_ct ds,
    map (fun '(v, c, r) =>
           TJL.protect (fun _ => [Byte.x01]) 3
             {| TJL.n := 5; TJL.n_squared := 25; TJL.g := 6; TJL.h := 7 |}
             v c r) [(1, 0, 4); (2, 1, 4)]
    = map (fun ct => Some (Ok ct)) cts /\
    map (fun '(_, c, r) =>
           Utils.hash_to_group (fun _ => [Byte.x01]) (TJL.mask_input c r) 25)
      [(1, 0, 4); (2, 1, 4)]
    = map Some masks /\
    TJL.aggregate
      {| TJL.n := 5; TJL.n_squared := 25; TJL.g := 6; TJL.h := 7 |} cts
    = Ok aggregate_ct /\
    map (fun sk =>
           TJL.share_protect 3
             {| TJL.n := 5; TJL.n_squared := 25; TJL.g := 6; TJL.h := 7 |}
             sk aggregate_ct) [2; 4]
    = map Ok ds /\
    (7 ^ (Vocabulary.total masks * (2 + (4 + 0))) mod 25 = 1 ->
     TJL.share_combine 3
       {| TJL.n := 5; TJL.n_squared := 25; TJL.g := 6; TJL.h := 7 |}
       ds (Py.len ds)
     = Ok (((2 + (4 + 0)) * (1 + (2 + 0))) mod 5)).
Proof.
  apply (tjl_round (fun _ => [Byte.x01]) 3
           {| TJL.n := 5; TJL.n_squared := 25; TJL.g := 6; TJL.h := 7 |}
           [(1, 0, 4); (2, 1, 4)] [2; 4]).
  - repeat split; cbn; lia.
  - discriminate.
  - repeat constructor; lia.
  - intros; lia.
Defined.

Section Setup.

Import Utils TJL Vocabulary.

Lemma safe_prime_bits : 2 ^ 1023 < SAFE_PRIME_1024 < 2 ^ 1024.
Proof. split; apply Z.ltb_lt; vm_compute; reflexivity. Qed.

End Setup.

(** [setup] raises nothing and ignores [modulus_bits]: whatever the hash,
    it returns parameters with [n = SAFE_PRIME_1024] (a 1024-bit
    number), [n_squared = n*n], [g = n + 1] and [1 <= h < n_squared],
    which is the shape that [protect] and [share_combine] need. *)
Theorem setup_parameters :
  forall (sha256 : list Byte.byte -> list Byte.byte) (modulus_bits : Z),
    exists params,
      TJL.setup sha256 modulus_bits = Some params /\
      TJL.setup sha256 modulus_bits = TJL.setup sha256 1024 /\
      Vocabulary.paillier params /\
      TJL.n params = Utils.generate_safe_prime modulus_bits /\
      2 ^ 1023 < TJL.n params < 2 ^ 1024 /\
      TJL.g params = TJL.n params + 1 /\
      1 <= TJL.h params < TJL.n_squared params.
Proof.
  intros sha256 modulus_bits.
  pose proof safe_prime_bits as Hbits.
  assert (Hp : 2 <= Utils.SAFE_PRIME_1024).
  { assert (2 <= 2 ^ 1023) by (apply Z.leb_le; vm_compute; reflexivity).
    lia. }
  unfold TJL.setup, Utils.hash_to_group, Utils.generate_safe_prime.
  cbv zeta.
  set (p := Utils.SAFE_PRIME_1024) in *. clearbody p.
  destruct (Z.ltb_spec (p * p) 2) as [Hlt|Hge]; [nia|].
  set (hash := Utils.int_from_bytes _ mod (p * p)).
  assert (Hhash : 0 <= hash < p * p) by (apply Z.mod_pos_bound; nia).
  eexists. split; [reflexivity|]. split; [reflexivity|].
  cbn [TJL.n TJL.n_squared TJL.g TJL.h].
  assert (Hg : (1 + p) mod (p * p) = p + 1)
    by (rewrite Z.mod_small by nia; ring).
  split; [|split; [reflexivity|split; [exact Hbits|split; [exact Hg|]]]].
  - unfold Vocabulary.paillier. cbn [TJL.n TJL.n_squared TJL.g]. auto.
  - destruct (Z.eqb_spec hash 0); lia.
Qed.

Section MaskInput.

Import TJL.

(** The first separator of a byte string determines what comes before
    it. *)
Lemma split_at_separator (s : Byte.byte) (xs xs' ys ys' : list Byte.byte) :
  ~ In s xs -> ~ In s xs' ->
  xs ++ s :: ys = xs' ++ s :: ys' -> xs = xs' /\ ys = ys'.
Proof.
  revert xs'. induction xs as [|x xs IH]; intros [|x' xs'] Hx Hx' Heq;
    cbn [app] in Heq.
  - inversion Heq. auto.
  - inversion Heq; subst. exfalso. apply Hx'. left. reflexivity.
  - inversion Heq; subst. exfalso. apply Hx. left. reflexivity.
  - inversion Heq; subst.
    destruct (IH xs') as [-> ->]; auto.
    + intros H. apply Hx. right. exact H.
    + intros H. apply Hx'. right. exact H.
Qed.

Lemma digits_no_separator (d : Decimal.uint) :
  ~ In Byte.x7c
      (String.list_byte_of_string (DecimalString.NilEmpty.string_of_uint d)).
Proof.
  induction d; cbn; [intros []|..]; intros [H|H]; try discriminate; auto.
Qed.

Lemma str_no_separator (z : Z) : ~ In Byte.x7c (str z).
Proof.
  unfold str.
  assert (H : forall d,
             ~ In Byte.x7c
                 (String.list_byte_of_string
                    (DecimalString.NilZero.string_of_uint d))).
  { intros d. destruct d; try apply digits_no_separator.
    cbn. intros [H|[]]. discriminate. }
  destruct (Z.to_int z) as [d|d]; cbn [DecimalString.NilZero.string_of_int].
  - apply H.
  - intros [Hd|Hd]; [discriminate|]. exact (H d Hd).
Qed.

Lemma str_injective (a b : Z) : str a = str b -> a = b.
Proof.
  unfold str. intros Heq.
  apply (f_equal String.string_of_list_byte) in Heq.
  rewrite !String.string_of_list_byte_of_string in Heq.
  apply (f_equal DecimalString.NilZero.int_of_string) in Heq.
  assert (Hnonnil : forall z, Z.to_int z <> Decimal.Pos Decimal.Nil /\
                              Z.to_int z <> Decimal.Neg Decimal.Nil).
  { intros [|p|p]; cbn; split; try discriminate;
      intros H; inversion H as [Hp];
      exact (DecimalPos.Unsigned.to_uint_nonnil p Hp). }
  destruct (Hnonnil a) as [Ha1 Ha2], (Hnonnil b) as [Hb1 Hb2].
  rewrite !DecimalString.NilZero.isi in Heq by assumption.
  inversion Heq as [Hint]. apply DecimalZ.to_int_inj. exact Hint.
Qed.

End MaskInput.

(** The hash input of [protect] determines the client and the round:
    two different pairs [(client_id, round_num)] never give the same
    bytes ["{client_id}||{round_num}"]. *)
Theorem mask_input_injective :
  forall client_id round_num client_id' round_num' : Z,
    TJL.mask_input client_id round_num
    = TJL.mask_input client_id' round_num' ->
    client_id = client_id' /\ round_num = round_num'.
Proof.
  intros c r c' r' Heq. unfold TJL.mask_input in Heq. cbn [app] in Heq.
  apply split_at_separator in Heq; try apply str_no_separator.
  destruct Heq as [Hc Hr]. inversion Hr as [Hr'].
  split; apply str_injective; assumption.
Qed.

Lemma mask_input_injective_witness :
  3 = 3 /\ 14 = 14.
Proof.
  apply (mask_input_injective 3 14 3 14). reflexivity.
Defined.

(** ** More of [encoding.py]: the shape of packed data *)

Section PackShape.

Import Encoding Vocabulary.

(** What [pack_vector] returns, in closed form. *)
Lemma pack_vector_digits (values bit_widths : list Z) (chunk_bits : Z) :
  length values = length bit_widths ->
  Forall (fun bw => 0 <= bw) bit_widths ->
  1 <= chunk_bits ->
  let total := Encoding.sum bit_widths in
  let num_chunks := (total + chunk_bits - 1) / chunk_bits in
  let pad := num_chunks * chunk_bits - total in
  0 <= total /\ 0 <= num_chunks /\ 0 <= pad < chunk_bits /\
  pack_vector values bit_widths chunk_bits
  = Ok (digits chunk_bits (stream_of (combine values bit_widths) * 2 ^ pad)
          (Z.to_nat num_chunks)).
Proof.
  intros Hlen Hbw Hcb total num_chunks pad.
  set (vbs := combine values bit_widths).
  assert (Hsnd : map snd vbs = bit_widths)
    by (apply map_snd_combine; exact Hlen).
  assert (Hwidths : Forall (fun vb : Z * Z => 0 <= snd vb) vbs).
  { apply Forall_forall. intros vb Hvb.
    rewrite Forall_forall in Hbw. apply Hbw.
    rewrite <- Hsnd. apply in_map. exact Hvb. }
  assert (Htotal : 0 <= total) by (apply sum_nonneg; exact Hbw).
  assert (Hnum : 0 <= num_chunks)
    by (apply Z.div_pos; lia).
  assert (Hpad : 0 <= pad < chunk_bits).
  { unfold pad, num_chunks.
    pose proof (Z.div_mod (total + chunk_bits - 1) chunk_bits ltac:(lia)).
    pose proof (Z.mod_pos_bound (total + chunk_bits - 1) chunk_bits
                  ltac:(lia)).
    nia. }
  split; [exact Htotal|]. split; [exact Hnum|]. split; [exact Hpad|].
  unfold pack_vector. unfold Py.len. rewrite Hlen, Z.eqb_refl. cbn [negb].
  fold vbs. rewrite pack_stream_spec by exact Hwidths. cbn [Py.bind].
  rewrite Hsnd. fold (Encoding.sum bit_widths). fold total.
  unfold Py.floordiv. destruct (Z.eqb_spec chunk_bits 0); [lia|].
  cbn [Py.bind]. fold num_chunks. fold pad.
  rewrite !shl_ok by lia. cbn [Py.bind].
  rewrite <- stream_of_fold. rewrite Z.mul_1_l.
  rewrite pack_chunks_digits; [reflexivity|lia|].
  unfold Py.len. simpl. lia.
Qed.

Lemma digits_range (chunk_bits stream : Z) (k : nat) :
  0 <= chunk_bits ->
  Forall (fun c => 0 <= c < 2 ^ chunk_bits) (digits chunk_bits stream k).
Proof.
  intros Hcb. induction k as [|k IH]; constructor; [|exact IH].
  apply Z.mod_pos_bound, pow2_pos. exact Hcb.
Qed.

(** Fields that agree modulo [2^bw] give the same stream. *)
Lemma stream_of_congruent (vbs vbs' : list (Z * Z)) :
  Forall2 (fun vb vb' => snd vb = snd vb' /\
                         fst vb mod 2 ^ snd vb = fst vb' mod 2 ^ snd vb')
    vbs vbs' ->
  forall s, fold_left add_field vbs s = fold_left add_field vbs' s.
Proof.
  induction 1 as [|[v b] [v' b'] vbs vbs' [Hb Hv] _ IH]; intros s;
    [reflexivity|].
  cbn [fold_left]. cbn [fst snd] in Hb, Hv. subst b'.
  unfold add_field at 2 4. cbn [fst snd]. rewrite Hv. apply IH.
Qed.

Lemma wrap_in_range (bw v : Z) : 1 <= bw -> in_range bw (wrap bw v).
Proof.
  intros Hbw. split; [exact Hbw|]. unfold wrap.
  assert (Hpow : 2 ^ bw = 2 * 2 ^ (bw - 1)).
  { rewrite <- Z.pow_succ_r by lia. f_equal. lia. }
  pose proof (pow2_pos (bw - 1) ltac:(lia)) as Hpos.
  pose proof (Z.mod_pos_bound (v + 2 ^ (bw - 1)) (2 ^ bw) ltac:(lia)).
  lia.
Qed.

Lemma wrap_congruent (bw v : Z) :
  1 <= bw -> wrap bw v mod 2 ^ bw = v mod 2 ^ bw.
Proof.
  intros Hbw. unfold wrap.
  pose proof (pow2_pos bw ltac:(lia)) as Hpos.
  rewrite Zminus_mod_idemp_l. f_equal. lia.
Qed.

Lemma wrap_id (bw v : Z) : in_range bw v -> wrap bw v = v.
Proof.
  intros [Hbw Hv]. unfold wrap.
  assert (Hpow : 2 ^ bw = 2 * 2 ^ (bw - 1)).
  { rewrite <- Z.pow_succ_r by lia. f_equal. lia. }
  rewrite Z.mod_small by lia. lia.
Qed.

Lemma wrapped_in_range (values bit_widths : list Z) :
  length values = length bit_widths ->
  Forall (fun bw => 1 <= bw) bit_widths ->
  Forall2 in_range bit_widths
    (map (fun vb => wrap (snd vb) (fst vb)) (combine values bit_widths)).
Proof.
  revert bit_widths.
  induction values as [|v values IH]; intros [|b bws] Hlen Hbw;
    try discriminate; [constructor|].
  inversion Hbw; subst. cbn [combine map fst snd]. constructor.
  - apply wrap_in_range. assumption.
  - apply IH; [cbn in Hlen; lia|assumption].
Qed.

Lemma wrapped_congruent (values bit_widths : list Z) :
  length values = length bit_widths ->
  Forall (fun bw => 1 <= bw) bit_widths ->
  Forall2 (fun vb vb' => snd vb = snd vb' /\
                         fst vb mod 2 ^ snd vb = fst vb' mod 2 ^ snd vb')
    (combine values bit_widths)
    (combine (map (fun vb => wrap (snd vb) (fst vb))
                (combine values bit_widths)) bit_widths).
Proof.
  revert bit_widths.
  induction values as [|v values IH]; intros [|b bws] Hlen Hbw;
    try discriminate; [constructor|].
  inversion Hbw; subst. cbn [combine map fst snd]. constructor.
  - cbn [fst snd]. split; [reflexivity|].
    symmetry. apply wrap_congruent. assumption.
  - apply IH; [cbn in Hlen; lia|assumption].
Qed.

Lemma wrapped_fixed (values bit_widths : list Z) :
  length values = length bit_widths ->
  Forall2 (fun v w => in_range (snd w) v -> wrap (snd w) (fst w) = v)
    values (combine values bit_widths).
Proof.
  revert bit_widths.
  induction values as [|v values IH]; intros [|b bws] Hlen;
    try discriminate; cbn [combine]; constructor.
  - cbn [fst snd]. apply wrap_id.
  - apply IH. cbn in Hlen. lia.
Qed.

Lemma in_range_int64 (bws vs : list Z) :
  Forall2 in_range bws vs ->
  Forall (fun bw => bw <= 64) bws ->
  Forall (fun z => int64_min <= z <= int64_max) vs.
Proof.
  induction 1 as [|b w bws ws [Hb Hw] _ IH]; intros Hbw; [constructor|].
  inversion Hbw; subst. constructor; [|auto].
  unfold int64_min, int64_max.
  assert (2 ^ (b - 1) <= 2 ^ 63) by (apply Z.pow_le_mono_r; lia).
  lia.
Qed.

End PackShape.

(** The shape of what [pack_vector] returns: for arrays of equal
    length, widths [>= 0] and [chunk_bits >= 1] (whatever the values),
    it returns [ceil(sum(bit_widths) / chunk_bits)] chunks, each in
    [[0, 2^chunk_bits)]. *)
Theorem pack_vector_shape (values bit_widths : list Z) (chunk_bits : Z) :
  length values = length bit_widths ->
  Forall (fun bw => 0 <= bw) bit_widths ->
  1 <= chunk_bits ->
  exists chunks,
    Encoding.pack_vector values bit_widths chunk_bits = Ok chunks /\
    Py.len chunks
    = (Encoding.sum bit_widths + chunk_bits - 1) / chunk_bits /\
    (Py.len chunks - 1) * chunk_bits < Encoding.sum bit_widths
    <= Py.len chunks * chunk_bits /\
    Forall (fun c => 0 <= c < 2 ^ chunk_bits) chunks.
Proof.
  intros Hlen Hbw Hcb.
  destruct (pack_vector_digits values bit_widths chunk_bits Hlen Hbw Hcb)
    as (Htotal & Hnum & Hpad & Hpack).
  eexists. split; [exact Hpack|].
  unfold Py.len. rewrite length_digits, Z2Nat.id by exact Hnum.
  split; [reflexivity|]. split; [lia|].
  apply digits_range. lia.
Qed.

Lemma pack_vector_shape_witness :
  exists chunks,
    Encoding.pack_vector [5; -7; 300] [3; 4; 6] 8 = Ok chunks /\
    Py.len chunks = (Encoding.sum [3; 4; 6] + 8 - 1) / 8 /\
    (Py.len chunks - 1) * 8 < Encoding.sum [3; 4; 6] <= Py.len chunks * 8 /\
    Forall (fun c => 0 <= c < 2 ^ 8) chunks.
Proof.
  apply (pack_vector_shape [5; -7; 300] [3; 4; 6] 8).
  - reflexivity.
  - repeat constructor; lia.
  - lia.
Defined.

(** [pack_vector] never rejects a value that does not fit its width: it
    keeps the low [bw] bits, so that unpacking returns each value
    wrapped into the two's-complement range of its width.  For a
    non-empty array, widths between 1 and 64 and [chunk_bits >= 1],
    [unpack_vector(pack_vector(v, bw, cb), bw, cb, len(v))[i]] is the
    integer congruent to [v[i]] modulo [2^bw[i]] in
    [[-2^(bw[i]-1), 2^(bw[i]-1) - 1]] (equal to [v[i]] when it fits). *)
Theorem pack_unpack_wraps (values bit_widths : list Z) (chunk_bits : Z) :
  values <> [] ->
  length values = length bit_widths ->
  Forall (fun bw => 1 <= bw <= 64) bit_widths ->
  1 <= chunk_bits ->
  exists chunks,
    Encoding.pack_vector values bit_widths chunk_bits = Ok chunks /\
    Encoding.unpack_vector chunks bit_widths chunk_bits (Py.len values)
    = Ok (map (fun vb => Vocabulary.wrap (snd vb) (fst vb))
            (combine values bit_widths)) /\
    Forall2 (fun v w => Encoding.in_range (snd w) v ->
                        Vocabulary.wrap (snd w) (fst w) = v)
      values (combine values bit_widths).
Proof.
  intros Hne Hlen Hbw Hcb.
  assert (Hbw1 : Forall (fun bw => 1 <= bw) bit_widths)
    by (eapply Forall_impl; [|exact Hbw]; cbv beta; intros; lia).
  assert (Hbw0 : Forall (fun bw => 0 <= bw) bit_widths)
    by (eapply Forall_impl; [|exact Hbw]; cbv beta; intros; lia).
  assert (Hbw64 : Forall (fun bw => bw <= 64) bit_widths)
    by (eapply Forall_impl; [|exact Hbw]; cbv beta; intros; lia).
  pose proof (wrapped_in_range values bit_widths Hlen Hbw1) as Hrange.
  pose proof (wrapped_congruent values bit_widths Hlen Hbw1) as Hcong.
  pose proof (wrapped_fixed values bit_widths Hlen) as Hfixed.
  pose proof (in_range_int64 _ _ Hrange Hbw64) as Hint.
  remember (map (fun vb => Vocabulary.wrap (snd vb) (fst vb))
              (combine values bit_widths)) as wrapped eqn:Hw.
  assert (Hwlen : length wrapped = length bit_widths).
  { subst wrapped. rewrite length_map, length_combine. lia. }
  assert (Hwne : wrapped <> []).
  { intros E. rewrite E in Hwlen. destruct values; [contradiction|].
    destruct bit_widths; discriminate. }
  destruct (pack_then_unpack wrapped bit_widths chunk_bits Hwne Hrange
              Hint Hcb) as (chunks & Hpack & Hunpack).
  exists chunks. split; [|split; [|exact Hfixed]].
  - rewrite <- Hpack.
    destruct (pack_vector_digits values bit_widths chunk_bits Hlen Hbw0 Hcb)
      as (_ & _ & _ & ->).
    destruct (pack_vector_digits wrapped bit_widths chunk_bits Hwlen Hbw0
                Hcb) as (_ & _ & _ & ->).
    do 3 f_equal. unfold Encoding.stream_of.
    apply stream_of_congruent. exact Hcong.
  - replace (Py.len values) with (Py.len wrapped)
      by (unfold Py.len; rewrite Hwlen, Hlen; reflexivity).
    exact Hunpack.
Qed.

Lemma pack_unpack_wraps_witness :
  exists chunks,
    Encoding.pack_vector [9; -1] [4; 4] 8 = Ok chunks /\
    Encoding.unpack_vector chunks [4; 4] 8 (Py.len [9; -1])
    = Ok (map (fun vb => Vocabulary.wrap (snd vb) (fst vb))
            (combine [9; -1] [4; 4])) /\
    Forall2 (fun v w => Encoding.in_range (snd w) v ->
                        Vocabulary.wrap (snd w) (fst w) = v)
      [9; -1] (combine [9; -1] [4; 4]).
Proof.
  apply (pack_unpack_wraps [9; -1] [4; 4] 8).
  - discriminate.
  - reflexivity.
  - repeat constructor; lia.
  - lia.
Defined.

Section UnpackRange.

Import Encoding.

Lemma shl_inv (a k r : Z) : Py.shl a k = Ok r -> 0 <= k /\ r = a * 2 ^ k.
Proof.
  unfold Py.shl. destruct (Z.ltb_spec k 0); [discriminate|].
  intros Heq. inversion Heq. rewrite Z.shiftl_mul_pow2 by lia.
  split; [lia|reflexivity].
Qed.

(** Whatever the stream, the loop of [unpack_vector] appends one value
    per width, each in the range of its width. *)
Lemma unpack_values_range (bit_widths : list Z) (k : nat) :
  forall stream res out,
    unpack_values k stream bit_widths res = Ok out ->
    (k <= length bit_widths)%nat /\
    exists vals,
      out = res ++ vals /\
      Forall2 in_range (rev (firstn k bit_widths)) vals.
Proof.
  induction k as [|k IH]; intros stream res out Hrun.
  - simpl in Hrun. inversion Hrun; subst. split; [lia|].
    exists []. rewrite app_nil_r. split; [reflexivity|constructor].
  - cbn [unpack_values] in Hrun.
    destruct (nth_error bit_widths k) as [bw|] eqn:Hnth; [|discriminate].
    destruct (Py.shl 1 bw) as [one|] eqn:Hone; [|discriminate].
    apply shl_inv in Hone. destruct Hone as [Hbw0 Hone].
    cbn [Py.bind] in Hrun.
    destruct (Py.shr stream bw) as [stream'|]; [|discriminate].
    cbn [Py.bind] in Hrun.
    destruct (Py.shl 1 (bw - 1)) as [half|] eqn:Hhalf; [|discriminate].
    apply shl_inv in Hhalf. destruct Hhalf as [Hbw1 Hhalf].
    cbn [Py.bind] in Hrun.
    rewrite Z.mul_1_l in Hone, Hhalf. subst one half.
    rewrite land_mask in Hrun by lia.
    assert (Hpow : 2 ^ bw = 2 * 2 ^ (bw - 1)).
    { rewrite <- Z.pow_succ_r by lia. f_equal. lia. }
    pose proof (pow2_pos (bw - 1) ltac:(lia)) as Hpos.
    pose proof (Z.mod_pos_bound stream (2 ^ bw) ltac:(lia)) as Hfield.
    set (field := stream mod 2 ^ bw) in *.
    set (value := if 2 ^ (bw - 1) <=? field then field - 2 ^ bw
                  else field).
    assert (Hvalue : in_range bw value).
    { split; [lia|]. unfold value.
      destruct (Z.leb_spec (2 ^ (bw - 1)) field); lia. }
    assert (Hrun' : unpack_values k stream' bit_widths (res ++ [value])
                    = Ok out).
    { unfold value. destruct (2 ^ (bw - 1) <=? field);
        cbn [Py.bind] in Hrun; exact Hrun. }
    destruct (IH _ _ _ Hrun') as (Hk & vals & Hout & Hvals).
    split.
    { assert (k < length bit_widths)%nat
        by (apply nth_error_Some; congruence). lia. }
    exists (value :: vals). split.
    + rewrite Hout, <- app_assoc. reflexivity.
    + rewrite (firstn_succ_snoc _ _ _ Hnth), rev_app_distr.
      cbn [rev app]. constructor; assumption.
Qed.

Lemma Forall2_rev {A B : Type} (R : A -> B -> Prop) (l : list A)
  (l' : list B) :
  Forall2 R l l' -> Forall2 R (rev l) (rev l').
Proof.
  induction 1 as [|x y l l' Hxy _ IH]; [constructor|].
  cbn [rev]. apply Forall2_app; [exact IH|]. constructor; [exact Hxy|constructor].
Qed.

Lemma np_array_int64_inv (xs ys : list Z) :
  np_array_int64 xs = Ok ys -> ys = xs.
Proof.
  unfold np_array_int64. destruct (forallb is_int64 xs); [|discriminate].
  intros H. inversion H. reflexivity.
Qed.

End UnpackRange.

(** Whatever the chunks hold, [unpack_vector] returns only values that
    fit their widths: a result has [n] entries ([n] the [length]
    argument, or [len(bit_widths)] when that is not positive), the
    [i]-th one in [[-2^(bw[i]-1), 2^(bw[i]-1) - 1]] with [bw[i] >= 1]. *)
Theorem unpack_vector_in_range
  (chunks bit_widths : list Z) (chunk_bits length : Z) (values : list Z) :
  Encoding.unpack_vector chunks bit_widths chunk_bits length = Ok values ->
  let n := if 0 <? length then length else Py.len bit_widths in
  1 <= n <= Py.len bit_widths /\
  Py.len values = n /\
  Forall2 Encoding.in_range (firstn (Z.to_nat n) bit_widths) values.
Proof.
  intros Hrun n. unfold Encoding.unpack_vector in Hrun.
  destruct chunks as [|c chunks]; [discriminate|]. fold n in Hrun.
  destruct (Z.eqb_spec n 0) as [|Hn0]; [discriminate|].
  destruct (Encoding.unpack_stream 0 chunk_bits (c :: chunks)) as [s|];
    [|discriminate].
  cbn [Py.bind] in Hrun.
  destruct (Py.shr s _) as [s'|]; [|discriminate]. cbn [Py.bind] in Hrun.
  destruct (Encoding.unpack_values (Z.to_nat n) s' bit_widths []) as [out|]
    eqn:Hvals; [|discriminate].
  cbn [Py.bind] in Hrun. apply np_array_int64_inv in Hrun. subst values.
  destruct (unpack_values_range _ _ _ _ _ Hvals)
    as (Hk & vals & Hout & Hrange).
  cbn [app] in Hout. subst out.
  assert (Hn : 1 <= n).
  { unfold n in *. destruct (Z.ltb_spec 0 length); [lia|].
    unfold Py.len in *. lia. }
  apply Forall2_rev in Hrange. rewrite rev_involutive in Hrange.
  split; [unfold Py.len; lia|]. split; [|exact Hrange].
  apply Forall2_length in Hrange.
  unfold Py.len. rewrite <- Hrange, length_firstn. lia.
Qed.

Lemma unpack_vector_in_range_witness :
  1 <= 2 <= Py.len [4; 4] /\
  Py.len [-1; -1] = 2 /\
  Forall2 Encoding.in_range (firstn (Z.to_nat 2) [4; 4]) [-1; -1].
Proof.
  apply (unpack_vector_in_range [255] [4; 4] 8 2 [-1; -1]). reflexivity.
Defined.

Section UnpackThenPack.

Import Encoding Vocabulary.

Variable chunk_bits : Z.
Hypothesis chunk_bits_pos : 1 <= chunk_bits.

Let step (s c : Z) : Z := s * 2 ^ chunk_bits + c.

Lemma unpack_stream_value (chunks : list Z) :
  Forall (fun c => 0 <= c < 2 ^ chunk_bits) chunks ->
  forall acc, unpack_stream acc chunk_bits chunks
              = Ok (fold_left step chunks acc).
Proof.
  induction 1 as [|c chunks Hc _ IH]; intros acc; [reflexivity|].
  cbn [unpack_stream fold_left]. rewrite shl_ok by lia. cbn [Py.bind].
  rewrite lor_field by (lia || exact Hc). apply IH.
Qed.

Lemma unpack_stream_total (chunks : list Z) :
  forall acc, exists s, unpack_stream acc chunk_bits chunks = Ok s.
Proof.
  induction chunks as [|c chunks IH]; intros acc; [eexists; reflexivity|].
  cbn [unpack_stream]. rewrite shl_ok by lia. cbn [Py.bind]. apply IH.
Qed.

Lemma undigits_acc (chunks : list Z) :
  forall acc,
    fold_left step chunks acc
    = acc * 2 ^ (Z.of_nat (length chunks) * chunk_bits)
      + undigits chunk_bits chunks.
Proof.
  unfold undigits. fold step.
  induction chunks as [|c chunks IH]; intros acc.
  - cbn [fold_left length Z.of_nat]. rewrite Z.mul_0_l, Z.pow_0_r. lia.
  - cbn [fold_left length]. rewrite IH, (IH (step 0 c)). unfold step.
    rewrite Nat2Z.inj_succ.
    replace (Z.succ (Z.of_nat (length chunks)) * chunk_bits)
      with (chunk_bits + Z.of_nat (length chunks) * chunk_bits) by lia.
    rewrite Z.pow_add_r by lia. ring.
Qed.

Lemma undigits_bound (chunks : list Z) :
  Forall (fun c => 0 <= c < 2 ^ chunk_bits) chunks ->
  0 <= undigits chunk_bits chunks
  < 2 ^ (Z.of_nat (length chunks) * chunk_bits).
Proof.
  induction 1 as [|c chunks Hc _ IH].
  - unfold undigits. cbn [fold_left length Z.of_nat].
    rewrite Z.mul_0_l, Z.pow_0_r. lia.
  - unfold undigits. fold step. cbn [fold_left length].
    rewrite undigits_acc. replace (step 0 c) with c by (unfold step; lia).
    rewrite Nat2Z.inj_succ.
    replace (Z.succ (Z.of_nat (length chunks)) * chunk_bits)
      with (chunk_bits + Z.of_nat (length chunks) * chunk_bits) by lia.
    rewrite Z.pow_add_r by lia.
    pose proof (pow2_pos (Z.of_nat (length chunks) * chunk_bits)
                  ltac:(lia)).
    nia.
Qed.

Lemma digits_add_high (k : nat) :
  forall a b,
    digits chunk_bits (a * 2 ^ (Z.of_nat k * chunk_bits) + b) k
    = digits chunk_bits b k.
Proof.
  induction k as [|k IH]; intros a b; [reflexivity|].
  cbn [digits].
  assert (Hsplit : a * 2 ^ (Z.of_nat (S k) * chunk_bits)
                   = a * 2 ^ chunk_bits * 2 ^ (Z.of_nat k * chunk_bits)).
  { rewrite Nat2Z.inj_succ.
    replace (Z.succ (Z.of_nat k) * chunk_bits)
      with (chunk_bits + Z.of_nat k * chunk_bits) by lia.
    rewrite Z.pow_add_r by lia. ring. }
  rewrite Hsplit, IH. f_equal.
  rewrite !Z.shiftr_div_pow2 by lia.
  pose proof (pow2_pos (Z.of_nat k * chunk_bits) ltac:(lia)).
  rewrite Z.div_add_l by lia.
  rewrite Z.add_comm, Z.mod_add by (pose proof (pow2_pos chunk_bits); lia).
  reflexivity.
Qed.

Lemma digits_undigits (chunks : list Z) :
  Forall (fun c => 0 <= c < 2 ^ chunk_bits) chunks ->
  digits chunk_bits (undigits chunk_bits chunks) (length chunks) = chunks.
Proof.
  induction 1 as [|c chunks Hc Hrest IH]; [reflexivity|].
  unfold undigits. fold step. cbn [fold_left length digits].
  rewrite undigits_acc. replace (step 0 c) with c by (unfold step; lia).
  rewrite digits_add_high, IH. f_equal.
  rewrite Z.shiftr_div_pow2 by lia.
  pose proof (pow2_pos (Z.of_nat (length chunks) * chunk_bits) ltac:(lia)).
  rewrite Z.div_add_l by lia.
  rewrite (Z.div_small (undigits chunk_bits chunks))
    by (apply undigits_bound; exact Hrest).
  rewrite Z.add_0_r. apply Z.mod_small. exact Hc.
Qed.

(** The low bits of the stream are those of the last chunk. *)
Lemma undigits_low (chunks : list Z) (pad : Z) :
  chunks <> [] -> 0 <= pad <= chunk_bits ->
  undigits chunk_bits chunks mod 2 ^ pad = last chunks 0 mod 2 ^ pad.
Proof.
  intros Hne Hpad. destruct (exists_last Hne) as (init & c & ->).
  rewrite last_last. unfold undigits. rewrite fold_left_app.
  cbn [fold_left].
  set (high := fold_left (fun s c0 => s * 2 ^ chunk_bits + c0) init 0).
  assert (E : 2 ^ chunk_bits = 2 ^ (chunk_bits - pad) * 2 ^ pad).
  { rewrite <- Z.pow_add_r by lia. f_equal. lia. }
  rewrite E.
  replace (high * (2 ^ (chunk_bits - pad) * 2 ^ pad) + c)
    with (c + high * 2 ^ (chunk_bits - pad) * 2 ^ pad) by ring.
  apply Z.mod_add. pose proof (pow2_pos pad). lia.
Qed.

End UnpackThenPack.

Section Fields.

Import Encoding Vocabulary.

Lemma sum_snoc (bws : list Z) (b : Z) :
  Encoding.sum (bws ++ [b]) = Encoding.sum bws + b.
Proof. unfold Encoding.sum. rewrite fold_left_app. reflexivity. Qed.

Lemma combine_snoc {A B : Type} (xs : list A) (ys : list B) (x : A) (y : B) :
  length xs = length ys ->
  combine (xs ++ [x]) (ys ++ [y]) = combine xs ys ++ [(x, y)].
Proof.
  revert ys. induction xs as [|a xs IH]; intros [|b ys] Hlen;
    try discriminate; [reflexivity|].
  cbn [app combine]. rewrite IH by (cbn in Hlen; lia). reflexivity.
Qed.

Lemma unpack_vector_nonempty (chunks bit_widths : list Z)
  (chunk_bits length : Z) :
  chunks <> [] ->
  unpack_vector chunks bit_widths chunk_bits length
  = (let n := if 0 <? length then length else Py.len bit_widths in
     if n =? 0 then Raise (ValueError bit_widths_must_not_be_empty)
     else
       stream <- unpack_stream 0 chunk_bits chunks ;;
       let total_packed := Py.len chunks * chunk_bits in
       let total_bits := Encoding.sum (Py.slice_to bit_widths n) in
       let pad := total_packed - total_bits in
       stream <- Py.shr stream pad ;;
       res <- unpack_values (Z.to_nat n) stream bit_widths [] ;;
       np_array_int64 (rev res))%py.
Proof.
  intros Hne. destruct chunks; [contradiction|reflexivity].
Qed.

(** Every number below [2^sum(bit_widths)] is the stream of fields in
    range. *)
Lemma field_decomposition (bit_widths : list Z) :
  Forall (fun bw => 1 <= bw) bit_widths ->
  forall s, 0 <= s < 2 ^ Encoding.sum bit_widths ->
    exists values,
      Forall2 in_range bit_widths values /\
      stream_of (combine values bit_widths) = s.
Proof.
  induction bit_widths as [|b bws IH] using rev_ind; intros Hbw s Hs.
  - exists []. split; [constructor|]. cbn in *. lia.
  - apply Forall_app in Hbw. destruct Hbw as [Hbws Hb].
    inversion Hb as [|? ? Hb1 _]; subst.
    rewrite sum_snoc in Hs.
    assert (Hsum : 0 <= Encoding.sum bws).
    { apply sum_nonneg. eapply Forall_impl; [|exact Hbws].
      cbv beta. intros. lia. }
    pose proof (pow2_pos b ltac:(lia)) as Hpos.
    rewrite Z.pow_add_r in Hs by lia.
    destruct (IH Hbws (s / 2 ^ b)) as (values & Hrange & Hstream).
    { split; [apply Z.div_pos; lia|].
      apply Z.div_lt_upper_bound; lia. }
    exists (values ++ [wrap b s]). split.
    + apply Forall2_app; [exact Hrange|].
      constructor; [|constructor]. apply wrap_in_range. exact Hb1.
    + rewrite combine_snoc by (symmetry; apply (Forall2_length Hrange)).
      rewrite stream_of_snoc, Hstream, wrap_congruent by exact Hb1.
      pose proof (Z.div_mod s (2 ^ b) ltac:(lia)). lia.
Qed.

End Fields.

(** Unpacking followed by packing: every well-formed chunk list is the
    packing of the values it unpacks to.  For [chunk_bits >= 1], widths
    between 1 and 64 (at least one), chunks in [[0, 2^chunk_bits)],
    as many chunks as the widths need
    ([0 <= len(chunks)*chunk_bits - sum(bit_widths) < chunk_bits]) and
    zero padding bits in the last chunk,
    [pack_vector(unpack_vector(chunks, bw, cb, len(bw)), bw, cb)
     == chunks]. *)
Theorem unpack_then_pack (chunks bit_widths : list Z) (chunk_bits : Z) :
  1 <= chunk_bits ->
  bit_widths <> [] ->
  Forall (fun bw => 1 <= bw <= 64) bit_widths ->
  Forall (fun c => 0 <= c < 2 ^ chunk_bits) chunks ->
  let pad := Py.len chunks * chunk_bits - Encoding.sum bit_widths in
  0 <= pad < chunk_bits ->
  last chunks 0 mod 2 ^ pad = 0 ->
  exists values,
    Encoding.unpack_vector chunks bit_widths chunk_bits (Py.len bit_widths)
    = Ok values /\
    Forall2 Encoding.in_range bit_widths values /\
    Encoding.pack_vector values bit_widths chunk_bits = Ok chunks.
Proof.
  intros Hcb Hne Hbw Hchunks pad Hpad Hlast.
  assert (Hbw1 : Forall (fun bw => 1 <= bw) bit_widths)
    by (eapply Forall_impl; [|exact Hbw]; cbv beta; intros; lia).
  assert (Hbw0 : Forall (fun bw => 0 <= bw) bit_widths)
    by (eapply Forall_impl; [|exact Hbw]; cbv beta; intros; lia).
  assert (Hbw64 : Forall (fun bw => bw <= 64) bit_widths)
    by (eapply Forall_impl; [|exact Hbw]; cbv beta; intros; lia).
  set (total := Encoding.sum bit_widths) in *.
  assert (Htotal : 1 <= total).
  { unfold total. destruct bit_widths as [|b bws]; [contradiction|].
    inversion Hbw1; subst. unfold Encoding.sum. cbn [fold_left].
    rewrite fold_add_shift.
    assert (0 <= Encoding.sum bws) by (apply sum_nonneg;
      eapply Forall_impl; [|eassumption]; cbv beta; intros; lia).
    unfold Encoding.sum in *. lia. }
  set (k := Py.len chunks) in *.
  assert (Hk : 1 <= k) by nia.
  assert (Hcne : chunks <> []).
  { intros ->. unfold k, Py.len in Hk. cbn in Hk. lia. }
  set (full := Vocabulary.undigits chunk_bits chunks).
  pose proof (undigits_bound chunk_bits Hcb chunks Hchunks) as Hfull.
  fold full in Hfull. fold (Py.len chunks) in Hfull. fold k in Hfull.
  pose proof (pow2_pos pad ltac:(lia)) as Hpp.
  assert (Hzero : full mod 2 ^ pad = 0).
  { unfold full. rewrite undigits_low by (lia || exact Hcne). exact Hlast. }
  set (s := full / 2 ^ pad).
  assert (Hs : full = s * 2 ^ pad).
  { pose proof (Z.div_mod full (2 ^ pad) ltac:(lia)). unfold s. lia. }
  assert (Hsb : 0 <= s < 2 ^ total).
  { replace (k * chunk_bits) with (total + pad) in Hfull
      by (unfold pad; lia).
    rewrite Z.pow_add_r in Hfull by lia.
    split; [apply Z.div_pos; lia|].
    apply Z.div_lt_upper_bound; lia. }
  destruct (field_decomposition bit_widths Hbw1 s Hsb)
    as (values & Hrange & Hstream).
  pose proof (Forall2_length Hrange) as Hlen.
  set (vbs := combine values bit_widths) in *.
  assert (Hfst : map fst vbs = values)
    by (apply map_fst_combine; lia).
  assert (Hsnd : map snd vbs = bit_widths)
    by (apply map_snd_combine; lia).
  assert (Hfields : Forall (fun vb => Encoding.in_range (snd vb) (fst vb))
                      vbs) by (apply Forall2_combine; exact Hrange).
  exists values. split; [|split; [exact Hrange|]].
  - rewrite unpack_vector_nonempty by exact Hcne. cbv zeta.
    assert (Hn : 0 < Py.len bit_widths).
    { unfold Py.len. destruct bit_widths; [contradiction|]. cbn. lia. }
    destruct (Z.ltb_spec 0 (Py.len bit_widths)); [|lia].
    destruct (Z.eqb_spec (Py.len bit_widths) 0); [lia|].
    rewrite (unpack_stream_value chunk_bits Hcb chunks Hchunks).
    cbn [Py.bind]. fold (Vocabulary.undigits chunk_bits chunks). fold full.
    rewrite slice_to_nonneg by lia.
    assert (Hall : firstn (Z.to_nat (Py.len bit_widths)) bit_widths
                   = bit_widths)
      by (unfold Py.len; rewrite Nat2Z.id; apply firstn_all).
    rewrite Hall. fold total. fold k. fold pad.
    rewrite shr_ok by lia. cbn [Py.bind]. fold s.
    pose proof (unpack_values_spec vbs Hfields (length vbs) []
                  (Nat.le_refl _)) as Hvals.
    rewrite firstn_all, Hsnd, Hfst in Hvals. fold vbs in Hstream.
    rewrite Hstream in Hvals.
    unfold Py.len. rewrite Nat2Z.id.
    replace (length bit_widths) with (length vbs)
      by (unfold vbs; rewrite length_combine; lia).
    rewrite Hvals. cbn [Py.bind app]. rewrite rev_involutive.
    apply np_array_int64_ok. apply (in_range_int64 _ _ Hrange Hbw64).
  - destruct (pack_vector_digits values bit_widths chunk_bits
                ltac:(lia) Hbw0 Hcb) as (_ & _ & _ & Hpack).
    rewrite Hpack. fold total.
    assert (Hnum : (total + chunk_bits - 1) / chunk_bits = k).
    { symmetry. apply (Z.div_unique _ _ _ (chunk_bits - 1 - pad));
        [left|unfold pad]; lia. }
    rewrite Hnum. fold pad. fold vbs. rewrite Hstream, <- Hs.
    unfold k, Py.len. rewrite Nat2Z.id. unfold full.
    rewrite digits_undigits by assumption. reflexivity.
Qed.

Lemma unpack_then_pack_witness :
  exists values,
    Encoding.unpack_vector [172; 144; 10] [3; 8; 8; 4] 8
      (Py.len [3; 8; 8; 4]) = Ok values /\
    Forall2 Encoding.in_range [3; 8; 8; 4] values /\
    Encoding.pack_vector values [3; 8; 8; 4] 8 = Ok [172; 144; 10].
Proof.
  apply (unpack_then_pack [172; 144; 10] [3; 8; 8; 4] 8).
  - lia.
  - discriminate.
  - repeat constructor; lia.
  - repeat constructor; lia.
  - cbn. lia.
  - reflexivity.
Defined.

(** [unpack_vector] on input that does not match the widths.  With
    chunks that hold fewer bits than [bit_widths[:n]] asks for, the
    padding is negative and the shift raises
    [ValueError("negative shift count")], which is none of the function's
    own errors; with a [length] beyond [len(bit_widths)] (and enough
    bits), indexing [bit_widths] raises [IndexError]. *)
Theorem unpack_vector_mismatch :
  (forall (chunks bit_widths : list Z) (chunk_bits length : Z),
     chunks <> [] -> 1 <= chunk_bits ->
     let n := if 0 <? length then length else Py.len bit_widths in
     n <> 0 ->
     Py.len chunks * chunk_bits < Encoding.sum (Py.slice_to bit_widths n) ->
     Encoding.unpack_vector chunks bit_widths chunk_bits length
     = Raise (ValueError negative_shift_count) /\
     kind_of (ValueError negative_shift_count) = None) /\
  (forall (chunks bit_widths : list Z) (chunk_bits length : Z),
     chunks <> [] -> 1 <= chunk_bits ->
     Py.len bit_widths < length ->
     Encoding.sum bit_widths <= Py.len chunks * chunk_bits ->
     Encoding.unpack_vector chunks bit_widths chunk_bits length
     = Raise IndexError).
Proof.
  split.
  - intros chunks bit_widths chunk_bits length Hne Hcb n Hn Hshort.
    split; [|reflexivity].
    rewrite unpack_vector_nonempty by exact Hne. cbv zeta. fold n.
    destruct (Z.eqb_spec n 0); [contradiction|].
    destruct (unpack_stream_total chunk_bits Hcb chunks 0) as (s & ->).
    cbn [Py.bind]. unfold Py.shr.
    destruct (Z.ltb_spec
                (Py.len chunks * chunk_bits
                 - Encoding.sum (Py.slice_to bit_widths n)) 0); [|lia].
    reflexivity.
  - intros chunks bit_widths chunk_bits length Hne Hcb Hlong Henough.
    rewrite unpack_vector_nonempty by exact Hne. cbv zeta.
    assert (Hlen0 : 0 <= Py.len bit_widths) by (unfold Py.len; lia).
    destruct (Z.ltb_spec 0 length); [|lia].
    destruct (Z.eqb_spec length 0); [lia|].
    destruct (unpack_stream_total chunk_bits Hcb chunks 0) as (s & ->).
    cbn [Py.bind]. rewrite slice_to_nonneg by lia.
    rewrite firstn_all2 by (unfold Py.len in Hlong; lia).
    rewrite shr_ok by lia. cbn [Py.bind].
    destruct (Z.to_nat length) as [|i] eqn:Hi; [lia|].
    cbn [Encoding.unpack_values].
    replace (nth_error bit_widths i) with (@None Z); [reflexivity|].
    symmetry. apply nth_error_None. unfold Py.len in Hlong. lia.
Qed.

Section Saturation.

Import PyFloat Encoding.

Lemma clamp_high (x : spec_float) (lo hi : Z) :
  lo < hi -> lt_int x hi = false ->
  round_number (max_int_number lo (min_int_float hi x)) = Ok hi.
Proof.
  intros Hlohi Hlt. unfold min_int_float. rewrite Hlt.
  cbn [max_int_number]. destruct (Z.ltb_spec lo hi); [reflexivity|lia].
Qed.

Lemma clamp_low (x : spec_float) (lo hi : Z) :
  lt_int x hi = true -> gt_int x lo = false ->
  round_number (max_int_number lo (min_int_float hi x)) = Ok lo.
Proof.
  intros Hlt Hgt. unfold min_int_float. rewrite Hlt.
  cbn [max_int_number]. rewrite Hgt. reflexivity.
Qed.

Lemma compare_int_Q (x : spec_float) (z : Z) (q : Q) :
  to_Q x = Some q ->
  (lt_int x z = true <-> (q < inject_Z z)%Q) /\
  (gt_int x z = true <-> (inject_Z z < q)%Q).
Proof.
  intros Hq. unfold lt_int, gt_int.
  rewrite (compare_int_exact x z q Hq).
  rewrite Qlt_alt, Qgt_alt.
  destruct (q ?= inject_Z z)%Q; split; split; intros H;
    try reflexivity; try discriminate.
Qed.

End Saturation.

(** [quantize_value] saturates, and never raises on a value that is not
    finite: for [bits >= 1] and a non-zero [scale], a quotient
    [value / scale] that is NaN, [+inf] or at least [2^(bits-1) - 1]
    gives [2^(bits-1) - 1], and one that is [-inf] or at most
    [-2^(bits-1)] gives [-2^(bits-1)].  In particular a NaN [value] is
    quantised to the largest code. *)
Theorem quantize_value_saturates (value scale : spec_float) (bits : Z) :
  1 <= bits -> SFeqb scale PyFloat.zero = false ->
  let quotient := PyFloat.div value scale in
  let max_val := 2 ^ (bits - 1) - 1 in
  let min_val := - 2 ^ (bits - 1) in
  (quotient = S754_nan \/ quotient = S754_infinity false \/
   (exists q, PyFloat.to_Q quotient = Some q /\ (inject_Z max_val <= q)%Q) ->
   Encoding.quantize_value value bits scale = Ok max_val) /\
  (quotient = S754_infinity true \/
   (exists q, PyFloat.to_Q quotient = Some q /\ (q <= inject_Z min_val)%Q) ->
   Encoding.quantize_value value bits scale = Ok min_val) /\
  (value = S754_nan -> Encoding.quantize_value value bits scale = Ok max_val).
Proof.
  intros Hbits Hscale quotient max_val min_val.
  pose proof (pow2_pos (bits - 1) ltac:(lia)) as Hpos.
  assert (Hlohi : min_val < max_val) by (unfold min_val, max_val; lia).
  rewrite (quantize_value_clamps value scale bits Hbits Hscale).
  fold quotient. fold max_val. fold min_val.
  assert (Hhigh : quotient = S754_nan \/ quotient = S754_infinity false \/
                  (exists q, PyFloat.to_Q quotient = Some q /\
                             (inject_Z max_val <= q)%Q) ->
                  Encoding.round_number
                    (Encoding.max_int_number min_val
                       (Encoding.min_int_float max_val quotient))
                  = Ok max_val).
  { intros H. apply clamp_high; [exact Hlohi|].
    destruct H as [->|[->|(q & Hq & Hle)]]; try reflexivity.
    destruct (PyFloat.lt_int quotient max_val) eqn:Hlt; [|reflexivity].
    apply (compare_int_Q quotient max_val q Hq) in Hlt.
    exfalso. apply (Qlt_not_le _ _ Hlt). exact Hle. }
  split; [exact Hhigh|]. split.
  - intros H. apply clamp_low.
    + destruct H as [->|(q & Hq & Hle)]; [reflexivity|].
      apply (compare_int_Q quotient max_val q Hq).
      apply (Qle_lt_trans _ (inject_Z min_val)); [exact Hle|].
      rewrite <- Zlt_Qlt. exact Hlohi.
    + destruct H as [->|(q & Hq & Hle)]; [reflexivity|].
      destruct (PyFloat.gt_int quotient min_val) eqn:Hgt; [|reflexivity].
      apply (compare_int_Q quotient min_val q Hq) in Hgt.
      exfalso. apply (Qlt_not_le _ _ Hgt). exact Hle.
  - intros Hnan. apply Hhigh. left. unfold quotient. rewrite Hnan.
    reflexivity.
Qed.

Lemma quantize_value_saturates_witness :
  Encoding.quantize_value S754_nan 8 PyFloat.one = Ok (2 ^ (8 - 1) - 1).
Proof.
  apply (quantize_value_saturates S754_nan PyFloat.one 8);
    [lia|reflexivity|reflexivity].
Defined.

(** ** More of [iss.py]: thresholds, linearity, rejected input *)

Section Subsets.

Import ISS Lagrange.

(** The shares of a polynomial at the points [1, ..., n]. *)
Let evaluations (f : Z -> Z) (n : Z) : list (Z * Z) :=
  map (fun i => (i, f i)) (range 1 (n + 1)).

Lemma chosen_points (f : Z -> Z) (n : Z) (chosen : list (Z * Z)) :
  NoDup chosen -> incl chosen (evaluations f n) ->
  NoDup (map fst chosen) /\
  map snd chosen = map f (map fst chosen) /\
  Forall (fun x => 1 <= x <= n) (map fst chosen).
Proof.
  intros Hnd Hincl.
  assert (Hform : forall c, In c chosen ->
                            snd c = f (fst c) /\ 1 <= fst c <= n).
  { intros c Hc. apply Hincl in Hc. unfold evaluations in Hc.
    apply in_map_iff in Hc. destruct Hc as (i & <- & Hi).
    apply in_range_bounds in Hi. cbn [fst snd]. split; [reflexivity|lia]. }
  split; [|split].
  - apply NoDup_map_NoDup_ForallPairs; [|exact Hnd].
    intros [x y] [x' y'] Hc Hc' Heq. cbn [fst] in Heq. subst x'.
    destruct (Hform _ Hc) as [Hy _], (Hform _ Hc') as [Hy' _].
    cbn [fst snd] in Hy, Hy'. congruence.
  - rewrite map_map. apply map_ext_in. intros c Hc.
    apply (Hform c Hc).
  - apply Forall_forall. intros x Hx. apply in_map_iff in Hx.
    destruct Hx as (c & <- & Hc). apply (Hform c Hc).
Qed.

(** Any [t + 1] different shares of a polynomial of degree at most [t]
    give back its constant term. *)
Lemma subset_reconstructs_int (coeffs : list Z) (n t : Z)
  (chosen : list (Z * Z)) :
  Py.len coeffs <= t + 1 ->
  NoDup chosen -> incl chosen (evaluations (eval coeffs) n) ->
  Py.len chosen = t + 1 ->
  reconstruct chosen t None = Ok (eval coeffs 0).
Proof.
  intros Hdeg Hnd Hincl Hlen.
  destruct (chosen_points _ _ _ Hnd Hincl) as (Hxs & Hys & _).
  unfold reconstruct.
  rewrite (reconstruct_int_exact chosen t coeffs Hxs Hlen);
    [reflexivity| |exact Hys].
  unfold Py.len in *. lia.
Qed.

(** Different points of [1, ..., n] stay different modulo a prime
    [p >= n]. *)
Lemma den_at_incongruent (p n : Z) (xs : list Z) (j : nat) :
  Z.prime p -> n <= p -> NoDup xs ->
  Forall (fun x => 1 <= x <= n) xs -> (j < length xs)%nat ->
  den_at xs j mod p <> 0.
Proof.
  intros Hp Hnp Hnd Hrange Hj.
  pose proof (Z.prime_ge_2 p Hp) as Hp2.
  apply lin_prod_mod_nonzero; [exact Hp|].
  intros x Hx.
  assert (Hne : nth j xs 0 <> x).
  { intros E. apply (remove_nth_self j xs Hnd Hj). rewrite E. exact Hx. }
  rewrite Forall_forall in Hrange.
  assert (Hxj : 1 <= nth j xs 0 <= n) by (apply Hrange, nth_In; exact Hj).
  assert (Hin : In x xs).
  { unfold remove_nth in Hx. apply in_app_or in Hx. destruct Hx as [H | H].
    - rewrite <- (firstn_skipn j xs). apply in_or_app. left. exact H.
    - rewrite <- (firstn_skipn (S j) xs). apply in_or_app. right. exact H. }
  assert (Hxr : 1 <= x <= n) by (apply Hrange; exact Hin).
  intros Hmod. apply Z.mod_divide in Hmod; [|lia].
  destruct Hmod as [c Hc].
  assert (Hcases : c = 0 \/ 1 <= c \/ c <= -1) by lia.
  destruct Hcases as [-> | [Hc1 | Hc1]]; nia.
Qed.

Lemma reconstruct_mod_exact (shares : list (Z * Z)) (t p : Z)
  (coeffs : list Z) :
  Z.prime p ->
  NoDup (map fst shares) ->
  Py.len shares = t + 1 ->
  (length coeffs <= length shares)%nat ->
  map snd shares = map (fun x => eval coeffs x mod p) (map fst shares) ->
  (forall j, (j < length shares)%nat ->
             den_at (map fst shares) j mod p <> 0) ->
  reconstruct shares t (Some p) = Ok (eval coeffs 0 mod p).
Proof.
  intros Hp Hnd Hlen Hdeg Hys Hden.
  pose proof (Z.prime_ge_2 p Hp) as Hp2.
  unfold reconstruct, reconstruct_path.
  destruct (Z.ltb_spec (Py.len shares) (t + 1)); [lia|].
  assert (Hsub : Py.slice_to shares (t + 1) = shares).
  { rewrite slice_to_nonneg by (unfold Py.len in Hlen; lia).
    rewrite <- Hlen. unfold Py.len. rewrite Nat2Z.id. apply firstn_all. }
  rewrite Hsub.
  pose proof (reconstruct_mod_loop_spec shares p Hnd Hp2 (length shares) 0 0
                ltac:(lia) ltac:(apply Z.mod_0_l; lia)) as Hloop.
  simpl skipn in Hloop. simpl Z.of_nat in Hloop. rewrite Hloop.
  cbn [Py.bind]. f_equal. rewrite Z.add_0_l, Hys.
  rewrite <- (length_map fst shares).
  apply (lagrange_at_zero_mod p Hp (map fst shares) coeffs Hnd).
  - rewrite length_map. exact Hdeg.
  - intros j Hj. apply Hden. rewrite length_map in Hj. exact Hj.
Qed.

Lemma subset_reconstructs_mod (coeffs : list Z) (n t p : Z)
  (chosen : list (Z * Z)) :
  Z.prime p -> n <= p ->
  Py.len coeffs <= t + 1 ->
  NoDup chosen ->
  incl chosen (evaluations (fun x => eval coeffs x mod p) n) ->
  Py.len chosen = t + 1 ->
  reconstruct chosen t (Some p) = Ok (eval coeffs 0 mod p).
Proof.
  intros Hp Hnp Hdeg Hnd Hincl Hlen.
  destruct (chosen_points _ _ _ Hnd Hincl) as (Hxs & Hys & Hrange).
  apply reconstruct_mod_exact; try assumption.
  - unfold Py.len in *. lia.
  - intros j Hj. apply (den_at_incongruent p n); try assumption.
    rewrite length_map. exact Hj.
Qed.

End Subsets.

(** Any [t + 1] different shares reconstruct the secret, in any order:
    for [1 <= t < n] and every draw of the coefficients, every list of
    [t + 1] pairwise different shares taken from [share(secret, n, t)]
    gives [reconstruct(chosen, t) == secret]; in modular mode with a
    prime [p >= n] it gives [secret % p]. *)
Theorem any_shares_reconstruct (rnd : ISS.draws) (secret n t : Z) :
  1 <= t < n ->
  (exists shares,
     ISS.share rnd secret n t None = Ok shares /\
     forall chosen,
       NoDup chosen -> incl chosen shares -> Py.len chosen = t + 1 ->
       ISS.reconstruct chosen t None = Ok secret) /\
  (forall p, Z.prime p -> n <= p ->
     exists shares,
       ISS.share rnd secret n t (Some p) = Ok shares /\
       forall chosen,
         NoDup chosen -> incl chosen shares -> Py.len chosen = t + 1 ->
         ISS.reconstruct chosen t (Some p) = Ok (secret mod p)).
Proof.
  intros Ht.
  assert (Hn : 2 <= n) by lia.
  pose proof (length_share_coeffs rnd secret n t Ht) as Hcoeffs.
  split.
  - eexists. split; [apply (share_int rnd secret n t); assumption|].
    intros chosen Hnd Hincl Hlen.
    rewrite <- (share_coeffs_at_0 rnd secret t).
    apply (subset_reconstructs_int _ n); try assumption.
    unfold Py.len. rewrite Hcoeffs. lia.
  - intros p Hp Hnp. pose proof (Z.prime_ge_2 p Hp) as Hp2.
    eexists. split; [apply (share_mod rnd secret n t); (assumption || lia)|].
    intros chosen Hnd Hincl Hlen.
    rewrite <- (share_coeffs_at_0 rnd secret t).
    apply (subset_reconstructs_mod _ n); try assumption.
    unfold Py.len. rewrite Hcoeffs. lia.
Qed.

Lemma any_shares_reconstruct_witness :
  (exists shares,
     ISS.share (fun _ => (6, 0)) 12345 5 2 None = Ok shares /\
     forall chosen,
       NoDup chosen -> incl chosen shares -> Py.len chosen = 2 + 1 ->
       ISS.reconstruct chosen 2 None = Ok 12345) /\
  (forall p, Z.prime p -> 5 <= p ->
     exists shares,
       ISS.share (fun _ => (6, 0)) 12345 5 2 (Some p) = Ok shares /\
       forall chosen,
         NoDup chosen -> incl chosen shares -> Py.len chosen = 2 + 1 ->
         ISS.reconstruct chosen 2 (Some p) = Ok (12345 mod p)).
Proof.
  apply (any_shares_reconstruct (fun _ => (6, 0)) 12345 5 2). lia.
Defined.

Section Linearity.

Import ISS Lagrange Vocabulary.

Lemma combine_maps {A B C : Type} (f : A -> B) (g : A -> C) (l : list A) :
  combine (map f l) (map g l) = map (fun x => (f x, g x)) l.
Proof.
  induction l as [|x l IH]; [reflexivity|].
  cbn [map combine]. rewrite IH. reflexivity.
Qed.

Lemma combine_evaluations (a b : Z) (c1 c2 points : list Z) :
  combine_shares a b
    (map (fun i => (i, eval c1 i)) points)
    (map (fun i => (i, eval c2 i)) points)
  = map (fun i => (i, eval (padd (pscale a c1) (pscale b c2)) i)) points.
Proof.
  unfold combine_shares. rewrite combine_maps, map_map.
  apply map_ext. intros i. cbn [fst snd].
  rewrite eval_padd, !eval_pscale. reflexivity.
Qed.

End Linearity.

(** Sharing is linear: when the holders of the shares of two secrets
    (same [n] and [t], integer mode) each compute [a*y1 + b*y2] on their
    two shares, any [t + 1] different ones of the results reconstruct
    [a*secret1 + b*secret2]; with [a = b = 1], the sum of the secrets. *)
Theorem shares_combine_linearly
  (rnd1 rnd2 : ISS.draws) (secret1 secret2 n t a b : Z) :
  1 <= t < n ->
  exists shares1 shares2,
    ISS.share rnd1 secret1 n t None = Ok shares1 /\
    ISS.share rnd2 secret2 n t None = Ok shares2 /\
    forall chosen,
      NoDup chosen ->
      incl chosen (Vocabulary.combine_shares a b shares1 shares2) ->
      Py.len chosen = t + 1 ->
      ISS.reconstruct chosen t None = Ok (a * secret1 + b * secret2).
Proof.
  intros Ht. assert (Hn : 2 <= n) by lia.
  do 2 eexists.
  split; [apply (share_int rnd1 secret1 n t); assumption|].
  split; [apply (share_int rnd2 secret2 n t); assumption|].
  intros chosen Hnd Hincl Hlen.
  rewrite combine_evaluations in Hincl.
  rewrite (subset_reconstructs_int
             (Lagrange.padd
                (Lagrange.pscale a (ISS.share_coeffs rnd1 secret1 t))
                (Lagrange.pscale b (ISS.share_coeffs rnd2 secret2 t)))
             n t chosen); try assumption.
  - rewrite eval_padd, !eval_pscale, !share_coeffs_at_0. reflexivity.
  - unfold Py.len, Lagrange.pscale.
    rewrite length_padd, !length_map.
    rewrite (length_share_coeffs rnd1 secret1 n t Ht).
    rewrite (length_share_coeffs rnd2 secret2 n t Ht). lia.
Qed.

Lemma shares_combine_linearly_witness :
  exists shares1 shares2,
    ISS.share (fun _ => (6, 0)) 40 4 2 None = Ok shares1 /\
    ISS.share (fun _ => (2, 1)) 2 4 2 None = Ok shares2 /\
    forall chosen,
      NoDup chosen ->
      incl chosen (Vocabulary.combine_shares 1 1 shares1 shares2) ->
      Py.len chosen = 2 + 1 ->
      ISS.reconstruct chosen 2 None = Ok (1 * 40 + 1 * 2).
Proof.
  apply (shares_combine_linearly (fun _ => (6, 0)) (fun _ => (2, 1))
           40 2 4 2 1 1). lia.
Defined.

Section Duplicates.

Import ISS Lagrange.

Lemma basis_loop_raises (x_j j : Z) (rest : list (Z * Z)) :
  forall m num den,
    (exists i, (i < length rest)%nat /\ m + Z.of_nat i <> j /\
               nth i (map fst rest) 0 = x_j) ->
    exists m',
      basis_loop x_j j m num den rest
      = Raise (ValueError (duplicate_x_coordinate x_j j m')).
Proof.
  induction rest as [|[x_m y_m] rest IH]; intros m num den (i & Hi & Hne & Hx).
  - simpl in Hi. lia.
  - cbn [basis_loop].
    assert (Hnext : i <> 0%nat ->
              exists i', (i' < length rest)%nat /\
                         m + 1 + Z.of_nat i' <> j /\
                         nth i' (map fst rest) 0 = x_j).
    { intros Hi0. destruct i as [|i']; [contradiction|].
      exists i'. cbn [length map nth] in *. repeat split; [lia|lia|exact Hx]. }
    destruct (Z.eqb_spec m j) as [Hm|Hm].
    + apply IH, Hnext. intros ->. apply Hne. lia.
    + destruct (Z.eqb_spec x_m x_j) as [E|E]; [eexists; reflexivity|].
      apply IH, Hnext. intros ->. apply E. exact Hx.
Qed.

Lemma in_remove_nth (xs : list Z) (j : nat) (x : Z) :
  In x (remove_nth j xs) ->
  exists i, (i < length xs)%nat /\ i <> j /\ nth i xs 0 = x.
Proof.
  unfold remove_nth. intros Hin. apply in_app_or in Hin.
  destruct Hin as [Hin|Hin]; apply (In_nth _ _ 0) in Hin;
    destruct Hin as (i & Hi & Hx).
  - rewrite length_firstn in Hi. rewrite nth_firstn in Hx.
    destruct (Nat.ltb_spec i j); [|lia].
    exists i. repeat split; [lia|lia|exact Hx].
  - rewrite length_skipn in Hi. rewrite nth_skipn in Hx.
    exists (S j + i)%nat. repeat split; [lia|lia|exact Hx].
Qed.

Variable subset : list (Z * Z).

Let xs : list Z := map fst subset.

Lemma lagrange_basis_dup (j : nat) (prime : option Z) :
  (j < length subset)%nat ->
  In (nth j xs 0) (remove_nth j xs) ->
  exists m',
    _lagrange_basis subset (Z.of_nat j) prime
    = Raise (ValueError
               (duplicate_x_coordinate (nth j xs 0) (Z.of_nat j) m')).
Proof.
  intros Hj Hin. unfold _lagrange_basis.
  rewrite (index_nth _ _ _ (nth_error_subset subset j Hj)). cbn [Py.bind].
  apply in_remove_nth in Hin. destruct Hin as (i & Hi & Hij & Hx).
  destruct (basis_loop_raises (nth j xs 0) (Z.of_nat j) subset 0 1 1)
    as (m' & Hraise).
  { exists i. unfold xs in *. rewrite length_map in Hi.
    repeat split; [exact Hi|lia|exact Hx]. }
  exists m'. fold xs. rewrite Hraise. reflexivity.
Qed.

Lemma lagrange_basis_local (j : nat) (prime : option Z) :
  (j < length subset)%nat ->
  ~ In (nth j xs 0) (remove_nth j xs) ->
  prime <> Some 0 ->
  _lagrange_basis subset (Z.of_nat j) prime
  = Ok (match prime with
        | Some p => (num_at xs j mod p, den_at xs j mod p)
        | None => (num_at xs j, den_at xs j)
        end).
Proof.
  intros Hj Hnotin Hp. unfold _lagrange_basis.
  rewrite (index_nth _ _ _ (nth_error_subset subset j Hj)). cbn [Py.bind].
  rewrite (basis_loop_from _ _ subset j 0 1 1);
    [|lia|exact Hj|exact Hnotin].
  cbn [Py.bind]. rewrite !Z.mul_1_l. destruct prime as [p|]; [|reflexivity].
  unfold Py.mod_. destruct (Z.eqb_spec p 0); [congruence|]. reflexivity.
Qed.

Lemma dup_index (l : list Z) :
  ~ NoDup l ->
  exists j, (j < length l)%nat /\ In (nth j l 0) (remove_nth j l).
Proof.
  induction l as [|x l IH]; intros Hdup.
  - exfalso. apply Hdup. constructor.
  - destruct (in_dec Z.eq_dec x l) as [Hin|Hnotin].
    + exists 0%nat. split; [cbn; lia|]. exact Hin.
    + destruct IH as (j & Hj & Hin).
      { intros Hnd. apply Hdup. constructor; assumption. }
      exists (S j). split; [cbn; lia|].
      rewrite remove_nth_S. right. exact Hin.
Qed.

(** The first loop of the integer branch stops at the first index whose
    x-coordinate occurs twice. *)
Lemma bases_loop_dup (js : list nat) :
  (forall j, In j js -> (j < length subset)%nat) ->
  (exists j, In j js /\ In (nth j xs 0) (remove_nth j xs)) ->
  forall bases cd,
    exists x j m,
      bases_loop subset (map Z.of_nat js) bases cd
      = Raise (ValueError (duplicate_x_coordinate x j m)).
Proof.
  induction js as [|j js IH]; intros Hjs (j' & Hj' & Hdup) bases cd;
    [contradiction|].
  cbn [map bases_loop].
  assert (Hj : (j < length subset)%nat) by (apply Hjs; left; reflexivity).
  destruct (in_dec Z.eq_dec (nth j xs 0) (remove_nth j xs)) as [Hin|Hnotin].
  - destruct (lagrange_basis_dup j None Hj Hin) as (m' & ->).
    cbn [Py.bind]. eauto.
  - rewrite (lagrange_basis_local j None Hj Hnotin) by discriminate.
    cbn [Py.bind]. apply IH.
    + intros k Hk. apply Hjs. right. exact Hk.
    + exists j'. split; [|exact Hdup].
      destruct Hj' as [->|Hj']; [contradiction|exact Hj'].
Qed.

(** So does the loop of the modular branch. *)
Lemma mod_loop_dup (p : Z) (k : nat) :
  2 <= p ->
  forall (j0 : nat) secret,
    (j0 + k = length subset)%nat ->
    (exists j, (j0 <= j < length subset)%nat /\
               In (nth j xs 0) (remove_nth j xs)) ->
    exists x j m,
      reconstruct_mod_loop subset p (Z.of_nat j0) secret (skipn j0 subset)
      = Raise (ValueError (duplicate_x_coordinate x j m)).
Proof.
  intros Hp. induction k as [|k IH]; intros j0 secret Hlen (j' & Hj' & Hdup);
    [lia|].
  assert (Hj0 : (j0 < length subset)%nat) by lia.
  rewrite (skipn_cons_nth subset j0 Hj0). cbn [reconstruct_mod_loop].
  destruct (in_dec Z.eq_dec (nth j0 xs 0) (remove_nth j0 xs)) as [Hin|Hnotin].
  - destruct (lagrange_basis_dup j0 (Some p) Hj0 Hin) as (m' & ->).
    cbn [Py.bind]. eauto.
  - rewrite (lagrange_basis_local j0 (Some p) Hj0 Hnotin)
      by (intros E; inversion E; lia).
    cbn [Py.bind]. rewrite pow3_nonneg by lia. cbn [Py.bind].
    unfold Py.mod_. destruct (Z.eqb_spec p 0); [lia|]. cbn [Py.bind].
    replace (Z.of_nat j0 + 1) with (Z.of_nat (S j0)) by lia.
    apply IH; [lia|].
    exists j'. split; [|exact Hdup].
    assert (j' <> j0) by (intros ->; contradiction). lia.
Qed.

Lemma index_error {A : Type} (l : list A) (j : Z) (e : exn) :
  index l j = Raise e -> e = IndexError.
Proof.
  unfold index. destruct (_ <? 0); [intros H; inversion H; reflexivity|].
  destruct (nth_error _ _); intros H; inversion H. reflexivity.
Qed.

Lemma basis_loop_error (x_j j : Z) (rest : list (Z * Z)) :
  forall m num den e,
    basis_loop x_j j m num den rest = Raise e ->
    exists m', e = ValueError (duplicate_x_coordinate x_j j m').
Proof.
  induction rest as [|[x_m y_m] rest IH]; intros m num den e H;
    [discriminate|].
  cbn [basis_loop] in H. destruct (m =? j); [exact (IH _ _ _ _ H)|].
  destruct (x_m =? x_j); [inversion H; eauto|exact (IH _ _ _ _ H)].
Qed.

(** No loop of [reconstruct] raises the insufficient-data error. *)
Lemma lagrange_basis_error_kind (j : Z) (prime : option Z) (e : exn) :
  _lagrange_basis subset j prime = Raise e ->
  kind_of e <> Some InsufficientData.
Proof.
  unfold _lagrange_basis.
  destruct (index subset j) as [[x_j y_j]|e1] eqn:Hidx; cbn [Py.bind].
  2:{ intros H. inversion H; subst. apply index_error in Hidx. subst.
      discriminate. }
  destruct (basis_loop x_j j 0 1 1 subset) as [[num den]|e2] eqn:Hbasis;
    cbn [Py.bind].
  2:{ intros H. inversion H; subst.
      apply basis_loop_error in Hbasis. destruct Hbasis as (m' & ->).
      discriminate. }
  destruct prime as [p|]; [|discriminate].
  unfold Py.mod_. destruct (p =? 0); cbn [Py.bind]; [|discriminate].
  intros H. inversion H. discriminate.
Qed.

Lemma mod_loop_error_kind (p : Z) (rest : list (Z * Z)) :
  forall j secret e,
    reconstruct_mod_loop subset p j secret rest = Raise e ->
    kind_of e <> Some InsufficientData.
Proof.
  induction rest as [|[x y] rest IH]; intros j secret e H; [discriminate|].
  cbn [reconstruct_mod_loop] in H.
  destruct (_lagrange_basis subset j (Some p)) as [[num den]|e1] eqn:Hb;
    cbn [Py.bind] in H.
  2:{ inversion H; subst. exact (lagrange_basis_error_kind _ _ _ Hb). }
  destruct (Utils.pow3 den (p - 2) p) as [di|e2] eqn:Hpow;
    cbn [Py.bind] in H.
  2:{ inversion H; subst. unfold Utils.pow3 in Hpow.
      repeat match type of Hpow with
             | context [if ?c then _ else _] => destruct c
             end; inversion Hpow; discriminate. }
  unfold Py.mod_ in H. destruct (p =? 0); cbn [Py.bind] in H;
    [inversion H; discriminate|].
  exact (IH _ _ _ H).
Qed.

Lemma bases_loop_error_kind (js : list Z) :
  forall bases cd e,
    bases_loop subset js bases cd = Raise e ->
    kind_of e <> Some InsufficientData.
Proof.
  induction js as [|j js IH]; intros bases cd e H; [discriminate|].
  cbn [bases_loop] in H.
  destruct (_lagrange_basis subset j None) as [[num den]|e1] eqn:Hb;
    cbn [Py.bind] in H.
  - exact (IH _ _ _ H).
  - inversion H; subst. exact (lagrange_basis_error_kind _ _ _ Hb).
Qed.

Lemma numerator_loop_error_kind (bases : list (Z * Z)) (cd : Z)
  (rest : list (Z * Z)) :
  forall j acc e,
    numerator_loop bases cd j acc rest = Raise e ->
    kind_of e <> Some InsufficientData.
Proof.
  induction rest as [|[x y] rest IH]; intros j acc e H; [discriminate|].
  cbn [numerator_loop] in H.
  destruct (index bases j) as [[nj dj]|e1] eqn:Hidx; cbn [Py.bind] in H.
  2:{ inversion H; subst. apply index_error in Hidx. subst. discriminate. }
  unfold Py.floordiv in H. destruct (dj =? 0); cbn [Py.bind] in H;
    [inversion H; discriminate|].
  exact (IH _ _ _ H).
Qed.

Lemma rounding_error_kind (num cd : Z) (e : exn) :
  (q <- PyFloat.int_true_div num cd ;; PyFloat.round q) = Raise e ->
  kind_of e <> Some InsufficientData.
Proof.
  unfold PyFloat.int_true_div.
  destruct (cd =? 0); cbn [Py.bind]; [intros H; inversion H; discriminate|].
  destruct num; cbn [Py.bind PyFloat.round]; try discriminate;
    match goal with
    | |- context [SFdiv ?a ?b ?c ?d] =>
        destruct (SFdiv a b c d); cbn [Py.bind PyFloat.round];
          try discriminate; intros H; inversion H; discriminate
    end.
Qed.

Lemma rounding_not_duplicate (num cd x j m : Z) :
  (q <- PyFloat.int_true_div num cd ;; PyFloat.round q)
  <> Raise (ValueError (duplicate_x_coordinate x j m)).
Proof.
  unfold PyFloat.int_true_div.
  destruct (cd =? 0); cbn [Py.bind]; [discriminate|].
  destruct num; cbn [Py.bind PyFloat.round]; try discriminate;
    match goal with
    | |- context [SFdiv ?a ?b ?c ?d] =>
        destruct (SFdiv a b c d); cbn [Py.bind PyFloat.round]; discriminate
    end.
Qed.

End Duplicates.

(** The input checks of [reconstruct].  It raises the insufficient-data
    error exactly when fewer than [t + 1] shares are supplied.  Given
    enough shares ([t >= 0]), in integer mode and in modular mode with
    [prime >= 2], it raises the duplicate-x error exactly when two of the
    first [t + 1] shares have the same x-coordinate: duplicates among
    the shares beyond those go unnoticed, and shares beyond the first
    [t + 1] never change the result. *)
Theorem reconstruct_input_checks :
  (forall shares t prime,
     (exists e, ISS.reconstruct shares t prime = Raise e /\
                kind_of e = Some InsufficientData)
     <-> Py.len shares < t + 1) /\
  (forall shares t prime,
     0 <= t -> t + 1 <= Py.len shares ->
     (prime = None \/ exists p, prime = Some p /\ 2 <= p) ->
     ((exists x j m,
         ISS.reconstruct shares t prime
         = Raise (ValueError (duplicate_x_coordinate x j m)))
      <-> ~ NoDup (map fst (firstn (Z.to_nat (t + 1)) shares)))) /\
  (forall shares extra t prime,
     0 <= t -> Py.len shares = t + 1 ->
     ISS.reconstruct (shares ++ extra) t prime
     = ISS.reconstruct shares t prime).
Proof.
  split; [|split].
  - intros shares t prime. unfold ISS.reconstruct, ISS.reconstruct_path.
    destruct (Z.ltb_spec (Py.len shares) (t + 1)) as [Hlt|Hge].
    + split; [intros _; exact Hlt|]. intros _.
      eexists. split; reflexivity.
    + split; [|lia]. intros (e & Hrun & Hkind). exfalso. revert Hkind.
      set (subset := Py.slice_to shares (t + 1)) in *.
      destruct prime as [p|].
      * destruct (ISS.reconstruct_mod_loop subset p 0 0 subset) as [s|e']
          eqn:Hloop; cbn [Py.bind] in Hrun; [discriminate|].
        inversion Hrun; subst e'.
        exact (mod_loop_error_kind subset p subset _ _ _ Hloop).
      * destruct (ISS.bases_loop subset _ [] 1) as [[bases cd]|e1]
          eqn:Hbases; cbn [Py.bind] in Hrun.
        2:{ inversion Hrun; subst e1.
            exact (bases_loop_error_kind subset _ _ _ _ Hbases). }
        destruct (ISS.numerator_loop bases cd 0 0 subset) as [num|e2]
          eqn:Hnum; cbn [Py.bind] in Hrun.
        2:{ inversion Hrun; subst e2.
            exact (numerator_loop_error_kind bases cd subset _ _ _ Hnum). }
        unfold Py.mod_ in Hrun.
        destruct (cd =? 0) eqn:Hcd; cbn [Py.bind] in Hrun;
          [inversion Hrun; discriminate|].
        destruct (negb (num mod cd =? 0)); cbn [Py.bind] in Hrun.
        -- destruct (q <- PyFloat.int_true_div num cd ;; PyFloat.round q)
             as [z|e3] eqn:Hround.
           ++ unfold Py.bind in Hround.
              destruct (PyFloat.int_true_div num cd); [|discriminate].
              cbn [Py.bind] in Hrun. rewrite Hround in Hrun.
              cbn [Py.bind] in Hrun. discriminate.
           ++ pose proof (rounding_error_kind num cd e3 Hround) as Hk.
              unfold Py.bind in Hround.
              destruct (PyFloat.int_true_div num cd) as [q|e4];
                cbn [Py.bind] in Hrun.
              ** rewrite Hround in Hrun. cbn [Py.bind] in Hrun.
                 inversion Hrun; subst. exact Hk.
              ** inversion Hround; subst. inversion Hrun; subst. exact Hk.
        -- unfold Py.floordiv in Hrun. rewrite Hcd in Hrun.
           cbn [Py.bind] in Hrun. discriminate.
  - intros shares t prime Ht Hlen Hmode.
    set (subset := firstn (Z.to_nat (t + 1)) shares).
    assert (Hsub : Py.slice_to shares (t + 1) = subset)
      by (apply slice_to_nonneg; lia).
    assert (Hsublen : length subset = Z.to_nat (t + 1)).
    { unfold subset. rewrite length_firstn. unfold Py.len in Hlen. lia. }
    unfold ISS.reconstruct, ISS.reconstruct_path.
    destruct (Z.ltb_spec (Py.len shares) (t + 1)); [lia|]. rewrite Hsub.
    split.
    + intros (x & j & m & Hrun) Hnd.
      destruct Hmode as [->|(p & -> & Hp)].
      * destruct (reconstruct_int_loops subset Hnd) as [Hbases Hnum].
        rewrite Hbases in Hrun. cbn [Py.bind] in Hrun.
        rewrite Hnum in Hrun. cbn [Py.bind] in Hrun.
        unfold Py.mod_ in Hrun.
        destruct (_ =? 0) eqn:Hcd; cbn [Py.bind] in Hrun; [discriminate|].
        destruct (negb _); cbn [Py.bind] in Hrun.
        -- apply (rounding_not_duplicate
                    (Lagrange.numerator (map fst subset) (map snd subset))
                    (Lagrange.common_den (map fst subset)) x j m).
           unfold Py.bind in *.
           destruct (PyFloat.int_true_div _ _); [|exact Hrun].
           destruct (PyFloat.round _); [discriminate|exact Hrun].
        -- unfold Py.floordiv in Hrun. rewrite Hcd in Hrun.
           cbn [Py.bind] in Hrun. discriminate.
      * pose proof (reconstruct_mod_loop_spec subset p Hnd Hp
                      (length subset) 0 0 ltac:(lia)
                      ltac:(apply Z.mod_0_l; lia)) as Hloop.
        simpl skipn in Hloop. simpl Z.of_nat in Hloop.
        rewrite Hloop in Hrun. discriminate.
    + intros Hdup. apply dup_index in Hdup.
      destruct Hdup as (j & Hj & Hin). rewrite length_map in Hj.
      destruct Hmode as [->|(p & -> & Hp)].
      * destruct (bases_loop_dup subset (seq 0 (length subset))) with
          (bases := @nil (Z * Z)) (cd := 1) as (x & j' & m & Hraise).
        { intros k Hk. apply in_seq in Hk. lia. }
        { exists j. split; [apply in_seq; lia|exact Hin]. }
        unfold Py.len. rewrite range_0, Hraise. cbn [Py.bind]. eauto.
      * destruct (mod_loop_dup subset p (length subset) Hp 0 0 ltac:(lia))
          as (x & j' & m & Hraise).
        { exists j. split; [lia|exact Hin]. }
        simpl skipn in Hraise. simpl Z.of_nat in Hraise.
        rewrite Hraise. cbn [Py.bind]. eauto.
  - intros shares extra t prime Ht Hlen.
    unfold ISS.reconstruct, ISS.reconstruct_path.
    assert (Hlen' : Py.len (shares ++ extra) >= t + 1).
    { unfold Py.len in *. rewrite length_app. lia. }
    destruct (Z.ltb_spec (Py.len (shares ++ extra)) (t + 1)); [lia|].
    destruct (Z.ltb_spec (Py.len shares) (t + 1)); [lia|].
    rewrite !slice_to_nonneg by lia.
    replace (Z.to_nat (t + 1)) with (length shares + 0)%nat
      by (unfold Py.len in Hlen; lia).
    rewrite firstn_app_2, Nat.add_0_r, firstn_all. cbn [firstn].
    rewrite app_nil_r. reflexivity.
Qed.

(** ** Rejected and unusual input *)

(** When [discrete_log_brute] finds nothing.  For [modulus >= 2], if no
    exponent [k] with [-max_val <= k <= max_val] has
    [mod_pow(base, k, modulus) == target % modulus], the search raises.
    When the interpreter allows the [calls(base % modulus, modulus)]
    nested calls of [_extended_gcd] that [mod_inv] makes, it is the
    search-exhaustion error if [base] is invertible and the
    non-invertibility error of [mod_inv] if it is not (negative
    exponents are then never tried); when it does not, it is
    [RecursionError]. *)
Theorem discrete_log_brute_failure
  (limit : nat) (target base m max_val : Z) :
  2 <= m ->
  (forall k, - max_val <= k <= max_val ->
             Utils.mod_pow limit base k m <> Ok (target mod m)) ->
  exists e,
    Utils.discrete_log_brute limit target base m max_val = Raise e /\
    ((Vocabulary.calls (base mod m) m <= limit)%nat ->
     kind_of e = Some (if Z.gcd base m =? 1 then SearchExhaustion
                       else NonInvertible)) /\
    ((limit < Vocabulary.calls (base mod m) m)%nat -> e = RecursionError).
Proof.
  intros Hm Hnone. unfold Utils.discrete_log_brute, Py.mod_.
  destruct (Z.eqb_spec m 0); [lia|]. cbn [Py.bind].
  pose proof (dlog_scan_spec m (target mod m) base ltac:(lia)
                (Z.to_nat (max_val + 1)) 0 1 ltac:(apply Z.mod_1_l; lia))
    as Hscan.
  destruct (Utils.dlog_scan (Z.to_nat (max_val + 1)) 0 1 (target mod m)
              base m) as [r|].
  { exfalso. destruct Hscan as (i & Hi & _ & Hhit & _).
    apply (Hnone (Z.of_nat i) ltac:(lia)).
    rewrite mod_pow_nonneg by lia. rewrite Z.mul_1_l in Hhit.
    rewrite Hhit. reflexivity. }
  destruct (le_lt_dec (Vocabulary.calls (base mod m) m) limit) as [Hc|Hc].
  - destruct (Z.eqb_spec (Z.gcd base m) 1) as [Hg|Hg].
    + destruct (mod_inv_coprime limit base m Hm Hg Hc)
        as (inv & Hinv & Hrange & _).
      rewrite Hinv. cbn [Py.bind].
      pose proof (dlog_scan_spec m (target mod m) inv ltac:(lia)
                    (Z.to_nat max_val) 1 inv
                    ltac:(apply Z.mod_small; lia)) as Hscan'.
      destruct (Utils.dlog_scan (Z.to_nat max_val) 1 inv (target mod m)
                  inv m) as [r|].
      * exfalso. destruct Hscan' as (i & Hi & _ & Hhit & _).
        apply (Hnone (- (1 + Z.of_nat i)) ltac:(lia)).
        rewrite (mod_pow_negative limit base _ m inv)
          by (lia || exact Hinv).
        rewrite <- Hhit. do 2 f_equal.
        replace (- - (1 + Z.of_nat i)) with (Z.succ (Z.of_nat i)) by lia.
        rewrite Z.pow_succ_r by lia. reflexivity.
      * eexists. split; [reflexivity|]. split; [reflexivity|lia].
    + rewrite (mod_inv_not_coprime limit base m Hm Hg Hc). cbn [Py.bind].
      eexists. split; [reflexivity|]. split; [reflexivity|lia].
  - rewrite (mod_inv_overflows limit base m Hm Hc). cbn [Py.bind].
    eexists. split; [reflexivity|]. split; [lia|reflexivity].
Qed.

Lemma discrete_log_brute_failure_witness :
  exists e,
    Utils.discrete_log_brute 3 3 2 4 1 = Raise e /\
    ((Vocabulary.calls (2 mod 4) 4 <= 3)%nat ->
     kind_of e = Some (if Z.gcd 2 4 =? 1 then SearchExhaustion
                       else NonInvertible)) /\
    ((3 < Vocabulary.calls (2 mod 4) 4)%nat -> e = RecursionError).
Proof.
  apply (discrete_log_brute_failure 3 3 2 4 1); [lia|].
  intros k Hk.
  assert (Hcases : k = -1 \/ k = 0 \/ k = 1) by lia.
  destruct Hcases as [-> | [-> | ->]]; vm_compute; discriminate.
Defined.

Section PackErrors.

Import Encoding.

Lemma pack_stream_negative_width (vbs : list (Z * Z)) :
  Exists (fun vb => snd vb < 0) vbs ->
  forall stream total_bits,
    pack_stream stream total_bits vbs
    = Raise (ValueError negative_shift_count).
Proof.
  induction vbs as [|[v bw] vbs IH]; intros Hex stream total_bits.
  - inversion Hex.
  - cbn [pack_stream]. unfold Py.shl.
    destruct (Z.ltb_spec bw 0) as [Hneg|Hpos]; [reflexivity|].
    cbn [Py.bind]. apply IH.
    inversion Hex as [? ? Hhead|]; subst; [cbn in Hhead; lia|assumption].
Qed.

End PackErrors.

(** What [pack_vector] rejects.  Arrays of different lengths give the
    function's own invalid-argument error; a negative width gives the
    interpreter's [ValueError("negative shift count")]; with valid
    widths, [chunk_bits = 0] gives [ZeroDivisionError].  Values are
    never inspected. *)
Theorem pack_vector_rejects :
  (forall values bit_widths chunk_bits,
     length values <> length bit_widths ->
     exists e,
       Encoding.pack_vector values bit_widths chunk_bits = Raise e /\
       kind_of e = Some InvalidArgument) /\
  (forall values bit_widths chunk_bits,
     length values = length bit_widths ->
     Exists (fun bw => bw < 0) bit_widths ->
     Encoding.pack_vector values bit_widths chunk_bits
     = Raise (ValueError negative_shift_count)) /\
  (forall values bit_widths,
     length values = length bit_widths ->
     Forall (fun bw => 0 <= bw) bit_widths ->
     Encoding.pack_vector values bit_widths 0 = Raise ZeroDivisionError).
Proof.
  split; [|split].
  - intros values bit_widths chunk_bits Hlen. unfold Encoding.pack_vector.
    destruct (Z.eqb_spec (Py.len values) (Py.len bit_widths)) as [E|_].
    + unfold Py.len in E. lia.
    + eexists. split; reflexivity.
  - intros values bit_widths chunk_bits Hlen Hneg.
    unfold Encoding.pack_vector, Py.len. rewrite Hlen, Z.eqb_refl.
    cbn [negb]. rewrite pack_stream_negative_width; [reflexivity|].
    apply Exists_exists in Hneg. destruct Hneg as (bw & Hin & Hbw).
    apply Exists_exists.
    rewrite <- (map_snd_combine values bit_widths Hlen) in Hin.
    apply in_map_iff in Hin. destruct Hin as (vb & <- & Hvb).
    exists vb. split; assumption.
  - intros values bit_widths Hlen Hbw.
    unfold Encoding.pack_vector, Py.len. rewrite Hlen, Z.eqb_refl.
    cbn [negb]. rewrite pack_stream_spec; [reflexivity|].
    apply Forall_forall. intros vb Hvb.
    rewrite Forall_forall in Hbw. apply Hbw.
    rewrite <- (map_snd_combine values bit_widths Hlen).
    apply in_map. exact Hvb.
Qed.

Section ShareShape.

Import ISS.

Lemma coefficient_bounds (rnd : draws) (secret : Z) (t k : nat) :
  valid_draws secret t rnd -> (k < t)%nat ->
  1 <= Z.abs (coefficient rnd k) <= coeff_bound secret.
Proof.
  intros Hvalid Hk. destruct (Hvalid k Hk) as [Hc _].
  unfold coefficient. destruct (snd (rnd k) =? 0); lia.
Qed.

End ShareShape.

(** The contract of [share].  It raises an invalid-argument error
    exactly when [n < 1], [t < 1] or [t >= n].  Otherwise, in integer
    mode or with a modulus [prime >= 1], it returns [n] shares at
    [x = 1, ..., n], the values at those points of one polynomial of
    [t + 1] coefficients (reduced into [[0, prime)] in modular mode)
    whose constant term is the secret and whose other coefficients [c]
    satisfy [1 <= |c| <= max(|secret|, 1) * 2^64]. *)
Theorem share_contract (rnd : ISS.draws) (secret n t : Z) (prime : option Z) :
  ((exists e, ISS.share rnd secret n t prime = Raise e /\
              kind_of e = Some InvalidArgument)
   <-> n < 1 \/ t < 1 \/ n <= t) /\
  (1 <= t < n ->
   ISS.valid_draws secret (Z.to_nat t) rnd ->
   (forall p, prime = Some p -> 1 <= p) ->
   exists shares coeffs,
     ISS.share rnd secret n t prime = Ok shares /\
     Py.len shares = n /\
     map fst shares = ISS.range 1 (n + 1) /\
     Py.len coeffs = t + 1 /\
     nth 0 coeffs 0 = secret /\
     (forall k, (1 <= k <= Z.to_nat t)%nat ->
        1 <= Z.abs (nth k coeffs 0) <= ISS.coeff_bound secret) /\
     map snd shares
     = map (fun x => match prime with
                     | Some p => ISS.eval coeffs x mod p
                     | None => ISS.eval coeffs x
                     end) (ISS.range 1 (n + 1)) /\
     (forall p, prime = Some p ->
        Forall (fun y => 0 <= y < p) (map snd shares))).
Proof.
  split.
  - unfold ISS.share.
    destruct (Z.ltb_spec n 1); [split; [lia|eexists; split; reflexivity]|].
    destruct (Z.ltb_spec t 1); [split; [lia|eexists; split; reflexivity]|].
    destruct (Z.leb_spec n t); [split; [lia|eexists; split; reflexivity]|].
    split; [|lia]. intros (e & Hrun & Hkind). exfalso.
    destruct prime as [p|].
    + destruct (Z.eq_dec p 0) as [->|Hp].
      * revert Hrun.
        destruct (ISS.range 1 (n + 1)) as [|i points] eqn:Hpoints.
        { pose proof (length_range 1 (n + 1)) as Hl.
          rewrite Hpoints in Hl. cbn in Hl. lia. }
        cbn [ISS.share_points Py.mod_ Z.eqb Py.bind].
        intros Hrun. inversion Hrun; subst. discriminate.
      * rewrite share_points_mod in Hrun by exact Hp. discriminate.
    + rewrite share_points_int in Hrun. discriminate.
  - intros Ht Hvalid Hprime. assert (Hn : 2 <= n) by lia.
    set (coeffs := ISS.share_coeffs rnd secret t).
    assert (Hclen : length coeffs = Z.to_nat (t + 1))
      by (apply (length_share_coeffs rnd secret n t Ht)).
    assert (Hshares : ISS.share rnd secret n t prime
                      = Ok (map (fun i => (i, match prime with
                                              | Some p => ISS.eval coeffs i mod p
                                              | None => ISS.eval coeffs i
                                              end)) (ISS.range 1 (n + 1)))).
    { destruct prime as [p|].
      - apply share_mod; try assumption.
        specialize (Hprime p eq_refl). lia.
      - apply share_int; assumption. }
    eexists. exists coeffs. split; [exact Hshares|].
    split; [|split; [|split; [|split; [|split; [|split]]]]].
    + unfold Py.len. rewrite length_map, length_range. lia.
    + rewrite map_map. cbn [fst]. apply map_id.
    + unfold Py.len. rewrite Hclen. lia.
    + reflexivity.
    + intros k Hk. unfold coeffs, ISS.share_coeffs.
      destruct k as [|k]; [lia|]. cbn [nth].
      rewrite (nth_indep _ 0 (ISS.coefficient rnd 0))
        by (rewrite length_map, length_seq; lia).
      rewrite map_nth, seq_nth by lia.
      apply (coefficient_bounds rnd secret (Z.to_nat t) k Hvalid). lia.
    + rewrite map_map. reflexivity.
    + intros p ->. rewrite map_map. cbn [snd].
      apply Forall_forall. intros y Hy. apply in_map_iff in Hy.
      destruct Hy as (i & <- & _). apply Z.mod_pos_bound.
      specialize (Hprime p eq_refl). lia.
Qed.

Lemma share_contract_witness :
  exists shares coeffs,
    ISS.share (fun _ => (6, 0)) 12345 5 2 (Some 7) = Ok shares /\
    Py.len shares = 5 /\
    map fst shares = ISS.range 1 (5 + 1) /\
    Py.len coeffs = 2 + 1 /\
    nth 0 coeffs 0 = 12345 /\
    (forall k, (1 <= k <= Z.to_nat 2)%nat ->
       1 <= Z.abs (nth k coeffs 0) <= ISS.coeff_bound 12345) /\
    map snd shares
    = map (fun x => ISS.eval coeffs x mod 7) (ISS.range 1 (5 + 1)) /\
    (forall p, Some 7 = Some p ->
       Forall (fun y => 0 <= y < p) (map snd shares)).
Proof.
  apply (proj2 (share_contract (fun _ => (6, 0)) 12345 5 2 (Some 7))).
  - lia.
  - intros k Hk. cbn [fst snd]. unfold ISS.coeff_bound. cbn. lia.
  - intros p Hp. inversion Hp. lia.
Defined.

(** ** The fallback of [share_combine] *)

Section Fallback.

Import Utils TJL Vocabulary.

(** The search runs to its end when no power of an invertible base meets
    the target. *)
Lemma discrete_log_brute_exhausts (limit : nat) (target base m max_val : Z) :
  2 <= m -> Z.gcd base m = 1 -> (calls (base mod m) m <= limit)%nat ->
  (forall k, - max_val <= k <= max_val ->
             mod_pow limit base k m <> Ok (target mod m)) ->
  discrete_log_brute limit target base m max_val
  = Raise (ValueError (discrete_log_not_found max_val)).
Proof.
  intros Hm Hg Hc Hnone. unfold discrete_log_brute, Py.mod_.
  destruct (Z.eqb_spec m 0); [lia|]. cbn [Py.bind].
  pose proof (dlog_scan_spec m (target mod m) base ltac:(lia)
                (Z.to_nat (max_val + 1)) 0 1 ltac:(apply Z.mod_1_l; lia))
    as Hscan.
  destruct (dlog_scan (Z.to_nat (max_val + 1)) 0 1 (target mod m) base m)
    as [r|].
  { exfalso. destruct Hscan as (i & Hi & _ & Hhit & _).
    apply (Hnone (Z.of_nat i) ltac:(lia)).
    rewrite mod_pow_nonneg by lia. rewrite Z.mul_1_l in Hhit.
    rewrite Hhit. reflexivity. }
  destruct (mod_inv_coprime limit base m Hm Hg Hc)
    as (inv & Hinv & Hrange & _).
  rewrite Hinv. cbn [Py.bind].
  pose proof (dlog_scan_spec m (target mod m) inv ltac:(lia)
                (Z.to_nat max_val) 1 inv ltac:(apply Z.mod_small; lia))
    as Hscan'.
  destruct (dlog_scan (Z.to_nat max_val) 1 inv (target mod m) inv m)
    as [r|]; [exfalso|reflexivity].
  destruct Hscan' as (i & Hi & _ & Hhit & _).
  apply (Hnone (- (1 + Z.of_nat i)) ltac:(lia)).
  rewrite (mod_pow_negative limit base _ m inv) by (lia || exact Hinv).
  rewrite <- Hhit. do 2 f_equal.
  replace (- - (1 + Z.of_nat i)) with (Z.succ (Z.of_nat i)) by lia.
  rewrite Z.pow_succ_r by lia. reflexivity.
Qed.

(** Without the depth for [mod_inv], a search that finds no
    non-negative exponent ends in [RecursionError]. *)
Lemma discrete_log_brute_overflows (limit : nat) (target base m max_val : Z) :
  2 <= m -> (limit < calls (base mod m) m)%nat ->
  (forall k, 0 <= k <= max_val -> base ^ k mod m <> target mod m) ->
  discrete_log_brute limit target base m max_val = Raise RecursionError.
Proof.
  intros Hm Hc Hnone. unfold discrete_log_brute, Py.mod_.
  destruct (Z.eqb_spec m 0); [lia|]. cbn [Py.bind].
  pose proof (dlog_scan_spec m (target mod m) base ltac:(lia)
                (Z.to_nat (max_val + 1)) 0 1 ltac:(apply Z.mod_1_l; lia))
    as Hscan.
  destruct (dlog_scan (Z.to_nat (max_val + 1)) 0 1 (target mod m) base m)
    as [r|].
  { exfalso. destruct Hscan as (i & Hi & _ & Hhit & _).
    apply (Hnone (Z.of_nat i) ltac:(lia)).
    rewrite Z.mul_1_l in Hhit. exact Hhit. }
  rewrite (mod_inv_overflows limit base m Hm Hc). reflexivity.
Qed.

Variable params : TJLParams.
Hypothesis valid : paillier params.

Lemma paillier_calls :
  calls (g params mod n_squared params) (n_squared params) = 3%nat.
Proof.
  destruct valid as (Hn & HN & Hg). rewrite Hg, HN.
  rewrite Z.mod_mod by nia. apply generator_calls. exact Hn.
Qed.

(** Residues modulo [n^2] of the powers of the generator are [1]
    modulo [n]. *)
Lemma generator_power_residue (limit : nat) (k c : Z) :
  mod_pow limit (g params) k (n_squared params) = Ok c -> c mod n params = 1.
Proof.
  pose proof valid as (Hn & HN & Hg).
  assert (HN2 : 2 <= n_squared params) by (rewrite HN; nia).
  destruct (Z_lt_le_dec k 0) as [Hneg|Hpos];
    [destruct (le_lt_dec 3 limit) as [Hl|Hl]|].
  2:{ rewrite (mod_pow_negative_raises limit (g params) k (n_squared params)
                 RecursionError); [discriminate|lia|exact Hneg|].
      apply mod_inv_overflows; [exact HN2|]. rewrite paillier_calls. exact Hl. }
  all: rewrite (paillier_generator params valid limit k) by lia;
    intros Heq;
    assert (Hc : c = (1 + k * n params) mod n_squared params) by congruence;
    rewrite Hc, HN;
    rewrite Z.mod_mod_divide by (exists (n params); ring);
    rewrite Z.mod_add by lia; apply Z.mod_1_l; lia.
Qed.

End Fallback.

(** With parameters of the shape that [setup] builds, the brute-force
    fallback of [share_combine] never yields a result.  Given at least
    [threshold >= 0] shares, whatever they hold: when the product of the
    first [threshold] shares is [1] modulo [n], the result is
    [L(product) % n]; otherwise no power of [g] meets the product and
    [share_combine] raises: the search-exhaustion error of
    [discrete_log_brute] when the interpreter allows the three nested
    calls of [_extended_gcd] that inverting [g] takes, and
    [RecursionError] when it does not.  Hence a result of
    [share_combine] is always in [[0, n)], never negative. *)
Theorem share_combine_fallback_exhausts
  (limit : nat) (params : TJL.TJLParams) (shares : list Z) (threshold : Z) :
  Vocabulary.paillier params ->
  0 <= threshold <= Py.len shares ->
  let combined :=
    product (firstn (Z.to_nat threshold) shares) mod TJL.n_squared params in
  (combined mod TJL.n params = 1 ->
   TJL.share_combine limit params shares threshold
   = Ok (((combined - 1) / TJL.n params) mod TJL.n params)) /\
  (combined mod TJL.n params <> 1 ->
   exists e,
     TJL.share_combine limit params shares threshold = Raise e /\
     ((3 <= limit)%nat -> kind_of e = Some SearchExhaustion) /\
     ((limit < 3)%nat -> e = RecursionError)) /\
  (forall result,
     TJL.share_combine limit params shares threshold = Ok result ->
     0 <= result < TJL.n params).
Proof.
  intros Hvalid Hthr combined.
  pose proof Hvalid as (Hn & HN & Hg).
  assert (HN2 : 2 <= TJL.n_squared params) by (rewrite HN; nia).
  assert (Hcomb : 0 <= combined < TJL.n_squared params)
    by (apply Z.mod_pos_bound; lia).
  pose proof (share_combine_enough limit params shares threshold Hthr
                ltac:(lia) ltac:(lia)) as Hsc.
  cbv zeta in Hsc. fold combined in Hsc.
  assert (Hnum : ((combined - 1) mod TJL.n_squared params) mod TJL.n params
                 = (combined - 1) mod TJL.n params).
  { rewrite HN. apply Z.mod_mod_divide. exists (TJL.n params). ring. }
  assert (Hexact : combined mod TJL.n params = 1 ->
                   TJL.share_combine limit params shares threshold
                   = Ok (((combined - 1) / TJL.n params) mod TJL.n params)).
  { intros H1. rewrite Hsc, Hnum.
    rewrite Zminus_mod, H1, (Z.mod_1_l (TJL.n params)) by lia.
    rewrite Z.sub_diag, Z.mod_0_l by lia. cbn [Z.eqb].
    destruct (Z.eq_dec combined 0) as [E0|E0].
    - rewrite E0, Z.mod_0_l in H1 by lia. lia.
    - rewrite (Z.mod_small (combined - 1)) by lia. reflexivity. }
  assert (Hfall : combined mod TJL.n params <> 1 ->
                  TJL.share_combine limit params shares threshold
                  = Raise (if le_lt_dec 3 limit
                           then ValueError (discrete_log_not_found 10000)
                           else RecursionError)).
  { intros H1. rewrite Hsc, Hnum.
    destruct (Z.eqb_spec ((combined - 1) mod TJL.n params) 0) as [E|E].
    { exfalso. apply H1.
      replace combined with ((combined - 1) + 1) by ring.
      rewrite Zplus_mod, E, Z.add_0_l, Z.mod_mod by lia.
      apply Z.mod_1_l. lia. }
    assert (Hmiss : forall k c,
               Utils.mod_pow limit (TJL.g params) k (TJL.n_squared params)
               = Ok c -> c <> combined).
    { intros k c Hpow ->. apply H1.
      exact (generator_power_residue params Hvalid limit k combined Hpow). }
    destruct (le_lt_dec 3 limit) as [Hl|Hl].
    - apply discrete_log_brute_exhausts; [exact HN2| | |].
      + rewrite Hg, HN, Z.mod_small by nia. apply generator_coprime.
      + rewrite (paillier_calls params Hvalid). exact Hl.
      + intros k _ Hpow. rewrite (Z.mod_small combined) in Hpow by lia.
        exact (Hmiss k combined Hpow eq_refl).
    - apply discrete_log_brute_overflows; [exact HN2| |].
      + rewrite (paillier_calls params Hvalid). exact Hl.
      + intros k Hk Heq. rewrite (Z.mod_small combined) in Heq by lia.
        apply (Hmiss k combined); [|reflexivity].
        rewrite mod_pow_nonneg by lia. f_equal. exact Heq. }
  split; [exact Hexact|]. split.
  - intros H1. eexists. split; [apply Hfall; exact H1|].
    destruct (le_lt_dec 3 limit); split; intros; (reflexivity || lia).
  - intros result Hres.
    destruct (Z.eq_dec (combined mod TJL.n params) 1) as [H1|H1].
    + rewrite (Hexact H1) in Hres. injection Hres as <-.
      apply Z.mod_pos_bound. lia.
    + rewrite (Hfall H1) in Hres. discriminate.
Qed.

Lemma share_combine_fallback_exhausts_witness :
  let params := {| TJL.n := 5; TJL.n_squared := 25; TJL.g := 6; TJL.h := 7 |} in
  let combined := product (firstn (Z.to_nat 2) [3; 4; 9]) mod 25 in
  (combined mod 5 = 1 ->
   TJL.share_combine 3 params [3; 4; 9] 2
   = Ok (((combined - 1) / 5) mod 5)) /\
  (combined mod 5 <> 1 ->
   exists e,
     TJL.share_combine 3 params [3; 4; 9] 2 = Raise e /\
     ((3 <= 3)%nat -> kind_of e = Some SearchExhaustion) /\
     ((3 < 3)%nat -> e = RecursionError)) /\
  (forall result,
     TJL.share_combine 3 params [3; 4; 9] 2 = Ok result -> 0 <= result < 5).
Proof.
  apply (share_combine_fallback_exhausts 3
           {| TJL.n := 5; TJL.n_squared := 25; TJL.g := 6; TJL.h := 7 |}
           [3; 4; 9] 2).
  - repeat split; cbn; lia.
  - cbn. lia.
Defined.

(** ** Decoding, then encoding again *)

Section ExactRounding.

Import PyFloat.

Lemma shr_1_even (a : Z) :
  0 <= a ->
  shr_1 (Build_shr_record (2 * a) false false) = Build_shr_record a false false.
Proof. destruct a as [|p|p]; [reflexivity|reflexivity|lia]. Qed.

(** Shifting out zero bits loses nothing. *)
Lemma iter_shr_1_exact (p : positive) :
  forall a, 0 <= a ->
    iter_pos shr_1 p (Build_shr_record (a * 2 ^ Zpos p) false false)
    = Build_shr_record a false false.
Proof.
  induction p as [p IH | p IH |]; intros a Ha; cbn [iter_pos].
  - replace (a * 2 ^ Zpos p~1)
      with (2 * (a * 2 ^ Zpos p * 2 ^ Zpos p)).
    + pose proof (pow2_pos (Zpos p) ltac:(lia)) as Hp.
      rewrite shr_1_even by nia. rewrite IH by nia. apply IH. exact Ha.
    + replace (Zpos p~1) with (1 + Zpos p + Zpos p) by lia.
      rewrite !Z.pow_add_r by lia. change (2 ^ 1) with 2. ring.
  - replace (a * 2 ^ Zpos p~0) with (a * 2 ^ Zpos p * 2 ^ Zpos p).
    + pose proof (pow2_pos (Zpos p) ltac:(lia)) as Hp.
      rewrite IH by nia. apply IH. exact Ha.
    + replace (Zpos p~0) with (Zpos p + Zpos p) by lia.
      rewrite !Z.pow_add_r by lia. ring.
  - change (2 ^ 1) with 2. rewrite Z.mul_comm. apply shr_1_even. exact Ha.
Qed.

(** A 53-bit mantissa followed by [k] zero bits is rounded to itself. *)
Lemma binary_round_aux_exact (s : bool) (m : positive) (e k : Z) :
  Zpos (digits2_pos m) = 53 -> -1074 <= e <= 971 -> 0 <= k ->
  binary_round_aux prec emax s (Zpos m * 2 ^ k) (e - k) loc_Exact
  = S754_finite s m e.
Proof.
  intros Hd He Hk.
  assert (Hcanon : fexp prec emax (Zdigits2 (Zpos m) + e) - e = 0).
  { cbn [Zdigits2]. rewrite Hd. unfold fexp, SpecFloat.emin, prec, emax. lia. }
  assert (Hlast : (e <=? emax - prec) = true)
    by (apply Z.leb_le; unfold emax, prec; lia).
  destruct k as [|p|p]; [| |lia].
  - rewrite Z.pow_0_r, Z.mul_1_r, Z.sub_0_r.
    unfold binary_round_aux, shr_fexp. rewrite Hcanon.
    cbn [SpecFloat.shr shr_record_of_loc loc_of_shr_record shr_m
         round_nearest_even].
    rewrite Hcanon. cbn [SpecFloat.shr shr_record_of_loc shr_m].
    rewrite Hlast. reflexivity.
  - destruct (iter_xO_spec m p) as [Hval Hdig]. rewrite <- Hval.
    assert (Hshift : fexp prec emax (Zdigits2 (Zpos (Pos.iter xO m p))
                                     + (e - Zpos p)) - (e - Zpos p)
                     = Zpos p).
    { cbn [Zdigits2]. rewrite Hdig, Hd.
      unfold fexp, SpecFloat.emin, prec, emax. lia. }
    unfold binary_round_aux, shr_fexp. rewrite Hshift.
    cbn [SpecFloat.shr shr_record_of_loc]. rewrite Hval.
    rewrite iter_shr_1_exact by lia.
    cbn [loc_of_shr_record shr_m round_nearest_even].
    replace (e - Zpos p + Zpos p) with e by lia.
    rewrite Hcanon. cbn [SpecFloat.shr shr_record_of_loc shr_m].
    rewrite Hlast. reflexivity.
Qed.

(** Multiplying and dividing by a power of two only moves the
    exponent. *)
Lemma mul_power_of_two (s : bool) (m : positive) (e : Z)
  (negative : bool) (j : Z) :
  Zpos (digits2_pos m) = 53 -> -1074 <= e + j <= 971 ->
  mul (S754_finite s m e) (Vocabulary.power_of_two negative j)
  = S754_finite (xorb s negative) m (e + j).
Proof.
  intros Hd He. unfold mul, Vocabulary.power_of_two, SFmul.
  rewrite Pos2Z.inj_mul. change (Zpos 4503599627370496) with (2 ^ 52).
  replace (e + (j - 52)) with (e + j - 52) by lia.
  apply binary_round_aux_exact; [exact Hd|exact He|lia].
Qed.

Lemma div_core_power_of_two (m : positive) (e j : Z) :
  Zpos (digits2_pos m) = 53 -> -1073 <= e - j ->
  SFdiv_core_binary prec emax (Zpos m) e (Zpos 4503599627370496) (j - 52)
  = (Zpos m * 2 ^ 1, e - j - 1, loc_Exact).
Proof.
  intros Hd He. unfold SFdiv_core_binary. cbn [Zdigits2]. rewrite Hd.
  change (Zpos (digits2_pos 4503599627370496)) with 53.
  assert (He' : Z.min (fexp prec emax (53 + e - (53 + (j - 52))))
                  (e - (j - 52)) = e - j - 1).
  { unfold fexp, SpecFloat.emin, prec, emax. lia. }
  rewrite He'. replace (e - (j - 52) - (e - j - 1)) with 53 by lia.
  cbv beta iota zeta.
  rewrite Z.shiftl_mul_pow2 by lia.
  assert (Hq : Z.div_eucl (Zpos m * 2 ^ 53) (Zpos 4503599627370496)
               = (Zpos m * 2 ^ 1, 0)).
  { rewrite (surjective_pairing (Z.div_eucl _ _)).
    change (fst (Z.div_eucl (Zpos m * 2 ^ 53) (Zpos 4503599627370496)))
      with ((Zpos m * 2 ^ 53) / 2 ^ 52).
    change (snd (Z.div_eucl (Zpos m * 2 ^ 53) (Zpos 4503599627370496)))
      with ((Zpos m * 2 ^ 53) mod 2 ^ 52).
    replace (Zpos m * 2 ^ 53) with (Zpos m * 2 ^ 1 * 2 ^ 52)
      by (rewrite <- Z.mul_assoc, <- Z.pow_add_r by lia; reflexivity).
    rewrite Z.div_mul, Z.mod_mul by lia. reflexivity. }
  rewrite Hq. reflexivity.
Qed.

Lemma div_power_of_two (s : bool) (m : positive) (e : Z)
  (negative : bool) (j : Z) :
  Zpos (digits2_pos m) = 53 -> -1073 <= e - j <= 971 ->
  div (S754_finite s m e) (Vocabulary.power_of_two negative j)
  = S754_finite (xorb s negative) m (e - j).
Proof.
  intros Hd He. unfold div, Vocabulary.power_of_two, SFdiv.
  rewrite div_core_power_of_two by (exact Hd || lia).
  replace (e - j - 1) with (e - j - 1 + 0) at 1 by lia.
  replace (e - j - 1 + 0) with (e - j - 1) by lia.
  apply binary_round_aux_exact; [exact Hd|lia|lia].
Qed.

(** [float(z)] for [0 < |z| < 2^53]: the exact value, with a 53-bit
    mantissa. *)
Lemma of_int_canonical (z : Z) :
  z <> 0 -> Z.abs z < 2 ^ 53 ->
  exists m e,
    of_int z = Ok (S754_finite (z <? 0) m e) /\
    Zpos (digits2_pos m) = 53 /\ -52 <= e <= 0 /\
    Zpos m = Z.abs z * 2 ^ (- e).
Proof.
  intros Hz Hn.
  assert (Hgen : forall (s : bool) (p : positive),
             Zpos p < 2 ^ 53 ->
             exists m e,
               binary_round prec emax s p 0 = S754_finite s m e /\
               Zpos (digits2_pos m) = 53 /\ -52 <= e <= 0 /\
               Zpos m = Zpos p * 2 ^ (- e)).
  { intros s p Hp.
    pose proof (digits_le p 53 ltac:(lia) Hp) as Hd53.
    assert (Hd1 : 1 <= Zpos (digits2_pos p)) by lia.
    unfold binary_round, shl_align.
    assert (Hfexp : fexp prec emax (Zpos (digits2_pos p) + 0)
                    = Zpos (digits2_pos p) - 53).
    { unfold fexp, SpecFloat.emin, prec, emax. lia. }
    rewrite Hfexp.
    destruct (Zpos (digits2_pos p) - 53 - 0) as [|k|k] eqn:Ek; [| lia |].
    - exists p, 0. split; [|split; [lia|split; [lia|simpl; lia]]].
      pose proof (binary_round_aux_exact s p 0 0 ltac:(lia) ltac:(lia)
                    ltac:(lia)) as H.
      rewrite Z.pow_0_r, Z.mul_1_r in H. exact H.
    - destruct (iter_xO_spec p k) as [Hval Hdig].
      exists (Pos.iter xO p k), (Zpos (digits2_pos p) - 53).
      split; [|split; [lia|split; [lia|]]].
      + pose proof (binary_round_aux_exact s (Pos.iter xO p k)
                      (Zpos (digits2_pos p) - 53) 0
                      ltac:(lia) ltac:(lia) ltac:(lia)) as H.
        rewrite Z.pow_0_r, Z.mul_1_r, Z.sub_0_r in H. exact H.
      + rewrite Hval. f_equal. f_equal. lia. }
  unfold of_int, binary_normalize.
  destruct z as [|p|p]; [congruence| |].
  - destruct (Hgen false p ltac:(lia)) as (m & e & H & Hd & He & Hm).
    exists m, e. rewrite H. repeat split; try assumption; lia.
  - destruct (Hgen true p ltac:(lia)) as (m & e & H & Hd & He & Hm).
    exists m, e. rewrite H. repeat split; try assumption; lia.
Qed.

(** A float that holds an integer has that integer as its value. *)
Lemma to_Q_integer (s : bool) (m : positive) (e q : Z) :
  e <= 0 -> signed s m = q * 2 ^ (- e) ->
  exists r, to_Q (S754_finite s m e) = Some r /\ (r == inject_Z q)%Q.
Proof.
  intros He Hq. eexists. split; [reflexivity|]. unfold scaled.
  destruct (Z.leb_spec 0 e) as [H0|H0].
  - assert (e = 0) by lia. subst e. rewrite Hq.
    change (- 0) with 0. rewrite Z.pow_0_r, !Z.mul_1_r. reflexivity.
  - unfold Qeq, inject_Z. cbn [Qnum Qden].
    rewrite pos_of_pow2 by lia. lia.
Qed.

(** The integer nearest to an integer value. *)
Lemma nearest_integer (a q : Z) (r : Q) :
  (r == inject_Z q)%Q -> (Qabs (inject_Z a - r) <= 1 # 2)%Q -> a = q.
Proof.
  intros Hr Hnear. rewrite Hr in Hnear.
  unfold Qle, Qabs, Qminus, Qplus, Qopp, inject_Z in Hnear.
  cbn [Qnum Qden] in Hnear. lia.
Qed.

End ExactRounding.

(** Decoding then encoding gives the code back when the scale is a
    power of two.  For [bits >= 1], a code [q] in
    [[-2^(bits-1), 2^(bits-1) - 1]] with [|q| < 2^53] and
    [scale = 2^j] or [-2^j] with [-1022 <= j <= 971] (the default
    [scale = 1.0] is [j = 0]), [dequantize_value] returns a float [x] and
    [quantize_value(x, bits, scale) == q]. *)
Theorem dequantize_then_quantize
  (q bits : Z) (negative : bool) (j : Z) :
  1 <= bits ->
  - 2 ^ (bits - 1) <= q <= 2 ^ (bits - 1) - 1 ->
  Z.abs q < 2 ^ 53 ->
  -1022 <= j <= 971 ->
  let scale := Vocabulary.power_of_two negative j in
  exists x,
    Encoding.dequantize_value q bits scale = Ok x /\
    Encoding.quantize_value x bits scale = Ok q.
Proof.
  intros Hbits Hq Habs Hj scale.
  assert (Hscale : SFeqb scale PyFloat.zero = false)
    by (destruct negative; reflexivity).
  pose proof (pow2_pos (bits - 1) ltac:(lia)) as Hpow.
  assert (Hback : forall x r,
             PyFloat.to_Q (PyFloat.div x scale) = Some r ->
             (r == inject_Z q)%Q ->
             Encoding.quantize_value x bits scale = Ok q).
  { intros x r Hr Hrq.
    rewrite quantize_value_clamps by assumption.
    destruct (clamp_round (PyFloat.div x scale)
                (- 2 ^ (bits - 1)) (2 ^ (bits - 1) - 1)
                ltac:(lia) ltac:(lia)) as (a & Ha & _ & Hnear).
    rewrite Ha. f_equal. apply (nearest_integer a q r Hrq).
    apply Hnear; [exact Hr|]. rewrite Hrq.
    split; rewrite <- Zle_Qle; lia. }
  subst scale. unfold Encoding.dequantize_value.
  destruct (Z.ltb_spec bits 1); [lia|]. rewrite Hscale.
  destruct (Z.eq_dec q 0) as [-> | Hq0].
  - eexists. split; [reflexivity|].
    apply (Hback _ 0%Q); [destruct negative; reflexivity|reflexivity].
  - destruct (of_int_canonical q Hq0 Habs) as (m & e & Hof & Hd & He & Hm).
    rewrite Hof. cbn [Py.bind]. eexists. split; [reflexivity|].
    rewrite mul_power_of_two by (exact Hd || lia).
    destruct (to_Q_integer (q <? 0) m e q ltac:(lia)) as (r & Hr & Hrq).
    { unfold PyFloat.signed, cond_Zopp.
      destruct (Z.ltb_spec q 0); rewrite Hm; [|f_equal; lia].
      rewrite Z.abs_neq by lia. ring. }
    apply (Hback _ r); [|exact Hrq].
    rewrite div_power_of_two by (exact Hd || lia).
    replace (e + j - j) with e by lia.
    rewrite xorb_assoc, xorb_nilpotent, xorb_false_r. exact Hr.
Qed.

Lemma dequantize_then_quantize_witness :
  exists x,
    Encoding.dequantize_value (-128) 8 PyFloat.one = Ok x /\
    Encoding.quantize_value x 8 PyFloat.one = Ok (-128).
Proof.
  apply (dequantize_then_quantize (-128) 8 false 0); lia.
Defined.

(** ** Quantising, then packing *)

Section QuantizePack.

Import Encoding.

Variable scale : spec_float.
Hypothesis scale_non_zero : SFeqb scale PyFloat.zero = false.

(** Every code of [quantize_value] fits the width it was made for. *)
Lemma quantize_all (values : list spec_float) :
  forall bit_widths : list Z,
    length values = length bit_widths ->
    Forall (fun bw => 1 <= bw) bit_widths ->
    exists codes,
      map (fun vb => quantize_value (fst vb) (snd vb) scale)
        (combine values bit_widths)
      = map Ok codes /\
      Forall2 in_range bit_widths codes.
Proof.
  induction values as [|v values IH]; intros [|bw bws] Hlen Hbw;
    try discriminate.
  - exists []. split; constructor.
  - inversion Hbw as [|? ? Hbw1 Hbws]; subst.
    destruct (IH bws ltac:(cbn in Hlen; lia) Hbws) as (codes & Hcodes & Hrange).
    pose proof (pow2_pos (bw - 1) ltac:(lia)) as Hpow.
    destruct (clamp_round (PyFloat.div v scale)
                (- 2 ^ (bw - 1)) (2 ^ (bw - 1) - 1) ltac:(lia) ltac:(lia))
      as (q & Hq & Hqrange & _).
    exists (q :: codes). cbn [combine map fst snd]. split.
    + rewrite quantize_value_clamps by assumption.
      rewrite Hq, Hcodes. reflexivity.
    + constructor; [split; assumption|exact Hrange].
Qed.

End QuantizePack.

(** Quantised values survive packing.  Whatever the floats hold (NaN
    and infinities included), for widths between 1 and 64, a non-zero
    [scale] and [chunk_bits >= 1]: every [quantize_value(v[i], bw[i],
    scale)] returns a code, [pack_vector] packs the codes, and
    [unpack_vector] gives exactly the codes back. *)
Theorem quantize_pack_unpack
  (values : list spec_float) (bit_widths : list Z) (scale : spec_float)
  (chunk_bits : Z) :
  values <> [] ->
  length values = length bit_widths ->
  Forall (fun bw => 1 <= bw <= 64) bit_widths ->
  SFeqb scale PyFloat.zero = false ->
  1 <= chunk_bits ->
  exists codes chunks,
    map (fun vb => Encoding.quantize_value (fst vb) (snd vb) scale)
      (combine values bit_widths)
    = map Ok codes /\
    Encoding.pack_vector codes bit_widths chunk_bits = Ok chunks /\
    Encoding.unpack_vector chunks bit_widths chunk_bits (Py.len codes)
    = Ok codes.
Proof.
  intros Hne Hlen Hbw Hscale Hcb.
  assert (Hbw1 : Forall (fun bw => 1 <= bw) bit_widths)
    by (eapply Forall_impl; [|exact Hbw]; cbv beta; intros; lia).
  assert (Hbw64 : Forall (fun bw => bw <= 64) bit_widths)
    by (eapply Forall_impl; [|exact Hbw]; cbv beta; intros; lia).
  destruct (quantize_all scale Hscale values bit_widths Hlen Hbw1)
    as (codes & Hcodes & Hrange).
  assert (Hcne : codes <> []).
  { intros E. subst codes. inversion Hrange as [E|]; subst.
    destruct values; [contradiction|discriminate]. }
  destruct (pack_then_unpack codes bit_widths chunk_bits Hcne Hrange
              (in_range_int64 _ _ Hrange Hbw64) Hcb)
    as (chunks & Hpack & Hunpack).
  exists codes, chunks. repeat split; assumption.
Qed.

Lemma quantize_pack_unpack_witness :
  exists codes chunks,
    map (fun vb => Encoding.quantize_value (fst vb) (snd vb) PyFloat.one)
      (combine [S754_nan; S754_infinity true; PyFloat.one] [8; 4; 16])
    = map Ok codes /\
    Encoding.pack_vector codes [8; 4; 16] 8 = Ok chunks /\
    Encoding.unpack_vector chunks [8; 4; 16] 8 (Py.len codes) = Ok codes.
Proof.
  apply (quantize_pack_unpack
           [S754_nan; S754_infinity true; PyFloat.one] [8; 4; 16]
           PyFloat.one 8).
  - discriminate.
  - reflexivity.
  - repeat constructor; lia.
  - reflexivity.
  - lia.
Defined.

(** ** The error of one rounding, and the quantisation round trip *)

Section Located.

Import PyFloat Vocabulary.






End Located.

Section RoundingError.

Import PyFloat Vocabulary.








End RoundingError.


Section Scaled.

Import PyFloat Vocabulary.

Local Open Scope Q_scope.















End Scaled.

Section ProductError.

Import PyFloat Vocabulary.





End ProductError.

Section QuotientError.

Import PyFloat Vocabulary.





End QuotientError.

Section DequantizedValue.

Import PyFloat Vocabulary.


End DequantizedValue.



(** The round trip of [2.25] with [scale = 0.5]: the code is [4], the
    value recovered is [2.0], at distance [1/4] from [2.25]. *)
Example quantize_round_trip_2_25 :
  let value := S754_finite false 5066549580791808 (-51) in
  let scale := S754_finite false 4503599627370496 (-53) in
  let back := S754_finite false 4503599627370496 (-51) in
  Encoding.quantize_value value 8 scale = Ok 4 /\
  Encoding.dequantize_value 4 8 scale = Ok back /\
  option_map Qred (PyFloat.to_Q value) = Some (9 # 4) /\
  option_map Qred (PyFloat.to_Q scale) = Some (1 # 2) /\
  option_map Qred (PyFloat.to_Q back) = Some (2 # 1) /\
  option_map Qred (PyFloat.to_Q (PyFloat.div value scale)) = Some (9 # 2).
Proof. cbv zeta. repeat split; reflexivity. Qed.

(** The product can overflow: with [value = 1.5 * 2^1023] and
    [scale = 2^1023] the quotient [1.5] is in range and is quantised to
    [2], and [dequantize_value] returns [2.0 * 2^1023 = inf]. *)
Example quantize_round_trip_overflows :
  let value := S754_finite false 6755399441055744 971 in
  let scale := S754_finite false 4503599627370496 971 in
  PyFloat.div value scale = S754_finite false 6755399441055744 (-52) /\
  Encoding.quantize_value value 8 scale = Ok 2 /\
  Encoding.dequantize_value 2 8 scale = Ok (S754_infinity false).
Proof. cbv zeta. repeat split; reflexivity. Qed.
